(* ===== verification/_CoqProject ===== *)
-Q . S2P
Prelude.v
CInt.v
BpfKernel.v
PageTracker.v
PageLru.v
CFormat.v
PageUser.v
Bootstrap.v
Sockfilter.v
Packet.v
Tracecon.v
TaskIter.v
Profile.v
Float64.v
BenchStats.v
BenchReport.v
Process.v
Wp.v
Loaders.v
LoadersSpec.v
ProfileMain.v
BenchTime.v
BenchCache.v
BenchFiles.v
BenchWmhigh.v
BenchMemory.v
Probes.v
OwnProcess.v
PageSnapshot.v
PageSmp.v
PageSmpInv.v
PageSmpSeq.v
