(* ===== verification/Prelude.v ===== *)
(** * Verification of the BPF programs and loaders of this repository

    The repository is a collection of BPF programs with the user-space programs that load
    them (src/examples/c, and the BPF side of two Rust examples), built around a page tracker:
    kprobe.bpf.c records which pages registered processes access and ranks them by recency,
    kprobe.c writes the records to snapshot files, and four benchmarks create load.

    ** Files, and the code they model

    Shared:
    - [Prelude] (this file): the state monad [ST] with its rewriting tactic [st_step], and
      lemmas on lists that the components share.
    - [CInt], [CFormat]: C integers at their width, bytes and byte order, C strings, the
      conversions of printf, scanf, strtol and atoi that the sources use.
    - [BpfKernel]: the interface to the kernel.  Maps, ring buffer, perf buffer, stack and
      string helpers are type classes with their documented laws; programs are verified
      against the classes, and one executable instance of each discharges the laws.

    The page tracker:
    - [PageTracker]: the two handlers of kprobe.bpf.c over its three maps, one at a time.
    - [PageLru]: the handlers refine a list ordered by recency; what ranks and counter mean.
    - [PageUser]: kprobe.c's snapshot names, dump loop and PID thread.
    - [PageSnapshot]: handlers and dump composed, from accesses to the lines of a snapshot.
    - [PageSmp]: handlers and dump again, as programs of single memory accesses that any
      number of CPUs interleave; [PageSmpInv] has what holds of every interleaving and what
      overlap destroys, [PageSmpSeq] that runs without overlap are those of [PageTracker].

    Event programs, kernel side to printed text:
    - [Bootstrap]: bootstrap.bpf.c and bootstrap.c (handlers, printing, options).
    - [Sockfilter]: sockfilter.bpf.c and sockfilter.c (packet handler, printing).
    - [Packet]: tc.bpf.c and xdppass.bpf.c over packet memory.
    - [Tracecon]: tracecon.bpf.c, the four handlers that name TCP connections.
    - [TaskIter]: task_iter.bpf.c and the reading loop of task_iter.c.
    - [Profile]: profile.bpf.c and the printing functions of profile.c.
    - [Probes]: the BPF sides of minimal, minimal_ns, minimal_legacy, usdt, uprobe, ksyscall,
      fentry and lsm.

    User-space programs as processes:
    - [Process]: a monad of calls answered by an environment, with signals, resources, memory
      blocks and undefined behaviour.  [Wp]: its weakest preconditions, parametrised by a
      [scenario] (what the environment may answer, what must always hold), the resource
      lemmas, and [total], the programs that need no fuel.
    - [Loaders]: one Module per main (minimal, minimal_ns, minimal_legacy, usdt, uprobe,
      ksyscall, fentry, lsm, bootstrap, sockfilter, tc, task_iter, kprobe); [LoadersSpec]
      verifies them.  [ProfileMain]: main of profile.c and its proof.
    - [OwnProcess]: the mains of the tracing examples composed with their BPF programs.
    - [Float64]: binary64, with lemmas on rounding; [BenchStats]: the statistics of
      benchmark.c; [BenchReport]: what they are as numbers.
    - [BenchTime] (the clock, and the intervals between its readings), [BenchCache],
      [BenchFiles], [BenchWmhigh], [BenchMemory]: benchmark_cache.c, benchmark_file.c,
      benchmark_wmhigh.c and benchmark.c as processes.

    ** What the theorems show

    - Page tracker: the handlers keep the maps a representation of the LRU list a list program
      with the capacity of the page map computes from the same events
      ([PageLru.tracker_refines_lru]), ranks order pages by recency, the counter counts the
      accesses of registered processes modulo 2^64, and a snapshot has one line per page with
      its number of accesses since it was last freed, the lines up to a zero key excepted
      ([PageSnapshot]); snapshots are complete exactly without a zero key, PIDs are registered
      once and in order ([PageUser]).
    - Several CPUs: in every interleaving elements and counter keep values of their C types, no
      pointer is wild, a handler makes at most 16 accesses and a round of the dump 7
      ([PageSmpInv.tracker_type_safe]), and no page or PID is reported that was not part of an
      access ([PageSmpInv.snapshots_report_accesses]); every schedule without overlap does what
      the sequential handlers do ([PageSmpSeq.serial_runs_are_sequential]); with overlap counts,
      ranks, frees and even the owner of a page can be lost
      ([PageSmpInv.overlapping_handlers_lose_updates]).
    - Event pipelines: [Bootstrap], [Sockfilter], [Tracecon], [TaskIter], [Profile] show that
      what is printed says what happened, for any content of reserved or reused kernel memory,
      and state exactly where that fails.
    - Memory safety and bounds: [Packet], [Profile], [BenchStats], [Sockfilter.ltoa], and the
      arrays and blocks of [ProfileMain] and the benchmarks.
    - Processes: resource safety on every path, termination (of the loaders after a signal,
      of the benchmarks by themselves), for which calls the exit code 0 speaks and which
      failures are overlooked, and the paths that leak, read uninitialised variables or return
      a wrong code (tc keeps the hook it created; profile closes a second time every descriptor
      that bpf_link__destroy has closed); from attach on, the tracing examples report their own
      process only ([OwnProcess]).
    - Benchmarks: from the calls to the numbers printed.  The latencies are the intervals
      between clock readings; the sort is right below 2^31 ns; binary64 gives the statistics
      rounded down, except that the 99th percentile is one less in some cases where it is an
      integer, for latencies less than 67 ms apart
      ([BenchMemory.memory_benchmark_reports_latencies]).  [BenchFiles] removes every file by
      its name, but for those given up after a failure or that unlink did not remove.
    Theorems whose doc comment speaks of a failure come with an entry of the findings list.

    ** Conventions

    Integers are [Z] with explicit wrapping ([u32], [s32], ..); undefined behaviour is a value
    ([None], [Overflow], [OutOfBounds], [Undefined]).  Handlers are [ST] computations over
    a record of maps and buffers.  Uninitialised memory (locals, reserved samples) is an
    argument with arbitrary content.  Facts about the kernel, libc, qsort and the symbolizer
    are class laws or hypotheses; every theorem that has them has a witness on a concrete
    instance.  Loops that the code bounds are structural; the loops of [Loaders] and
    [ProfileMain] take a fuel, and [LoadersSpec.mains_end_on_signal] shows that n + 2 rounds
    are enough when a signal arrives at call n.  The dump loop of [PageUser] takes a fuel too,
    one more than the number of keys is enough; that of [PageSmp] has no bound: each of its rounds
    is a program, and a move of the configuration begins the next.

    ** Not modelled

    - The contents of the benchmarks' buffers and mappings (only which bytes are accessed),
      and SIGBUS on a mapping longer than its file; the decimal digits of the latencies
      printed in milliseconds; the statistics of latencies further than 67 ms apart, apart
      from their sums and indices; the average that benchmark_wmhigh.c prints.
    - [PageSmp] is sequentially consistent at the grain of one field; memory reordering is
      not modelled.  The other BPF programs are modelled one handler at a time.
    - The tables of argp options and the text of help messages; the vfprintf of libbpf's
      print callbacks.
    - The Rust user space, the Python and Lua scripts and the recorded results, the build
      files; libbpf, bpftool, blazesym and vmlinux.h, which are not in the repository. *)

From stdpp Require Export base gmap list strings pretty.
From Stdlib Require Export ZArith Lia Sorting.Sorted.

#[global] Open Scope Z_scope.

(** ** A state monad for code that threads mutable state *)

(** A computation over the mutable state [S] that returns an [A]. *)
Definition ST (S A : Type) : Type := S → A * S.

#[export] Instance ST_ret S : MRet (ST S) := λ A a s, (a, s).
#[export] Instance ST_bind S : MBind (ST S) :=
  λ A B (f : A → ST S B) (m : ST S A) (s : S), let '(a, s') := m s in f a s'.

(** The state the computation leaves, and the value it returns. *)
Definition exec {S A} (m : ST S A) (s : S) : S := snd (m s).
Definition eval {S A} (m : ST S A) (s : S) : A := fst (m s).

(** Read a component of the state / transform the state. *)
Definition gets {S A} (f : S → A) : ST S A := λ s, (f s, s).
Definition modify {S} (f : S → S) : ST S () := λ s, ((), f s).

Lemma bind_run {S A B} (m : ST S A) (f : A → ST S B) s :
  (m ≫= f) s = f (fst (m s)) (snd (m s)).
Proof. unfold mbind, ST_bind. by destruct (m s). Qed.

Lemma ret_run {S A} (a : A) (s : S) : (mret a : ST S A) s = (a, s).
Proof. done. Qed.

Lemma gets_run {S A} (f : S → A) (s : S) : gets f s = (f s, s).
Proof. done. Qed.

Lemma modify_run {S} (f : S → S) (s : S) : modify f s = ((), f s).
Proof. done. Qed.

Create Rewrite HintDb st.
#[export] Hint Rewrite @bind_run @ret_run @gets_run @modify_run : st.

(** Evaluate the monadic structure of the goal, keeping the operations. *)
Ltac st_step := repeat (autorewrite with st; cbn [fst snd]).

(** The newline of C string literals. *)
Definition nl : string := String (Ascii.ascii_of_nat 10) EmptyString.

(** ** Lists *)

(** The elements of a list after the first occurrence of [x]; all of the list
    when [x] does not occur. *)
Fixpoint after {A} `{EqDecision A} (x : A) (l : list A) : list A :=
  match l with
  | [] => []
  | y :: l' => if decide (x = y) then l' else after x l'
  end.

(** [take_until p l]: the longest prefix of [l] without an element satisfying [p]. *)
Fixpoint take_until {A} (p : A → bool) (l : list A) : list A :=
  match l with
  | [] => []
  | x :: l' => if p x then [] else x :: take_until p l'
  end.

Lemma after_subset {A} `{EqDecision A} (x y : A) (l : list A) : y ∈ after x l → y ∈ l.
Proof.
  induction l as [|z l IH]; [done|]. cbn. rewrite elem_of_cons. case_decide; [by right|].
  intros ?. right. by apply IH.
Qed.

Lemma after_app {A} `{EqDecision A} (x : A) (l1 l2 : list A) :
  x ∉ l1 → after x (l1 ++ x :: l2) = l2.
Proof.
  induction l1 as [|y l1 IH]; simpl; intros Hx; case_decide; subst; try done.
  - set_solver.
  - apply IH. set_solver.
Qed.

Lemma take_until_Forall {A} (p : A → bool) (l : list A) :
  Forall (λ x, p x = false) (take_until p l).
Proof.
  induction l as [|x l IH]; simpl; [constructor|].
  destruct (p x) eqn:E; by constructor.
Qed.

Lemma take_until_stop {A} (p : A → bool) (l1 l2 : list A) (x : A) :
  Forall (λ y, p y = false) l1 → p x = true →
  take_until p (l1 ++ x :: l2) = l1.
Proof.
  intros Hl Hx. induction Hl as [|y l1 Hy Hl IH]; simpl.
  - by rewrite Hx.
  - by rewrite Hy, IH.
Qed.

Lemma take_until_none {A} (p : A → bool) (l : list A) :
  Forall (λ y, p y = false) l → take_until p l = l.
Proof. induction 1 as [|y l Hy Hl IH]; simpl; [done|]. by rewrite Hy, IH. Qed.

(** A separator that occurs in neither prefix splits the list in one way. *)
Lemma app_sep_inj {A} (p : A → bool) (c : A) (l1 l2 r1 r2 : list A) :
  p c = true → Forall (λ x, p x = false) l1 → Forall (λ x, p x = false) l2 →
  l1 ++ c :: r1 = l2 ++ c :: r2 → l1 = l2 ∧ r1 = r2.
Proof.
  intros Hc H1 H2 E.
  assert (l1 = l2) as ->.
  { rewrite <- (take_until_stop p l1 r1 c), <- (take_until_stop p l2 r2 c) by done.
    by rewrite E. }
  by apply app_inv_head in E as [= ->].
Qed.

Lemma length_take_until {A} (p : A → bool) (l : list A) :
  (length (take_until p l) ≤ length l)%nat.
Proof. induction l as [|x l IH]; simpl; [lia|]. destruct (p x); simpl; lia. Qed.

Lemma app_self_nil {A} (l x : list A) : l = l ++ x → x = [].
Proof. intros E. apply (app_inv_head l). by rewrite app_nil_r. Qed.

Lemma StronglySorted_filter {A} (R : A → A → Prop) (P : A → Prop) `{∀ x, Decision (P x)} (l : list A) :
  StronglySorted R l → StronglySorted R (filter P l).
Proof.
  induction 1 as [|x l Hl IH Hx]; [constructor|].
  rewrite filter_cons. case_decide; [|done]. constructor; [done|].
  apply Forall_forall. intros y [_ Hy]%list_elem_of_filter. by eapply Forall_forall in Hx.
Qed.

(** Filtering two related lists by related predicates. *)
Lemma Forall2_filter {A B} (R : A → B → Prop) (P : A → Prop) (Q : B → Prop)
    `{∀ x, Decision (P x), ∀ y, Decision (Q y)} (l : list A) (k : list B) :
  (∀ x y, R x y → P x ↔ Q y) → Forall2 R l k → Forall2 R (filter P l) (filter Q k).
Proof.
  intros HPQ. induction 1 as [|x y l k Hxy Hlk IH]; [constructor|].
  rewrite !filter_cons. specialize (HPQ x y Hxy).
  repeat case_decide; try tauto; by constructor.
Qed.
