(* ===== verification/CInt.v ===== *)
(** * CInt: C integers at their width, bytes and byte order

    Fixed-width integers of the sources are [Z] values kept in range by explicit
    wrapping: [u8] .. [u64] wrap to unsigned, [s32] and [s64] to two's complement.
    Memory is a list of bytes ([Z] in 0..255).  The targets are little-endian
    (the BPF objects are built with clang -target bpf for the host byte order,
    x86-64 and arm64 in the build files), so the host accessors are little-endian
    and [ntohs], [ntohl] swap bytes. *)

From S2P Require Import Prelude.

(** ** Wrap-around *)

Definition wrapu (w z : Z) : Z := z mod 2 ^ w.
Definition wraps (w z : Z) : Z :=
  let x := z mod 2 ^ w in if x <? 2 ^ (w - 1) then x else x - 2 ^ w.

Definition u8 : Z → Z := wrapu 8.
Definition u16 : Z → Z := wrapu 16.
Definition u32 : Z → Z := wrapu 32.
Definition u64 : Z → Z := wrapu 64.
Definition s8 : Z → Z := wraps 8.
Definition s32 : Z → Z := wraps 32.
Definition s64 : Z → Z := wraps 64.

Definition INT_MIN : Z := - 2 ^ 31.
Definition INT_MAX : Z := 2 ^ 31 - 1.
Definition LLONG_MIN : Z := - 2 ^ 63.
Definition LLONG_MAX : Z := 2 ^ 63 - 1.

(** The value is representable, so the C operation that computed it did not overflow. *)
Definition in_s32 (z : Z) : Prop := INT_MIN ≤ z ≤ INT_MAX.
Definition in_s64 (z : Z) : Prop := LLONG_MIN ≤ z ≤ LLONG_MAX.
Definition in_u32 (z : Z) : Prop := 0 ≤ z < 2 ^ 32.
Definition in_u64 (z : Z) : Prop := 0 ≤ z < 2 ^ 64.
Definition is_byte (z : Z) : Prop := 0 ≤ z < 256.

#[export] Instance in_s32_dec z : Decision (in_s32 z).
Proof. unfold in_s32; apply _. Defined.
#[export] Instance in_s64_dec z : Decision (in_s64 z).
Proof. unfold in_s64; apply _. Defined.

Lemma wrapu_range w z : 0 ≤ w → 0 ≤ wrapu w z < 2 ^ w.
Proof. intros Hw. apply Z.mod_pos_bound. by apply Z.pow_pos_nonneg. Qed.

Lemma wrapu_small w z : 0 ≤ z < 2 ^ w → wrapu w z = z.
Proof. apply Z.mod_small. Qed.

Lemma u8_range z : 0 ≤ u8 z < 2 ^ 8.
Proof. by apply wrapu_range. Qed.
Lemma u16_range z : 0 ≤ u16 z < 2 ^ 16.
Proof. by apply wrapu_range. Qed.
Lemma u32_range z : 0 ≤ u32 z < 2 ^ 32.
Proof. by apply wrapu_range. Qed.
Lemma u64_range z : 0 ≤ u64 z < 2 ^ 64.
Proof. by apply wrapu_range. Qed.
Lemma u32_small z : in_u32 z → u32 z = z.
Proof. apply wrapu_small. Qed.
Lemma u64_small z : in_u64 z → u64 z = z.
Proof. apply wrapu_small. Qed.

Lemma wraps_small w z : 0 < w → - 2 ^ (w - 1) ≤ z < 2 ^ (w - 1) → wraps w z = z.
Proof.
  intros Hw Hz. unfold wraps.
  assert (2 ^ w = 2 * 2 ^ (w - 1)) as E.
  { rewrite <- Z.pow_succ_r by lia. f_equal; lia. }
  destruct (decide (0 ≤ z)).
  - rewrite Z.mod_small by lia. case_match eqn:C; lia.
  - assert (z mod 2 ^ w = z + 2 ^ w) as ->.
    { symmetry. apply Z.mod_unique_pos with (q := -1); lia. }
    case_match eqn:C; lia.
Qed.

Lemma wraps_range w z : 0 < w → - 2 ^ (w - 1) ≤ wraps w z < 2 ^ (w - 1).
Proof.
  intros Hw. unfold wraps.
  assert (2 ^ w = 2 * 2 ^ (w - 1)) as E.
  { rewrite <- Z.pow_succ_r by lia. f_equal; lia. }
  assert (0 < 2 ^ (w - 1)) by (apply Z.pow_pos_nonneg; lia).
  pose proof (Z.mod_pos_bound z (2 ^ w) ltac:(lia)).
  case_match eqn:C; lia.
Qed.

Lemma s32_small z : in_s32 z → s32 z = z.
Proof. intros Hz. unfold in_s32, INT_MIN, INT_MAX in Hz. apply wraps_small; lia. Qed.
Lemma s64_small z : in_s64 z → s64 z = z.
Proof. intros Hz. unfold in_s64, LLONG_MIN, LLONG_MAX in Hz. apply wraps_small; lia. Qed.
Lemma s32_range z : in_s32 (s32 z).
Proof. pose proof (wraps_range 32 z ltac:(lia)). unfold in_s32, INT_MIN, INT_MAX, s32. lia. Qed.
Lemma s64_range z : in_s64 (s64 z).
Proof. pose proof (wraps_range 64 z ltac:(lia)). unfold in_s64, LLONG_MIN, LLONG_MAX, s64. lia. Qed.

Lemma u64_add_l a b : u64 (u64 a + b) = u64 (a + b).
Proof. unfold u64, wrapu. by rewrite Z.add_mod_idemp_l. Qed.

(** Printing an unsigned 64-bit value as signed. *)
Lemma s64_u64 z : s64 (u64 z) = s64 z.
Proof. unfold s64, u64, wraps, wrapu. by rewrite Z.mod_mod. Qed.

(** [(u32)(s32)x = (u32)x]: a round trip through a signed 32-bit variable. *)
Lemma u32_s32 z : u32 (s32 z) = u32 z.
Proof.
  unfold u32, s32, wrapu, wraps. case_match.
  - by rewrite Z.mod_mod.
  - rewrite <- (Z.mod_add _ 1 (2 ^ 32)) by lia.
    replace (z mod 2 ^ 32 - 2 ^ 32 + 1 * 2 ^ 32) with (z mod 2 ^ 32) by lia.
    by rewrite Z.mod_mod.
Qed.

Lemma s32_inj_u32 a b : in_u32 a → in_u32 b → s32 a = s32 b → a = b.
Proof.
  intros Ha Hb E. rewrite <- (u32_small a Ha), <- (u32_small b Hb).
  by rewrite <- (u32_s32 a), <- (u32_s32 b), E.
Qed.

(** ** Bytes and byte order *)

(** The little-endian value of a list of bytes, and its bytes. *)
Fixpoint le_value (bs : list Z) : Z :=
  match bs with
  | [] => 0
  | b :: bs' => b + 256 * le_value bs'
  end.

Fixpoint le_bytes (n : nat) (z : Z) : list Z :=
  match n with
  | O => []
  | S n' => z mod 256 :: le_bytes n' (z / 256)
  end.

(** The big-endian (network order) value of a list of bytes. *)
Definition be_value (bs : list Z) : Z := le_value (reverse bs).
Definition be_bytes (n : nat) (z : Z) : list Z := reverse (le_bytes n z).

(** Byte swaps: [ntohs], [htons], [__bpf_ntohs] and [ntohl] on a little-endian host. *)
Definition ntohs (x : Z) : Z := be_value (le_bytes 2 x).
Definition ntohl (x : Z) : Z := be_value (le_bytes 4 x).

Lemma length_le_bytes n z : length (le_bytes n z) = n.
Proof. revert z. induction n as [|n IH]; intros z; simpl; [done|]. by rewrite IH. Qed.

Lemma le_bytes_range n z : Forall is_byte (le_bytes n z).
Proof.
  revert z. induction n as [|n IH]; intros z; simpl; constructor; [|done].
  unfold is_byte. pose proof (Z.mod_pos_bound z 256). lia.
Qed.

Lemma le_bytes_value bs : Forall is_byte bs → le_bytes (length bs) (le_value bs) = bs.
Proof.
  induction 1 as [|b bs Hb Hbs IH]; simpl; [done|]. unfold is_byte in Hb.
  rewrite (Z.mul_comm 256), Z.mod_add, Z.div_add by lia.
  rewrite Z.mod_small, Z.div_small by lia. by rewrite Z.add_0_l, IH.
Qed.

Lemma le_value_range bs : Forall is_byte bs → 0 ≤ le_value bs < 256 ^ Z.of_nat (length bs).
Proof.
  induction 1 as [|b bs Hb Hbs IH]; simpl length; [simpl; lia|].
  rewrite Nat2Z.inj_succ, Z.pow_succ_r by lia. simpl. unfold is_byte in Hb. lia.
Qed.

Lemma le_value_bytes n z : 0 ≤ z < 256 ^ Z.of_nat n → le_value (le_bytes n z) = z.
Proof.
  revert z. induction n as [|n IH]; intros z Hz; simpl; [simpl in Hz; lia|].
  rewrite Nat2Z.inj_succ, Z.pow_succ_r in Hz by lia.
  rewrite IH.
  - pose proof (Z.div_mod z 256). lia.
  - split; [apply Z.div_pos; lia|]. apply Z.div_lt_upper_bound; lia.
Qed.

Lemma le_value_app a b :
  le_value (a ++ b) = le_value a + 256 ^ Z.of_nat (length a) * le_value b.
Proof.
  induction a as [|x a IH]; cbn [app le_value length]; [lia|].
  rewrite IH, Nat2Z.inj_succ, Z.pow_succ_r by lia. lia.
Qed.

(** The two 16-bit halves of a 32-bit object. *)
Lemma le_value_low16 a b :
  Forall is_byte a → length a = 2%nat → u16 (le_value (a ++ b)) = le_value a.
Proof.
  intros Ha Hl. pose proof (le_value_range a Ha) as Hr. rewrite le_value_app, Hl in *.
  unfold u16, wrapu. change (256 ^ Z.of_nat 2) with (2 ^ 16) in *.
  rewrite Z.mul_comm, Z.mod_add by lia. by apply Z.mod_small.
Qed.

Lemma le_value_high16 a b :
  Forall is_byte a → Forall is_byte b → length a = 2%nat → length b = 2%nat →
  u16 (Z.shiftr (le_value (a ++ b)) 16) = le_value b.
Proof.
  intros Ha Hb Hla Hlb. pose proof (le_value_range a Ha) as Hra.
  pose proof (le_value_range b Hb) as Hrb. rewrite le_value_app, Hla, Hlb in *.
  change (256 ^ Z.of_nat 2) with (2 ^ 16) in *. rewrite Z.shiftr_div_pow2 by lia.
  rewrite Z.mul_comm, Z.div_add by lia. rewrite (Z.div_small (le_value a)) by lia.
  by apply wrapu_small.
Qed.

(** Swapping the host value of bytes received in network order gives their network value. *)
Lemma ntohs_le_value bs :
  Forall is_byte bs → length bs = 2%nat → ntohs (le_value bs) = be_value bs.
Proof. intros Hb Hl. unfold ntohs. rewrite <- Hl. by rewrite le_bytes_value. Qed.

Lemma ntohl_le_value bs :
  Forall is_byte bs → length bs = 4%nat → ntohl (le_value bs) = be_value bs.
Proof. intros Hb Hl. unfold ntohl. rewrite <- Hl. by rewrite le_bytes_value. Qed.

Lemma be_value_bytes n z : 0 ≤ z < 256 ^ Z.of_nat n → be_value (be_bytes n z) = z.
Proof. intros. unfold be_value, be_bytes. rewrite reverse_involutive. by apply le_value_bytes. Qed.

(** ** NUL-terminated strings in byte buffers *)

(** The C string a [%s] conversion prints from a buffer: the bytes before the first NUL. *)
Definition cstr (buf : list Z) : list Z := take_until (λ b, b =? 0) buf.

Lemma cstr_terminated (s rest : list Z) :
  Forall (λ b, b ≠ 0) s → cstr (s ++ 0 :: rest) = s.
Proof.
  intros Hs. unfold cstr. apply take_until_stop; [|done].
  eapply Forall_impl; [done|]. intros b Hb. by apply Z.eqb_neq.
Qed.
