(* ===== verification/BpfKernel.v ===== *)
(** * BpfKernel: what the BPF programs rely on from the kernel

    The kernel's map, ring-buffer and trace helpers are not part of the repository.
    They enter as type classes: [BpfMap], [RingBuf] are the operations, [BpfMapLaws],
    [BpfMapIter], [BpfArrayLaws], [RingBufLaws] the documented behaviour the programs
    rely on (bpf-helpers(7), bpf(2), Documentation/bpf/map_hash.rst,
    Documentation/bpf/ringbuf.rst).  The theorems about the programs are proved
    against the classes.  The section at the end gives one implementation of each
    class (a capacity-bounded finite map, a fixed array, a bounded queue) that
    discharges the laws; it shows that they can hold and is what the examples run. *)

From S2P Require Import Prelude CInt.

(** ** Error numbers, flags *)

Definition ENOENT : Z := 2.
Definition EINTR : Z := 4.
Definition E2BIG : Z := 7.
Definition EAGAIN : Z := 11.
Definition EEXIST : Z := 17.
Definition EINVAL : Z := 22.

(** ** Maps *)

(** [bpf_map_lookup_elem] returns NULL ([None]) or a pointer to the stored value;
    the option carries the value the pointer points at.  [bpf_map_store m k v] is an
    assignment through the pointer returned by a lookup of [k]: it changes the value
    in the map itself.  [bpf_map_update_elem] (with flags BPF_ANY) and
    [bpf_map_delete_elem] return the new map and the return code. *)
Class BpfMap (M K V : Type) := {
  bpf_map_lookup_elem : M → K → option V;
  bpf_map_store : M → K → V → M;
  bpf_map_update_elem : M → K → V → M * Z;
  bpf_map_delete_elem : M → K → M * Z;
}.

#[export] Hint Mode BpfMap + - - : typeclass_instances.

(** Two maps no lookup can tell apart. *)
Definition map_agree {M K V} `{!BpfMap M K V} (m1 m2 : M) : Prop :=
  ∀ k, bpf_map_lookup_elem m1 k = bpf_map_lookup_elem m2 k.

#[export] Instance map_agree_equivalence {M K V} `{!BpfMap M K V} :
  Equivalence (map_agree (M:=M)).
Proof.
  split.
  - by intros m k.
  - intros m1 m2 H k. by rewrite H.
  - intros m1 m2 m3 H1 H2 k. by rewrite H1.
Qed.

#[export] Instance lookup_proper {M K V} `{!BpfMap M K V} :
  Proper (map_agree ==> eq ==> eq) (bpf_map_lookup_elem (M:=M)).
Proof. intros m1 m2 H k ? <-. apply H. Qed.

Class BpfMapLaws (M K V : Type) `{!BpfMap M K V} : Prop := {
  (** an assignment through a pointer changes that value and no other *)
  store_lookup_eq : ∀ (m : M) (k : K) (v : V), is_Some (bpf_map_lookup_elem m k) →
    bpf_map_lookup_elem (bpf_map_store m k v) k = Some v;
  store_lookup_ne : ∀ (m : M) (k k' : K) (v : V), k ≠ k' →
    bpf_map_lookup_elem (bpf_map_store m k v) k' = bpf_map_lookup_elem m k';
  (** update: 0 and the value is stored, or a negative error and nothing changes *)
  update_lookup_eq : ∀ (m : M) (k : K) (v : V), snd (bpf_map_update_elem m k v) = 0 →
    bpf_map_lookup_elem (fst (bpf_map_update_elem m k v)) k = Some v;
  update_lookup_ne : ∀ (m : M) (k k' : K) (v : V), k ≠ k' →
    bpf_map_lookup_elem (fst (bpf_map_update_elem m k v)) k' = bpf_map_lookup_elem m k';
  update_error : ∀ (m : M) (k : K) (v : V), snd (bpf_map_update_elem m k v) ≠ 0 →
    map_agree (fst (bpf_map_update_elem m k v)) m;
  update_code : ∀ (m : M) (k : K) (v : V), snd (bpf_map_update_elem m k v) ≤ 0;
  (** delete: 0 and the entry is gone, or a negative error and nothing changes *)
  delete_lookup_eq : ∀ (m : M) (k : K), snd (bpf_map_delete_elem m k) = 0 →
    bpf_map_lookup_elem (fst (bpf_map_delete_elem m k)) k = None;
  delete_lookup_ne : ∀ (m : M) (k k' : K), k ≠ k' →
    bpf_map_lookup_elem (fst (bpf_map_delete_elem m k)) k' = bpf_map_lookup_elem m k';
  delete_error : ∀ (m : M) (k : K), snd (bpf_map_delete_elem m k) ≠ 0 →
    map_agree (fst (bpf_map_delete_elem m k)) m;
  delete_code : ∀ (m : M) (k : K), snd (bpf_map_delete_elem m k) ≤ 0;
}.

(** A key that is present can be overwritten and deleted: only a new key needs room. *)
Class BpfMapPresent (M K V : Type) `{!BpfMap M K V} : Prop := {
  update_present : ∀ (m : M) (k : K) (v : V), is_Some (bpf_map_lookup_elem m k) →
    snd (bpf_map_update_elem m k v) = 0;
  delete_present : ∀ (m : M) (k : K), is_Some (bpf_map_lookup_elem m k) →
    snd (bpf_map_delete_elem m k) = 0;
}.

(** A hash map has room for [max_entries] keys; an update is refused only without room. *)
Class BpfMapRoom (M K V : Type) `{!BpfMap M K V} := {
  max_entries : M → nat;
  entries : M → nat;
  update_room : ∀ (m : M) (k : K) (v : V), (entries m < max_entries m)%nat →
    snd (bpf_map_update_elem m k v) = 0;
}.

(** BPF_MAP_TYPE_HASH: a new key is taken exactly while the map has fewer than [capacity]
    keys.  [ks] are the keys of the map. *)
Class BpfHashMap (M K V : Type) `{!BpfMap M K V} := {
  capacity : M → nat;
  hash_update : ∀ (m : M) (k : K) (v : V) (ks : list K),
    NoDup ks → (∀ k', k' ∈ ks ↔ is_Some (bpf_map_lookup_elem m k')) →
    bpf_map_lookup_elem m k = None →
    (snd (bpf_map_update_elem m k v) = 0 ↔ (length ks < capacity m)%nat);
  capacity_store : ∀ (m : M) (k : K) (v : V), capacity (bpf_map_store m k v) = capacity m;
  capacity_update : ∀ (m : M) (k : K) (v : V),
    capacity (fst (bpf_map_update_elem m k v)) = capacity m;
  capacity_delete : ∀ (m : M) (k : K), capacity (fst (bpf_map_delete_elem m k)) = capacity m;
}.

(** BPF_MAP_TYPE_ARRAY: every index below [max_entries] has an element, always. *)
Class BpfArrayLaws (M V : Type) `{!BpfMap M Z V} (max_entries : M → Z) : Prop := {
  array_present : ∀ (m : M) (i : Z), 0 ≤ i < max_entries m → is_Some (bpf_map_lookup_elem m i);
  array_update : ∀ (m : M) (i : Z) (v : V), 0 ≤ i < max_entries m → snd (bpf_map_update_elem m i v) = 0;
}.

(** BPF_MAP_GET_NEXT_KEY on a map that does not change meanwhile: the keys have an
    order; an absent key is followed by the first one, the last one by none (-ENOENT). *)
Class BpfMapIter (M K V : Type) `{!BpfMap M K V} `{!EqDecision K} := {
  map_keys : M → list K;
  bpf_map_get_next_key : M → K → option K;
  map_keys_NoDup : ∀ m : M, NoDup (map_keys m);
  map_keys_lookup : ∀ (m : M) (k : K), k ∈ map_keys m ↔ is_Some (bpf_map_lookup_elem m k);
  get_next_key_spec : ∀ (m : M) (k : K), bpf_map_get_next_key m k =
    head (if decide (k ∈ map_keys m) then after k (map_keys m) else map_keys m);
}.

Section laws.
Context `{BpfMapLaws M K V} `{!EqDecision K}.

(** The two outcomes of an update, by its return code. *)
Lemma update_lookup (m : M) (k : K) (v : V) (k' : K) :
  bpf_map_lookup_elem (fst (bpf_map_update_elem m k v)) k' =
  if decide (k = k')
  then (if decide (snd (bpf_map_update_elem m k v) = 0) then Some v
        else bpf_map_lookup_elem m k')
  else bpf_map_lookup_elem m k'.
Proof.
  case_decide as E; [subst k'|by apply update_lookup_ne].
  case_decide; [by apply update_lookup_eq|by apply update_error].
Qed.

Lemma delete_lookup (m : M) (k k' : K) :
  bpf_map_lookup_elem (fst (bpf_map_delete_elem m k)) k' =
  if decide (k = k')
  then (if decide (snd (bpf_map_delete_elem m k) = 0) then None
        else bpf_map_lookup_elem m k')
  else bpf_map_lookup_elem m k'.
Proof.
  case_decide as E; [subst k'|by apply delete_lookup_ne].
  case_decide; [by apply delete_lookup_eq|by apply delete_error].
Qed.

Lemma store_lookup (m : M) (k : K) (v : V) (k' : K) :
  is_Some (bpf_map_lookup_elem m k) →
  bpf_map_lookup_elem (bpf_map_store m k v) k' =
  if decide (k = k') then Some v else bpf_map_lookup_elem m k'.
Proof.
  intros Hk. case_decide; [subst; by apply store_lookup_eq|by apply store_lookup_ne].
Qed.

(** Writing back the value a key already holds changes nothing, whatever the code. *)
Lemma update_same (m : M) (k : K) (v : V) :
  bpf_map_lookup_elem m k = Some v → map_agree (fst (bpf_map_update_elem m k v)) m.
Proof. intros Hk k'. rewrite update_lookup. repeat case_decide; by subst. Qed.
(** With room a new value is always stored; a deleted key is always gone. *)
Lemma update_lookup_room `{!BpfMapRoom M K V} (m : M) (k : K) (v : V) (k' : K) :
  (entries m < max_entries m)%nat →
  bpf_map_lookup_elem (fst (bpf_map_update_elem m k v)) k' =
  if decide (k = k') then Some v else bpf_map_lookup_elem m k'.
Proof.
  intros Hm. rewrite update_lookup. by rewrite (decide_True (P:=snd _ = 0)) by by apply update_room.
Qed.

Lemma delete_lookup_present `{!BpfMapPresent M K V} (m : M) (k k' : K) :
  bpf_map_lookup_elem (fst (bpf_map_delete_elem m k)) k' =
  if decide (k = k') then None else bpf_map_lookup_elem m k'.
Proof.
  rewrite delete_lookup. case_decide; [|done]. subst k'. case_decide as Hd; [done|].
  destruct (bpf_map_lookup_elem m k) eqn:E; [|done]. by destruct Hd; apply delete_present.
Qed.
End laws.

(** ** Ring buffer *)

(** [bpf_ringbuf_reserve] returns NULL or a sample whose memory is not initialised: the
    option carries its present content.  [bpf_ringbuf_submit] hands a reserved sample
    to the consumer.  [rb_samples] are the submitted samples in order. *)
Class RingBuf (B E : Type) := {
  bpf_ringbuf_reserve : B → option E * B;
  bpf_ringbuf_submit : E → B → B;
  rb_samples : B → list E;
}.

#[export] Hint Mode RingBuf + - : typeclass_instances.

Class RingBufLaws (B E : Type) `{!RingBuf B E} : Prop := {
  reserve_samples : ∀ b : B, rb_samples (snd (bpf_ringbuf_reserve b)) = rb_samples b;
  submit_samples : ∀ (e : E) (b : B), rb_samples (bpf_ringbuf_submit e b) = rb_samples b ++ [e];
}.

(** ** Strings *)

(** bpf_probe_read_str(dst, size, src): the new content of the [size]-byte buffer [dst].
    At most size - 1 bytes of the string at [src] are copied and a NUL is added; the rest
    of the buffer is not touched. *)
Class ProbeStr := {
  bpf_probe_read_str : list Z → list Z → list Z;
  probe_read_str_cstr : ∀ dst src, (0 < length dst)%nat →
    cstr (bpf_probe_read_str dst src) = take (length dst - 1) (cstr src);
  probe_read_str_length : ∀ dst src, length (bpf_probe_read_str dst src) = length dst;
}.

(** ** User memory *)

(** bpf_probe_read_user(dst, size, addr): the new content of [dst] (of length size), from a
    memory that maps an address to its byte or to nothing.  A read that faults clears the
    destination. *)
Class ProbeUser := {
  bpf_probe_read_user : (Z → option Z) → Z → list Z → list Z;
  probe_read_user_spec : ∀ mem addr dst,
    bpf_probe_read_user mem addr dst =
    default (replicate (length dst) 0) (mapM mem (seqZ addr (Z.of_nat (length dst))));
}.

(** ** Perf event array *)

(** bpf_perf_event_output hands a sample to user space, or drops it and returns a negative
    error.  [perf_samples] are the samples delivered, in order. *)
Class PerfOutput (B E : Type) := {
  bpf_perf_event_output : E → B → B * Z;
  perf_samples : B → list E;
}.

#[export] Hint Mode PerfOutput + - : typeclass_instances.

Class PerfOutputLaws (B E : Type) `{!PerfOutput B E} : Prop := {
  perf_output_samples : ∀ (e : E) (b : B),
    perf_samples (fst (bpf_perf_event_output e b)) =
    perf_samples b ++ (if decide (snd (bpf_perf_event_output e b) = 0) then [e] else []);
}.

(** ** Stacks *)

(** bpf_get_stack / bpf_get_task_stack with a buffer of [length buf] addresses: a negative
    error, or the number of bytes stored; a deeper stack is cut to the buffer.  The stack is
    the error the kernel has to report, or the list of addresses. *)
Class GetStack := {
  bpf_get_stack : (Z + list Z) → list Z → list Z * Z;
  get_stack_length : ∀ st buf, length (fst (bpf_get_stack st buf)) = length buf;
  get_stack_error : ∀ e buf, snd (bpf_get_stack (inl e) buf) = e;
  get_stack_size : ∀ frames buf,
    snd (bpf_get_stack (inr frames) buf) = 8 * Z.of_nat (length frames `min` length buf);
  get_stack_frames : ∀ frames buf,
    take (length frames `min` length buf) (fst (bpf_get_stack (inr frames) buf)) =
    take (length buf) frames;
}.

(** Errors are negative. *)
Definition stack_ok (st : Z + list Z) : Prop := match st with inl e => e < 0 ∧ in_s32 e | inr _ => True end.

(** ** Packets *)

(** bpf_skb_load_bytes(skb, off, to, len): the new content of the destination, whose present
    content is [dst] (of length len).  Only the successful case is specified. *)
Class SkbLoad := {
  bpf_skb_load_bytes : list Z → Z → list Z → list Z;
  skb_load_spec : ∀ data off dst,
    0 ≤ off → off + Z.of_nat (length dst) ≤ Z.of_nat (length data) →
    bpf_skb_load_bytes data off dst = take (length dst) (drop (Z.to_nat off) data);
  skb_load_length : ∀ data off dst, length (bpf_skb_load_bytes data off dst) = length dst;
}.

(** ** The trace pipe: what [bpf_printk] wrote *)

Inductive parg :=
  | PInt (z : Z)
  | PStr (bytes : list Z).

Record trace_line := Printk { pk_fmt : string; pk_args : list parg }.

(** ** Implementations *)

(** A hash map with at most [hm_max] entries. *)
Record hmap (K V : Type) `{Countable K} :=
  HMap { hm_data : gmap K V; hm_max : nat }.
Arguments HMap {_ _ _ _} _ _.
Arguments hm_data {_ _ _ _} _.
Arguments hm_max {_ _ _ _} _.

Section hmap.
Context `{Countable K} {V : Type}.

#[export] Instance hmap_ops : BpfMap (hmap K V) K V := {
  bpf_map_lookup_elem m k := hm_data m !! k;
  bpf_map_store m k v :=
    match hm_data m !! k with
    | Some _ => HMap (<[k:=v]> (hm_data m)) (hm_max m)
    | None => m
    end;
  bpf_map_update_elem m k v :=
    match hm_data m !! k with
    | Some _ => (HMap (<[k:=v]> (hm_data m)) (hm_max m), 0)
    | None => if decide (size (hm_data m) < hm_max m)%nat
              then (HMap (<[k:=v]> (hm_data m)) (hm_max m), 0)
              else (m, - E2BIG)
    end;
  bpf_map_delete_elem m k :=
    match hm_data m !! k with
    | Some _ => (HMap (delete k (hm_data m)) (hm_max m), 0)
    | None => (m, - ENOENT)
    end;
}.

#[export] Instance hmap_laws : BpfMapLaws (hmap K V) K V.
Proof.
  split; cbn; intros.
  - destruct (hm_data m !! k) eqn:E; cbn; [|by destruct H0].
    by rewrite lookup_insert_eq.
  - destruct (hm_data m !! k) eqn:E; cbn; [|done]. by rewrite lookup_insert_ne.
  - destruct (hm_data m !! k) eqn:E; cbn in *; [by rewrite lookup_insert_eq|].
    case_decide; cbn in *; [by rewrite lookup_insert_eq|done].
  - destruct (hm_data m !! k) eqn:E; cbn; [by rewrite lookup_insert_ne|].
    case_decide; cbn; [by rewrite lookup_insert_ne|done].
  - destruct (hm_data m !! k) eqn:E; cbn in *; [done|]. by case_decide.
  - destruct (hm_data m !! k) eqn:E; cbn; [done|]. by case_decide.
  - destruct (hm_data m !! k) eqn:E; cbn in *; [by rewrite lookup_delete_eq|done].
  - destruct (hm_data m !! k) eqn:E; cbn; [by rewrite lookup_delete_ne|done].
  - by destruct (hm_data m !! k) eqn:E; cbn in *.
  - by destruct (hm_data m !! k) eqn:E; cbn.
Qed.

#[export] Instance hmap_present : BpfMapPresent (hmap K V) K V.
Proof. split; cbn; intros m k; [intros v|]; intros [x E]; by rewrite E. Qed.

#[export] Program Instance hmap_room : BpfMapRoom (hmap K V) K V := {
  max_entries := hm_max;
  entries m := size (hm_data m);
}.
Next Obligation. intros m k v Hroom. cbn. destruct (hm_data m !! k); [done|]. by case_decide. Qed.

(** The keys of a finite map, in any order, are as many as its size. *)
Lemma size_keys (m : gmap K V) (ks : list K) :
  NoDup ks → (∀ k, k ∈ ks ↔ is_Some (m !! k)) → length ks = size m.
Proof.
  intros Hnd Hks. rewrite <- size_dom, <- (size_list_to_set (C:=gset K) ks) by done.
  f_equal. apply set_eq. intros k. by rewrite elem_of_list_to_set, elem_of_dom, Hks.
Qed.

#[export] Program Instance hmap_hash : BpfHashMap (hmap K V) K V := { capacity := hm_max }.
Next Obligation.
  intros m k v ks Hnd Hks Hk. cbn in *. rewrite Hk, (size_keys _ _ Hnd Hks).
  by case_decide.
Qed.
Next Obligation. intros m k v. cbn. by destruct (hm_data m !! k). Qed.
Next Obligation. intros m k v. cbn. destruct (hm_data m !! k); [done|]. by case_decide. Qed.
Next Obligation. intros m k. cbn. by destruct (hm_data m !! k). Qed.

#[export] Program Instance hmap_iter : BpfMapIter (hmap K V) K V := {
  map_keys m := fst <$> map_to_list (hm_data m);
  bpf_map_get_next_key m k :=
    let ks := fst <$> map_to_list (hm_data m) in
    head (if decide (k ∈ ks) then after k ks else ks);
}.
Next Obligation. intros m. apply NoDup_fst_map_to_list. Qed.
Next Obligation.
  intros m k. cbn. rewrite list_elem_of_fmap. split.
  - intros ([k' v] & -> & Hin). apply elem_of_map_to_list in Hin. by exists v.
  - intros [v Hv]. exists (k, v). by rewrite elem_of_map_to_list.
Qed.
Next Obligation. done. Qed.

(** An update of a present key, or of any key while there is room, succeeds. *)
Lemma hmap_update_room (m : hmap K V) k v :
  is_Some (hm_data m !! k) ∨ (size (hm_data m) < hm_max m)%nat →
  snd (bpf_map_update_elem m k v) = 0.
Proof. cbn. intros [[? ->]|Hroom]; [done|]. destruct (hm_data m !! k); [done|]. by case_decide. Qed.
End hmap.

(** A BPF array: a list indexed by a 32-bit integer. *)
Record amap (V : Type) := AMap { am_data : list V }.
Arguments AMap {_} _.
Arguments am_data {_} _.
Definition am_max {V} (m : amap V) : Z := Z.of_nat (length (am_data m)).

Section amap.
Context {V : Type}.

Definition am_get (m : amap V) (i : Z) : option V :=
  if decide (0 ≤ i) then am_data m !! Z.to_nat i else None.
Definition am_set (m : amap V) (i : Z) (v : V) : amap V :=
  if decide (0 ≤ i) then AMap (<[Z.to_nat i := v]> (am_data m)) else m.

#[export] Instance amap_ops : BpfMap (amap V) Z V := {
  bpf_map_lookup_elem := am_get;
  bpf_map_store := am_set;
  bpf_map_update_elem m i v :=
    if decide (0 ≤ i < am_max m) then (am_set m i v, 0) else (m, - E2BIG);
  bpf_map_delete_elem m i := (m, - EINVAL);
}.

Lemma am_get_set m i v : is_Some (am_get m i) → am_get (am_set m i v) i = Some v.
Proof.
  unfold am_get, am_set. case_decide; [|by intros [??]]. intros [x Hx]. cbn.
  apply list_lookup_insert_eq. by eapply lookup_lt_Some.
Qed.

Lemma am_get_set_ne m i j v : i ≠ j → am_get (am_set m i v) j = am_get m j.
Proof.
  intros Hij. unfold am_get, am_set. repeat case_decide; cbn; try done.
  apply list_lookup_insert_ne. lia.
Qed.

Lemma am_get_range m i : 0 ≤ i < am_max m → is_Some (am_get m i).
Proof.
  unfold am_get, am_max. intros Hi. rewrite decide_True by lia. apply lookup_lt_is_Some. lia.
Qed.

#[export] Instance amap_laws : BpfMapLaws (amap V) Z V.
Proof.
  split; cbn; intros; try done.
  - by apply am_get_set.
  - by apply am_get_set_ne.
  - case_decide; cbn in *; [|done]. by apply am_get_set, am_get_range.
  - case_decide; cbn; [by apply am_get_set_ne|done].
  - by case_decide.
  - case_decide; cbn; done.
Qed.

#[export] Instance amap_array : BpfArrayLaws (amap V) V am_max.
Proof. split; [apply am_get_range|]. intros. cbn. by rewrite decide_True. Qed.
End amap.

(** A ring buffer with room for [rq_room] more samples, whose memory holds [rq_stale]. *)
Record rqueue (E : Type) := RQueue { rq_samples : list E; rq_room : nat; rq_stale : E }.
Arguments RQueue {_} _ _ _.
Arguments rq_samples {_} _.
Arguments rq_room {_} _.
Arguments rq_stale {_} _.

#[export] Instance rqueue_ops {E} : RingBuf (rqueue E) E := {
  bpf_ringbuf_reserve b :=
    match rq_room b with
    | O => (None, b)
    | S n => (Some (rq_stale b), RQueue (rq_samples b) n (rq_stale b))
    end;
  bpf_ringbuf_submit e b := RQueue (rq_samples b ++ [e]) (rq_room b) (rq_stale b);
  rb_samples := rq_samples;
}.

#[export] Instance rqueue_laws {E} : RingBufLaws (rqueue E) E.
Proof. split; [|done]. intros b. cbn. by destruct (rq_room b). Qed.

Lemma cstr_no_nul s : Forall (λ b, b ≠ 0) (cstr s).
Proof.
  eapply Forall_impl; [apply take_until_Forall|]. cbn. intros b Hb. by apply Z.eqb_neq.
Qed.

#[export] Program Instance probe_str_impl : ProbeStr := {
  bpf_probe_read_str dst src :=
    let s := take (length dst - 1) (cstr src) in
    take (length dst) (s ++ 0 :: drop (S (length s)) dst);
}.
Next Obligation.
  intros dst src Hd. cbn. rewrite firstn_app, firstn_all2 by (rewrite length_take; lia).
  set (s := take (length dst - 1) (cstr src)).
  assert (length s < length dst)%nat as Hl by (unfold s; rewrite length_take; lia).
  destruct (length dst - length s)%nat as [|n] eqn:E; [lia|]. cbn.
  apply cstr_terminated. apply Forall_take, cstr_no_nul.
Qed.
Next Obligation.
  intros dst src. cbn. rewrite length_take, length_app. cbn. rewrite length_drop, length_take. lia.
Qed.

#[export] Program Instance probe_user_impl : ProbeUser := {
  bpf_probe_read_user mem addr dst :=
    default (replicate (length dst) 0) (mapM mem (seqZ addr (Z.of_nat (length dst))));
}.
Next Obligation. done. Qed.

(** A per-CPU buffer with room for [pb_room] more samples. *)
Record pbuf (E : Type) := PBuf { pb_samples : list E; pb_room : nat }.
Arguments PBuf {_} _ _.
Arguments pb_samples {_} _.
Arguments pb_room {_} _.

#[export] Instance pbuf_ops {E} : PerfOutput (pbuf E) E := {
  bpf_perf_event_output e b :=
    match pb_room b with
    | O => (b, - ENOENT)
    | S n => (PBuf (pb_samples b ++ [e]) n, 0)
    end;
  perf_samples := pb_samples;
}.

#[export] Instance pbuf_laws {E} : PerfOutputLaws (pbuf E) E.
Proof. split. intros e b. cbn. destruct (pb_room b); cbn; [by rewrite app_nil_r|done]. Qed.

#[export] Program Instance get_stack_impl : GetStack := {
  bpf_get_stack st buf :=
    match st with
    | inl e => (buf, e)
    | inr frames => let n := (length frames `min` length buf)%nat in
                    (take n frames ++ drop n buf, 8 * Z.of_nat n)
    end;
}.
Next Obligation. intros [e|fr] buf; cbn; [done|]. rewrite length_app, length_take, length_drop. lia. Qed.
Next Obligation. done. Qed.
Next Obligation. done. Qed.
Next Obligation.
  intros fr buf. cbn. rewrite take_app_length' by (rewrite length_take; lia).
  destruct (Nat.min_spec (length fr) (length buf)) as [[? ->]|[? ->]]; [|done].
  by rewrite !firstn_all2 by lia.
Qed.

(** An out-of-range load clears the destination, as the kernel does. *)
#[export] Program Instance skb_load_impl : SkbLoad := {
  bpf_skb_load_bytes data off dst :=
    if decide (0 ≤ off ∧ off + Z.of_nat (length dst) ≤ Z.of_nat (length data))
    then take (length dst) (drop (Z.to_nat off) data)
    else replicate (length dst) 0;
}.
Next Obligation. intros. cbn. case_decide as Hin; [done|]. by destruct Hin. Qed.
Next Obligation.
  intros. cbn. case_decide; [|apply length_replicate].
  rewrite length_take, length_drop. lia.
Qed.
