(* ===== verification/PageLru.v ===== *)
(** * PageLru: the page tracker implements an LRU list

    The specification of the tracker of [PageTracker]: a list of page records, the most
    recently accessed first, and the steps the two kernel events make on it.  The
    simulation [tracks] relates a state of the maps to such a list; the theorems are the
    refinement, the exact value of the access counter and the meaning of the stamps. *)

From S2P Require Import Prelude CInt BpfKernel PageTracker.

(** ** The specification *)

Record page_rec := PageRec { pr_key : page_key; pr_refs : Z; pr_pages : Z; pr_pid : Z }.

(** Most recently accessed first. *)
Definition keys_of (l : list page_rec) : list page_key := pr_key <$> l.
Definition forget (k : page_key) (l : list page_rec) : list page_rec :=
  filter (λ r, pr_key r ≠ k) l.
Fixpoint refs_of (k : page_key) (l : list page_rec) : Z :=
  match l with
  | [] => 0
  | r :: l' => if decide (pr_key r = k) then pr_refs r else refs_of k l'
  end.
Definition touch (k : page_key) (nr pid : Z) (l : list page_rec) : list page_rec :=
  PageRec k (refs_of k l + 1) nr pid :: forget k l.

(** The specification: a list of at most [cap] pages.  An access by a registered process
    moves its page to the front, or enters it there if there is a place; a freed page leaves
    the list; nothing else changes it. *)
Definition lru_step (cap : nat) (is_tracked : Z → bool) (l : list page_rec) (ev : kevent)
    : list page_rec :=
  match ev with
  | Accessed cur f =>
      if is_tracked (pid_of cur) &&
         bool_decide (key_of f ∈ keys_of l ∨ (length l < cap)%nat)
      then touch (key_of f) (f_nr_pages f) (pid_of cur) l
      else l
  | Freed _ tm f => forget (free_key tm f) l
  end.
Definition lru_run (cap : nat) (is_tracked : Z → bool) (evs : list kevent) (l : list page_rec) :=
  foldl (lru_step cap is_tracked) l evs.

(** ** The simulation *)

Definition matches (km : page_key * metric) (r : page_rec) : Prop :=
  km.1 = pr_key r ∧ ref_count km.2 = u64 (pr_refs r) ∧
  page_count km.2 = pr_pages r ∧ m_pid km.2 = pr_pid r.

Definition fresher (a b : page_key * metric) : Prop := rank b.2 < rank a.2.
Definition drop_key (k : page_key) (ml : list (page_key * metric)) :=
  filter (λ a, a.1 ≠ k) ml.

Section lists.
Implicit Types (ml : list (page_key * metric)) (l : list page_rec) (k : page_key).

Lemma matches_drop k ml l :
  Forall2 matches ml l → Forall2 matches (drop_key k ml) (forget k l).
Proof. apply Forall2_filter. intros a r (-> & _). done. Qed.

Lemma matches_keys ml l : Forall2 matches ml l → ml.*1 = keys_of l.
Proof. induction 1 as [|a r ml l (Ha & _) _ IH]; [done|]. cbn. by rewrite Ha, IH. Qed.

Lemma drop_key_absent k ml : k ∉ (drop_key k ml).*1.
Proof. intros ([k' m] & -> & [Hk _]%list_elem_of_filter)%list_elem_of_fmap. by apply Hk. Qed.

Lemma NoDup_drop k ml : NoDup ml.*1 → NoDup (drop_key k ml).*1.
Proof.
  unfold drop_key. induction ml as [|a ml IH]; [done|]. rewrite fmap_cons, NoDup_cons.
  intros [Ha Hml]. rewrite filter_cons. case_decide; [|by apply IH]. rewrite fmap_cons.
  rewrite NoDup_cons. split; [|by apply IH]. contradict Ha.
  apply list_elem_of_fmap in Ha as (b & E & [_ Hb]%list_elem_of_filter).
  rewrite E. by apply list_elem_of_fmap_2.
Qed.

Lemma refs_of_absent k l : k ∉ keys_of l → refs_of k l = 0.
Proof.
  induction l as [|r l IH]; [done|]. cbn. rewrite not_elem_of_cons. intros [Hr Hl].
  rewrite decide_False by done. by apply IH.
Qed.

Lemma refs_of_present k m ml l :
  Forall2 matches ml l → NoDup ml.*1 → (k, m) ∈ ml → ref_count m = u64 (refs_of k l).
Proof.
  induction 1 as [|a r ml l (Ha & Hrefs & _) Hml IH]; cbn; [by intros _ ?%not_elem_of_nil|].
  rewrite NoDup_cons, elem_of_cons. intros [Hna Hnd] [<-|Hin]; cbn in *.
  - by rewrite decide_True.
  - rewrite decide_False; [by apply IH|]. intros E. apply Hna. rewrite Ha, E.
    by apply (list_elem_of_fmap_2 fst _ _ Hin).
Qed.

Lemma NoDup_key_functional k m1 m2 ml :
  NoDup ml.*1 → (k, m1) ∈ ml → (k, m2) ∈ ml → m1 = m2.
Proof.
  induction ml as [|[k' m'] ml IH]; cbn; [by intros _ ?%not_elem_of_nil|].
  rewrite NoDup_cons, !elem_of_cons. intros [Hna Hnd] [?|H1] [?|H2]; simplify_eq.
  - done.
  - destruct Hna. by apply (list_elem_of_fmap_2 fst _ _ H2).
  - destruct Hna. by apply (list_elem_of_fmap_2 fst _ _ H1).
  - by apply IH.
Qed.
End lists.

Section refinement.
Context {PM GM CM : Type}.
Context `{!BpfMap PM Z Z, !BpfMap GM page_key metric, !BpfMap CM Z Z}.
Context `{!BpfMapLaws GM page_key metric, !BpfMapLaws CM Z Z}.
Context `{!BpfMapPresent GM page_key metric, !BpfHashMap GM page_key metric}.
Implicit Types (s : kstate PM GM CM) (l : list page_rec) (ml : list (page_key * metric)).

(** [ml] is the content of the page map in recency order, [c] the access counter. *)
Record content s ml (c : Z) : Prop := {
  co_count : count_at s = Some c;
  co_range : in_u64 c;
  co_nodup : NoDup ml.*1;
  co_pages : ∀ k m, page_at s k = Some m ↔ (k, m) ∈ ml;
  co_order : StronglySorted fresher ml;
  co_bound : Forall (λ a, rank a.2 ≤ c) ml;
}.

Definition tracks s l (c : Z) : Prop :=
  ∃ ml, content s ml c ∧ Forall2 matches ml l.

Lemma content_absent s ml c k : content s ml c → page_at s k = None ↔ k ∉ ml.*1.
Proof.
  intros Hs. rewrite eq_None_not_Some. apply not_iff_compat. split.
  - intros [m Hm]. apply (co_pages _ _ _ Hs) in Hm. by apply (list_elem_of_fmap_2 fst _ _ Hm).
  - intros ([k' m] & -> & Hm)%list_elem_of_fmap. exists m. by apply (co_pages _ _ _ Hs).
Qed.

(** Recording a page with the next stamp moves it to the front. *)
Lemma content_front s s' ml c k m :
  content s ml c → c + 1 < 2 ^ 64 → rank m = c + 1 →
  count_at s' = Some (c + 1) →
  (∀ k', page_at s' k' = if decide (k = k') then Some m else page_at s k') →
  content s' ((k, m) :: drop_key k ml) (c + 1).
Proof.
  intros Hs Hc Hm Hc' Hp. pose proof (co_bound _ _ _ Hs) as Hb. rewrite Forall_forall in Hb.
  split; try done.
  - destruct (co_range _ _ _ Hs). unfold in_u64. lia.
  - cbn. apply NoDup_cons. split; [apply drop_key_absent|apply NoDup_drop, Hs].
  - intros k' m'. rewrite Hp, elem_of_cons. unfold drop_key. rewrite list_elem_of_filter. cbn.
    case_decide as E; [subst k'|].
    + split; [intros [= ->]; by left|]. intros [[= ->]|[? _]]; done.
    + rewrite (co_pages _ _ _ Hs). split; [intros; right; by split|].
      intros [[= ? ?]|[? ?]]; done.
  - constructor; [apply StronglySorted_filter, Hs|].
    apply Forall_forall. intros a [_ Ha]%list_elem_of_filter. unfold fresher. cbn.
    specialize (Hb a Ha). cbn in Hb. lia.
  - constructor; [cbn; lia|]. apply Forall_forall.
    intros a [_ Ha]%list_elem_of_filter. specialize (Hb a Ha). cbn in Hb. lia.
Qed.

(** Removing a page keeps the order of the others. *)
Lemma content_drop s s' ml c k :
  content s ml c → count_at s' = Some c →
  (∀ k', page_at s' k' = if decide (k = k') then None else page_at s k') →
  content s' (drop_key k ml) c.
Proof.
  intros Hs Hc' Hp. split; try done.
  - apply Hs.
  - apply NoDup_drop, Hs.
  - intros k' m'. rewrite Hp. unfold drop_key. rewrite list_elem_of_filter. cbn.
    case_decide as E; [subst k'|].
    + split; [done|]. by intros [? _].
    + rewrite (co_pages _ _ _ Hs). split; [intros; by split|by intros [_ ?]].
  - apply StronglySorted_filter, Hs.
  - apply Forall_forall. intros a [_ Ha]%list_elem_of_filter.
    by apply (proj1 (Forall_forall _ _) (co_bound _ _ _ Hs)).
Qed.

Lemma content_same s s' ml c c' :
  content s ml c → c ≤ c' < 2 ^ 64 → count_at s' = Some c' →
  (∀ k, page_at s' k = page_at s k) → content s' ml c'.
Proof.
  intros Hs Hc Hc' Hp. split; try apply Hs; try done.
  - destruct (co_range _ _ _ Hs). split; lia.
  - intros k m. rewrite Hp. apply Hs.
  - eapply Forall_impl; [apply Hs|]. cbn. lia.
Qed.

(** What an access does to the counter and the pid map, whatever the page. *)
Lemma access_count s cur f c :
  tracked s (pid_of cur) = true → count_at s = Some c →
  let s' := exec (folio_mark_accessed cur f) s in
  count_at s' = Some (u64 (c + 1)) ∧ pid_map s' = pid_map s.
Proof.
  intros Htr Hc. destruct (page_at s (key_of f)) as [m|] eqn:Hk; cbn.
  - destruct (mark_hit s cur f m (key_of f) Htr Hk) as (_ & -> & -> & _). by rewrite Hc.
  - destruct (mark_miss s cur f (key_of f) Htr Hk) as (_ & -> & -> & _). by rewrite Hc.
Qed.

(** The pages after an access: the touched one with the new stamp, if it is recorded,
    and the others as they were. *)
Lemma access_page s cur f c k m :
  tracked s (pid_of cur) = true → count_at s = Some c →
  page_at (exec (folio_mark_accessed cur f) s) k = Some m →
  (k = key_of f ∧ rank m = u64 (c + 1)) ∨ (k ≠ key_of f ∧ page_at s k = Some m).
Proof.
  intros Htr Hc Hm. destruct (page_at s (key_of f)) as [m0|] eqn:Hk.
  - destruct (mark_hit s cur f m0 k Htr Hk) as (Hp & _). rewrite Hm, Hc in Hp.
    case_decide; simplify_eq/=; [by left|by right].
  - destruct (mark_miss s cur f k Htr Hk) as (Hp & _). rewrite Hm, Hc in Hp.
    repeat case_decide; simplify_eq/=; [by left|by right].
Qed.

Lemma access_hit_simulated s ml l c cur f m :
  content s ml c → Forall2 matches ml l → c + 1 < 2 ^ 64 →
  tracked s (pid_of cur) = true → page_at s (key_of f) = Some m →
  tracks (exec (folio_mark_accessed cur f) s)
    (touch (key_of f) (f_nr_pages f) (pid_of cur) l) (c + 1).
Proof.
  intros Hs Hml Hc Htr Hk. pose proof (co_count _ _ _ Hs) as Hcount.
  pose proof (co_range _ _ _ Hs) as Hr. unfold in_u64 in Hr.
  assert (u64 (c + 1) = c + 1) as Hu by (apply u64_small; unfold in_u64; lia).
  destruct (access_count s cur f c Htr Hcount) as [Hc' _]. rewrite Hu in Hc'.
  exists ((key_of f, bump_metric (pid_of cur) (f_nr_pages f) (Some c) m)
            :: drop_key (key_of f) ml). split.
  - apply content_front with s; try done. intros k.
    destruct (mark_hit s cur f m k Htr Hk) as (Hp & _). by rewrite <- Hcount.
  - constructor; [|by apply matches_drop]. split; [done|]. cbn. split; [|done].
    rewrite (refs_of_present _ _ _ _ Hml (co_nodup _ _ _ Hs)
               (proj1 (co_pages _ _ _ Hs _ _) Hk)).
    by rewrite u64_add_l.
Qed.

(** The keys of the list are those of the map: a new page is refused when there are as many
    as the map can hold. *)
Lemma miss_refused s ml l c cur f :
  content s ml c → Forall2 matches ml l → page_at s (key_of f) = None →
  (miss_code s cur f = 0 ↔ (length l < capacity (page_access_map s))%nat) ∧
  key_of f ∉ keys_of l.
Proof.
  intros Hs Hml Hk. rewrite <- (matches_keys _ _ Hml). split.
  - unfold miss_code. rewrite (hash_update _ _ _ ml.*1).
    + by rewrite length_fmap, (Forall2_length _ _ _ Hml).
    + apply Hs.
    + intros k. rewrite list_elem_of_fmap. unfold page_at in *. split.
      * intros ([k' m] & -> & Hin). exists m. by apply (co_pages _ _ _ Hs).
      * intros [m Hm]. exists (k, m). split; [done|]. by apply (co_pages _ _ _ Hs).
    + done.
  - by apply (content_absent _ _ _ _ Hs).
Qed.

Lemma access_miss_simulated s ml l c cur f :
  content s ml c → Forall2 matches ml l → c + 1 < 2 ^ 64 →
  tracked s (pid_of cur) = true → page_at s (key_of f) = None →
  tracks (exec (folio_mark_accessed cur f) s)
    (lru_step (capacity (page_access_map s)) (tracked s) l (Accessed cur f)) (c + 1).
Proof.
  intros Hs Hml Hc Htr Hk. pose proof (co_count _ _ _ Hs) as Hcount.
  pose proof (co_range _ _ _ Hs) as Hr. unfold in_u64 in Hr.
  assert (u64 (c + 1) = c + 1) as Hu by (apply u64_small; unfold in_u64; lia).
  destruct (access_count s cur f c Htr Hcount) as [Hc' _]. rewrite Hu in Hc'.
  destruct (miss_refused s ml l c cur f Hs Hml Hk) as [Hcode Habs].
  cbn. rewrite Htr. cbn. case_bool_decide as Hd.
  - assert (miss_code s cur f = 0) as Hok by (apply Hcode; by destruct Hd).
    exists ((key_of f, fresh_metric (pid_of cur) (f_nr_pages f) (Some c))
              :: drop_key (key_of f) ml). split.
    + apply content_front with s; try done. intros k.
      destruct (mark_miss s cur f k Htr Hk) as (Hp & _).
      by rewrite (decide_True (P:=miss_code s cur f = 0)), Hcount in Hp by done.
    + constructor; [|by apply matches_drop]. split; [done|]. cbn. split; [|done].
      by rewrite refs_of_absent.
  - assert (miss_code s cur f ≠ 0) as Hfail by (rewrite Hcode; tauto).
    exists ml. split; [|done]. apply content_same with s c; try done; [lia|]. intros k.
    destruct (mark_miss s cur f k Htr Hk) as (Hp & _).
    rewrite Hp, (decide_False (P:=miss_code s cur f = 0)) by done.
    by case_decide; subst.
Qed.

(** A page that is in the map is in the list. *)
Lemma content_key s ml l c k m :
  content s ml c → Forall2 matches ml l → page_at s k = Some m → k ∈ keys_of l.
Proof.
  intros Hs Hml Hk. rewrite <- (matches_keys _ _ Hml).
  apply (co_pages _ _ _ Hs) in Hk. by apply (list_elem_of_fmap_2 fst _ _ Hk).
Qed.

(** One access. *)
Lemma access_simulated s l c cur f :
  tracks s l c → c + 1 < 2 ^ 64 →
  tracks (exec (folio_mark_accessed cur f) s)
    (lru_step (capacity (page_access_map s)) (tracked s) l (Accessed cur f))
    (c + if tracked s (pid_of cur) then 1 else 0).
Proof.
  intros (ml & Hs & Hml) Hc. destruct (tracked s (pid_of cur)) eqn:Htr; last first.
  { unfold exec. rewrite mark_untracked by done. cbn. rewrite Htr. cbn.
    rewrite Z.add_0_r. by exists ml. }
  destruct (page_at s (key_of f)) as [m|] eqn:Hk; [|by apply access_miss_simulated with ml].
  cbn. rewrite Htr. cbn. rewrite bool_decide_true by (left; by apply (content_key s ml l c _ m)).
  by apply access_hit_simulated with ml m.
Qed.

(** One removal. *)
Lemma free_simulated s l c cur tm f :
  tracks s l c →
  tracks (exec (filemap_free_folio cur tm f) s) (forget (free_key tm f) l) c.
Proof.
  intros (ml & Hs & Hml). pose proof (co_count _ _ _ Hs) as Hcount.
  exists (drop_key (free_key tm f) ml). split; [|by apply matches_drop].
  destruct (page_at s (free_key tm f)) as [m|] eqn:Hk.
  - destruct (free_present s cur tm f m (free_key tm f) Hk) as (_ & Hc & _ & _).
    apply content_drop with s; [done|by rewrite <- Hcount|].
    intros k. destruct (free_present s cur tm f m k Hk) as (Hp & _).
    rewrite (decide_True (P:=delete_code s tm f = 0)) in Hp; [done|].
    apply delete_present. by exists m.
  - unfold exec. rewrite free_absent by done. cbn.
    apply content_drop with s; [done|done|]. intros k. by case_decide; subst.
Qed.

Lemma free_page s cur tm f k m :
  page_at (exec (filemap_free_folio cur tm f) s) k = Some m → page_at s k = Some m.
Proof.
  destruct (page_at s (free_key tm f)) as [m0|] eqn:Hk.
  - destruct (free_present s cur tm f m0 k Hk) as (-> & _). by repeat case_decide.
  - unfold exec. by rewrite free_absent.
Qed.

Lemma free_count s cur tm f :
  let s' := exec (filemap_free_folio cur tm f) s in
  count_at s' = count_at s ∧ pid_map s' = pid_map s.
Proof.
  cbn. destruct (page_at s (free_key tm f)) as [m0|] eqn:Hk.
  - by destruct (free_present s cur tm f m0 (free_key tm f) Hk) as (_ & ? & ? & _).
  - unfold exec. by rewrite free_absent.
Qed.

(** ** Runs of events *)

Lemma run_app evs1 evs2 s : run (evs1 ++ evs2) s = run evs2 (run evs1 s).
Proof. revert s. induction evs1 as [|ev evs1 IH]; intros s; [done|]. apply IH. Qed.

Definition is_access (is_tracked : Z → bool) (ev : kevent) : bool :=
  match ev with Accessed cur _ => is_tracked (pid_of cur) | Freed _ _ _ => false end.
Definition accesses (is_tracked : Z → bool) (evs : list kevent) : Z :=
  Z.of_nat (length (filter (λ ev, is_access is_tracked ev = true) evs)).

Lemma handle_count s ev c :
  count_at s = Some c → in_u64 c →
  let s' := exec (handle ev) s in
  count_at s' = Some (u64 (c + if is_access (tracked s) ev then 1 else 0)) ∧
  pid_map s' = pid_map s.
Proof.
  intros Hc Hr. destruct ev as [cur f|cur tm f]; cbn.
  - destruct (tracked s (pid_of cur)) eqn:Htr; [by apply access_count|].
    unfold exec. rewrite mark_untracked by done. cbn. by rewrite Z.add_0_r, u64_small.
  - destruct (free_count s cur tm f) as [-> ->]. by rewrite Z.add_0_r, u64_small.
Qed.

Lemma run_count evs : ∀ s c,
  count_at s = Some c → in_u64 c →
  count_at (run evs s) = Some (u64 (c + accesses (tracked s) evs)) ∧
  pid_map (run evs s) = pid_map s.
Proof.
  induction evs as [|ev evs IH]; intros s c Hc Hr.
  { unfold accesses. cbn. by rewrite Z.add_0_r, u64_small. }
  destruct (handle_count s ev c Hc Hr) as [Hc1 Hp1]. cbn [run].
  destruct (IH _ _ Hc1) as [-> ->]; [apply u64_range|]. split; [|done]. f_equal.
  unfold tracked in *. rewrite Hp1, u64_add_l. f_equal. unfold accesses.
  rewrite filter_cons. destruct (is_access _ ev) eqn:E; cbn [length];
    [rewrite decide_True by done|rewrite decide_False by done]; cbn [length]; lia.
Qed.

Lemma accesses_cons t ev evs :
  accesses t (ev :: evs) = (if is_access t ev then 1 else 0) + accesses t evs.
Proof.
  unfold accesses. rewrite filter_cons.
  destruct (is_access t ev); cbn [length]; [rewrite decide_True by done|rewrite decide_False by done];
    cbn [length]; lia.
Qed.

Lemma run_simulated evs : ∀ s l c,
  tracks s l c → c + Z.of_nat (length evs) < 2 ^ 64 →
  tracks (run evs s) (lru_run (capacity (page_access_map s)) (tracked s) evs l)
    (c + accesses (tracked s) evs).
Proof.
  induction evs as [|ev evs IH]; intros s l c Hs Hc.
  { unfold accesses. cbn. by rewrite Z.add_0_r. }
  cbn [length] in Hc. rewrite Nat2Z.inj_succ in Hc.
  assert (tracks (exec (handle ev) s) (lru_step (capacity (page_access_map s)) (tracked s) l ev)
            (c + if is_access (tracked s) ev then 1 else 0)) as Hs1.
  { destruct ev as [cur f|cur tm f]; [apply access_simulated; [done|lia]|].
    cbn. rewrite Z.add_0_r. by apply free_simulated. }
  destruct Hs as (ml & Hs & _).
  destruct (handle_count s ev c (co_count _ _ _ Hs) (co_range _ _ _ Hs)) as [_ Hpid].
  apply IH in Hs1; [|destruct (is_access _ ev); lia].
  rewrite accesses_cons, Z.add_assoc. cbn [run lru_run foldl].
  rewrite handle_capacity in Hs1. unfold tracked in *. by rewrite Hpid in Hs1.
Qed.

(** The position of the last tracked access to a page. *)
Definition accesses_key (is_tracked : Z → bool) (k : page_key) (ev : kevent) : bool :=
  match ev with
  | Accessed cur f => is_tracked (pid_of cur) && bool_decide (key_of f = k)
  | Freed _ _ _ => false
  end.
Fixpoint last_access (is_tracked : Z → bool) (k : page_key) (evs : list kevent) : option nat :=
  match evs with
  | [] => None
  | ev :: evs' =>
      match last_access is_tracked k evs' with
      | Some i => Some (S i)
      | None => if accesses_key is_tracked k ev then Some O else None
      end
  end.

Lemma last_access_snoc t k evs ev :
  last_access t k (evs ++ [ev]) =
  if accesses_key t k ev then Some (length evs) else last_access t k evs.
Proof.
  induction evs as [|ev' evs IH]; cbn.
  - by destruct (accesses_key t k ev).
  - rewrite IH. by destruct (accesses_key t k ev).
Qed.

Lemma last_access_lt t k evs i : last_access t k evs = Some i → (i < length evs)%nat.
Proof.
  revert i. induction evs as [|ev evs IH]; intros i; cbn; [done|].
  destruct (last_access t k evs) as [j|]; [specialize (IH j eq_refl)|];
    intros; repeat case_match; simplify_eq; lia.
Qed.

(** The stamps of the recorded pages order them by their last access. *)
Definition recency s (t : Z → bool) (evs : list kevent) : Prop :=
  ∀ c k1 m1 k2 m2, count_at s = Some c →
    page_at s k1 = Some m1 → page_at s k2 = Some m2 →
    rank m1 ≤ c ∧
    ∃ i1 i2, last_access t k1 evs = Some i1 ∧ last_access t k2 evs = Some i2 ∧
             (rank m1 < rank m2 ↔ (i1 < i2)%nat).

Lemma recency_access s evs cur f c :
  tracked s (pid_of cur) = true → count_at s = Some c → in_u64 c → c + 1 < 2 ^ 64 →
  recency s (tracked s) evs →
  recency (exec (folio_mark_accessed cur f) s) (tracked s) (evs ++ [Accessed cur f]).
Proof.
  intros Htr Hc Hr Hmax Hrec c' k1 m1 k2 m2 Hc' H1 H2.
  assert (u64 (c + 1) = c + 1) as Hu.
  { apply u64_small. unfold in_u64 in *. lia. }
  destruct (access_count s cur f c Htr Hc) as [Hc1 _]. rewrite Hc1, Hu in Hc'. simplify_eq.
  rewrite !last_access_snoc. cbn. rewrite Htr. cbn.
  destruct (access_page s cur f c k1 m1 Htr Hc H1) as [[-> R1]|[N1 P1]],
           (access_page s cur f c k2 m2 Htr Hc H2) as [[-> R2]|[N2 P2]];
    rewrite Hu in *; repeat case_bool_decide; try done.
  - split; [lia|]. eexists _, _. split_and!; [done..|]. lia.
  - destruct (Hrec c k2 m2 k2 m2 Hc P2 P2) as (? & i & _ & Hi & _).
    pose proof (last_access_lt _ _ _ _ Hi).
    split; [lia|]. eexists _, _. split_and!; [done..|]. lia.
  - destruct (Hrec c k1 m1 k1 m1 Hc P1 P1) as (? & i & _ & Hi & _).
    pose proof (last_access_lt _ _ _ _ Hi).
    split; [lia|]. eexists _, _. split_and!; [done..|]. lia.
  - destruct (Hrec c k1 m1 k2 m2 Hc P1 P2) as (? & i1 & i2 & ? & ? & ?).
    split; [lia|]. by exists i1, i2.
Qed.

Lemma recency_step s evs ev c :
  count_at s = Some c → in_u64 c → c + 1 < 2 ^ 64 →
  recency s (tracked s) evs → recency (exec (handle ev) s) (tracked s) (evs ++ [ev]).
Proof.
  intros Hc Hr Hmax Hrec. destruct ev as [cur f|cur tm f]; cbn [handle].
  - destruct (tracked s (pid_of cur)) eqn:Htr; [by apply recency_access with c|].
    unfold exec. rewrite mark_untracked by done. cbn.
    intros c' k1 m1 k2 m2 ???. rewrite !last_access_snoc. cbn. rewrite Htr. cbn.
    by apply Hrec.
  - intros c' k1 m1 k2 m2 Hc' H1 H2. rewrite !last_access_snoc. cbn.
    destruct (free_count s cur tm f) as [Hcf _]. rewrite Hcf in Hc'.
    apply free_page in H1, H2. by apply Hrec.
Qed.

Lemma run_recency s evs c :
  (∀ k, page_at s k = None) → count_at s = Some c → in_u64 c →
  c + Z.of_nat (length evs) < 2 ^ 64 → recency (run evs s) (tracked s) evs.
Proof.
  intros Hempty Hc Hr. induction evs as [|ev evs IH] using rev_ind; intros Hmax.
  { intros ????? _ H1. by rewrite Hempty in H1. }
  rewrite length_app in Hmax. cbn in Hmax. rewrite run_app. cbn [run].
  destruct (run_count evs s c Hc Hr) as [Hcn Hpn].
  assert (0 ≤ accesses (tracked s) evs ≤ Z.of_nat (length evs)) as Hacc.
  { unfold accesses. pose proof (length_filter (λ ev, is_access (tracked s) ev = true) evs). lia. }
  unfold in_u64 in Hr. rewrite u64_small in Hcn by (unfold in_u64; lia).
  assert (tracked s = tracked (run evs s)) as Ht by (unfold tracked; by rewrite Hpn).
  rewrite Ht. rewrite Ht in Hacc, Hcn. eapply recency_step; [done|unfold in_u64; lia|lia|].
  rewrite <- Ht. apply IH. lia.
Qed.
End refinement.

(** ** Registered processes only *)

Section registered.
Context {PM GM CM : Type}.
Context `{!BpfMap PM Z Z, !BpfMap GM page_key metric, !BpfMap CM Z Z}.
Context `{!BpfMapLaws GM page_key metric, !BpfMapLaws CM Z Z}.
Implicit Types (s : kstate PM GM CM).

(** Every recorded page names a registered process. *)
Definition registered s : Prop :=
  ∀ k m, page_at s k = Some m → tracked s (m_pid m) = true.

Lemma registered_step s ev :
  registered s → registered (exec (handle ev) s) ∧ pid_map (exec (handle ev) s) = pid_map s.
Proof.
  intros Hs. destruct ev as [cur f|cur tm f]; cbn [handle].
  - destruct (tracked s (pid_of cur)) eqn:Htr; last first.
    { unfold exec. by rewrite mark_untracked. }
    destruct (page_at s (key_of f)) as [m0|] eqn:Hk.
    + destruct (mark_hit s cur f m0 (key_of f) Htr Hk) as (_ & _ & Hpid & _).
      split; [|done]. intros k m Hm. unfold tracked in *. rewrite Hpid.
      destruct (mark_hit s cur f m0 k Htr Hk) as (Hp & _). rewrite Hm in Hp.
      case_decide; simplify_eq; [|by apply (Hs k)].
      destruct (count_at s); [done|]. by apply (Hs (key_of f) m0).
    + destruct (mark_miss s cur f (key_of f) Htr Hk) as (_ & _ & Hpid & _).
      split; [|done]. intros k m Hm. unfold tracked in *. rewrite Hpid.
      destruct (mark_miss s cur f k Htr Hk) as (Hp & _). rewrite Hm in Hp.
      repeat case_decide; simplify_eq; [done|]. by apply (Hs k).
  - destruct (free_count s cur tm f) as [_ Hpid]. split; [|done].
    intros k m Hm%free_page. unfold tracked in *. rewrite Hpid. by apply (Hs k).
Qed.

Lemma registered_run evs : ∀ s,
  registered s → registered (run evs s) ∧ pid_map (run evs s) = pid_map s.
Proof.
  induction evs as [|ev evs IH]; intros s Hs; [done|]. cbn [run].
  destruct (registered_step s ev Hs) as [H1 Hp1]. destruct (IH _ H1) as [H2 Hp2].
  split; [done|]. by rewrite Hp2, Hp1.
Qed.
End registered.

(** ** A concrete run, for the examples *)

Definition demo_state : kstate (hmap Z Z) (hmap page_key metric) (amap Z) :=
  KState (HMap ∅ (Z.to_nat page_access_map_max_entries)) (AMap [0])
    (HMap {[ 42 := 1; 43 := 1 ]} (Z.to_nat pid_map_max_entries)) [].

Definition demo_folio (i : Z) : folio := Folio 65536 i 4.
Definition demo_cur (pid : Z) : Z := Z.lor (Z.shiftl pid 32) 7.
Definition demo_events : list kevent :=
  [ Accessed (demo_cur 42) (demo_folio 1); Accessed (demo_cur 43) (demo_folio 2);
    Accessed (demo_cur 99) (demo_folio 3); Accessed (demo_cur 43) (demo_folio 1);
    Freed (demo_cur 1) 65536 (demo_folio 2); Accessed (demo_cur 42) (demo_folio 4) ].

Example demo_run :
  let s := run demo_events demo_state in
  (page_at s (PageKey 65536 1), page_at s (PageKey 65536 2), page_at s (PageKey 65536 3),
   page_at s (PageKey 65536 4), count_at s) =
  (Some (Metric 2 3 4 43), None, None, Some (Metric 1 4 4 42), Some 4).
Proof. vm_compute. reflexivity. Qed.

Lemma tracks_empty {PM GM CM} `{!BpfMap PM Z Z, !BpfMap GM page_key metric, !BpfMap CM Z Z}
    (s : kstate PM GM CM) c :
  (∀ k, page_at s k = None) → count_at s = Some c → in_u64 c → tracks s [] c.
Proof.
  intros Hp Hc Hr. exists []. split; [|constructor]. split; try done; try constructor.
  - by rewrite Hp.
  - by intros ?%not_elem_of_nil.
Qed.

(** ** Properties *)

(** C2. The tracker refines its LRU specification: from maps that represent an LRU list
    (stamps strictly decreasing along the list, every field equal, counter below its
    bound), any sequence of folio_mark_accessed and filemap_free_folio calls leaves maps
    that represent the list [lru_run] computes from the same events, with the size of the
    page map as its bound, and a counter advanced by the accesses of registered processes,
    provided the 64-bit counter does not wrap during it. *)
Theorem tracker_refines_lru {PM GM CM : Type}
    `{!BpfMap PM Z Z, !BpfMap GM page_key metric, !BpfMap CM Z Z}
    `{!BpfMapLaws GM page_key metric, !BpfMapLaws CM Z Z}
    `{!BpfMapPresent GM page_key metric, !BpfHashMap GM page_key metric}
    (s : kstate PM GM CM) (l : list page_rec) (c : Z) (evs : list kevent) :
  tracks s l c → c + Z.of_nat (length evs) < 2 ^ 64 →
  tracks (run evs s) (lru_run (capacity (page_access_map s)) (tracked s) evs l)
    (c + accesses (tracked s) evs).
Proof. apply run_simulated. Qed.

Lemma tracker_refines_lru_witness :
  tracks (run demo_events demo_state)
    (lru_run (capacity (page_access_map demo_state)) (tracked demo_state) demo_events [])
    (0 + accesses (tracked demo_state) demo_events).
Proof.
  apply (tracker_refines_lru demo_state [] 0 demo_events); [|by vm_compute].
  apply tracks_empty; [done|done|unfold in_u64; lia].
Defined.

(** A map of one page: the second page is refused, and taken once the first is freed. *)
Example lru_demo :
  lru_run 1 (λ _, true)
    [Accessed (demo_cur 42) (demo_folio 1); Accessed (demo_cur 42) (demo_folio 2);
     Accessed (demo_cur 43) (demo_folio 1); Freed (demo_cur 1) 65536 (demo_folio 1);
     Accessed (demo_cur 42) (demo_folio 3)] [] =
  [PageRec (PageKey 65536 3) 1 4 42].
Proof. by vm_compute. Qed.

(** C3. What the stamps mean: after any run from an empty page map, two recorded pages
    compare by [rank] exactly as their last accesses by registered processes compare in
    time, and no stamp exceeds the counter; in particular distinct pages never share a
    stamp when the handlers run one after the other. *)
Theorem rank_is_recency {PM GM CM : Type}
    `{!BpfMap PM Z Z, !BpfMap GM page_key metric, !BpfMap CM Z Z}
    `{!BpfMapLaws GM page_key metric, !BpfMapLaws CM Z Z}
    (s : kstate PM GM CM) (evs : list kevent) :
  (∀ k, page_at s k = None) → count_at s = Some 0 → Z.of_nat (length evs) < 2 ^ 64 →
  ∀ c k1 m1 k2 m2, count_at (run evs s) = Some c →
    page_at (run evs s) k1 = Some m1 → page_at (run evs s) k2 = Some m2 →
    rank m1 ≤ c ∧
    ∃ i1 i2, last_access (tracked s) k1 evs = Some i1 ∧
             last_access (tracked s) k2 evs = Some i2 ∧ (rank m1 < rank m2 ↔ (i1 < i2)%nat).
Proof. intros Hp Hc Hl. apply (run_recency s evs 0); [done|done|unfold in_u64; lia|lia]. Qed.

Lemma rank_is_recency_witness :
  ∃ i1 i2, last_access (tracked demo_state) (PageKey 65536 1) demo_events = Some i1 ∧
           last_access (tracked demo_state) (PageKey 65536 4) demo_events = Some i2 ∧
           (3 < 4 ↔ (i1 < i2)%nat).
Proof.
  refine (proj2 (rank_is_recency demo_state demo_events _ _ _ 4 (PageKey 65536 1)
    (Metric 2 3 4 43) (PageKey 65536 4) (Metric 1 4 4 42) _ _ _));
    [done|done|by vm_compute|by vm_compute|by vm_compute|by vm_compute].
Defined.

(** C4. The access counter counts exactly the accesses by registered processes, modulo
    2^64: every such access advances it by one, hit or miss, recorded or refused by a full
    map, and nothing else moves it. *)
Theorem counter_counts_accesses {PM GM CM : Type}
    `{!BpfMap PM Z Z, !BpfMap GM page_key metric, !BpfMap CM Z Z}
    `{!BpfMapLaws GM page_key metric, !BpfMapLaws CM Z Z}
    (s : kstate PM GM CM) (evs : list kevent) (c : Z) :
  count_at s = Some c → in_u64 c →
  count_at (run evs s) = Some (u64 (c + accesses (tracked s) evs)).
Proof. intros Hc Hr. by destruct (run_count evs s c Hc Hr). Qed.

Lemma counter_counts_accesses_witness :
  count_at (run demo_events demo_state) = Some (u64 (0 + accesses (tracked demo_state) demo_events)).
Proof. apply counter_counts_accesses; [done|unfold in_u64; lia]. Defined.

(** C5. Only registered processes are recorded: if every recorded page names a process of
    pid_map, so it does after any run, and the run leaves pid_map alone. *)
Theorem only_registered_recorded {PM GM CM : Type}
    `{!BpfMap PM Z Z, !BpfMap GM page_key metric, !BpfMap CM Z Z}
    `{!BpfMapLaws GM page_key metric, !BpfMapLaws CM Z Z}
    (s : kstate PM GM CM) (evs : list kevent) :
  registered s → registered (run evs s) ∧ pid_map (run evs s) = pid_map s.
Proof. apply registered_run. Qed.

Lemma only_registered_recorded_witness :
  registered (run demo_events demo_state) ∧
  pid_map (run demo_events demo_state) = pid_map demo_state.
Proof. apply only_registered_recorded. intros k m Hm. by vm_compute in Hm. Defined.
