(* ===== verification/CFormat.v ===== *)
(** * CFormat: C strings and the conversions of printf and scanf the sources use

    A C string is the list of its bytes before the NUL.  [fmt_d], [fmt_u], [fmt_x] are
    what %d, %u / %llu and %lx print; [snprintf_cut] is the truncation of snprintf;
    [sscanf_d] is sscanf(s, "%d"), with the saturation of strtol and the conversion to int
    that glibc does. *)

From S2P Require Import Prelude CInt.

Abbreviation bytes := (list Z).

(** The bytes of a string literal. *)
Fixpoint str (s : string) : bytes :=
  match s with
  | EmptyString => []
  | String c s' => Z.of_nat (Ascii.nat_of_ascii c) :: str s'
  end.

(** ** Digits *)

(** Least significant digit first; [fuel] bounds their number. *)
Fixpoint digits (base : Z) (fuel : nat) (n : Z) : list Z :=
  match fuel with
  | O => []
  | S f => n mod base :: (if n / base =? 0 then [] else digits base f (n / base))
  end.
Fixpoint digits_value (base : Z) (ds : list Z) : Z :=
  match ds with
  | [] => 0
  | d :: ds' => d + base * digits_value base ds'
  end.

Definition digit_char (d : Z) : Z := if d <? 10 then 48 + d else 87 + d.

(** 64-bit values have at most 20 decimal and 16 hexadecimal digits. *)
Definition fmt_u (n : Z) : bytes := reverse (digit_char <$> digits 10 20 n).
Definition fmt_x (n : Z) : bytes := reverse (digit_char <$> digits 16 16 n).
Definition fmt_d (n : Z) : bytes := if n <? 0 then 45 :: fmt_u (- n) else fmt_u n.

(** What snprintf(dst, size, ...) leaves in [dst] of the string [s] it would print. *)
Definition snprintf_cut (size : nat) (s : bytes) : bytes := take (size - 1) s.

Section digits.
Context (base : Z) (Hbase : 2 ≤ base).

Lemma div_lt_pow n k : 0 ≤ n < base ^ Z.of_nat (S k) → 0 ≤ n / base < base ^ Z.of_nat k.
Proof using Hbase.
  rewrite Nat2Z.inj_succ, Z.pow_succ_r by lia. intros Hn.
  split; [apply Z.div_pos; lia|]. apply Z.div_lt_upper_bound; lia.
Qed.

Lemma digits_value_digits fuel n :
  0 ≤ n < base ^ Z.of_nat fuel → digits_value base (digits base fuel n) = n.
Proof using Hbase.
  revert n. induction fuel as [|f IH]; intros n Hn; [simpl in Hn; simpl; lia|].
  pose proof (div_lt_pow n f Hn) as Hd. pose proof (Z.div_mod n base ltac:(lia)) as Hdm.
  cbn [digits]. case_match eqn:E; cbn [digits_value]; [lia|]. rewrite IH by done. lia.
Qed.

Lemma digits_range fuel n : Forall (λ d, 0 ≤ d < base) (digits base fuel n).
Proof using Hbase.
  revert n. induction fuel as [|f IH]; intros n; cbn [digits]; constructor.
  - apply Z.mod_pos_bound. lia.
  - case_match; [constructor|apply IH].
Qed.

Lemma length_digits fuel k n :
  (1 ≤ k)%nat → 0 ≤ n < base ^ Z.of_nat k → (length (digits base fuel n) ≤ k)%nat.
Proof using Hbase.
  revert k n. induction fuel as [|f IH]; intros k n Hk Hn; cbn [digits length]; [lia|].
  case_match eqn:E; [cbn; lia|]. destruct k as [|[|k]]; [lia| |].
  - rewrite Z.pow_1_r in Hn. rewrite Z.div_small in E by lia. done.
  - specialize (IH (S k) (n / base) ltac:(lia) (div_lt_pow _ _ Hn)). lia.
Qed.

Lemma digits_nonempty fuel n : fuel ≠ O → digits base fuel n ≠ [].
Proof using Type. by destruct fuel. Qed.
End digits.

Definition decimal_char (c : Z) : Prop := 48 ≤ c ≤ 57.

Lemma digit_char_inj d1 d2 :
  0 ≤ d1 < 36 → 0 ≤ d2 < 36 → digit_char d1 = digit_char d2 → d1 = d2.
Proof. unfold digit_char. intros. repeat case_match; lia. Qed.

Lemma digit_chars_inj (l1 l2 : list Z) :
  Forall (λ d, 0 ≤ d < 36) l1 → Forall (λ d, 0 ≤ d < 36) l2 →
  digit_char <$> l1 = digit_char <$> l2 → l1 = l2.
Proof.
  intros H1. revert l2. induction H1 as [|d1 l1 Hd1 _ IH]; intros [|d2 l2] H2; cbn; try done.
  inversion_clear H2. intros [= Hd Hl]. f_equal; [by apply digit_char_inj|by apply IH].
Qed.

Lemma digits_base_range base fuel n :
  2 ≤ base ≤ 36 → Forall (λ d, 0 ≤ d < 36) (digits base fuel n).
Proof. intros Hb. eapply Forall_impl; [apply digits_range; lia|]. cbn. lia. Qed.

Lemma fmt_base_inj base fuel n1 n2 :
  2 ≤ base ≤ 36 → 0 ≤ n1 < base ^ Z.of_nat fuel → 0 ≤ n2 < base ^ Z.of_nat fuel →
  reverse (digit_char <$> digits base fuel n1) = reverse (digit_char <$> digits base fuel n2) →
  n1 = n2.
Proof.
  intros Hb H1 H2 E%(inj reverse)%digit_chars_inj; try by apply digits_base_range.
  rewrite <- (digits_value_digits base ltac:(lia) fuel n1 H1), E.
  apply digits_value_digits; [lia|done].
Qed.

Lemma fmt_u_decimal n : Forall decimal_char (fmt_u n).
Proof.
  apply Forall_reverse, Forall_fmap. eapply Forall_impl; [apply digits_range; lia|].
  unfold decimal_char, digit_char. cbn. intros d Hd. case_match; lia.
Qed.

Lemma fmt_u_nonempty n : fmt_u n ≠ [].
Proof.
  unfold fmt_u. intros E%(f_equal length). rewrite length_reverse, length_fmap in E. done.
Qed.

Lemma length_fmt_u n k : (1 ≤ k)%nat → 0 ≤ n < 10 ^ Z.of_nat k → (length (fmt_u n) ≤ k)%nat.
Proof.
  intros Hk Hn. unfold fmt_u. rewrite length_reverse, length_fmap. by apply length_digits.
Qed.

Lemma fmt_u_inj n1 n2 : in_u64 n1 → in_u64 n2 → fmt_u n1 = fmt_u n2 → n1 = n2.
Proof. unfold in_u64. intros ??. apply fmt_base_inj; cbn; lia. Qed.

Lemma fmt_x_inj n1 n2 : in_u64 n1 → in_u64 n2 → fmt_x n1 = fmt_x n2 → n1 = n2.
Proof. unfold in_u64. intros ??. apply fmt_base_inj; cbn; lia. Qed.

(** An int prints in at most 11 characters, a non-negative one in at most 10. *)
Lemma length_fmt_d n : in_s32 n → (length (fmt_d n) ≤ 11)%nat.
Proof.
  unfold in_s32, INT_MIN, INT_MAX, fmt_d. intros Hn. case_match; cbn [length].
  - pose proof (length_fmt_u (- n) 10 ltac:(lia) ltac:(cbn; lia)). lia.
  - pose proof (length_fmt_u n 10 ltac:(lia) ltac:(cbn; lia)). lia.
Qed.

Lemma fmt_d_nonneg n : 0 ≤ n → fmt_d n = fmt_u n.
Proof. intros. unfold fmt_d. case_match; [lia|done]. Qed.

(** ** sscanf(s, "%d", &x) *)

Definition is_space (c : Z) : bool := (c =? 32) || ((9 <=? c) && (c <=? 13)).
Definition is_digit (c : Z) : bool := (48 <=? c) && (c <=? 57).

Fixpoint skip_spaces (s : bytes) : bytes :=
  match s with
  | c :: s' => if is_space c then skip_spaces s' else s
  | [] => []
  end.

Definition take_digits (s : bytes) : bytes := take_until (λ c, negb (is_digit c)) s.

Definition dec_value (s : bytes) : Z := foldl (λ a c, 10 * a + (c - 48)) 0 s.

(** strtol saturates at the bounds of long. *)
Definition clamp64 (z : Z) : Z := Z.max LLONG_MIN (Z.min LLONG_MAX z).

(** The integer at the front of a string, unbounded; None when there is no digit. *)
Definition scan_int (s : bytes) : option Z :=
  let s := skip_spaces (cstr s) in
  let '(neg, s) :=
    match s with
    | 45 :: s' => (true, s')
    | 43 :: s' => (false, s')
    | _ => (false, s)
    end in
  let ds := take_digits s in
  if bool_decide (ds = []) then None
  else Some (if neg : bool then - dec_value ds else dec_value ds).

(** sscanf(s, "%d", &x): the value is converted by strtol and stored in an int. *)
Definition sscanf_d (s : bytes) : option Z := (λ v, s32 (clamp64 v)) <$> scan_int s.

(** strtol(s, NULL, 10): the value and whether errno is set (ERANGE). *)
Definition strtol (s : bytes) : Z * bool :=
  match scan_int s with
  | None => (0, false)
  | Some v => (clamp64 v, negb (bool_decide (in_s64 v)))
  end.

(** atoi(s): the int part of strtol. *)
Definition atoi (s : bytes) : Z := s32 (fst (strtol s)).

(** printf's %-ns: left-justified in a field of width n. *)
Definition pad_right (n : nat) (s : bytes) : bytes := s ++ replicate (n - length s) 32.

Lemma dec_value_app s1 s2 :
  dec_value (s1 ++ s2) = dec_value s1 * 10 ^ Z.of_nat (length s2) + dec_value s2.
Proof.
  unfold dec_value. rewrite foldl_app. generalize (foldl (λ a c, 10 * a + (c - 48)) 0 s1).
  intros a. revert s2 a. refine (rev_ind _ _ _); [cbn; lia|].
  intros c s2 IH a. rewrite !foldl_app, length_app. cbn [foldl length].
  rewrite IH, Nat2Z.inj_add, Z.pow_add_r by lia. cbn. lia.
Qed.

Lemma dec_value_digits ds :
  Forall (λ d, 0 ≤ d < 10) ds → dec_value (reverse (digit_char <$> ds)) = digits_value 10 ds.
Proof.
  induction 1 as [|d ds Hd _ IH]; [done|]. rewrite fmap_cons, reverse_cons, dec_value_app, IH.
  cbn [length digits_value]. unfold dec_value, digit_char. cbn. case_match; lia.
Qed.

Lemma dec_value_fmt_u n : in_u64 n → dec_value (fmt_u n) = n.
Proof.
  unfold in_u64. intros Hn. unfold fmt_u. rewrite dec_value_digits by (apply digits_range; lia).
  apply digits_value_digits; [lia|cbn; lia].
Qed.

Lemma decimal_is_digit c : decimal_char c → is_digit c = true.
Proof. unfold decimal_char, is_digit. lia. Qed.

(** A decimal number scans back, whatever follows it. *)
Lemma scan_fmt_u n rest :
  in_u64 n → Forall (λ c, c ≠ 0) rest →
  match rest with [] => True | c :: _ => is_digit c = false end →
  scan_int (fmt_u n ++ rest) = Some n.
Proof.
  intros Hn Hrest Hstop.
  pose proof (fmt_u_decimal n) as Hdec. pose proof (fmt_u_nonempty n) as Hne.
  assert (cstr (fmt_u n ++ rest) = fmt_u n ++ rest) as Hc.
  { apply take_until_none, Forall_app. split.
    - eapply Forall_impl; [done|]. unfold decimal_char. cbn. lia.
    - eapply Forall_impl; [done|]. cbn. lia. }
  assert (take_digits (fmt_u n ++ rest) = fmt_u n) as Ht.
  { unfold take_digits.
    assert (Forall (λ c, negb (is_digit c) = false) (fmt_u n)) as Hall.
    { eapply Forall_impl; [done|]. cbn. intros c Hd. by rewrite decimal_is_digit. }
    destruct rest as [|c rest]; [rewrite app_nil_r; by apply take_until_none|].
    apply take_until_stop; [done|]. by rewrite Hstop. }
  unfold scan_int. rewrite Hc.
  destruct (fmt_u n) as [|c ds] eqn:E; [done|]. cbn [app] in *.
  inversion_clear Hdec as [|?? Hcd _]. unfold decimal_char in Hcd. cbn [skip_spaces].
  assert (is_space c = false) as -> by (unfold is_space; lia).
  assert (match c :: ds ++ rest with
          | 45 :: s' => (true, s') | 43 :: s' => (false, s')
          | _ => (false, c :: ds ++ rest) end = (false, c :: ds ++ rest)) as ->.
  { destruct (decide (c = 45)); [lia|]. destruct (decide (c = 43)); [lia|].
    repeat case_match; try done; lia. }
  cbv beta iota zeta. by rewrite Ht, bool_decide_false, <- E, dec_value_fmt_u.
Qed.

(** The round trip of %d for the non-negative ints. *)
Lemma sscanf_fmt_d n rest :
  0 ≤ n ≤ INT_MAX → Forall (λ c, c ≠ 0) rest →
  match rest with [] => True | c :: _ => is_digit c = false end →
  sscanf_d (fmt_d n ++ rest) = Some n.
Proof.
  intros Hn Hrest Hstop. unfold INT_MAX in Hn. unfold sscanf_d. rewrite fmt_d_nonneg by lia.
  rewrite scan_fmt_u by (done || (unfold in_u64; lia)). cbn. f_equal.
  unfold clamp64, LLONG_MIN, LLONG_MAX. rewrite s32_small; [lia|].
  unfold in_s32, INT_MIN, INT_MAX. lia.
Qed.
