(* ===== verification/PageUser.v ===== *)
(** * PageUser: the user-space side of the page tracker, examples/c/kprobe.c

    The functions of kprobe.c other than main: the file name of a snapshot, the hash of a
    page, the loop that dumps page_access_map to the snapshot file, and the thread that
    follows the PID file and registers the PIDs it reads.  (main is in [Loaders].) *)

From S2P Require Import Prelude CInt CFormat BpfKernel PageTracker PageLru.

(** ** Snapshot file names *)

(** None: the buffer is too small and the program exits with EXIT_FAILURE. *)
Definition concatenate_string_and_integer (s : bytes) (num : Z) (result_size : nat) :
    option bytes :=
  let num_str := snprintf_cut 20 (fmt_d num) in
  if (result_size <? length s + length num_str + 1)%nat then None
  else Some (snprintf_cut result_size (s ++ num_str)).

Definition snapshot_path : bytes := str "./lru_metrics/time_".
Definition snapshot_name (i : Z) : option bytes := concatenate_string_and_integer snapshot_path i 30.

Lemma num_str_full num : in_s32 num → snprintf_cut 20 (fmt_d num) = fmt_d num.
Proof. intros Hn. apply take_ge. pose proof (length_fmt_d num Hn). lia. Qed.

Lemma concatenate_spec s num size :
  in_s32 num →
  concatenate_string_and_integer s num size =
  if bool_decide (length (s ++ fmt_d num) < size)%nat then Some (s ++ fmt_d num) else None.
Proof.
  intros Hn. unfold concatenate_string_and_integer. rewrite num_str_full, length_app by done.
  destruct (Nat.ltb_spec size (length s + length (fmt_d num) + 1)); case_bool_decide; try lia;
    [done|].
  f_equal. apply take_ge. rewrite length_app. lia.
Qed.

(** ** Dumping the page map *)

(** The identifier of a page in the snapshots. *)
Definition hash_index_mapping (index mapping : Z) : Z := Z.lxor (u64 index) (u64 mapping).

(** fprintf(file, "%" PRIx64 " %d %ld \n", hash, value.pid, value.ref_count) *)
Definition dump_line (k : page_key) (v : metric) : bytes :=
  fmt_x (hash_index_mapping (index k) (mapping k)) ++ str " " ++ fmt_d (m_pid v) ++ str " " ++
  fmt_d (s64 (ref_count v)) ++ str " " ++ [10].

Section dump.
Context {GM : Type} `{!BpfMap GM page_key metric, !BpfMapIter GM page_key metric}.
Implicit Types (pages : GM) (key : page_key).

(** The loop over the map, from [key]; None: out of fuel.  A key whose lookup fails
    prints an error on stderr and no line. *)
Fixpoint dump_from (fuel : nat) pages key : option (list bytes) :=
  match fuel with
  | O => None
  | S fuel' =>
      match bpf_map_get_next_key pages key with
      | None => Some []
      | Some next_key =>
          let line :=
            match bpf_map_lookup_elem pages next_key with
            | Some value => [dump_line next_key value]
            | None => []
            end in
          rest ← dump_from fuel' pages next_key;
          Some (line ++ rest)
      end
  end.

Definition zero_key : page_key := PageKey 0 0.
Definition dump (fuel : nat) pages : option (list bytes) := dump_from fuel pages zero_key.

Definition line_of pages (k : page_key) : list bytes :=
  match bpf_map_lookup_elem pages k with
  | Some v => [dump_line k v]
  | None => []
  end.

Lemma next_of_suffix pages l1 k l2 :
  map_keys pages = l1 ++ k :: l2 → bpf_map_get_next_key pages k = head l2.
Proof.
  intros E. rewrite get_next_key_spec, decide_True by (rewrite E; set_solver).
  rewrite E, after_app; [done|].
  pose proof (map_keys_NoDup pages) as Hnd. rewrite E in Hnd.
  apply NoDup_app in Hnd as (_ & Hdisj & _). intros Hk. apply (Hdisj k Hk). by left.
Qed.

Lemma dump_from_suffix pages l2 : ∀ fuel l1 k,
  map_keys pages = l1 ++ k :: l2 → (length l2 < fuel)%nat →
  dump_from fuel pages k = Some (l2 ≫= line_of pages).
Proof.
  induction l2 as [|k' l2 IH]; intros fuel l1 k E Hf; (destruct fuel as [|fuel]; [lia|]);
    cbn [dump_from]; rewrite (next_of_suffix _ _ _ _ E); cbn [head]; [done|].
  rewrite (IH fuel (l1 ++ [k]) k'); [|by rewrite <- app_assoc|cbn in Hf; lia].
  cbn. done.
Qed.

(** From the zero key the loop visits the keys after it, or all of them when it is absent. *)
Lemma dump_visits pages fuel :
  (length (map_keys pages) < fuel)%nat →
  dump fuel pages =
  Some ((if decide (zero_key ∈ map_keys pages) then after zero_key (map_keys pages)
         else map_keys pages) ≫= line_of pages).
Proof.
  intros Hf. unfold dump. case_decide as Hz.
  - apply list_elem_of_split in Hz as (l1 & l2 & E).
    assert (zero_key ∉ l1) as Hl1.
    { pose proof (map_keys_NoDup pages) as Hnd. rewrite E in Hnd.
      apply NoDup_app in Hnd as (_ & Hdisj & _). intros Hk. apply (Hdisj _ Hk). by left. }
    rewrite E, (after_app _ _ _ Hl1). apply dump_from_suffix with l1; [done|].
    rewrite E, length_app in Hf. cbn in Hf. lia.
  - destruct fuel as [|fuel]; [lia|]. cbn [dump_from].
    rewrite get_next_key_spec, decide_False by done.
    destruct (map_keys pages) as [|k ks] eqn:E; cbn [head]; [done|].
    rewrite (dump_from_suffix pages ks fuel [] k E) by (cbn in Hf; lia). done.
Qed.
End dump.

(** ** The PID file *)

(** fgets(line, size, file) on the unread part [rest] of the file: the line (with its
    newline) and what is left; None at end of file. *)
Fixpoint fgets_take (n : nat) (rest : bytes) : bytes * bytes :=
  match n, rest with
  | S n', c :: rest' =>
      if c =? 10 then ([c], rest')
      else let '(line, r) := fgets_take n' rest' in (c :: line, r)
  | _, _ => ([], rest)
  end.
Definition fgets (size : nat) (rest : bytes) : option (bytes * bytes) :=
  match rest with
  | [] => None
  | _ => Some (fgets_take (size - 1) rest)
  end.

(** The PIDs one pass over [rest] hands to bpf_map__update_elem; [fuel] is the number of
    bytes left, and each line takes at least one. *)
Fixpoint read_pids (fuel : nat) (rest : bytes) : list Z :=
  match fuel with
  | O => []
  | S fuel' =>
      match fgets 256 rest with
      | None => []
      | Some (line, rest') =>
          match sscanf_d line with
          | Some pid => pid :: read_pids fuel' rest'
          | None => read_pids fuel' rest'
          end
      end
  end.

Section receiver.
Context {PM : Type} `{!BpfMap PM Z Z}.

Record receiver := Receiver { file_pos : nat; rpid_map : PM }.

Definition register_pid (m : PM) (pid : Z) : PM := fst (bpf_map_update_elem m pid 1).

(** One iteration of the loop of [pid_receiver]; [file] is the present content of the
    file, None when it cannot be opened. *)
Definition pid_receiver_poll (file : option bytes) (r : receiver) : receiver :=
  match file with
  | None => r
  | Some content =>
      let rest := drop (file_pos r) content in
      let pids := read_pids (length rest) rest in
      Receiver (file_pos r + length rest) (foldl register_pid (rpid_map r) pids)
  end.

Definition pid_receiver (files : list (option bytes)) (r : receiver) : receiver :=
  foldl (λ r f, pid_receiver_poll f r) r files.
End receiver.
Arguments receiver : clear implicits.

(** ** Reading the PID file in pieces *)

(** The piece ends at a line boundary. *)
Definition ends_nl (a : bytes) : Prop := a = [] ∨ last a = Some 10.

Lemma ends_nl_tail c a : ends_nl (c :: a) → ends_nl a.
Proof. intros [?|Ha]; [done|]. destruct a; [by left|by right]. Qed.

Lemma fgets_take_split n rest : let '(line, r) := fgets_take n rest in line ++ r = rest.
Proof.
  revert rest. induction n as [|n IH]; intros [|c rest]; cbn; try done.
  destruct (c =? 10); [done|]. specialize (IH rest). destruct (fgets_take n rest). cbn.
  by rewrite IH.
Qed.

Lemma fgets_take_shorter n c rest :
  (length (fgets_take (S n) (c :: rest)).2 ≤ length rest)%nat.
Proof.
  cbn. destruct (c =? 10); [done|]. pose proof (fgets_take_split n rest) as H.
  destruct (fgets_take n rest) as [line r]. cbn. rewrite <- H, length_app. lia.
Qed.

(** With enough fuel the result does not depend on it. *)
Lemma read_pids_fuel rest : ∀ f1 f2,
  (length rest ≤ f1)%nat → (length rest ≤ f2)%nat → read_pids f1 rest = read_pids f2 rest.
Proof.
  remember (length rest) as n eqn:Hn. revert rest Hn.
  induction (lt_wf n) as [n _ IH]. intros rest Hn f1 f2 H1 H2.
  destruct rest as [|c rest]; [by destruct f1, f2|]. cbn in Hn.
  destruct f1 as [|f1]; [lia|]. destruct f2 as [|f2]; [lia|]. cbn [read_pids fgets].
  change (256 - 1)%nat with (S 254). pose proof (fgets_take_shorter 254 c rest).
  destruct (fgets_take (S 254) (c :: rest)) as [line r]. cbn in *.
  rewrite (IH (length r) ltac:(lia) r eq_refl f1 f2) by lia. done.
Qed.

Lemma fgets_take_app n : ∀ a b,
  ends_nl a → a ≠ [] →
  let '(line, r) := fgets_take n a in
  fgets_take n (a ++ b) = (line, r ++ b) ∧ ends_nl r.
Proof.
  induction n as [|n IH]; intros [|c a] b Ha Hne; cbn; try done; try by split.
  destruct (c =? 10) eqn:E; [split; [done|]; by eapply ends_nl_tail|].
  destruct a as [|c' a].
  { exfalso. destruct Ha as [?|Hl]; [done|]. cbn in Hl. by simplify_eq. }
  specialize (IH (c' :: a) b (ends_nl_tail _ _ Ha) ltac:(done)).
  destruct (fgets_take n (c' :: a)) as [line r]. destruct IH as [-> ?]. done.
Qed.

Lemma read_pids_app a : ∀ b,
  ends_nl a →
  read_pids (length (a ++ b)) (a ++ b) = read_pids (length a) a ++ read_pids (length b) b.
Proof.
  remember (length a) as n eqn:Hn. revert a Hn.
  induction (lt_wf n) as [n _ IH]. intros a Hn b Ha.
  destruct a as [|c a]; [by subst n|].
  pose proof (fgets_take_app (S 254) (c :: a) b Ha ltac:(done)) as Happ.
  pose proof (fgets_take_shorter 254 c a) as Hlen. subst n.
  cbn [length app read_pids fgets] in *. change (256 - 1)%nat with (S 254).
  destruct (fgets_take (S 254) (c :: a)) as [line r]. cbn [snd] in Hlen.
  destruct Happ as [-> Hr].
  assert (read_pids (length (a ++ b)) (r ++ b) =
          read_pids (length a) r ++ read_pids (length b) b) as ->.
  { rewrite (read_pids_fuel (r ++ b) _ (length (r ++ b))), (read_pids_fuel r _ (length r));
      rewrite ?length_app; try lia.
    rewrite <- length_app. apply (IH (length r)); [lia|done|done]. }
  by case_match.
Qed.

(** A PID file as its writer makes it: one decimal number per line. *)
Definition render_pids (pids : list Z) : bytes := pids ≫= λ p, fmt_d p ++ [10].
Definition valid_pid (p : Z) : Prop := 0 ≤ p ≤ INT_MAX.

Lemma fgets_take_line n (s : bytes) :
  Forall (λ c, c ≠ 10) s → (length s < n)%nat → fgets_take n (s ++ [10]) = (s ++ [10], []).
Proof.
  intros Hs. revert n. induction Hs as [|c s Hc _ IH]; intros [|n] Hn; cbn in *; try lia; [done|].
  destruct (Z.eqb_spec c 10); [done|]. by rewrite IH by lia.
Qed.

Lemma fgets_line (s : bytes) :
  Forall (λ c, c ≠ 10) s → (length s < 255)%nat → fgets 256 (s ++ [10]) = Some (s ++ [10], []).
Proof.
  intros Hs Hl. rewrite <- (fgets_take_line 255 s) by done. unfold fgets. by destruct s.
Qed.

Lemma read_pids_line p :
  valid_pid p → read_pids (length (fmt_d p ++ [10])) (fmt_d p ++ [10]) = [p].
Proof.
  intros Hp. unfold valid_pid in Hp.
  assert (length (fmt_d p) ≤ 11)%nat as Hl.
  { apply length_fmt_d. unfold in_s32, INT_MIN in *. lia. }
  assert (Forall (λ c, c ≠ 10) (fmt_d p)) as Hnl.
  { rewrite fmt_d_nonneg by lia. eapply Forall_impl; [apply fmt_u_decimal|].
    unfold decimal_char. cbn. lia. }
  rewrite length_app, Nat.add_comm. cbn [length Nat.add read_pids].
  rewrite fgets_line by (done || lia).
  rewrite sscanf_fmt_d; [|done|by repeat constructor|done].
  by destruct (length (fmt_d p)).
Qed.

Lemma ends_nl_render pids : ends_nl (render_pids pids).
Proof.
  induction pids as [|p pids IH]; [by left|]. right.
  change (render_pids (p :: pids)) with ((fmt_d p ++ [10]) ++ render_pids pids).
  rewrite last_app. destruct IH as [E|E]; rewrite E; [|done]. cbn. by rewrite last_snoc.
Qed.

Lemma read_pids_render pids :
  Forall valid_pid pids → read_pids (length (render_pids pids)) (render_pids pids) = pids.
Proof.
  induction 1 as [|p pids Hp _ IH]; [done|].
  change (render_pids (p :: pids)) with ((fmt_d p ++ [10]) ++ render_pids pids).
  rewrite read_pids_app, read_pids_line, IH by (done || (right; by rewrite last_snoc)). done.
Qed.

(** The contents of the file after each of the appended pieces. *)
Fixpoint growing (written : bytes) (pieces : list bytes) : list (option bytes) :=
  match pieces with
  | [] => []
  | p :: pieces' => Some (written ++ p) :: growing (written ++ p) pieces'
  end.

Lemma pid_receiver_growing `{!BpfMap PM Z Z} (pids : list (list Z)) : ∀ written (m : PM),
  Forall (Forall valid_pid) pids →
  pid_receiver (growing written (render_pids <$> pids)) (Receiver (length written) m) =
  Receiver (length (written ++ render_pids (mjoin pids)))
    (foldl register_pid m (mjoin pids)).
Proof.
  induction pids as [|ps pids IH]; intros written m Hv.
  { cbn. by rewrite app_nil_r. }
  inversion_clear Hv as [|?? Hps Hpids]. cbn [fmap list_fmap growing].
  unfold pid_receiver in *. cbn [foldl pid_receiver_poll file_pos rpid_map].
  rewrite drop_app_length, read_pids_render, <- length_app, IH by done.
  cbn [mjoin list_join]. rewrite foldl_app. f_equal.
  rewrite <- app_assoc. f_equal. unfold render_pids. by rewrite bind_app.
Qed.

(** ** Properties *)

(** C10. Snapshot files: for every iteration number an int can hold, the name is the path
    followed by the number, it fits the 30-byte buffer with its NUL (so the program does
    not exit), and different iterations use different files. *)
Theorem snapshot_names_fit_and_differ (i j : Z) :
  0 ≤ i ≤ INT_MAX → 0 ≤ j ≤ INT_MAX → i ≠ j →
  snapshot_name i = Some (snapshot_path ++ fmt_d i) ∧
  (length (snapshot_path ++ fmt_d i) < 30)%nat ∧
  snapshot_name i ≠ snapshot_name j.
Proof.
  intros Hi Hj Hne.
  assert (∀ n, 0 ≤ n ≤ INT_MAX →
    (length (snapshot_path ++ fmt_d n) < 30)%nat ∧
    snapshot_name n = Some (snapshot_path ++ fmt_d n)) as Hname.
  { intros n Hn. assert (length (snapshot_path ++ fmt_d n) < 30)%nat as Hl.
    { rewrite length_app, fmt_d_nonneg by lia.
      pose proof (length_fmt_u n 10 ltac:(lia) ltac:(unfold INT_MAX in *; cbn; lia)).
      change (length snapshot_path) with 19%nat. lia. }
    split; [done|]. unfold snapshot_name.
    rewrite concatenate_spec, bool_decide_true by (done || (unfold in_s32, INT_MIN; lia)). done. }
  destruct (Hname i Hi) as [? ->], (Hname j Hj) as [? ->]. split_and!; [done..|].
  intros [= E]. rewrite !fmt_d_nonneg in E by lia.
  apply fmt_u_inj in E; [done|unfold in_u64, INT_MAX in *; lia..].
Qed.

Lemma snapshot_names_fit_and_differ_witness :
  snapshot_name 12 = Some (snapshot_path ++ fmt_d 12) ∧
  (length (snapshot_path ++ fmt_d 12) < 30)%nat ∧ snapshot_name 12 ≠ snapshot_name 2147483647.
Proof. apply snapshot_names_fit_and_differ; unfold INT_MAX; lia. Defined.

(** The dump loop terminates on a map that does not change meanwhile and, unless the
    map has an entry for the zero key the loop starts from, writes one line for each
    entry, in the map's order, with that entry's hash, PID and access count. *)
Theorem dump_writes_every_entry {GM : Type}
    `{!BpfMap GM page_key metric, !BpfMapIter GM page_key metric}
    (pages : GM) (fuel : nat) :
  (length (map_keys pages) < fuel)%nat → zero_key ∉ map_keys pages →
  ∃ vals, Forall2 (λ k v, bpf_map_lookup_elem pages k = Some v) (map_keys pages) vals ∧
          dump fuel pages = Some (zip_with dump_line (map_keys pages) vals).
Proof.
  intros Hf Hz. rewrite dump_visits, decide_False by done.
  assert (Forall (λ k, is_Some (bpf_map_lookup_elem pages k)) (map_keys pages)) as Hall.
  { apply Forall_forall. intros k. apply map_keys_lookup. }
  clear Hf Hz.
  induction Hall as [|k ks [v Hv] _ IH]; [by exists []|]. destruct IH as (vals & Hvals & E).
  exists (v :: vals). split; [by constructor|]. injection E as E. cbn.
  unfold line_of at 1. rewrite Hv, E. done.
Qed.

Definition demo_pages : hmap page_key metric :=
  HMap {[ PageKey 65536 1 := Metric 2 3 4 43; PageKey 65536 4 := Metric 1 4 4 42 ]} 10.

Lemma dump_writes_every_entry_witness :
  ∃ vals, Forall2 (λ k v, bpf_map_lookup_elem demo_pages k = Some v) (map_keys demo_pages) vals ∧
          dump 3 demo_pages = Some (zip_with dump_line (map_keys demo_pages) vals).
Proof.
  apply (dump_writes_every_entry demo_pages 3); vm_compute; [lia|].
  by intros [?|[?|?%not_elem_of_nil]%elem_of_cons]%elem_of_cons.
Defined.

(** C11. The dump starts from the all-zero key as if it were absent.  If the map has an
    entry for page 0 of the null mapping, that entry and everything the map orders before
    it are missing from the snapshot: the dump is complete exactly when there is none. *)
Theorem dump_complete_iff_no_zero_key {GM : Type}
    `{!BpfMap GM page_key metric, !BpfMapIter GM page_key metric}
    (pages : GM) (fuel : nat) (lines : list bytes) :
  (length (map_keys pages) < fuel)%nat → dump fuel pages = Some lines →
  (length lines = length (map_keys pages) ↔ ¬ is_Some (bpf_map_lookup_elem pages zero_key)).
Proof.
  intros Hf Hd. rewrite <- map_keys_lookup. rewrite dump_visits in Hd by done.
  injection Hd as <-.
  assert (∀ ks, Forall (λ k, k ∈ map_keys pages) ks → length (ks ≫= line_of pages) = length ks)
    as Hlen.
  { induction 1 as [|k ks Hk _ IH]; [done|]. cbn. rewrite length_app, IH.
    apply map_keys_lookup in Hk as [v Hv]. unfold line_of. by rewrite Hv. }
  case_decide as Hz.
  - split; [|done]. intros E. exfalso. apply list_elem_of_split in Hz as (l1 & l2 & Ek).
    assert (zero_key ∉ l1) as Hl1.
    { pose proof (map_keys_NoDup pages) as Hnd. rewrite Ek in Hnd.
      apply NoDup_app in Hnd as (_ & Hdisj & _). intros Hk. apply (Hdisj _ Hk). by left. }
    rewrite Hlen in E; rewrite Ek, (after_app _ _ _ Hl1) in *.
    + rewrite length_app in E. cbn in E. lia.
    + apply Forall_forall. intros k Hk. rewrite elem_of_app, elem_of_cons. by right; right.
  - split; [done|]. intros _. apply Hlen. by apply Forall_forall.
Qed.

Definition zero_pages : hmap page_key metric :=
  HMap {[ PageKey 65536 1 := Metric 2 3 4 43; zero_key := Metric 1 4 4 42 ]} 10.

Lemma dump_complete_iff_no_zero_key_witness :
  length (default [] (dump 3 zero_pages)) = length (map_keys zero_pages) ↔
  ¬ is_Some (bpf_map_lookup_elem zero_pages zero_key).
Proof. apply (dump_complete_iff_no_zero_key zero_pages 3); vm_compute; [lia|done]. Defined.

(** C12. The identifier printed for a page determines its index within one file: the index
    is recovered by combining the identifier with the mapping again, so two pages of the
    same mapping never share an identifier. *)
Theorem hash_recovers_index (i m : Z) :
  in_u64 i → in_u64 m →
  Z.lxor (hash_index_mapping i m) m = i ∧
  ∀ j, in_u64 j → hash_index_mapping j m = hash_index_mapping i m → j = i.
Proof.
  intros Hi Hm.
  assert (∀ n, in_u64 n → Z.lxor (hash_index_mapping n m) m = n) as Hrec.
  { intros n Hn. unfold hash_index_mapping. rewrite !u64_small by done.
    by rewrite Z.lxor_assoc, Z.lxor_nilpotent, Z.lxor_0_r. }
  split; [by apply Hrec|]. intros j Hj E. by rewrite <- (Hrec j Hj), E, Hrec.
Qed.

Lemma hash_recovers_index_witness :
  Z.lxor (hash_index_mapping 5 65536) 65536 = 5 ∧
  ∀ j, in_u64 j → hash_index_mapping j 65536 = hash_index_mapping 5 65536 → j = 5.
Proof. apply hash_recovers_index; unfold in_u64; lia. Defined.

(** C13. The PID thread registers every PID appended to the file, once and in order,
    however the appends fall between its polls, as long as each poll sees whole lines. *)
Theorem pid_receiver_registers_all {PM : Type} `{!BpfMap PM Z Z}
    (pids : list (list Z)) (m : PM) :
  Forall (Forall valid_pid) pids →
  pid_receiver (growing [] (render_pids <$> pids)) (Receiver 0 m) =
  Receiver (length (render_pids (mjoin pids))) (foldl register_pid m (mjoin pids)).
Proof. apply (pid_receiver_growing pids []). Qed.

Lemma pid_receiver_registers_all_witness :
  pid_receiver (growing [] (render_pids <$> [[42; 43]; []; [2147483647]]))
    (Receiver 0 (HMap (∅ : gmap Z Z) 120)) =
  Receiver (length (render_pids (mjoin [[42; 43]; []; [2147483647]])))
    (foldl register_pid (HMap (∅ : gmap Z Z) 120) (mjoin [[42; 43]; []; [2147483647]])).
Proof.
  apply pid_receiver_registers_all. repeat constructor; unfold valid_pid, INT_MAX; lia.
Defined.

(** A poll that falls inside a line registers the wrong PIDs: if the thread reads the
    file when only the first digits of "1234" are there, it registers 12 and then 34, and
    1234 never. *)
Theorem partial_line_registers_wrong_pids :
  let m0 := HMap (∅ : gmap Z Z) 120 in
  let r := pid_receiver [Some (str "12"); Some (str "1234" ++ [10])] (Receiver 0 m0) in
  bpf_map_lookup_elem (rpid_map r) 12 = Some 1 ∧
  bpf_map_lookup_elem (rpid_map r) 34 = Some 1 ∧
  bpf_map_lookup_elem (rpid_map r) 1234 = None.
Proof. by vm_compute. Qed.
