(* ===== verification/Bootstrap.v ===== *)
(** * Bootstrap: process lifetimes, examples/c/bootstrap.bpf.c, bootstrap.h, bootstrap.c

    [handle_exec] and [handle_exit] are the two tracepoint handlers over exec_start and the
    ring buffer; [handle_event], [parse_arg] and [min_duration_ns_of] are the user-space
    functions ([main] is in [Loaders]).  A reserved sample is memory with arbitrary
    content: the handlers fill only some of its fields. *)

From S2P Require Import Prelude CInt CFormat BpfKernel.

Definition TASK_COMM_LEN : nat := 16.
Definition MAX_FILENAME_LEN : nat := 127.
Definition exec_start_max_entries : Z := 8192.

Record event := Event {
  e_pid : Z;
  e_ppid : Z;
  e_exit_code : Z;
  e_duration_ns : Z;
  e_comm : bytes;
  e_filename : bytes;
  e_exit_event : bool;
}.

(** What the helpers say about the task that runs the handler. *)
Record task := Task {
  pid_tgid : Z;            (* bpf_get_current_pid_tgid() *)
  ktime_ns : Z;            (* bpf_ktime_get_ns() *)
  real_parent_tgid : Z;    (* BPF_CORE_READ(task, real_parent, tgid) *)
  task_exit_code : Z;      (* BPF_CORE_READ(task, exit_code) *)
  comm : bytes;            (* bpf_get_current_comm: 16 bytes, NUL-terminated *)
}.

(** The exec tracepoint record: [data_loc] is __data_loc_filename, [rec_bytes] its memory. *)
Record exec_ctx := ExecCtx { data_loc : Z; rec_bytes : bytes }.

Section bpf.
Context {XM RB : Type}.
Context `{!BpfMap XM Z Z, !RingBuf RB event, !ProbeStr}.
Variable min_duration_ns : Z.

Record bstate := BState { exec_start : XM; rb : RB }.

Definition with_start (f : XM → XM) : ST bstate () :=
  modify (λ s, BState (f (exec_start s)) (rb s)).
Definition ringbuf_reserve : ST bstate (option event) :=
  λ s, let '(e, b) := bpf_ringbuf_reserve (rb s) in (e, BState (exec_start s) b).
Definition ringbuf_submit (e : event) : ST bstate () :=
  modify (λ s, BState (exec_start s) (bpf_ringbuf_submit e (rb s))).

Definition handle_exec (t : task) (ctx : exec_ctx) : ST bstate Z :=
  let pid := s32 (Z.shiftr (pid_tgid t) 32) in
  let ts := ktime_ns t in
  with_start (λ m, fst (bpf_map_update_elem m pid ts));;
  if negb (min_duration_ns =? 0) then mret 0 else
  e ← ringbuf_reserve;
  match e with
  | None => mret 0
  | Some e =>
      let fname_off := Z.land (data_loc ctx) 65535 in
      ringbuf_submit (Event pid (real_parent_tgid t) (e_exit_code e) (e_duration_ns e) (comm t)
        (bpf_probe_read_str (e_filename e) (drop (Z.to_nat fname_off) (rec_bytes ctx))) false);;
      mret 0
  end.

(** The part of [handle_exit] after the duration is known. *)
Definition finish_exit (t : task) (pid duration_ns : Z) : ST bstate Z :=
  with_start (λ m, fst (bpf_map_delete_elem m pid));;
  if negb (min_duration_ns =? 0) && (duration_ns <? min_duration_ns) then mret 0 else
  e ← ringbuf_reserve;
  match e with
  | None => mret 0
  | Some e =>
      ringbuf_submit (Event pid (real_parent_tgid t)
        (Z.land (Z.shiftr (task_exit_code t) 8) 255) duration_ns (comm t) (e_filename e) true);;
      mret 0
  end.

Definition handle_exit (t : task) : ST bstate Z :=
  let id := pid_tgid t in
  let pid := s32 (Z.shiftr id 32) in
  let tid := s32 (u32 id) in
  if negb (pid =? tid) then mret 0 else
  start_ts ← gets (λ s, bpf_map_lookup_elem (exec_start s) pid);
  match start_ts with
  | Some ts => finish_exit t pid (u64 (ktime_ns t - ts))
  | None => if negb (min_duration_ns =? 0) then mret 0 else finish_exit t pid 0
  end.

(** ** Sequences of tracepoint hits *)

Inductive hit :=
  | Exec (t : task) (ctx : exec_ctx)
  | Exit (t : task).

Definition handle_hit (h : hit) : ST bstate Z :=
  match h with
  | Exec t ctx => handle_exec t ctx
  | Exit t => handle_exit t
  end.

Definition run_hits (hs : list hit) (s : bstate) : bstate :=
  foldl (λ s h, exec (handle_hit h) s) s hs.
End bpf.
Arguments bstate : clear implicits.

(** ** User space *)

(** printf's of [handle_event]; [ts] is the time strftime formatted. *)
Definition handle_event (ts : bytes) (e : event) : bytes :=
  let comm := cstr (e_comm e) in
  if e_exit_event e then
    pad_right 8 ts ++ str " " ++ pad_right 5 (str "EXIT") ++ str " " ++ pad_right 16 comm ++
    str " " ++ pad_right 7 (fmt_d (e_pid e)) ++ str " " ++ pad_right 7 (fmt_d (e_ppid e)) ++
    str " [" ++ fmt_u (e_exit_code e) ++ str "]" ++
    (if negb (e_duration_ns e =? 0)
     then str " (" ++ fmt_u (e_duration_ns e / 1000000) ++ str "ms)" else []) ++ [10]
  else
    pad_right 8 ts ++ str " " ++ pad_right 5 (str "EXEC") ++ str " " ++ pad_right 16 comm ++
    str " " ++ pad_right 7 (fmt_d (e_pid e)) ++ str " " ++ pad_right 7 (fmt_d (e_ppid e)) ++
    str " " ++ cstr (e_filename e) ++ [10].

Record env := Env { verbose : bool; min_duration_ms : Z }.

(** The options argp hands to [parse_arg]; [argp_usage] exits. *)
Inductive argp_key := KeyV | KeyD | ARGP_KEY_ARG | KeyOther.
Inductive argp_result := Parsed (e : env) | UsageExit | ErrUnknown.

Definition parse_arg (key : argp_key) (arg : bytes) (e : env) : argp_result :=
  match key with
  | KeyV => Parsed (Env true (min_duration_ms e))
  | KeyD =>
      let '(ms, errno) := strtol arg in
      if errno || (ms <=? 0) then UsageExit else Parsed (Env (verbose e) ms)
  | ARGP_KEY_ARG => UsageExit
  | KeyOther => ErrUnknown
  end.

(** skel->rodata->min_duration_ns = env.min_duration_ms * 1000000ULL *)
Definition min_duration_ns_of (e : env) : Z := u64 (min_duration_ms e * 1000000).

(** libbpf_print_fn drops debug messages unless verbose. *)
Definition libbpf_print_shows (debug_level : bool) (e : env) : bool :=
  negb (debug_level && negb (verbose e)).

(** ** Lemmas *)

(** Run a handler symbolically. *)
Ltac bs_step := repeat (st_step; cbn [exec_start rb negb andb orb]).

Definition task_pid (t : task) : Z := s32 (Z.shiftr (pid_tgid t) 32).
(** The exiting task is the main thread of its process. *)
Definition main_thread (t : task) : bool := task_pid t =? s32 (u32 (pid_tgid t)).

Section laws.
Context {XM RB : Type}.
Context `{!BpfMap XM Z Z, !RingBuf RB event, !ProbeStr}.
Context `{!BpfMapLaws XM Z Z, !RingBufLaws RB event}.
Variable min_ns : Z.
Implicit Types (s : bstate XM RB) (t : task).

Definition start_of s (pid : Z) : option Z := bpf_map_lookup_elem (exec_start s) pid.
Definition samples s : list event := rb_samples (rb s).
(** The memory the next reservation hands out, if there is room. *)
Definition reserved s : option event := fst (bpf_ringbuf_reserve (rb s)).

(** The duration [handle_exit] works with; None when it returns before computing one. *)
Definition exit_duration s t : option Z :=
  match start_of s (task_pid t) with
  | Some ts => Some (u64 (ktime_ns t - ts))
  | None => if min_ns =? 0 then Some 0 else None
  end.

Definition exit_sample t (d : Z) (g : event) : event :=
  Event (task_pid t) (real_parent_tgid t) (Z.land (Z.shiftr (task_exit_code t) 8) 255) d
    (comm t) (e_filename g) true.
Definition exec_sample t (ctx : exec_ctx) (g : event) : event :=
  Event (task_pid t) (real_parent_tgid t) (e_exit_code g) (e_duration_ns g) (comm t)
    (bpf_probe_read_str (e_filename g)
       (drop (Z.to_nat (Z.land (data_loc ctx) 65535)) (rec_bytes ctx))) false.

Lemma reserve_run s :
  ringbuf_reserve s = (reserved s, BState (exec_start s) (snd (bpf_ringbuf_reserve (rb s)))).
Proof. unfold ringbuf_reserve, reserved. by destruct (bpf_ringbuf_reserve (rb s)). Qed.

Lemma exec_result s t ctx :
  let s' := exec (handle_exec min_ns t ctx) s in
  exec_start s' = fst (bpf_map_update_elem (exec_start s) (task_pid t) (ktime_ns t)) ∧
  samples s' = samples s ++
    (if min_ns =? 0 then match reserved s with Some g => [exec_sample t ctx g] | None => [] end
     else []).
Proof.
  unfold handle_exec, with_start, ringbuf_submit, exec, samples. bs_step.
  destruct (min_ns =? 0); bs_step; [|by rewrite app_nil_r].
  rewrite reserve_run. bs_step. unfold reserved. cbn [rb].
  destruct (fst (bpf_ringbuf_reserve (rb s))) as [g|]; bs_step.
  - by rewrite submit_samples, reserve_samples.
  - by rewrite app_nil_r, reserve_samples.
Qed.

Lemma finish_exit_result s t d :
  let s' := exec (finish_exit min_ns t (task_pid t) d) s in
  exec_start s' = fst (bpf_map_delete_elem (exec_start s) (task_pid t)) ∧
  samples s' = samples s ++
    (if (min_ns =? 0) || (min_ns <=? d)
     then match reserved s with Some g => [exit_sample t d g] | None => [] end
     else []).
Proof.
  unfold finish_exit, with_start, ringbuf_submit, exec, samples. bs_step.
  replace (negb (min_ns =? 0) && (d <? min_ns)) with (negb ((min_ns =? 0) || (min_ns <=? d)))
    by (destruct (min_ns =? 0); cbn; lia).
  destruct ((min_ns =? 0) || (min_ns <=? d)); bs_step; [|by rewrite app_nil_r].
  rewrite reserve_run. bs_step. unfold reserved. cbn [rb].
  destruct (fst (bpf_ringbuf_reserve (rb s))) as [g|]; bs_step.
  - by rewrite submit_samples, reserve_samples.
  - by rewrite app_nil_r, reserve_samples.
Qed.

Lemma exit_result s t :
  let s' := exec (handle_exit min_ns t) s in
  match (if main_thread t then exit_duration s t else None) with
  | None => s' = s
  | Some d =>
      exec_start s' = fst (bpf_map_delete_elem (exec_start s) (task_pid t)) ∧
      samples s' = samples s ++
        (if (min_ns =? 0) || (min_ns <=? d)
         then match reserved s with Some g => [exit_sample t d g] | None => [] end
         else [])
  end.
Proof.
  unfold handle_exit, main_thread, exit_duration, start_of. fold (task_pid t).
  destruct (task_pid t =? s32 (u32 (pid_tgid t))); unfold exec; bs_step; [|done].
  destruct (bpf_map_lookup_elem (exec_start s) (task_pid t)) as [ts|].
  - apply finish_exit_result.
  - destruct (min_ns =? 0) eqn:E; bs_step; [|done].
    pose proof (finish_exit_result s t 0) as Hf. by rewrite E in Hf.
Qed.
End laws.

(** ** What exec_start knows *)

Section lifetimes.
Context {XM RB : Type}.
Context `{!BpfMap XM Z Z, !RingBuf RB event, !ProbeStr}.
Context `{!BpfMapLaws XM Z Z, !BpfMapPresent XM Z Z, !RingBufLaws RB event}.
Variable min_ns : Z.
Implicit Types (s : bstate XM RB) (t : task).

(** The time of the last exec of [pid] that no exit of its main thread has followed. *)
Definition last_exec_step (pid : Z) (last : option Z) (h : hit) : option Z :=
  match h with
  | Exec t _ => if task_pid t =? pid then Some (ktime_ns t) else last
  | Exit t => if main_thread t && (task_pid t =? pid) then None else last
  end.
Definition last_exec (pid : Z) (hs : list hit) : option Z := foldl (last_exec_step pid) None hs.

(** What exec_start should contain: the start of each process, while there is a place. *)
Definition start_step (cap : nat) (m : gmap Z Z) (h : hit) : gmap Z Z :=
  match h with
  | Exec t _ =>
      if bool_decide (is_Some (m !! task_pid t) ∨ (size m < cap)%nat)
      then <[task_pid t := ktime_ns t]> m else m
  | Exit t => if main_thread t then delete (task_pid t) m else m
  end.
Definition starts (cap : nat) (hs : list hit) : gmap Z Z := foldl (start_step cap) ∅ hs.

Lemma starts_snoc cap hs h : starts cap (hs ++ [h]) = start_step cap (starts cap hs) h.
Proof. unfold starts. by rewrite foldl_app. Qed.
Lemma last_exec_snoc pid hs h : last_exec pid (hs ++ [h]) = last_exec_step pid (last_exec pid hs) h.
Proof. unfold last_exec. by rewrite foldl_app. Qed.

(** A start is the latest exec; one is missing only when there was no place for it. *)
Lemma starts_last cap hs pid ts : starts cap hs !! pid = Some ts → last_exec pid hs = Some ts.
Proof.
  revert ts. induction hs as [|h hs IH] using rev_ind; intros ts; [done|].
  rewrite starts_snoc, last_exec_snoc. destruct h as [t ctx|t]; cbn.
  - case_bool_decide as Hd.
    + rewrite lookup_insert. destruct (Z.eqb_spec (task_pid t) pid); case_decide; try done. apply IH.
    + destruct (Z.eqb_spec (task_pid t) pid) as [<-|]; [|apply IH].
      intros Hts. destruct Hd. left. by eexists.
  - destruct (main_thread t); cbn; [|apply IH]. rewrite lookup_delete.
    destruct (Z.eqb_spec (task_pid t) pid); case_decide; try done. apply IH.
Qed.

Lemma starts_size cap hs : (size (starts cap hs) ≤ length hs)%nat.
Proof.
  induction hs as [|h hs IH] using rev_ind; [done|]. rewrite starts_snoc, length_app. cbn.
  destruct h as [t ctx|t]; cbn.
  - case_bool_decide; [|lia]. rewrite map_size_insert. destruct (_ !! _); unfold id; lia.
  - destruct (main_thread t); [|lia]. rewrite map_size_delete. destruct (_ !! _); unfold id; lia.
Qed.

Lemma starts_complete cap hs pid :
  (length hs ≤ cap)%nat → starts cap hs !! pid = last_exec pid hs.
Proof.
  induction hs as [|h hs IH] using rev_ind; [done|]. rewrite length_app. cbn. intros Hl.
  rewrite starts_snoc, last_exec_snoc. destruct h as [t ctx|t]; cbn.
  - rewrite bool_decide_true by (right; pose proof (starts_size cap hs); lia).
    rewrite lookup_insert. destruct (Z.eqb_spec (task_pid t) pid); case_decide; try done. apply IH. lia.
  - destruct (main_thread t); cbn; [|apply IH; lia]. rewrite lookup_delete.
    destruct (Z.eqb_spec (task_pid t) pid); case_decide; try done. apply IH. lia.
Qed.

Lemma exit_start_lookup s t pid :
  start_of (exec (handle_exit min_ns t) s) pid =
  if main_thread t && (task_pid t =? pid) then None else start_of s pid.
Proof.
  pose proof (exit_result min_ns s t) as Hres. cbn in Hres.
  destruct (main_thread t) eqn:Em; cbn [andb] in *; [|by rewrite Hres].
  unfold exit_duration in Hres.
  destruct (start_of s (task_pid t)) as [ts|] eqn:E.
  - destruct Hres as [Hres _]. unfold start_of in *. rewrite Hres, delete_lookup.
    rewrite (decide_True (P:=snd _ = 0)) by (apply delete_present; by rewrite E).
    destruct (Z.eqb_spec (task_pid t) pid); case_decide; done.
  - destruct (min_ns =? 0).
    + destruct Hres as [Hres _]. unfold start_of in *. rewrite Hres, delete_lookup.
      destruct (Z.eqb_spec (task_pid t) pid) as [<-|]; repeat case_decide; done.
    + rewrite Hres. by destruct (Z.eqb_spec (task_pid t) pid) as [<-|].
Qed.

Context `{!BpfHashMap XM Z Z}.

Lemma exec_start_lookup s t ctx m pid :
  (∀ pid, start_of s pid = m !! pid) →
  start_of (exec (handle_exec min_ns t ctx) s) pid =
  start_step (capacity (exec_start s)) m (Exec t ctx) !! pid.
Proof.
  intros Hm. destruct (exec_result min_ns s t ctx) as [E _]. unfold start_of in *.
  rewrite E, update_lookup. cbn.
  assert (snd (bpf_map_update_elem (exec_start s) (task_pid t) (ktime_ns t)) = 0 ↔
          is_Some (m !! task_pid t) ∨ (size m < capacity (exec_start s))%nat) as Hcode.
  { destruct (m !! task_pid t) as [x|] eqn:Ex.
    - split; [intros _; left; by eexists|]. intros _. apply update_present. rewrite Hm, Ex. by eexists.
    - rewrite (hash_update _ _ _ (elements (dom m))).
      + rewrite (size_keys m (elements (dom m))); [|apply NoDup_elements|].
        * split; [by right|]. by intros [[? ?]|?].
        * intros k. by rewrite elem_of_elements, elem_of_dom.
      + apply NoDup_elements.
      + intros k. by rewrite elem_of_elements, elem_of_dom, Hm.
      + by rewrite Hm. }
  case_bool_decide as Hd.
  - rewrite lookup_insert. rewrite (decide_True (P:=snd _ = 0)) by by apply Hcode.
    case_decide; [done|apply Hm].
  - rewrite (decide_False (P:=snd _ = 0)) by by rewrite Hcode. case_decide; apply Hm.
Qed.

Lemma hit_start_lookup s h m pid :
  (∀ pid, start_of s pid = m !! pid) →
  start_of (exec (handle_hit min_ns h) s) pid = start_step (capacity (exec_start s)) m h !! pid.
Proof.
  intros Hm. destruct h as [t ctx|t]; [by apply exec_start_lookup|].
  cbn [handle_hit]. rewrite exit_start_lookup, Hm. cbn. destruct (main_thread t); cbn; [|done].
  rewrite lookup_delete. destruct (Z.eqb_spec (task_pid t) pid); by case_decide.
Qed.

Lemma hit_capacity s h :
  capacity (exec_start (exec (handle_hit min_ns h) s)) = capacity (exec_start s).
Proof.
  destruct h as [t ctx|t]; cbn [handle_hit].
  - destruct (exec_result min_ns s t ctx) as [-> _]. apply capacity_update.
  - pose proof (exit_result min_ns s t) as Hres. cbn in Hres.
    destruct (if main_thread t then _ else _); [|by rewrite Hres].
    destruct Hres as [-> _]. apply capacity_delete.
Qed.

Lemma run_starts s hs :
  (∀ pid, start_of s pid = None) →
  (∀ pid, start_of (run_hits min_ns hs s) pid = starts (capacity (exec_start s)) hs !! pid) ∧
  capacity (exec_start (run_hits min_ns hs s)) = capacity (exec_start s).
Proof.
  intros Hempty. induction hs as [|h hs IH] using rev_ind.
  { split; [|done]. intros pid. cbn. by rewrite Hempty. }
  unfold run_hits in *. rewrite foldl_app. cbn [foldl]. destruct IH as [IH Hc]. split.
  - intros pid. by rewrite (hit_start_lookup _ _ _ _ IH), starts_snoc, Hc.
  - by rewrite hit_capacity.
Qed.
End lifetimes.

(** ** The printed line *)

(** The memory of a sample as the ring buffer lays it out. *)
Definition sample_sized (g : event) : Prop := length (e_filename g) = MAX_FILENAME_LEN.

Lemma exec_line `{!ProbeStr} ts t ctx g :
  sample_sized g →
  handle_event ts (exec_sample t ctx g) =
  pad_right 8 ts ++ str " " ++ pad_right 5 (str "EXEC") ++ str " " ++
  pad_right 16 (cstr (comm t)) ++ str " " ++ pad_right 7 (fmt_d (task_pid t)) ++ str " " ++
  pad_right 7 (fmt_d (real_parent_tgid t)) ++ str " " ++
  take 126 (cstr (drop (Z.to_nat (Z.land (data_loc ctx) 65535)) (rec_bytes ctx))) ++ [10].
Proof.
  intros Hg. unfold handle_event. cbn [e_exit_event exec_sample e_comm e_pid e_ppid e_filename].
  unfold sample_sized, MAX_FILENAME_LEN in Hg.
  rewrite probe_read_str_cstr by (rewrite Hg; lia). by rewrite Hg.
Qed.

(** ** Examples *)

Definition demo_task (pid tid now : Z) : task :=
  Task (Z.lor (Z.shiftl pid 32) tid) now 1 (Z.shiftl 3 8) (str "sh" ++ replicate 14 0).
Definition stale_sample : event := Event 9 9 9 9 [] (replicate 127 65) false.
Definition demo_bstate (room : nat) : bstate (hmap Z Z) (rqueue event) :=
  BState (HMap ∅ (Z.to_nat exec_start_max_entries)) (RQueue [] room stale_sample).
Definition demo_ctx : exec_ctx := ExecCtx 524292 (str "xxxx/bin/sh" ++ [0; 1; 2]).

Example demo_lifetime :
  samples (run_hits 0 [Exec (demo_task 7 7 1000) demo_ctx; Exit (demo_task 7 8 1500);
                       Exit (demo_task 7 7 4001000)] (demo_bstate 5)) =
  [exec_sample (demo_task 7 7 1000) demo_ctx stale_sample;
   exit_sample (demo_task 7 7 4001000) 4000000 stale_sample].
Proof. vm_compute. reflexivity. Qed.

Example demo_line :
  handle_event (str "19:18:32") (exit_sample (demo_task 7 7 4001000) 4000000 stale_sample) =
  str "19:18:32 EXIT  sh               7       1       [3] (4ms)" ++ [10].
Proof. vm_compute. reflexivity. Qed.

(** ** Properties *)

(** C14. When an exit is reported: handle_exit submits a sample exactly when the main thread
    exits, a sample could be reserved, and either no minimum is set or the recorded start
    of the process is at least the minimum ago; the sample then carries the exit status
    byte and that duration.  In every case exec_start has no entry for the process after
    its main thread's exit. *)
Theorem exit_reported_iff {XM RB : Type}
    `{!BpfMap XM Z Z, !RingBuf RB event}
    `{!BpfMapLaws XM Z Z, !BpfMapPresent XM Z Z, !RingBufLaws RB event}
    (min_ns : Z) (s : bstate XM RB) (t : task) (e : event) :
  0 ≤ min_ns →
  let s' := exec (handle_exit min_ns t) s in
  (samples s' = samples s ++ [e] ↔
   main_thread t = true ∧
   ∃ g d, reserved s = Some g ∧ e = exit_sample t d g ∧
     (start_of s (task_pid t) = None ∧ min_ns = 0 ∧ d = 0 ∨
      ∃ ts, start_of s (task_pid t) = Some ts ∧ d = u64 (ktime_ns t - ts) ∧ min_ns ≤ d)) ∧
  (main_thread t = true → start_of s' (task_pid t) = None).
Proof.
  intros Hmin s'. split; last first.
  { intros Hm. unfold s'. by rewrite exit_start_lookup, Hm, Z.eqb_refl. }
  pose proof (exit_result min_ns s t) as Hres. cbn in Hres. fold s' in Hres.
  destruct (main_thread t); last first.
  { rewrite Hres. split; [by intros E%app_self_nil|by intros []]. }
  unfold exit_duration in Hres.
  destruct (start_of s (task_pid t)) as [ts|].
  - destruct Hres as [_ ->].
    replace ((min_ns =? 0) || (min_ns <=? u64 (ktime_ns t - ts)))
      with (min_ns <=? u64 (ktime_ns t - ts))
      by (pose proof (u64_range (ktime_ns t - ts)); lia).
    destruct (Z.leb_spec min_ns (u64 (ktime_ns t - ts))).
    + destruct (reserved s) as [g|].
      * split.
        -- intros [= <-]%app_inv_head. split; [done|]. eexists g, _.
           split_and!; [done..|]. right. by exists ts.
        -- intros (_ & g' & d & [= ->] & -> & [[? _]|(ts' & [= ->] & -> & _)]); done.
      * split; [by intros E%app_inv_head|]. by intros (_ & g' & d & ? & _).
    + split; [by intros E%app_inv_head|].
      intros (_ & g' & d & _ & _ & [[? _]|(ts' & [= ->] & -> & ?)]); [done|lia].
  - destruct (Z.eqb_spec min_ns 0).
    + destruct Hres as [_ ->]. cbn [orb]. destruct (reserved s) as [g|].
      * split.
        -- intros [= <-]%app_inv_head. split; [done|]. eexists g, _.
           split_and!; [done..|]. by left.
        -- by intros (_ & g' & d & [= ->] & -> & [(_ & _ & ->)|(ts' & ? & _)]).
      * split; [by intros E%app_inv_head|]. by intros (_ & g' & d & ? & _).
    + rewrite Hres. split; [by intros E%app_self_nil|].
      by intros (_ & g' & d & _ & _ & [(_ & ? & _)|(ts' & ? & _)]).
Qed.

Lemma exit_reported_iff_witness :
  let s := run_hits 5 [Exec (demo_task 7 7 1000) demo_ctx] (demo_bstate 5) in
  let s' := exec (handle_exit 5 (demo_task 7 7 1500)) s in
  let e := exit_sample (demo_task 7 7 1500) 500 stale_sample in
  (samples s' = samples s ++ [e] ↔
   main_thread (demo_task 7 7 1500) = true ∧
   ∃ g d, reserved s = Some g ∧ e = exit_sample (demo_task 7 7 1500) d g ∧
     (start_of s (task_pid (demo_task 7 7 1500)) = None ∧ 5 = 0 ∧ d = 0 ∨
      ∃ ts, start_of s (task_pid (demo_task 7 7 1500)) = Some ts ∧
            d = u64 (ktime_ns (demo_task 7 7 1500) - ts) ∧ 5 ≤ d)) ∧
  (main_thread (demo_task 7 7 1500) = true → start_of s' (task_pid (demo_task 7 7 1500)) = None).
Proof. intros s s' e. apply (exit_reported_iff 5 s (demo_task 7 7 1500) e). lia. Defined.

(** C15. The duration an exit event reports is the time since the latest exec of that
    process.  After any sequence of tracepoint hits from an empty exec_start, the map holds
    exactly [starts]: the time of the last exec of each process that its main thread's exit
    has not followed, except for processes that found no place in the map, which takes more
    hits than it has places.  An event handle_exit then submits has the duration since the
    recorded start, and the duration 0 only if none is recorded and no minimum is set. *)
Theorem reported_duration_is_lifetime {XM RB : Type}
    `{!BpfMap XM Z Z, !RingBuf RB event, !ProbeStr}
    `{!BpfMapLaws XM Z Z, !BpfMapPresent XM Z Z, !BpfHashMap XM Z Z, !RingBufLaws RB event}
    (min_ns : Z) (s : bstate XM RB) (hs : list hit) :
  (∀ pid, start_of s pid = None) →
  let cap := capacity (exec_start s) in
  let s1 := run_hits min_ns hs s in
  (∀ pid, start_of s1 pid = starts cap hs !! pid) ∧
  (∀ pid ts, starts cap hs !! pid = Some ts → last_exec pid hs = Some ts) ∧
  ((length hs ≤ cap)%nat → ∀ pid, starts cap hs !! pid = last_exec pid hs) ∧
  ∀ t e, samples (exec (handle_exit min_ns t) s1) = samples s1 ++ [e] →
    e_pid e = task_pid t ∧ e_exit_event e = true ∧
    match starts cap hs !! task_pid t with
    | Some ts => e_duration_ns e = u64 (ktime_ns t - ts)
    | None => min_ns = 0 ∧ e_duration_ns e = 0
    end.
Proof.
  intros Hempty cap s1. destruct (run_starts min_ns s hs Hempty) as [Hok _].
  split; [done|]. split; [intros pid ts; apply starts_last|].
  split; [intros Hl pid; by apply starts_complete|].
  intros t e Hs. rewrite <- Hok. pose proof (exit_result min_ns s1 t) as Hres. cbn in Hres.
  destruct (main_thread t); [|rewrite Hres in Hs; by apply app_self_nil in Hs].
  destruct (exit_duration min_ns s1 t) as [d|] eqn:Ed; [|rewrite Hres in Hs; by apply app_self_nil in Hs].
  destruct Hres as [_ Hres]. rewrite Hres in Hs. apply app_inv_head in Hs.
  destruct (_ || _); [|done]. destruct (reserved s1) as [g|]; [|done].
  injection Hs as <-. split_and!; [done..|]. cbn. unfold exit_duration in Ed. fold s1.
  destruct (start_of s1 (task_pid t)) as [ts|]; [by injection Ed as <-|].
  destruct (Z.eqb_spec min_ns 0); [|done]. split; [done|]. by injection Ed as <-.
Qed.

Definition demo_hits : list hit :=
  [Exec (demo_task 7 7 1000) demo_ctx; Exit (demo_task 7 8 1500); Exec (demo_task 9 9 1700) demo_ctx].

Lemma reported_duration_is_lifetime_witness :
  let s := demo_bstate 5 in
  let cap := capacity (exec_start s) in
  let s1 := run_hits 0 demo_hits s in
  (∀ pid, start_of s1 pid = starts cap demo_hits !! pid) ∧
  (∀ pid ts, starts cap demo_hits !! pid = Some ts → last_exec pid demo_hits = Some ts) ∧
  ((length demo_hits ≤ cap)%nat → ∀ pid, starts cap demo_hits !! pid = last_exec pid demo_hits) ∧
  ∀ t e, samples (exec (handle_exit 0 t) s1) = samples s1 ++ [e] →
    e_pid e = task_pid t ∧ e_exit_event e = true ∧
    match starts cap demo_hits !! task_pid t with
    | Some ts => e_duration_ns e = u64 (ktime_ns t - ts)
    | None => 0 = 0 ∧ e_duration_ns e = 0
    end.
Proof. apply (reported_duration_is_lifetime 0 (demo_bstate 5) demo_hits). done. Defined.

(** C25. Nothing of the stale ring-buffer memory is printed: two runs of a handler that
    differ only in the content of the memory they reserve leave user space printing the
    same lines. *)
Theorem printed_lines_ignore_stale_memory {XM RB : Type}
    `{!BpfMap XM Z Z, !RingBuf RB event, !ProbeStr}
    `{!BpfMapLaws XM Z Z, !RingBufLaws RB event}
    (min_ns : Z) (ts : bytes) (h : hit) (s1 s2 : bstate XM RB) (g1 g2 : event) :
  exec_start s1 = exec_start s2 →
  reserved s1 = Some g1 → sample_sized g1 → reserved s2 = Some g2 → sample_sized g2 →
  handle_event ts <$> samples s1 = handle_event ts <$> samples s2 →
  let s1' := exec (handle_hit min_ns h) s1 in
  let s2' := exec (handle_hit min_ns h) s2 in
  exec_start s1' = exec_start s2' ∧
  handle_event ts <$> samples s1' = handle_event ts <$> samples s2'.
Proof.
  intros Hx R1 Z1 R2 Z2 Ho. destruct h as [t ctx|t]; cbn [handle_hit].
  - destruct (exec_result min_ns s1 t ctx) as [-> ->], (exec_result min_ns s2 t ctx) as [-> ->].
    rewrite Hx, R1, R2, !fmap_app, Ho. split; [done|]. f_equal.
    destruct (min_ns =? 0); [|done]. cbn [fmap list_fmap]. by rewrite !exec_line.
  - pose proof (exit_result min_ns s1 t) as H1. pose proof (exit_result min_ns s2 t) as H2.
    cbn in H1, H2. unfold exit_duration, start_of in *. rewrite Hx in H1.
    destruct (if main_thread t then _ else None) as [d|]; [|by rewrite H1, H2].
    destruct H1 as [-> ->], H2 as [-> ->]. rewrite R1, R2, !fmap_app, Ho.
    split; [done|]. f_equal. by destruct (_ || _).
Qed.

Lemma printed_lines_ignore_stale_memory_witness :
  let g := Event 0 0 0 0 [] (replicate 127 0) true in
  let s1 := demo_bstate 2 in
  let s2 := BState (exec_start s1) (RQueue [] 7 g) in
  let h := Exec (demo_task 7 7 1000) demo_ctx in
  exec_start (exec (handle_hit 0 h) s1) = exec_start (exec (handle_hit 0 h) s2) ∧
  handle_event [] <$> samples (exec (handle_hit 0 h) s1) =
  handle_event [] <$> samples (exec (handle_hit 0 h) s2).
Proof.
  intros g s1 s2 h.
  by apply (printed_lines_ignore_stale_memory 0 [] h s1 s2 stale_sample g).
Defined.

Lemma parse_arg_duration (arg : bytes) (e : env) (ms : Z) :
  parse_arg KeyD arg e = Parsed (Env (verbose e) ms) ↔
  ∃ v, scan_int arg = Some v ∧ 1 ≤ v ≤ LLONG_MAX ∧ ms = v.
Proof.
  cbn. unfold strtol. destruct (scan_int arg) as [v|]; cbn; last first.
  { split; [done|]. by intros (v & ? & _). }
  unfold clamp64. case_bool_decide as Hr; cbn; unfold in_s64, LLONG_MIN, LLONG_MAX in *.
  - destruct (Z.leb_spec (Z.max (- 2 ^ 63) (Z.min (2 ^ 63 - 1) v)) 0).
    + split; [done|]. intros (v' & [= <-] & ? & _). lia.
    + split; [intros [= <-]; exists v; split_and!; [done|lia..]|].
      intros (v' & [= <-] & ? & ->). do 2 f_equal. lia.
  - split; [done|]. intros (v' & [= <-] & ? & _). lia.
Qed.

(** C38. -d DURATION: parse_arg accepts an argument exactly when its leading integer is between 1
    and LONG_MAX, and stores that number of milliseconds; its conversion to nanoseconds is
    exact up to 18446744073709 ms and wraps beyond: 288230376151711744 ms is accepted, but the
    BPF side gets the minimum 0 and so reports every process. *)
Theorem duration_option (arg : bytes) (e : env) (ms : Z) :
  (parse_arg KeyD arg e = Parsed (Env (verbose e) ms) ↔
   ∃ v, scan_int arg = Some v ∧ 1 ≤ v ≤ LLONG_MAX ∧ ms = v) ∧
  (∀ e, 0 ≤ min_duration_ms e ≤ 18446744073709 →
        min_duration_ns_of e = min_duration_ms e * 1000000) ∧
  ∃ e, parse_arg KeyD (str "288230376151711744") (Env false 0) = Parsed e ∧
       min_duration_ms e = 288230376151711744 ∧ min_duration_ns_of e = 0.
Proof.
  split_and!.
  - apply parse_arg_duration.
  - intros e' He. unfold min_duration_ns_of. apply u64_small. unfold in_u64. lia.
  - exists (Env false 288230376151711744). by vm_compute.
Qed.
