(* ===== verification/Sockfilter.v ===== *)
(** * Sockfilter: the socket filter, examples/c/sockfilter.bpf.c, sockfilter.h, sockfilter.c

    [socket_handler] looks at every packet of a raw socket and submits an event for IPv4
    packets that are not fragments; [handle_event] prints it in user space.  As in
    [Bootstrap], a reserved sample has arbitrary content.  The 32-bit fields hold what the
    little-endian host reads from the bytes stored in them.  ([main] and [open_raw_sock]
    are in [Loaders].) *)

From S2P Require Import Prelude CInt CFormat BpfKernel.

(** ** Constants of the packet headers *)

Definition ETH_HLEN : Z := 14.
Definition ETH_P_IP : Z := 2048.
Definition IP_MF : Z := 8192.
Definition IP_OFFSET : Z := 8191.
(** offsetof in struct iphdr *)
Definition off_frag_off : Z := 6.
Definition off_protocol : Z := 9.
Definition off_saddr : Z := 12.
Definition off_daddr : Z := 16.
Definition IPPROTO_GRE : Z := 47.
Definition PACKET_HOST : Z := 0.

Record so_event := SoEvent {
  src_addr : Z;
  dst_addr : Z;
  ports : Z;         (* the union of ports and port16[2] *)
  ip_proto : Z;
  pkt_type : Z;
  ifindex : Z;
}.

(** port16[0] and port16[1] of the union, on the little-endian host. *)
Definition port16_0 (e : so_event) : Z := u16 (ports e).
Definition port16_1 (e : so_event) : Z := u16 (Z.shiftr (ports e) 16).

(** What the program reads of a __sk_buff. *)
Record sk_buff := SkBuff { skb_data : bytes; skb_len : Z; skb_pkt_type : Z; skb_ifindex : Z }.

(** Content of the uninitialised locals proto, frag_off and verlen. *)
Record locals := Locals { junk_proto : Z; junk_frag : Z; junk_verlen : Z }.

Section bpf.
Context {RB : Type} `{!RingBuf RB so_event, !SkbLoad}.

(** Load [n] bytes at [off] into the first [n] bytes of a [size]-byte little-endian object. *)
Definition load_into (size n : nat) (skb : sk_buff) (off old : Z) : Z :=
  let mem := le_bytes size old in
  le_value (bpf_skb_load_bytes (skb_data skb) off (take n mem) ++ drop n mem).

Definition ip_is_fragment (skb : sk_buff) (nhoff junk : Z) : Z :=
  let frag_off := load_into 2 2 skb (nhoff + off_frag_off) junk in
  let frag_off := ntohs frag_off in
  Z.land frag_off (Z.lor IP_MF IP_OFFSET).

Definition socket_handler (skb : sk_buff) (j : locals) : ST RB Z :=
  let nhoff := ETH_HLEN in
  let proto := load_into 2 2 skb 12 (junk_proto j) in
  let proto := ntohs proto in
  if negb (proto =? ETH_P_IP) then mret 0 else
  if negb (ip_is_fragment skb nhoff (junk_frag j) =? 0) then mret 0 else
  e ← (bpf_ringbuf_reserve : ST RB (option so_event));
  match e with
  | None => mret 0
  | Some e =>
      let proto := load_into 4 1 skb (nhoff + off_protocol) (ip_proto e) in
      let '(src, dst) :=
        if negb (proto =? IPPROTO_GRE)
        then (load_into 4 4 skb (nhoff + off_saddr) (src_addr e),
              load_into 4 4 skb (nhoff + off_daddr) (dst_addr e))
        else (src_addr e, dst_addr e) in
      let verlen := load_into 1 1 skb (nhoff + 0) (junk_verlen j) in
      let ports := load_into 4 4 skb (nhoff + Z.shiftl (Z.land verlen 15) 2) (ports e) in
      modify (bpf_ringbuf_submit (SoEvent src dst ports proto (skb_pkt_type skb) (skb_ifindex skb)));;
      mret (s32 (skb_len skb))
  end.
End bpf.

(** ** User space *)

(** The initialisers of ipproto_mapping[]: index and name. *)
Definition ipproto_names : list (Z * bytes) :=
  [(0, str "IP"); (1, str "ICMP"); (2, str "IGMP"); (4, str "IPIP"); (6, str "TCP");
   (8, str "EGP"); (12, str "PUP"); (17, str "UDP"); (22, str "IDP"); (29, str "TP");
   (33, str "DCCP"); (41, str "IPV6"); (46, str "RSVP"); (47, str "GRE"); (50, str "ESP");
   (51, str "AH"); (92, str "MTP"); (94, str "BEETPH"); (98, str "ENCAP"); (103, str "PIM");
   (108, str "COMP"); (132, str "SCTP"); (136, str "UDPLITE"); (137, str "MPLS");
   (255, str "RAW")].

(** ipproto_mapping[proto]; an index without an initialiser is a null pointer. *)
Definition ipproto_mapping (proto : Z) : option bytes :=
  snd <$> find (λ entry, fst entry =? proto) ipproto_names.

Definition ltoa (addr : Z) : bytes :=
  snprintf_cut 16
    (fmt_u (Z.land (Z.shiftr addr 24) 255) ++ str "." ++
     fmt_u (Z.land (Z.shiftr addr 16) 255) ++ str "." ++
     fmt_u (Z.land (Z.shiftr addr 8) 255) ++ str "." ++ fmt_u (Z.land addr 255)).

(** What a call prints: nothing, a line, or a line with a null pointer for a %s. *)
Inductive printed :=
  | Nothing
  | Line (l : bytes)
  | NullString.

(** [proto_max] is IPPROTO_MAX of the system headers; [if_indextoname] is libc's. *)
Definition handle_event (proto_max : Z) (if_indextoname : Z → option bytes) (e : so_event) : printed :=
  if negb (pkt_type e =? PACKET_HOST) then Nothing else
  if (ip_proto e <? 0) || (proto_max <=? ip_proto e) then Nothing else
  match if_indextoname (ifindex e) with
  | None => Nothing
  | Some ifname =>
      let sstr := ltoa (ntohl (src_addr e)) in
      let dstr := ltoa (ntohl (dst_addr e)) in
      match ipproto_mapping (ip_proto e) with
      | None => NullString
      | Some name =>
          Line (str "interface: " ++ ifname ++ [9] ++ str "protocol: " ++ name ++ [9] ++
                sstr ++ str ":" ++ fmt_d (ntohs (port16_0 e)) ++ str "(src) -> " ++
                dstr ++ str ":" ++ fmt_d (ntohs (port16_1 e)) ++ str "(dst)" ++ [10])
      end
  end.

(** parse_arg: -i sets the interface, an argument prints the usage and exits. *)
Inductive argp_key := KeyI | ARGP_KEY_ARG | KeyOther.
Inductive argp_result := Parsed (interface : bytes) | UsageExit | ErrUnknown.
Definition parse_arg (key : argp_key) (arg interface : bytes) : argp_result :=
  match key with
  | KeyI => Parsed arg
  | ARGP_KEY_ARG => UsageExit
  | KeyOther => ErrUnknown
  end.

(** ** What a packet says *)

(** [n] bytes of the packet at offset [off], and their network-order value. *)
Definition slice (off n : nat) (data : bytes) : bytes := take n (drop off data).
Definition net (off n : nat) (data : bytes) : Z := be_value (slice off n data).

(** The IPv4 header length in bytes, from the low nibble of its first byte. *)
Definition header_len (data : bytes) : nat := Z.to_nat (4 * Z.land (net 14 1 data) 15).

(** A packet long enough for the Ethernet header, the IPv4 header with its options, and
    the two ports. *)
Definition well_sized (data : bytes) : Prop :=
  Forall is_byte data ∧ (34 ≤ length data)%nat ∧ (14 + header_len data + 4 ≤ length data)%nat.

Definition is_ipv4 (data : bytes) : bool := net 12 2 data =? ETH_P_IP.
Definition is_fragment (data : bytes) : bool := negb (Z.land (net 20 2 data) 16383 =? 0).

Lemma length_slice off n data : (off + n ≤ length data)%nat → length (slice off n data) = n.
Proof. intros Hl. unfold slice. rewrite length_take, length_drop. lia. Qed.

Lemma slice_bytes off n data : Forall is_byte data → Forall is_byte (slice off n data).
Proof. intros Hb. by apply Forall_take, Forall_drop. Qed.

Lemma slice_split off n m data :
  slice off (n + m) data = slice off n data ++ slice (off + n) m data.
Proof. unfold slice. by rewrite <- take_take_drop, drop_drop. Qed.

Lemma net_byte off data : Forall is_byte data → 0 ≤ net off 1 data < 256.
Proof.
  intros Hb. pose proof (le_value_range (reverse (slice off 1 data))
    (proj2 (Forall_reverse _ _) (slice_bytes off 1 data Hb))) as Hr.
  rewrite length_reverse in Hr. unfold slice in Hr. rewrite length_take in Hr.
  assert (256 ^ Z.of_nat (1 `min` length (drop off data)) ≤ 256 ^ 1)
    by (apply Z.pow_le_mono_r; lia).
  unfold net, be_value, slice. lia.
Qed.

Section loads.
Context `{!SkbLoad}.

Lemma load_into_full n skb (off : nat) old :
  (off + n ≤ length (skb_data skb))%nat →
  load_into n n skb (Z.of_nat off) old = le_value (slice off n (skb_data skb)).
Proof.
  intros Hl. unfold load_into. rewrite firstn_all2, skipn_all2, app_nil_r
    by (rewrite length_le_bytes; lia).
  rewrite skb_load_spec by (rewrite ?length_le_bytes; lia). by rewrite length_le_bytes, Nat2Z.id.
Qed.

(** One byte loaded into a 32-bit field leaves its three upper bytes as they were. *)
Lemma load_into_low_byte skb (off : nat) old :
  (off + 1 ≤ length (skb_data skb))%nat → in_u32 old →
  load_into 4 1 skb (Z.of_nat off) old = net off 1 (skb_data skb) + 256 * (old / 256).
Proof.
  intros Hl Hold. unfold load_into. cbn [le_bytes take drop].
  rewrite skb_load_spec by (cbn; lia). cbn [length]. rewrite Nat2Z.id.
  pose proof (length_slice off 1 (skb_data skb) Hl) as Hs. unfold net. fold (slice off 1 (skb_data skb)).
  destruct (slice off 1 (skb_data skb)) as [|b [|]]; [done| |done].
  rewrite le_value_app. cbn [length]. change (256 ^ Z.of_nat 1) with 256.
  change [old / 256 mod 256; old / 256 / 256 mod 256; old / 256 / 256 / 256 mod 256]
    with (le_bytes 3 (old / 256)).
  rewrite le_value_bytes; [done|]. unfold in_u32 in Hold.
  split; [apply Z.div_pos; lia|]. apply Z.div_lt_upper_bound; cbn; lia.
Qed.

Lemma load_short skb (off : nat) junk :
  Forall is_byte (skb_data skb) → (off + 2 ≤ length (skb_data skb))%nat →
  ntohs (load_into 2 2 skb (Z.of_nat off) junk) = net off 2 (skb_data skb).
Proof.
  intros Hb Hl. rewrite load_into_full by done.
  by rewrite ntohs_le_value by (apply slice_bytes || apply length_slice; done).
Qed.

Lemma ip_is_fragment_spec skb junk :
  Forall is_byte (skb_data skb) → (34 ≤ length (skb_data skb))%nat →
  (ip_is_fragment skb ETH_HLEN junk =? 0) = negb (is_fragment (skb_data skb)).
Proof.
  intros Hb Hl. unfold ip_is_fragment, ETH_HLEN, off_frag_off, is_fragment.
  change (14 + 6) with (Z.of_nat 20). rewrite load_short by (done || lia).
  by rewrite negb_involutive.
Qed.
End loads.

(** ** The event of a packet *)

Section handler.
Context {RB : Type} `{!RingBuf RB so_event, !SkbLoad, !RingBufLaws RB so_event}.
Implicit Types (b : RB) (skb : sk_buff).

(** The fields of the event [socket_handler] submits, from the packet and the content [g]
    the reserved sample had. *)
Definition event_of (skb : sk_buff) (g : so_event) : so_event :=
  let data := skb_data skb in
  let proto := net 23 1 data + 256 * (ip_proto g / 256) in
  SoEvent
    (if proto =? IPPROTO_GRE then src_addr g else le_value (slice 26 4 data))
    (if proto =? IPPROTO_GRE then dst_addr g else le_value (slice 30 4 data))
    (le_value (slice (14 + header_len data) 4 data)) proto (skb_pkt_type skb) (skb_ifindex skb).

Lemma handler_result skb j b :
  well_sized (skb_data skb) →
  (∀ g, fst (bpf_ringbuf_reserve b) = Some g → in_u32 (ip_proto g)) →
  let r := socket_handler skb j b in
  if is_ipv4 (skb_data skb) && negb (is_fragment (skb_data skb)) then
    match fst (bpf_ringbuf_reserve b) with
    | Some g => rb_samples (snd r) = rb_samples b ++ [event_of skb g] ∧ fst r = s32 (skb_len skb)
    | None => rb_samples (snd r) = rb_samples b ∧ fst r = 0
    end
  else r = (0, b).
Proof.
  intros (Hb & Hl & Hp) Hg. unfold socket_handler, is_ipv4.
  assert (ntohs (load_into 2 2 skb 12 (junk_proto j)) = net 12 2 (skb_data skb)) as ->
    by (apply (load_short skb 12); [done|lia]).
  destruct (net 12 2 (skb_data skb) =? ETH_P_IP); cbn [negb andb]; [|done].
  rewrite ip_is_fragment_spec by done.
  destruct (is_fragment (skb_data skb)); cbn [negb]; [done|]. st_step.
  pose proof (reserve_samples b) as Hres.
  destruct (bpf_ringbuf_reserve b) as [[g|] b1] eqn:Er; cbn [fst snd] in *; [|done].
  specialize (Hg g eq_refl).
  change (ETH_HLEN + off_protocol) with (Z.of_nat 23).
  rewrite load_into_low_byte by (done || lia).
  change (ETH_HLEN + off_saddr) with (Z.of_nat 26). change (ETH_HLEN + off_daddr) with (Z.of_nat 30).
  change (ETH_HLEN + 0) with (Z.of_nat 14). rewrite !load_into_full by lia.
  assert (le_value (slice 14 1 (skb_data skb)) = net 14 1 (skb_data skb)) as E14.
  { unfold net, be_value. destruct (slice 14 1 (skb_data skb)) as [|x [|y l]] eqn:E; [done|done|].
    pose proof (length_slice 14 1 (skb_data skb) ltac:(lia)) as Hs. by rewrite E in Hs. }
  assert (ETH_HLEN + Z.shiftl (Z.land (net 14 1 (skb_data skb)) 15) 2 =
          Z.of_nat (14 + header_len (skb_data skb))) as Eoff.
  { unfold ETH_HLEN, header_len. rewrite Z.shiftl_mul_pow2 by lia.
    assert (0 ≤ Z.land (net 14 1 (skb_data skb)) 15).
    { apply Z.land_nonneg. right. lia. }
    rewrite Nat2Z.inj_add, Z2Nat.id by lia. change (2 ^ 2) with 4. lia. }
  rewrite E14, Eoff, load_into_full by lia.
  unfold event_of. destruct (_ =? IPPROTO_GRE); cbn [negb]; st_step;
    by rewrite submit_samples, Hres.
Qed.
End handler.

(** ** Dotted quads *)

Definition quad (addr : Z) : bytes :=
  fmt_u (Z.land (Z.shiftr addr 24) 255) ++ 46 ::
  fmt_u (Z.land (Z.shiftr addr 16) 255) ++ 46 ::
  fmt_u (Z.land (Z.shiftr addr 8) 255) ++ 46 :: fmt_u (Z.land addr 255).

Lemma land_255 z : Z.land z 255 = z mod 256.
Proof. change 255 with (Z.ones 8). by rewrite Z.land_ones. Qed.

Lemma octet_length z : (length (fmt_u (Z.land z 255)) ≤ 3)%nat.
Proof.
  apply length_fmt_u; [lia|]. rewrite land_255. pose proof (Z.mod_pos_bound z 256). cbn. lia.
Qed.

Lemma ltoa_quad addr : ltoa addr = quad addr.
Proof.
  unfold ltoa, snprintf_cut. apply take_ge. unfold quad.
  repeat (rewrite length_app; cbn [length]).
  pose proof (octet_length (Z.shiftr addr 24)). pose proof (octet_length (Z.shiftr addr 16)).
  pose proof (octet_length (Z.shiftr addr 8)). pose proof (octet_length addr). lia.
Qed.

Lemma octet_inj a b : fmt_u (Z.land a 255) = fmt_u (Z.land b 255) → a mod 256 = b mod 256.
Proof.
  rewrite !land_255. pose proof (Z.mod_pos_bound a 256). pose proof (Z.mod_pos_bound b 256).
  apply fmt_u_inj; unfold in_u64; lia.
Qed.

Lemma octet_no_dot z : Forall (λ c, (c =? 46) = false) (fmt_u z).
Proof. eapply Forall_impl; [apply fmt_u_decimal|]. unfold decimal_char. cbn. lia. Qed.

Lemma quad_inj a b : in_u32 a → in_u32 b → quad a = quad b → a = b.
Proof.
  intros Ha Hb E. unfold quad in E.
  apply (app_sep_inj (λ c, c =? 46)) in E as [E3 E]; [|done|apply octet_no_dot..].
  apply (app_sep_inj (λ c, c =? 46)) in E as [E2 E]; [|done|apply octet_no_dot..].
  apply (app_sep_inj (λ c, c =? 46)) in E as [E1 E0]; [|done|apply octet_no_dot..].
  apply octet_inj in E0, E1, E2, E3. rewrite !Z.shiftr_div_pow2 in * by lia.
  unfold in_u32 in *. change (2 ^ 8) with 256 in *. change (2 ^ 16) with 65536 in *.
  change (2 ^ 24) with 16777216 in *. Z.to_euclidean_division_equations. lia.
Qed.

Lemma ipproto_mapping_None p : ipproto_mapping p = None ↔ p ∉ (fst <$> ipproto_names).
Proof.
  unfold ipproto_mapping. rewrite fmap_None. split.
  - intros Hn ((? & n) & -> & Hin)%list_elem_of_fmap.
    pose proof (find_none _ _ Hn _ (proj1 (list_elem_of_In _ _) Hin)) as E. cbn in E. lia.
  - intros Hp. destruct (find _ _) as [[q n]|] eqn:E; [|done]. destruct Hp.
    apply find_some in E as [Hin Hq]. cbn in Hq. apply list_elem_of_fmap.
    exists (q, n). split; [cbn; lia|]. by apply list_elem_of_In.
Qed.

(** ** Examples *)

(** An IPv4 packet without options: addresses, protocol and ports in network order. *)
Definition demo_packet (proto : Z) (src dst : bytes) (sport dport : Z) : bytes :=
  replicate 12 2 ++ [8; 0] ++ [69; 0; 0; 40; 0; 0; 64; 0; 64; proto; 0; 0] ++ src ++ dst ++
  be_bytes 2 sport ++ be_bytes 2 dport ++ [0; 0; 0; 0].
Definition demo_skb : sk_buff :=
  SkBuff (demo_packet 17 [127; 0; 0; 1] [127; 0; 0; 53] 51845 53) 42 0 1.
Definition zero_event : so_event := SoEvent 0 0 0 0 0 0.
Definition demo_locals : locals := Locals 7 7 7.
Definition demo_ifname (i : Z) : option bytes := if i =? 1 then Some (str "lo") else None.

(** ** Properties *)

(** The line user space should print for a packet. *)
Definition packet_line (ifname name data : bytes) : bytes :=
  str "interface: " ++ ifname ++ [9] ++ str "protocol: " ++ name ++ [9] ++
  quad (net 26 4 data) ++ str ":" ++ fmt_d (net (14 + header_len data) 2 data) ++ str "(src) -> " ++
  quad (net 30 4 data) ++ str ":" ++ fmt_d (net (16 + header_len data) 2 data) ++ str "(dst)" ++ [10].

(** What user space prints for the event of a packet whose reserved sample was clear. *)
Lemma event_printed skb g ifname name proto_max if_indextoname :
  let data := skb_data skb in
  well_sized data → 0 ≤ ip_proto g < 256 → skb_pkt_type skb = PACKET_HOST → net 23 1 data ≠ IPPROTO_GRE →
  ipproto_mapping (net 23 1 data) = Some name → 256 ≤ proto_max →
  if_indextoname (skb_ifindex skb) = Some ifname →
  handle_event proto_max if_indextoname (event_of skb g) = Line (packet_line ifname name data).
Proof.
  intros data (Hb & Hl & Hp) Hg Hpk Hgre Hname Hmax Hif. pose proof (net_byte 23 data Hb).
  unfold handle_event, event_of. fold data. rewrite (Z.div_small (ip_proto g)) by done.
  rewrite Z.mul_0_r, Z.add_0_r. cbn [pkt_type ip_proto ifindex src_addr dst_addr].
  rewrite Hpk, Z.eqb_refl, Hif, Hname. cbn [negb].
  replace ((net 23 1 data <? 0) || (proto_max <=? net 23 1 data)) with false by lia.
  replace (net 23 1 data =? IPPROTO_GRE) with false by lia.
  unfold packet_line, port16_0, port16_1. cbn [ports].
  rewrite !ltoa_quad, !ntohl_le_value by (apply slice_bytes || apply length_slice; done || lia).
  rewrite (slice_split (14 + header_len data) 2 2).
  rewrite le_value_low16, le_value_high16
    by (apply slice_bytes || apply length_slice; done || lia).
  rewrite !ntohs_le_value by (apply slice_bytes || apply length_slice; done || lia).
  by replace (14 + header_len data + 2)%nat with (16 + header_len data)%nat by lia.
Qed.

(** The event of an IPv4 packet that is no fragment. *)
Lemma packet_submitted {RB : Type} `{!RingBuf RB so_event, !SkbLoad, !RingBufLaws RB so_event}
    (b : RB) skb j g :
  let data := skb_data skb in
  well_sized data → is_ipv4 data = true → is_fragment data = false →
  fst (bpf_ringbuf_reserve b) = Some g → in_u32 (ip_proto g) →
  let r := socket_handler skb j b in
  rb_samples (snd r) = rb_samples b ++ [event_of skb g] ∧ fst r = s32 (skb_len skb).
Proof.
  intros data Hw Hip Hfr Hres Hg. pose proof (handler_result skb j b Hw) as Hr. cbn in Hr. fold data in Hr.
  rewrite Hip, Hfr, Hres in Hr. cbn [andb negb] in Hr. apply Hr. by intros g' [= <-].
Qed.

(** C18. From wire to screen: for a well-formed unfragmented IPv4 packet addressed to the
    host (any header length, any protocol of the name table but GRE), when a sample can be
    reserved and its memory is clear in the three upper bytes of ip_proto, the handler
    submits one event, returns the packet length, and user space prints for that event the
    addresses, ports and protocol that are in the packet, in network order. *)
Theorem packet_reported_correctly {RB : Type}
    `{!RingBuf RB so_event, !SkbLoad, !RingBufLaws RB so_event}
    (b : RB) (skb : sk_buff) (j : locals) (g : so_event) (ifname name : bytes)
    (proto_max : Z) (if_indextoname : Z → option bytes) :
  let data := skb_data skb in
  well_sized data → is_ipv4 data = true → is_fragment data = false →
  fst (bpf_ringbuf_reserve b) = Some g → 0 ≤ ip_proto g < 256 →
  skb_pkt_type skb = PACKET_HOST → net 23 1 data ≠ IPPROTO_GRE →
  ipproto_mapping (net 23 1 data) = Some name → 256 ≤ proto_max →
  if_indextoname (skb_ifindex skb) = Some ifname →
  let r := socket_handler skb j b in
  fst r = s32 (skb_len skb) ∧
  ∃ e, rb_samples (snd r) = rb_samples b ++ [e] ∧
       handle_event proto_max if_indextoname e = Line (packet_line ifname name data).
Proof.
  intros data Hw Hip Hfr Hres Hg Hpk Hgre Hname Hmax Hif.
  assert (in_u32 (ip_proto g)) as Hu by (unfold in_u32; lia).
  destruct (packet_submitted b skb j g Hw Hip Hfr Hres Hu) as [Hs Hret].
  split; [exact Hret|]. exists (event_of skb g). split; [exact Hs|]. by apply event_printed.
Qed.

Lemma packet_reported_correctly_witness :
  let b := RQueue (E:=so_event) [] 4 zero_event in
  let r := socket_handler demo_skb demo_locals b in
  fst r = s32 (skb_len demo_skb) ∧
  ∃ e, rb_samples (snd r) = rb_samples b ++ [e] ∧
       handle_event 256 demo_ifname e =
       Line (packet_line (str "lo") (str "UDP") (skb_data demo_skb)).
Proof.
  apply (packet_reported_correctly (RQueue (E:=so_event) [] 4 zero_event) demo_skb demo_locals
           zero_event (str "lo") (str "UDP") 256 demo_ifname); try by vm_compute.
  split; [|vm_compute; lia].
  repeat (constructor; [unfold is_byte; vm_compute; by split|]). constructor.
Defined.

(** C35. What is filtered out: a packet that is not IPv4, or is a fragment (the
    more-fragments bit or a non-zero offset), leaves the ring buffer alone and the handler
    returns 0; so does any packet when no sample can be reserved. *)
Theorem other_packets_ignored {RB : Type}
    `{!RingBuf RB so_event, !SkbLoad, !RingBufLaws RB so_event}
    (b : RB) (skb : sk_buff) (j : locals) :
  let data := skb_data skb in
  well_sized data →
  (∀ g, fst (bpf_ringbuf_reserve b) = Some g → in_u32 (ip_proto g)) →
  is_ipv4 data = false ∨ is_fragment data = true ∨ fst (bpf_ringbuf_reserve b) = None →
  fst (socket_handler skb j b) = 0 ∧ rb_samples (snd (socket_handler skb j b)) = rb_samples b.
Proof.
  intros data Hw Hg Hcase. pose proof (handler_result skb j b Hw Hg) as Hr. cbn in Hr.
  fold data in Hr.
  destruct (is_ipv4 data), (is_fragment data); cbn [andb negb] in Hr; try by rewrite Hr.
  destruct Hcase as [?|[?|Hres]]; [done|done|]. rewrite Hres in Hr. by destruct Hr.
Qed.

Lemma other_packets_ignored_witness :
  let skb := SkBuff (replicate 12 2 ++ [134; 221] ++ replicate 60 0) 74 0 1 in
  let b := RQueue (E:=so_event) [] 4 zero_event in
  fst (socket_handler skb demo_locals b) = 0 ∧
  rb_samples (snd (socket_handler skb demo_locals b)) = rb_samples b.
Proof.
  intros skb b. apply other_packets_ignored.
  - split; [repeat (constructor; [unfold is_byte; lia|]); constructor|vm_compute; lia].
  - intros g [= <-]. unfold in_u32. cbn. lia.
  - left. by vm_compute.
Defined.

(** C36. ip_proto is only partly written: for every packet of which user space should print a
    line (IPv4, unfragmented, to the host, not GRE, a protocol and an interface with a name)
    the event carries the protocol of the packet in its low byte and whatever the reserved
    memory held in the other three, and, IPPROTO_MAX being 256, the line is printed exactly when
    those three bytes are clear: otherwise user space prints nothing. *)
Theorem stale_memory_hides_packet {RB : Type}
    `{!RingBuf RB so_event, !SkbLoad, !RingBufLaws RB so_event}
    (b : RB) (skb : sk_buff) (j : locals) (g : so_event) (ifname name : bytes)
    (if_indextoname : Z → option bytes) :
  let data := skb_data skb in
  well_sized data → is_ipv4 data = true → is_fragment data = false →
  fst (bpf_ringbuf_reserve b) = Some g → in_u32 (ip_proto g) →
  skb_pkt_type skb = PACKET_HOST → net 23 1 data ≠ IPPROTO_GRE →
  ipproto_mapping (net 23 1 data) = Some name → if_indextoname (skb_ifindex skb) = Some ifname →
  ∃ e, rb_samples (snd (socket_handler skb j b)) = rb_samples b ++ [e] ∧
       ip_proto e mod 256 = net 23 1 data ∧ ip_proto e / 256 = ip_proto g / 256 ∧
       handle_event 256 if_indextoname e =
         if ip_proto g <? 256 then Line (packet_line ifname name data) else Nothing.
Proof.
  intros data Hw Hip Hfr Hres Hg Hpk Hgre Hname Hif.
  destruct (packet_submitted b skb j g Hw Hip Hfr Hres Hg) as [Hs _].
  exists (event_of skb g). pose proof (net_byte 23 data (proj1 Hw)) as Hbyte. unfold in_u32 in Hg.
  assert (ip_proto (event_of skb g) = net 23 1 data + 256 * (ip_proto g / 256)) as He by done.
  split; [exact Hs|]. split; [|split].
  - rewrite He, Z.mul_comm, Z_mod_plus_full. by apply Z.mod_small.
  - rewrite He, Z.mul_comm, Z.div_add by done. by rewrite Z.div_small.
  - destruct (Z.ltb_spec (ip_proto g) 256) as [Hlt|Hge]; [apply event_printed; try done; lia|].
    assert (1 ≤ ip_proto g / 256) by (apply Z.div_le_lower_bound; lia).
    unfold handle_event. rewrite He.
    replace (_ || (256 <=? _)) with true by lia. by destruct (negb _).
Qed.

(** A UDP packet, and a reserved sample full of ones. *)
Lemma stale_memory_hides_packet_witness :
  let b := RQueue [] 4 (SoEvent 0 0 0 (2 ^ 32 - 1) 0 0) in
  ∃ e, rb_samples (snd (socket_handler demo_skb demo_locals b)) = rb_samples b ++ [e] ∧
       ip_proto e mod 256 = 17 ∧ ip_proto e / 256 = 2 ^ 24 - 1 ∧ handle_event 256 demo_ifname e = Nothing.
Proof.
  apply (stale_memory_hides_packet (RQueue [] 4 (SoEvent 0 0 0 (2 ^ 32 - 1) 0 0)) demo_skb demo_locals
           (SoEvent 0 0 0 (2 ^ 32 - 1) 0 0) (str "lo") (str "UDP") demo_ifname); try by vm_compute.
  split; [|vm_compute; lia].
  repeat (constructor; [unfold is_byte; vm_compute; by split|]). constructor.
Defined.

(** The dotted-quad text of an address fits its 16-byte buffer with the NUL, so nothing
    is cut off, and two different addresses never print alike. *)
Theorem ltoa_fits_and_injective (a b : Z) :
  in_u32 a → in_u32 b →
  ltoa a = quad a ∧ (length (quad a) < 16)%nat ∧ (ltoa a = ltoa b → a = b).
Proof.
  intros Ha Hb. split; [apply ltoa_quad|]. split.
  - pose proof (octet_length (Z.shiftr a 24)). pose proof (octet_length (Z.shiftr a 16)).
    pose proof (octet_length (Z.shiftr a 8)). pose proof (octet_length a).
    unfold quad. repeat (rewrite length_app; cbn [length]). lia.
  - rewrite !ltoa_quad. by apply quad_inj.
Qed.

Lemma ltoa_fits_and_injective_witness :
  ltoa 2130706433 = quad 2130706433 ∧ (length (quad 2130706433) < 16)%nat ∧
  (ltoa 2130706433 = ltoa 16777343 → 2130706433 = 16777343).
Proof. apply ltoa_fits_and_injective; unfold in_u32; lia. Defined.

(** A protocol number without a name reaches printf as a null pointer for %s: exactly
    when the packet is for the host, the interface has a name, the number is below
    IPPROTO_MAX and it is none of the 25 numbers of the table. *)
Theorem unnamed_protocol_prints_null (proto_max : Z) (if_indextoname : Z → option bytes)
    (e : so_event) :
  handle_event proto_max if_indextoname e = NullString ↔
  pkt_type e = PACKET_HOST ∧ 0 ≤ ip_proto e < proto_max ∧ is_Some (if_indextoname (ifindex e)) ∧
  ip_proto e ∉ (fst <$> ipproto_names).
Proof.
  rewrite <- ipproto_mapping_None. unfold handle_event.
  destruct (Z.eqb_spec (pkt_type e) PACKET_HOST) as [->|Hpk]; cbn [negb];
    [|split; [discriminate|by intros [??]]].
  destruct ((ip_proto e <? 0) || (proto_max <=? ip_proto e)) eqn:Er.
  - split; [discriminate|]. intros (_ & ? & _). lia.
  - destruct (if_indextoname (ifindex e)) as [n|];
      [|split; [discriminate|by intros (_ & _ & [??] & _)]].
    destruct (ipproto_mapping (ip_proto e)); split; try discriminate.
    + by intros (_ & _ & _ & ?).
    + intros _. split_and!; [done|lia|lia|done|done].
    + done.
Qed.
