(* ===== verification/Packet.v ===== *)
(** * Packet: programs that look at raw packets

    examples/c/tc.bpf.c ([tc_ingress]) and examples/rust/xdp/src/bpf/xdppass.bpf.c
    ([xdp_pass]).  A packet lies in memory from [data] up to [data_end]; reading any other
    address is a fault, so [tc_ingress] returns [None] if it ever leaves the packet. *)

From S2P Require Import Prelude CInt BpfKernel.

Definition TC_ACT_OK : Z := 0.
Definition ETH_P_IP : Z := 2048.
Definition XDP_PASS : Z := 2.

Definition sizeof_ethhdr : Z := 14.
Definition sizeof_iphdr : Z := 20.
(** offsetof in struct iphdr *)
Definition off_tot_len : Z := 2.
Definition off_ttl : Z := 8.

(** The context: the packet's protocol as the kernel stores it (network order), the two
    32-bit pointers, and the bytes that lie between them. *)
Record packet_ctx := PacketCtx { protocol : Z; data : Z; data_end : Z; content : list Z }.

Definition packet_ok (ctx : packet_ctx) : Prop :=
  0 ≤ data ctx ∧ data_end ctx < 2 ^ 32 ∧
  data_end ctx = data ctx + Z.of_nat (length (content ctx)) ∧ Forall is_byte (content ctx).

Section handlers.
Variable ctx : packet_ctx.

(** The byte at an address, and the [n] bytes from it. *)
Definition byte_at (addr : Z) : option Z :=
  if decide (data ctx ≤ addr < data_end ctx)
  then content ctx !! Z.to_nat (addr - data ctx) else None.
Definition bytes_at (addr : Z) (n : nat) : option (list Z) :=
  mapM byte_at (seqZ addr (Z.of_nat n)).

Definition tc_ingress : option (Z * list trace_line) :=
  let data_end := u64 (data_end ctx) in
  let data := u64 (data ctx) in
  if negb (protocol ctx =? ntohs ETH_P_IP) then Some (TC_ACT_OK, []) else
  let l2 := data in
  if u64 (l2 + sizeof_ethhdr) >? data_end then Some (TC_ACT_OK, []) else
  let l3 := u64 (l2 + sizeof_ethhdr) in
  if u64 (l3 + sizeof_iphdr) >? data_end then Some (TC_ACT_OK, []) else
  tot_len ← bytes_at (l3 + off_tot_len) 2;
  ttl ← bytes_at (l3 + off_ttl) 1;
  Some (TC_ACT_OK, [Printk "Got IP packet: tot_len: %d, ttl: %d"
                      [PInt (ntohs (le_value tot_len)); PInt (le_value ttl)]]).

Definition xdp_pass : Z * list trace_line :=
  let pkt_sz := s32 (data_end ctx - data ctx) in
  (XDP_PASS, [Printk "packet size: %d" [PInt pkt_sz]]).

(** ** Reading inside the packet *)

Lemma bytes_at_inside (off n : nat) :
  data_end ctx = data ctx + Z.of_nat (length (content ctx)) →
  (off + n ≤ length (content ctx))%nat →
  bytes_at (data ctx + Z.of_nat off) n = Some (take n (drop off (content ctx))).
Proof.
  intros He. revert off. induction n as [|n IH]; intros off Hl; [done|].
  unfold bytes_at. rewrite seqZ_cons by lia. cbn [mapM].
  replace (Z.succ (data ctx + Z.of_nat off)) with (data ctx + Z.of_nat (S off)) by lia.
  replace (Z.pred (Z.of_nat (S n))) with (Z.of_nat n) by lia.
  fold (bytes_at (data ctx + Z.of_nat (S off)) n). rewrite IH by lia.
  unfold byte_at. rewrite decide_True by lia.
  replace (Z.to_nat (data ctx + Z.of_nat off - data ctx)) with off by lia.
  destruct (lookup_lt_is_Some_2 (content ctx) off ltac:(lia)) as [x Hx].
  rewrite Hx. cbn. by rewrite (drop_S _ _ _ Hx).
Qed.

(** ** Property *)

(** C23. Memory safety and function of the tc classifier: whatever the packet, it never reads
    outside it and always accepts it; it prints exactly when the protocol is IPv4 and both
    headers are complete, and then the total length and time-to-live the header says (in
    network order). *)
Theorem tc_ingress_in_bounds :
  packet_ok ctx →
  tc_ingress = Some (TC_ACT_OK,
    if (protocol ctx =? 8) && (34 <=? Z.of_nat (length (content ctx)))
    then [Printk "Got IP packet: tot_len: %d, ttl: %d"
            [PInt (be_value (take 2 (drop 16 (content ctx))));
             PInt (nth 22 (content ctx) 0)]]
    else []).
Proof.
  intros (Hd & He & Hlen & Hb). unfold tc_ingress, sizeof_ethhdr, sizeof_iphdr.
  change (ntohs ETH_P_IP) with 8. destruct (protocol ctx =? 8); cbn [negb andb]; [|done].
  rewrite !u64_small by (unfold in_u64; lia || (rewrite u64_small by (unfold in_u64; lia); unfold in_u64; lia)).
  destruct (Z.gtb_spec (data ctx + 14) (data_end ctx)).
  { replace (34 <=? _) with false by lia. done. }
  destruct (Z.gtb_spec (data ctx + 14 + 20) (data_end ctx)).
  { replace (34 <=? _) with false by lia. done. }
  replace (34 <=? _) with true by lia.
  replace (data ctx + 14 + off_tot_len) with (data ctx + Z.of_nat 16) by (unfold off_tot_len; lia).
  replace (data ctx + 14 + off_ttl) with (data ctx + Z.of_nat 22) by (unfold off_ttl; lia).
  rewrite !bytes_at_inside by lia. cbn [mbind option_bind].
  rewrite ntohs_le_value; [|by apply Forall_take, Forall_drop|rewrite length_take, length_drop; lia].
  destruct (lookup_lt_is_Some_2 (content ctx) 22 ltac:(lia)) as [x Hx].
  rewrite (drop_S _ _ _ Hx), (nth_lookup_Some _ _ _ _ Hx). cbn [take le_value].
  by rewrite firstn_O, Z.add_0_r.
Qed.
End handlers.

Definition demo_ctx : packet_ctx :=
  PacketCtx 8 4096 4136 (replicate 16 0 ++ [1; 44; 0; 0; 0; 0; 64] ++ replicate 17 9).

Lemma tc_ingress_in_bounds_witness :
  tc_ingress demo_ctx = Some (TC_ACT_OK,
    [Printk "Got IP packet: tot_len: %d, ttl: %d" [PInt 300; PInt 64]]).
Proof.
  apply (tc_ingress_in_bounds demo_ctx). split_and!; [done|done|done|].
  repeat (constructor; [unfold is_byte; lia|]). constructor.
Defined.

(** The XDP program prints the packet's size. *)
Example xdp_prints_size : xdp_pass demo_ctx = (XDP_PASS, [Printk "packet size: %d" [PInt 40]]).
Proof. reflexivity. Qed.
