(* ===== verification/Tracecon.v ===== *)
(** * Tracecon: names for TCP connections, examples/rust/tracecon/src/bpf/tracecon.bpf.c

    Four handlers share three hash maps: [getaddrinfo_enter]/[getaddrinfo_exit] remember
    under which name a process resolved an IPv4 address, [tcp_v4_connect_enter]/
    [tcp_v4_connect_exit] report the address of a connection, or its name when one was
    resolved.  Calls of different threads interleave: a history is a list of handler
    calls.  [pending], [connecting] and [name_of] read from a history, without the maps,
    what a report should say. *)

From S2P Require Import Prelude CInt BpfKernel.

Definition HOSTNAME_LEN : nat := 84.
Definition max_entries_decl : Z := 10240.

(** struct lookup: [c] and the user pointer [results] (struct addrinfo ** ). *)
Record lookup_t := Lookup { c : list Z; results : Z }.

(** enum tag *)
Definition IP : Z := 0.
Definition HOSTNAME : Z := 1.

(** struct event *)
Record event := Event { tag : Z; ip : list Z; hostname : list Z }.

(** [struct event event = {}] *)
Definition empty_event : event := Event 0 (replicate 4 0) (replicate HOSTNAME_LEN 0).

(** offsetof(struct addrinfo, ai_addr), offsetof(struct sockaddr_in, sin_addr) *)
Definition off_ai_addr : Z := 24.
Definition off_sin_addr : Z := 4.

(** Content of the uninitialised locals result, addr and ipv4_addr. *)
Record junk := Junk { j_result : list Z; j_addr : list Z; j_ipv4 : list Z }.
Definition junk_ok (j : junk) : Prop :=
  length (j_result j) = 8%nat ∧ length (j_addr j) = 8%nat ∧ length (j_ipv4 j) = 4%nat.

(** The three maps and the perf buffer. *)
Record tstate (ML MH MS P : Type) := TState { lookups : ML; hostnames : MH; sockets : MS; events : P }.
Arguments TState {_ _ _ _} _ _ _ _.
Arguments lookups {_ _ _ _} _.
Arguments hostnames {_ _ _ _} _.
Arguments sockets {_ _ _ _} _.
Arguments events {_ _ _ _} _.

(** Calls of the handlers.  [pt] is bpf_get_current_pid_tgid(); [host] the string the
    hostname argument points at, [None] for a pointer that cannot be read; [mem] the user
    memory and [skc_daddr] the kernel's socket addresses when the handler runs. *)
Inductive call :=
  | GetaddrinfoEnter (pt : Z) (host : option (list Z)) (res : Z)
  | GetaddrinfoExit (pt ret : Z) (mem : Z → option Z) (j : junk)
  | ConnectEnter (pt sk : Z)
  | ConnectExit (pt ret : Z) (skc_daddr : Z → Z).

Section handlers.
Context {ML MH MS P : Type}
  `{!BpfMap ML Z lookup_t, !BpfMap MH Z lookup_t, !BpfMap MS Z Z, !PerfOutput P event,
    !ProbeStr, !ProbeUser}.
Variable target_pid : Z.
Abbreviation TS := (tstate ML MH MS P).

Definition update_lookups (k : Z) (v : lookup_t) (s : TS) : TS :=
  TState (fst (bpf_map_update_elem (lookups s) k v)) (hostnames s) (sockets s) (events s).
Definition delete_lookups (k : Z) (s : TS) : TS :=
  TState (fst (bpf_map_delete_elem (lookups s) k)) (hostnames s) (sockets s) (events s).
Definition update_hostnames (k : Z) (v : lookup_t) (s : TS) : TS :=
  TState (lookups s) (fst (bpf_map_update_elem (hostnames s) k v)) (sockets s) (events s).
Definition delete_hostnames (k : Z) (s : TS) : TS :=
  TState (lookups s) (fst (bpf_map_delete_elem (hostnames s) k)) (sockets s) (events s).
Definition update_sockets (k v : Z) (s : TS) : TS :=
  TState (lookups s) (hostnames s) (fst (bpf_map_update_elem (sockets s) k v)) (events s).
Definition delete_sockets (k : Z) (s : TS) : TS :=
  TState (lookups s) (hostnames s) (fst (bpf_map_delete_elem (sockets s) k)) (events s).
Definition output (e : event) (s : TS) : TS :=
  TState (lookups s) (hostnames s) (sockets s) (fst (bpf_perf_event_output e (events s))).

Definition get_tid (tgid : Z) : Z :=
  let pid := s32 (Z.shiftr tgid 32) in
  if negb (target_pid =? 0) && negb (target_pid =? pid) then 0 else u32 tgid.

Definition getaddrinfo_enter (tgid : Z) (host : option (list Z)) (res : Z) : ST TS Z :=
  let tid := get_tid tgid in
  let buf := replicate HOSTNAME_LEN 0 in
  if tid =? 0 then mret 0 else
  let buf := match host with Some name => bpf_probe_read_str buf name | None => buf end in
  modify (update_lookups tid (Lookup buf res));;
  mret 0.

(** The three chained reads that end in ipv4_addr.s_addr. *)
Definition read_s_addr (mem : Z → option Z) (results : Z) (j : junk) : Z :=
  let result := le_value (bpf_probe_read_user mem results (j_result j)) in
  let addr := le_value (bpf_probe_read_user mem (u64 (result + off_ai_addr)) (j_addr j)) in
  le_value (bpf_probe_read_user mem (u64 (addr + off_sin_addr)) (j_ipv4 j)).

Definition getaddrinfo_exit (tgid ret : Z) (mem : Z → option Z) (j : junk) : ST TS Z :=
  let tid := get_tid tgid in
  if tid =? 0 then mret 0 else
  if negb (ret =? 0) then modify (delete_lookups tid);; mret 0 else
  lookup ← gets (λ s, bpf_map_lookup_elem (lookups s) tid);
  match lookup with
  | None => mret 0
  | Some lookup =>
      modify (update_hostnames (read_s_addr mem (results lookup) j) lookup);;
      modify (delete_lookups tid);;
      mret 0
  end.

Definition tcp_v4_connect_enter (tgid sk : Z) : ST TS Z :=
  let tid := get_tid tgid in
  if tid =? 0 then mret 0 else
  modify (update_sockets tid sk);;
  mret 0.

Definition tcp_v4_connect_exit (tgid ret : Z) (skc_daddr : Z → Z) : ST TS Z :=
  let tid := get_tid tgid in
  if tid =? 0 then mret 0 else
  if negb (ret =? 0) then modify (delete_sockets tid);; mret 0 else
  sockpp ← gets (λ s, bpf_map_lookup_elem (sockets s) tid);
  match sockpp with
  | None => mret 0
  | Some sk =>
      let addr := skc_daddr sk in
      lookup ← gets (λ s, bpf_map_lookup_elem (hostnames s) addr);
      match lookup with
      | None => modify (output (Event IP (le_bytes 4 addr) (hostname empty_event)))
      | Some lookup =>
          modify (delete_hostnames addr);;
          modify (output (Event HOSTNAME (ip empty_event) (c lookup)))
      end;;
      modify (delete_sockets tid);;
      mret 0
  end.

Definition handle (x : call) : ST TS Z :=
  match x with
  | GetaddrinfoEnter pt host res => getaddrinfo_enter pt host res
  | GetaddrinfoExit pt ret mem j => getaddrinfo_exit pt ret mem j
  | ConnectEnter pt sk => tcp_v4_connect_enter pt sk
  | ConnectExit pt ret d => tcp_v4_connect_exit pt ret d
  end.
End handlers.

(** ** What a history says

    Histories list the most recent call first. *)

Section history.
Context `{!ProbeStr, !ProbeUser}.
Variable target_pid : Z.

(** The call with this bpf_get_current_pid_tgid() is by thread [t] of the traced process. *)
Definition by_thread (pt t : Z) : bool := negb (t =? 0) && (get_tid target_pid pt =? t).

(** The getaddrinfo call thread [t] is in: the name it resolves, and where the result goes. *)
Fixpoint pending (h : list call) (t : Z) : option (option (list Z) * Z) :=
  match h with
  | [] => None
  | GetaddrinfoEnter pt host res :: h' => if by_thread pt t then Some (host, res) else pending h' t
  | GetaddrinfoExit pt _ _ _ :: h' => if by_thread pt t then None else pending h' t
  | _ :: h' => pending h' t
  end.

(** The socket thread [t] is connecting. *)
Fixpoint connecting (h : list call) (t : Z) : option Z :=
  match h with
  | [] => None
  | ConnectEnter pt sk :: h' => if by_thread pt t then Some sk else connecting h' t
  | ConnectExit pt _ _ :: h' => if by_thread pt t then None else connecting h' t
  | _ :: h' => connecting h' t
  end.

(** The name address [a] has: the last successful resolution to [a], unless a successful
    connection to [a] came after it. *)
Fixpoint name_of (h : list call) (a : Z) : option (option (list Z) * Z) :=
  match h with
  | [] => None
  | GetaddrinfoExit pt ret mem j :: h' =>
      match pending h' (get_tid target_pid pt) with
      | Some (host, res) =>
          if (ret =? 0) && (read_s_addr mem res j =? a) then Some (host, res) else name_of h' a
      | None => name_of h' a
      end
  | ConnectExit pt ret d :: h' =>
      match connecting h' (get_tid target_pid pt) with
      | Some sk => if (ret =? 0) && (d sk =? a) then None else name_of h' a
      | None => name_of h' a
      end
  | _ :: h' => name_of h' a
  end.

(** The map value that stands for a call. *)
Definition entry (x : option (list Z) * Z) : lookup_t :=
  Lookup (match fst x with
          | Some name => bpf_probe_read_str (replicate HOSTNAME_LEN 0) name
          | None => replicate HOSTNAME_LEN 0
          end) (snd x).

Lemma pending_zero h : pending h 0 = None.
Proof. induction h as [|[]]; cbn; auto. Qed.
Lemma connecting_zero h : connecting h 0 = None.
Proof. induction h as [|[]]; cbn; auto. Qed.
End history.

Section refinement.
Context {ML MH MS P : Type}
  `{!BpfMap ML Z lookup_t, !BpfMap MH Z lookup_t, !BpfMap MS Z Z, !PerfOutput P event,
    !ProbeStr, !ProbeUser}
  `{!BpfMapLaws ML Z lookup_t, !BpfMapLaws MH Z lookup_t, !BpfMapLaws MS Z Z,
    !BpfMapPresent ML Z lookup_t, !BpfMapPresent MH Z lookup_t, !BpfMapPresent MS Z Z,
    !BpfMapRoom ML Z lookup_t, !BpfMapRoom MH Z lookup_t, !BpfMapRoom MS Z Z}.
Variable target_pid : Z.
Abbreviation TS := (tstate ML MH MS P).
Implicit Types (s : TS) (h : list call).

Definition run (h : list call) (s : TS) : TS := foldr (λ x, exec (handle target_pid x)) s h.

(** No map is full. *)
Definition room (s : TS) : Prop :=
  (entries (lookups s) < max_entries (lookups s))%nat ∧
  (entries (hostnames s) < max_entries (hostnames s))%nat ∧
  (entries (sockets s) < max_entries (sockets s))%nat.

Fixpoint roomy (h : list call) (s : TS) : Prop :=
  match h with
  | [] => True
  | _ :: h' => room (run h' s) ∧ roomy h' s
  end.

Definition fresh (s : TS) : Prop :=
  (∀ t, bpf_map_lookup_elem (lookups s) t = None) ∧
  (∀ a, bpf_map_lookup_elem (hostnames s) a = None) ∧
  (∀ t, bpf_map_lookup_elem (sockets s) t = None).

(** The maps hold what the history says. *)
Definition rep (h : list call) (s : TS) : Prop :=
  (∀ t, bpf_map_lookup_elem (lookups s) t = entry <$> pending target_pid h t) ∧
  (∀ a, bpf_map_lookup_elem (hostnames s) a = entry <$> name_of target_pid h a) ∧
  (∀ t, bpf_map_lookup_elem (sockets s) t = connecting target_pid h t).

Lemma by_thread_self pt t :
  get_tid target_pid pt ≠ 0 →
  by_thread target_pid pt t = bool_decide (get_tid target_pid pt = t).
Proof. intros Hne. unfold by_thread. case_bool_decide; lia. Qed.

Lemma by_thread_nobody pt t : get_tid target_pid pt = 0 → by_thread target_pid pt t = false.
Proof. intros Hz. unfold by_thread. lia. Qed.

Ltac tr_step :=
  cbn [negb andb]; st_step;
  unfold update_lookups, delete_lookups, update_hostnames, delete_hostnames, update_sockets,
    delete_sockets, output;
  cbn [lookups hostnames sockets events negb andb].

(** A call outside the traced process does nothing. *)
Lemma handle_nobody x s :
  match x with
  | GetaddrinfoEnter pt _ _ | GetaddrinfoExit pt _ _ _
  | ConnectEnter pt _ | ConnectExit pt _ _ => get_tid target_pid pt = 0
  end → exec (handle target_pid x) s = s.
Proof.
  unfold exec. destruct x; cbn [handle]; intros Hz;
    unfold getaddrinfo_enter, getaddrinfo_exit, tcp_v4_connect_enter, tcp_v4_connect_exit;
    by rewrite Hz.
Qed.

Lemma rep_nobody h x s :
  match x with
  | GetaddrinfoEnter pt _ _ | GetaddrinfoExit pt _ _ _
  | ConnectEnter pt _ | ConnectExit pt _ _ => get_tid target_pid pt = 0
  end → rep h s → rep (x :: h) s.
Proof.
  intros Hx (Hl & Hh & Hs).
  split_and!; intros k; destruct x; cbn [pending name_of connecting];
    rewrite ?Hx, ?pending_zero, ?connecting_zero, ?by_thread_nobody; auto.
Qed.

Lemma rep_getaddrinfo_enter h pt host res s :
  get_tid target_pid pt ≠ 0 → room s → rep h s →
  rep (GetaddrinfoEnter pt host res :: h) (exec (getaddrinfo_enter target_pid pt host res) s).
Proof.
  intros Hne (Hr & _) (Hl & Hh & Hs). apply Z.eqb_neq in Hne as Hne'.
  unfold exec, getaddrinfo_enter. rewrite Hne'. tr_step.
  split_and!; intros k; cbn [pending name_of connecting]; tr_step; auto.
  rewrite update_lookup_room, by_thread_self, Hl by done. by repeat case_decide.
Qed.

Lemma rep_connect_enter h pt sk s :
  get_tid target_pid pt ≠ 0 → room s → rep h s →
  rep (ConnectEnter pt sk :: h) (exec (tcp_v4_connect_enter target_pid pt sk) s).
Proof.
  intros Hne (_ & _ & Hr) (Hl & Hh & Hs). apply Z.eqb_neq in Hne as Hne'.
  unfold exec, tcp_v4_connect_enter. rewrite Hne'. tr_step.
  split_and!; intros k; cbn [pending name_of connecting]; tr_step; auto.
  rewrite update_lookup_room, by_thread_self, Hs by done. by repeat case_decide.
Qed.

Lemma rep_getaddrinfo_exit h pt ret mem j s :
  get_tid target_pid pt ≠ 0 → room s → rep h s →
  rep (GetaddrinfoExit pt ret mem j :: h) (exec (getaddrinfo_exit target_pid pt ret mem j) s).
Proof.
  intros Hne (_ & Hr & _) (Hl & Hh & Hs). apply Z.eqb_neq in Hne as Hne'.
  unfold exec, getaddrinfo_exit. rewrite Hne'. destruct (Z.eqb_spec ret 0) as [->|Hret]; tr_step.
  - rewrite Hl. destruct (pending target_pid h _) as [[host res]|] eqn:E; cbn [fmap option_fmap option_map]; tr_step;
      split_and!; intros k; cbn [pending name_of connecting]; tr_step; rewrite ?E; auto.
    + rewrite delete_lookup_present, by_thread_self, Hl by done. by repeat case_decide.
    + cbn [entry snd]. rewrite update_lookup_room, Hh, Z.eqb_refl by done. cbn [andb].
      destruct (Z.eqb_spec (read_s_addr mem res j) k); by case_decide.
    + rewrite by_thread_self, Hl by done. case_bool_decide; [by subst; rewrite E|done].
  - split_and!; intros k; cbn [pending name_of connecting]; tr_step; auto.
    + rewrite delete_lookup_present, by_thread_self, Hl by done. by repeat case_decide.
    + rewrite (proj2 (Z.eqb_neq _ _) Hret), Hh. cbn [andb].
      by destruct (pending target_pid h _) as [[]|].
Qed.

Lemma rep_connect_exit h pt ret d s :
  get_tid target_pid pt ≠ 0 → rep h s →
  rep (ConnectExit pt ret d :: h) (exec (tcp_v4_connect_exit target_pid pt ret d) s).
Proof.
  intros Hne (Hl & Hh & Hs). apply Z.eqb_neq in Hne as Hne'.
  unfold exec, tcp_v4_connect_exit. rewrite Hne'. destruct (Z.eqb_spec ret 0) as [->|Hret]; tr_step.
  - rewrite Hs. destruct (connecting target_pid h _) as [sk|] eqn:E; tr_step.
    + rewrite Hh. destruct (name_of target_pid h (d sk)) as [x|] eqn:En;
        cbn [fmap option_fmap option_map]; tr_step;
        split_and!; intros k; cbn [pending name_of connecting]; tr_step; rewrite ?E, ?Z.eqb_refl;
        cbn [andb]; auto.
      * rewrite delete_lookup_present, Hh. by destruct (Z.eqb_spec (d sk) k); case_decide.
      * rewrite delete_lookup_present, by_thread_self, Hs by done. by repeat case_decide.
      * rewrite Hh. destruct (Z.eqb_spec (d sk) k); [by subst; rewrite En|done].
      * rewrite delete_lookup_present, by_thread_self, Hs by done. by repeat case_decide.
    + split_and!; intros k; cbn [pending name_of connecting]; tr_step; rewrite ?E; auto.
      rewrite by_thread_self, Hs by done. case_bool_decide; [by subst; rewrite E|done].
  - split_and!; intros k; cbn [pending name_of connecting]; tr_step; auto.
    + rewrite (proj2 (Z.eqb_neq _ _) Hret), Hh. cbn [andb].
      by destruct (connecting target_pid h _).
    + rewrite delete_lookup_present, by_thread_self, Hs by done. by repeat case_decide.
Qed.

Lemma rep_handle h x s : room s → rep h s → rep (x :: h) (exec (handle target_pid x) s).
Proof.
  intros Hr Hrep. destruct x as [pt ? ?|pt ? ? ?|pt ?|pt ? ?] eqn:Ex;
    (destruct (decide (get_tid target_pid pt = 0)) as [Hz|Hnz];
     [rewrite handle_nobody by done; by apply rep_nobody|cbn [handle]]).
  - by apply rep_getaddrinfo_enter.
  - by apply rep_getaddrinfo_exit.
  - by apply rep_connect_enter.
  - by apply rep_connect_exit.
Qed.

Lemma rep_run h s : fresh s → roomy h s → rep h (run h s).
Proof.
  intros (Hl & Hh & Hs). induction h as [|x h IH]; cbn [roomy run foldr].
  - intros _. split_and!; intros k; cbn; [by rewrite Hl|by rewrite Hh|by rewrite Hs].
  - intros [Hroom Hr]. by apply rep_handle, IH.
Qed.
End refinement.

(** ** Properties *)

(** Event [e] shows address [a], or the name it has. *)
Definition shows (name : option (option (list Z) * Z)) (a : Z) (e : event) : Prop :=
  match name with
  | None => e = Event IP (le_bytes 4 a) (replicate HOSTNAME_LEN 0)
  | Some (host, _) =>
      tag e = HOSTNAME ∧ ip e = replicate 4 0 ∧ length (hostname e) = HOSTNAME_LEN ∧
      cstr (hostname e) = match host with Some name => take 83 (cstr name) | None => [] end
  end.

(** The user memory of the examples: *100 = 200, (200)->ai_addr = 300, (300)->sin_addr. *)
Definition demo_mem (x : Z) : option Z :=
  if decide (100 ≤ x < 108) then le_bytes 8 200 !! Z.to_nat (x - 100)
  else if decide (224 ≤ x < 232) then le_bytes 8 300 !! Z.to_nat (x - 224)
  else if decide (304 ≤ x < 308) then [93; 184; 216; 34] !! Z.to_nat (x - 304) else None.
Definition demo_junk : junk := Junk (replicate 8 7) (replicate 8 7) (replicate 4 7).
Definition demo_addr : Z := le_value [93; 184; 216; 34].
Definition demo_state : tstate (hmap Z lookup_t) (hmap Z lookup_t) (hmap Z Z) (pbuf event) :=
  TState (HMap ∅ 8) (HMap ∅ 8) (HMap ∅ 8) (PBuf [] 8).
(** Thread 12 of process 3 resolves "ab" while thread 13 connects; most recent first. *)
Definition demo_history : list call :=
  [ConnectEnter (3 * 2 ^ 32 + 12) 5000;
   GetaddrinfoExit (3 * 2 ^ 32 + 12) 0 demo_mem demo_junk;
   ConnectEnter (3 * 2 ^ 32 + 13) 6000;
   GetaddrinfoEnter (3 * 2 ^ 32 + 12) (Some [97; 98; 0]) 100].

Section properties.
Context {ML MH MS P : Type}
  `{!BpfMap ML Z lookup_t, !BpfMap MH Z lookup_t, !BpfMap MS Z Z, !PerfOutput P event,
    !ProbeStr, !ProbeUser}
  `{!BpfMapLaws ML Z lookup_t, !BpfMapLaws MH Z lookup_t, !BpfMapLaws MS Z Z,
    !BpfMapPresent ML Z lookup_t, !BpfMapPresent MH Z lookup_t, !BpfMapPresent MS Z Z,
    !BpfMapRoom ML Z lookup_t, !BpfMapRoom MH Z lookup_t, !BpfMapRoom MS Z Z}.
Variable target_pid : Z.
Implicit Types (s : tstate ML MH MS P) (h : list call).

Lemma connect_exit_events h s pt ret d :
  rep target_pid h s →
  events (exec (tcp_v4_connect_exit target_pid pt ret d) s) =
  match (if ret =? 0 then connecting target_pid h (get_tid target_pid pt) else None) with
  | Some sk =>
      fst (bpf_perf_event_output
        (match name_of target_pid h (d sk) with
         | Some x => Event HOSTNAME (replicate 4 0) (c (entry x))
         | None => Event IP (le_bytes 4 (d sk)) (replicate HOSTNAME_LEN 0)
         end) (events s))
  | None => events s
  end.
Proof.
  intros (Hl & Hh & Hs). unfold exec, tcp_v4_connect_exit.
  destruct (Z.eqb_spec (get_tid target_pid pt) 0) as [->|Hne].
  { rewrite connecting_zero. by destruct (ret =? 0). }
  destruct (ret =? 0); cbn [negb]; st_step; [|done]. rewrite Hs.
  destruct (connecting target_pid h _) as [sk|]; st_step; [|done]. rewrite Hh.
  by destruct (name_of target_pid h (d sk)) as [x|]; cbn [fmap option_fmap option_map]; st_step.
Qed.

Lemma entry_shows x a : shows (Some x) a (Event HOSTNAME (replicate 4 0) (c (entry x))).
Proof.
  destruct x as [[name|] res]; cbn; split_and!; try done.
  - apply probe_read_str_length.
  - apply probe_read_str_cstr. cbn. lia.
Qed.



(** With a target process set, a call of any other process changes no map, sends no event
    and returns 0. *)
Theorem other_processes_ignored (s : tstate ML MH MS P) (x : call) :
  let pt := match x with GetaddrinfoEnter pt _ _ | GetaddrinfoExit pt _ _ _
                       | ConnectEnter pt _ | ConnectExit pt _ _ => pt end in
  target_pid ≠ 0 → s32 (Z.shiftr pt 32) ≠ target_pid →
  handle target_pid x s = (0, s).
Proof.
  intros pt Ht Hp. assert (get_tid target_pid pt = 0) as Hz.
  { unfold get_tid. apply Z.eqb_neq in Ht. rewrite Ht. cbn [negb andb].
    by replace (target_pid =? _) with false by lia. }
  subst pt. destruct x; cbn [handle];
    unfold getaddrinfo_enter, getaddrinfo_exit, tcp_v4_connect_enter, tcp_v4_connect_exit;
    by rewrite Hz.
Qed.
End properties.

Lemma demo_fresh : fresh demo_state.
Proof. by split_and!. Qed.
Lemma demo_roomy : roomy 3 demo_history demo_state.
Proof. repeat split; vm_compute; lia. Qed.



Lemma other_processes_ignored_witness :
  handle 3 (ConnectEnter (4 * 2 ^ 32 + 9) 1) demo_state = (0, demo_state).
Proof. apply (other_processes_ignored 3 demo_state (ConnectEnter (4 * 2 ^ 32 + 9) 1)); done. Defined.
