(* ===== verification/TaskIter.v ===== *)
(** * TaskIter: listing tasks with a BPF iterator

    examples/c/task_iter.bpf.c ([get_task_state], [get_tasks]), task_iter.h and the printing
    loop of task_iter.c ([user_get_task_state], [task_line], [read_loop]; the set-up and
    clean-up of its [main] is in [Loaders]).  The kernel calls [get_tasks] once per task and
    once with a null task; all calls share one buffer, whose content is left over from the
    previous task. *)

From S2P Require Import Prelude CInt CFormat BpfKernel.

Definition TASK_COMM_LEN : nat := 16.
Definition MAX_STACK_LEN : nat := 127.

Record task_info := TaskInfo {
  pid : Z;
  tid : Z;
  state : Z;
  comm : bytes;
  kstack_len : Z;
  kstack : list Z;
}.

(** What the program reads of a task_struct.  [task_state] is the field [state] (a long) of
    kernels before 5.14, or [__state]. *)
Record task_struct := Task {
  task_tgid : Z;
  task_pid : Z;
  task_state : Z;
  task_comm : bytes;
  task_stack : Z + list Z;
}.

(** [bpf_seq_write] appends a record to the iterator's output, or refuses it. *)
Class SeqFile (Q : Type) := {
  bpf_seq_write : task_info → Q → Q * Z;
  seq_records : Q → list task_info;
  seq_write_records : ∀ t q, snd (bpf_seq_write t q) = 0 →
    seq_records (fst (bpf_seq_write t q)) = seq_records q ++ [t];
}.

#[export] Instance list_seq_file : SeqFile (list task_info) :=
  {| bpf_seq_write t q := (q ++ [t], 0); seq_records q := q; seq_write_records _ _ _ := eq_refl |}.

Record istate (M Q : Type) := IState { task_info_buf : M; seq : Q }.
Arguments IState {_ _} _ _.
Arguments task_info_buf {_ _} _.
Arguments seq {_ _} _.

Section bpf.
Context {M Q : Type} `{!BpfMap M Z task_info, !SeqFile Q, !ProbeStr, !GetStack}.
(** bpf_core_field_exists(struct task_struct___pre514, state) *)
Variable pre514 : bool.

Definition get_task_state (task : task_struct) : Z :=
  if pre514 then u32 (task_state task) else task_state task.

Definition get_tasks (ctx : option task_struct) : ST (istate M Q) Z :=
  match ctx with
  | None => mret 0
  | Some task =>
      t ← gets (λ s, bpf_map_lookup_elem (task_info_buf s) 0);
      match t with
      | None => mret 0
      | Some t =>
          let '(stack, res) := bpf_get_stack (task_stack task) (kstack t) in
          let t := TaskInfo (task_tgid task) (task_pid task) (get_task_state task)
                     (bpf_probe_read_str (comm t) (task_comm task))
                     (if res <=? 0 then s32 (u64 res) else s32 (u64 (res / 8))) stack in
          modify (λ s, IState (bpf_map_store (task_info_buf s) 0 t) (seq s));;
          modify (λ s, IState (task_info_buf s) (fst (bpf_seq_write t (seq s))));;
          mret 0
      end
  end.

(** One pass of the iterator. *)
Definition iterate (tasks : list task_struct) (s : istate M Q) : istate M Q :=
  exec (get_tasks None) (foldl (λ s t, exec (get_tasks (Some t)) s) s tasks).
End bpf.

(** ** User space *)

(** get_task_state of task_iter.c *)
Definition user_get_task_state (state : Z) : bytes :=
  match state with
  | 0x0000 => str "RUNNING"
  | 0x0001 => str "INTERRUPTIBLE"
  | 0x0002 => str "UNINTERRUPTIBLE"
  | 0x0200 => str "WAKING"
  | 0x0400 => str "NOLOAD"
  | 0x0402 => str "IDLE"
  | 0x0800 => str "NEW"
  | _ => str "<unknown>"
  end.

(** What is printed for a record. *)
Definition task_line (buf : task_info) : bytes :=
  if kstack_len buf <=? 0 then
    str "Error getting kernel stack for task. Task Info. Pid: " ++ fmt_d (pid buf) ++
    str ". Process Name: " ++ cstr (comm buf) ++ str ". Kernel Stack Error: " ++
    fmt_d (kstack_len buf) ++ str ". State: " ++ user_get_task_state (state buf) ++ [10]
  else
    str "Task Info. Pid: " ++ fmt_d (pid buf) ++
    str ". Process Name: " ++ cstr (comm buf) ++ str ". Kernel Stack Len: " ++
    fmt_d (kstack_len buf) ++ str ". State: " ++ user_get_task_state (state buf) ++ [10].

(** Results of read(iter_fd, &buf, sizeof(struct task_info)). *)
Inductive read_result :=
  | Got (t : task_info)
  | Failed (errno : Z)
  | EndOfFile.

(** The loop of [main]: the lines printed and err; None while it has not ended. *)
Fixpoint read_loop (reads : list read_result) : option (list bytes * Z) :=
  match reads with
  | [] => None
  | Got t :: reads' => '(lines, err) ← read_loop reads'; Some (task_line t :: lines, err)
  | Failed errno :: reads' => if errno =? EAGAIN then read_loop reads' else Some ([], - errno)
  | EndOfFile :: _ => Some ([], 0)
  end.

(** [reads] delivers the records with any number of EAGAIN between them, then ends the file
    ([fin] = 0) or fails. *)
Inductive delivers (fin : Z) : list task_info → list read_result → Prop :=
  | delivers_end : fin = 0 → delivers fin [] [EndOfFile]
  | delivers_error : fin ≠ 0 → fin ≠ EAGAIN → delivers fin [] [Failed fin]
  | delivers_again ts rs : delivers fin ts rs → delivers fin ts (Failed EAGAIN :: rs)
  | delivers_record t ts rs : delivers fin ts rs → delivers fin (t :: ts) (Got t :: rs).

(** ** Lemmas *)

(** The line of a task, from the task alone: 15 characters of its name, at most 127 frames. *)
Definition line_of (pre514 : bool) (t : task_struct) : bytes :=
  let name := take 15 (cstr (task_comm t)) in
  let st := user_get_task_state (if pre514 then u32 (task_state t) else task_state t) in
  let err e := str "Error getting kernel stack for task. Task Info. Pid: " ++ fmt_d (task_tgid t) ++
    str ". Process Name: " ++ name ++ str ". Kernel Stack Error: " ++ fmt_d e ++
    str ". State: " ++ st ++ [10] in
  match task_stack t with
  | inl e => err e
  | inr [] => err 0
  | inr frames =>
      str "Task Info. Pid: " ++ fmt_d (task_tgid t) ++ str ". Process Name: " ++ name ++
      str ". Kernel Stack Len: " ++ fmt_d (Z.of_nat (length frames `min` 127)) ++
      str ". State: " ++ st ++ [10]
  end.

Lemma read_loop_delivers fin ts rs :
  delivers fin ts rs → read_loop rs = Some (task_line <$> ts, - fin).
Proof.
  induction 1 as [->|Hf He|ts rs _ IH|t ts rs _ IH]; cbn [read_loop].
  - done.
  - apply Z.eqb_neq in He. by rewrite He.
  - by rewrite Z.eqb_refl.
  - by rewrite IH.
Qed.

Section pass.
Context {M Q : Type} `{!BpfMap M Z task_info, !SeqFile Q, !ProbeStr, !GetStack}.
Context `{!BpfMapLaws M Z task_info}.
Variable pre514 : bool.
Implicit Types s : istate M Q.

(** The shared buffer is there, and its arrays have their sizes. *)
Definition buffer_ok (s : istate M Q) : Prop :=
  ∃ t, bpf_map_lookup_elem (task_info_buf s) 0 = Some t ∧
       length (comm t) = TASK_COMM_LEN ∧ length (kstack t) = MAX_STACK_LEN.

Definition writes_accepted : Prop := ∀ t (q : Q), snd (bpf_seq_write t q) = 0.

Lemma s32_u64 z : in_s32 z → s32 (u64 z) = z.
Proof.
  intros Hz. rewrite <- (s32_small z Hz) at 2. unfold s32, u64, wraps, wrapu.
  by rewrite Z.mod_mod_divide by (exists (2 ^ 32); done).
Qed.

Lemma length_code res :
  in_s32 res ∨ (∃ n, res = 8 * Z.of_nat n ∧ (n ≤ 127)%nat) →
  (if res <=? 0 then s32 (u64 res) else s32 (u64 (res / 8))) =
  if res <=? 0 then res else res / 8.
Proof.
  intros Hres. destruct (res <=? 0) eqn:E; apply s32_u64.
  - destruct Hres as [?|(n & -> & ?)]; [done|]. unfold in_s32, INT_MIN, INT_MAX. lia.
  - unfold in_s32, INT_MIN, INT_MAX in *. destruct Hres as [?|(n & -> & ?)].
    + split; [|apply Z.div_le_upper_bound; lia]. etrans; [|apply Z.div_pos; lia]. lia.
    + rewrite (Z.mul_comm 8), Z.div_mul by lia. lia.
Qed.

Lemma get_tasks_step (t : task_struct) s :
  buffer_ok s → writes_accepted → stack_ok (task_stack t) →
  let s' := exec (get_tasks pre514 (Some t)) s in
  buffer_ok s' ∧ ∃ r, seq_records (seq s') = seq_records (seq s) ++ [r] ∧
                      task_line r = line_of pre514 t.
Proof.
  intros (b & Hb & Hcomm & Hst) Hw Hok. unfold exec, get_tasks. st_step. rewrite Hb.
  destruct (bpf_get_stack (task_stack t) (kstack b)) as [stack res] eqn:Es.
  pose proof (get_stack_length (task_stack t) (kstack b)) as Hlen. rewrite Es in Hlen. cbn in Hlen.
  st_step. cbn [task_info_buf seq]. split.
  { eexists. cbn [task_info_buf]. split; [by apply store_lookup_eq; rewrite Hb|].
    cbn [comm kstack]. by rewrite probe_read_str_length, Hlen. }
  eexists. split; [by apply seq_write_records|].
  unfold task_line, line_of. cbn [pid comm state kstack_len].
  rewrite probe_read_str_cstr by (rewrite Hcomm; unfold TASK_COMM_LEN; lia). rewrite Hcomm.
  change (TASK_COMM_LEN - 1)%nat with 15%nat. fold (get_task_state pre514 t).
  destruct (task_stack t) as [e|frames].
  - pose proof (get_stack_error e (kstack b)) as He. rewrite Es in He. cbn in He. subst res.
    destruct Hok as [Hneg Hin]. rewrite length_code by by left.
    replace (e <=? 0) with true by lia. by replace (e <=? 0) with true by lia.
  - pose proof (get_stack_size frames (kstack b)) as He. rewrite Es, Hst in He. cbn [snd] in He.
    subst res. rewrite length_code by (right; eexists; split; [done|unfold MAX_STACK_LEN; lia]).
    destruct frames as [|f frames]; [done|]. unfold MAX_STACK_LEN.
    set (n := (length (f :: frames) `min` 127)%nat). assert (0 < n)%nat by (subst n; cbn; lia).
    replace (8 * Z.of_nat n <=? 0) with false by lia.
    rewrite (Z.mul_comm 8), Z.div_mul by lia. by replace (Z.of_nat n <=? 0) with false by lia.
Qed.

Lemma iterate_records (tasks : list task_struct) s :
  buffer_ok s → writes_accepted → Forall (λ t, stack_ok (task_stack t)) tasks →
  ∃ rs, seq_records (seq (iterate pre514 tasks s)) = seq_records (seq s) ++ rs ∧
        task_line <$> rs = line_of pre514 <$> tasks.
Proof.
  unfold iterate. change (exec (get_tasks pre514 None) ?x) with x.
  revert s. induction tasks as [|t tasks IH]; intros s Hb Hw Hst.
  - exists []. by rewrite app_nil_r.
  - inversion_clear Hst as [|?? Ht Hts]. destruct (get_tasks_step t s Hb Hw Ht) as (Hb' & r & Hr & Hline).
    cbn [foldl]. destruct (IH _ Hb' Hw Hts) as (rs & Hrs & Hlines). exists (r :: rs).
    rewrite Hrs, Hr, <- app_assoc. by rewrite !fmap_cons, Hline, Hlines.
Qed.

(** ** Property *)

End pass.

Definition demo_tasks : list task_struct :=
  [Task 1 1 1 (str "systemd") (inr [10; 20; 30]);
   Task 7 8 (2 ^ 32 + 2) (str "a name of twenty chars") (inl (-22))].
Definition demo_istate : istate (amap task_info) (list task_info) :=
  IState (AMap [TaskInfo 0 0 0 (replicate 16 88) 0 (replicate 127 5)]) [].

