(* ===== verification/Profile.v ===== *)
(** * Profile: the sampling profiler, examples/c/profile.bpf.c, profile.h, profile.c

    [profile] takes a sample into the ring buffer; [event_handler], [show_stack_trace] and
    [print_frame] print it.  The symbolizer (blazesym) is a parameter: for a process or the
    kernel and a list of addresses it gives the symbols, possibly fewer than asked, or fails.
    [None] is an access outside an array.  The expected text is laid out on its own ([frame_lines],
    [sample_text]).  ([main] is in [ProfileMain].) *)

From S2P Require Import Prelude CInt CFormat BpfKernel.

Definition TASK_COMM_LEN : nat := 16.
Definition MAX_STACK_DEPTH : nat := 128.

Record stacktrace_event := Event {
  pid : Z;
  cpu_id : Z;
  comm : bytes;
  kstack_sz : Z;
  ustack_sz : Z;
  kstack : list Z;
  ustack : list Z;
}.

(** What the helpers say when the sample is taken; [cur_comm] is None when
    bpf_get_current_comm fails. *)
Record sample := Sample {
  pid_tgid : Z;
  processor_id : Z;
  cur_comm : option bytes;
  kernel_stack : Z + list Z;
  user_stack : Z + list Z;
}.

Section bpf.
Context {RB : Type} `{!RingBuf RB stacktrace_event, !GetStack}.

Definition profile (ctx : sample) : ST RB Z :=
  let pid := s32 (Z.shiftr (pid_tgid ctx) 32) in
  let cpu_id := s32 (processor_id ctx) in
  event ← (bpf_ringbuf_reserve : ST RB (option stacktrace_event));
  match event with
  | None => mret 1
  | Some event =>
      let comm := match cur_comm ctx with
                  | Some name => name
                  | None => <[0%nat := 0]> (comm event)
                  end in
      let '(kstack, ksz) := bpf_get_stack (kernel_stack ctx) (kstack event) in
      let '(ustack, usz) := bpf_get_stack (user_stack ctx) (ustack event) in
      modify (bpf_ringbuf_submit
        (Event (u32 pid) (u32 cpu_id) comm (s32 ksz) (s32 usz) kstack ustack));;
      mret 0
  end.
End bpf.

(** ** User space *)

Record code_info := CodeInfo { dir : option bytes; file : option bytes; line : Z }.
Record blaze_symbolize_inlined_fn := Inlined { i_name : bytes; i_code_info : code_info }.
Record blaze_sym := Sym {
  name : option bytes;
  addr : Z;
  offset : Z;
  sym_code_info : code_info;
  inlined : list blaze_symbolize_inlined_fn;
}.

(** %016lx *)
Definition fmt_016x (n : Z) : bytes := replicate (16 - length (fmt_x n)) 48 ++ fmt_x n.

Definition print_frame (name : bytes) (input_addr addr offset : Z) (code : option code_info) : bytes :=
  if negb (input_addr =? 0) then
    fmt_016x input_addr ++ str ": " ++ name ++ str " @ 0x" ++ fmt_x addr ++ str "+0x" ++ fmt_x offset ++
    match code with
    | Some (CodeInfo (Some dir) (Some file) line) =>
        str " " ++ dir ++ str "/" ++ file ++ str ":" ++ fmt_u line ++ [10]
    | Some (CodeInfo None (Some file) line) => str " " ++ file ++ str ":" ++ fmt_u line ++ [10]
    | _ => [10]
    end
  else
    replicate 16 32 ++ str "  " ++ name ++
    match code with
    | Some (CodeInfo (Some dir) (Some file) line) =>
        str "@ " ++ dir ++ str "/" ++ file ++ str ":" ++ fmt_u line ++ str " [inlined]" ++ [10]
    | Some (CodeInfo None (Some file) line) =>
        str "@ " ++ file ++ str ":" ++ fmt_u line ++ str " [inlined]" ++ [10]
    | _ => str "[inlined]" ++ [10]
    end.

Section user.
(** blaze_symbolize_process_abs_addrs ([Some pid]) or blaze_symbolize_kernel_abs_addrs
    ([None]), and blaze_err_str(blaze_err_last()). *)
Variable symbolize : option Z → list Z → option (list blaze_sym).
Variable blaze_err : bytes.

(** The output for frame [i] of the loop of [show_stack_trace]. *)
Definition show_frame (syms : list blaze_sym) (i : nat) (a : Z) : bytes :=
  match syms !! i with
  | Some (Sym (Some name) addr offset code fns) =>
      print_frame name a addr offset (Some code) ++
      concat (map (λ f, print_frame name 0 0 0 (Some (i_code_info f))) fns)
  | _ => fmt_016x a ++ str ": <no-symbol>" ++ [10]
  end.

(** The loop: [n] frames from frame [i]. *)
Fixpoint show_frames (syms : list blaze_sym) (stack : list Z) (i n : nat) : option bytes :=
  match n with
  | O => Some []
  | S n' =>
      a ← stack !! i;
      rest ← show_frames syms stack (S i) n';
      Some (show_frame syms i a ++ rest)
  end.

Definition show_stack_trace (stack : list Z) (stack_sz pid : Z) : option bytes :=
  let src := if negb (pid =? 0) then Some pid else None in
  match symbolize src (take (Z.to_nat stack_sz) stack) with
  | None => Some (str "  failed to symbolize addresses: " ++ blaze_err ++ [10])
  | Some syms => show_frames syms stack 0 (Z.to_nat stack_sz)
  end.

(** The return code and the output. *)
Definition event_handler (e : stacktrace_event) : option (Z * bytes) :=
  if (kstack_sz e <=? 0) && (ustack_sz e <=? 0) then Some (1, []) else
  let head := str "COMM: " ++ cstr (comm e) ++ str " (pid=" ++ fmt_d (s32 (pid e)) ++ str ") @ CPU " ++
              fmt_d (s32 (cpu_id e)) ++ [10] in
  k ← (if kstack_sz e >? 0
       then t ← show_stack_trace (kstack e) (s32 (kstack_sz e / 8)) 0; Some (str "Kernel:" ++ [10] ++ t)
       else Some (str "No Kernel Stack" ++ [10]));
  u ← (if ustack_sz e >? 0
       then t ← show_stack_trace (ustack e) (s32 (ustack_sz e / 8)) (s32 (pid e));
            Some (str "Userspace:" ++ [10] ++ t)
       else Some (str "No Userspace Stack" ++ [10]));
  Some (0, head ++ k ++ u ++ [10]).

(** ** What a sample should print *)

(** Where code comes from: the path and the line. *)
Definition location (c : code_info) : option bytes :=
  f ← file c;
  Some (match dir c with Some d => d ++ str "/" ++ f | None => f end ++ str ":" ++ fmt_u (line c)).

(** A frame of the stack: its address, and what is known of it.  A function that was inlined
    has no address; a frame with the address 0 is printed like one. *)
Definition frame_line (a : Z) (n : bytes) (s : blaze_sym) : bytes :=
  fmt_016x a ++ str ": " ++ n ++ str " @ 0x" ++ fmt_x (addr s) ++ str "+0x" ++ fmt_x (offset s) ++
  match location (sym_code_info s) with Some l => str " " ++ l | None => [] end.
Definition inlined_line (n : bytes) (c : code_info) : bytes :=
  replicate 18 32 ++ n ++
  match location c with
  | Some l => str "@ " ++ l ++ str " [inlined]"
  | None => str "[inlined]"
  end.

(** The lines of a frame: its own and one for each function inlined there, with the name
    [naming] gives it. *)
Definition frame_lines (naming : bytes → blaze_symbolize_inlined_fn → bytes) (a : Z)
    (found : option blaze_sym) : list bytes :=
  match found ≫= λ s, n ← name s; Some (s, n) with
  | Some (s, n) =>
      (if a =? 0 then inlined_line n (sym_code_info s) else frame_line a n s) ::
      ((λ f, inlined_line (naming n f) (i_code_info f)) <$> inlined s)
  | None => [fmt_016x a ++ str ": <no-symbol>"]
  end.
Definition lines (ls : list bytes) : bytes := ls ≫= λ l, l ++ [10].

(** profile.c names an inlined function like the symbol it is inlined in. *)
Definition enclosing (n : bytes) (f : blaze_symbolize_inlined_fn) : bytes := n.
(** Its own name. *)
Definition own (n : bytes) (f : blaze_symbolize_inlined_fn) : bytes := i_name f.

Section text.
Variable naming : bytes → blaze_symbolize_inlined_fn → bytes.

(** One stack: at most 128 frames. *)
Definition stack_text (st : Z + list Z) (title none : bytes) (pid : Z) : bytes :=
  match st with
  | inr (a :: l) =>
      let frames := take MAX_STACK_DEPTH (a :: l) in
      title ++ [10] ++
      match symbolize (if pid =? 0 then None else Some pid) frames with
      | None => str "  failed to symbolize addresses: " ++ blaze_err ++ [10]
      | Some syms => lines (concat (imap (λ i a, frame_lines naming a (syms !! i)) frames))
      end
  | _ => none ++ [10]
  end.

Definition has_frames (st : Z + list Z) : bool :=
  match st with inr (_ :: _) => true | _ => false end.

Definition sample_text (s : sample) : Z * bytes :=
  let pid := s32 (Z.shiftr (pid_tgid s) 32) in
  if has_frames (kernel_stack s) || has_frames (user_stack s) then
    (0, str "COMM: " ++ match cur_comm s with Some name => cstr name | None => [] end ++
        str " (pid=" ++ fmt_d pid ++ str ") @ CPU " ++ fmt_d (s32 (processor_id s)) ++ [10] ++
        stack_text (kernel_stack s) (str "Kernel:") (str "No Kernel Stack") 0 ++
        stack_text (user_stack s) (str "Userspace:") (str "No Userspace Stack") pid ++ [10])
  else (1, []).
End text.

(** ** Lemmas *)

Lemma lines_app ls ks : lines (ls ++ ks) = lines ls ++ lines ks.
Proof. unfold lines. apply bind_app. Qed.

Lemma print_frame_found a n ad off c :
  print_frame n a ad off (Some c) =
  (if a =? 0 then inlined_line n c else frame_line a n (Sym (Some n) ad off c [])) ++ [10].
Proof.
  unfold print_frame, inlined_line, frame_line, location. cbn [addr offset sym_code_info].
  destruct (a =? 0); cbn [negb]; destruct c as [[d|] [f|] ln];
    cbn [file dir line mbind option_bind];
    change (replicate 18 32) with (replicate 16 32 ++ str "  "); rewrite <- ?app_assoc; done.
Qed.

Lemma inlined_frames n fns :
  concat (map (λ f, print_frame n 0 0 0 (Some (i_code_info f))) fns) =
  lines ((λ f, inlined_line n (i_code_info f)) <$> fns).
Proof.
  induction fns as [|f fns IH]; [done|]. cbn [map concat]. rewrite IH, print_frame_found. done.
Qed.

(** A frame is printed as it should, but for the names of inlined functions. *)
Lemma show_frame_lines syms i a : show_frame syms i a = lines (frame_lines enclosing a (syms !! i)).
Proof.
  unfold show_frame, frame_lines. destruct (syms !! i) as [[[n|] ad off code fns]|];
    cbn [mbind option_bind name].
  - rewrite print_frame_found, inlined_frames. done.
  - unfold lines. cbn [mbind list_bind]. by rewrite app_nil_r, <- app_assoc.
  - unfold lines. cbn [mbind list_bind]. by rewrite app_nil_r, <- app_assoc.
Qed.

Lemma lines_imap syms l i :
  concat (imap (λ j, show_frame syms (i + j)) l) =
  lines (concat (imap (λ j a, frame_lines enclosing a (syms !! (i + j)%nat)) l)).
Proof.
  revert i. induction l as [|a l IH]; intros i; [done|]. cbn [imap concat].
  rewrite lines_app, show_frame_lines, Nat.add_0_r. f_equal.
  pose proof (IH (S i)) as E. cbn [Nat.add] in E.
  erewrite imap_ext, E; [f_equal; f_equal; apply imap_ext|]; intros j b _; cbn;
    by rewrite <- plus_n_Sm.
Qed.

(** With symbols named like the functions inlined in them, the names are the right ones. *)
Definition plainly_named (s : blaze_sym) : Prop :=
  ∀ n, name s = Some n → Forall (λ f, i_name f = n) (inlined s).

Lemma frame_lines_own a found :
  (∀ s, found = Some s → plainly_named s) → frame_lines enclosing a found = frame_lines own a found.
Proof.
  intros Hs. destruct found as [s|]; [|done]. unfold frame_lines. cbn.
  destruct (name s) as [n|] eqn:E; [|done]. cbn. f_equal. specialize (Hs s eq_refl n E).
  induction Hs as [|f fns Hf _ IH]; [done|]. cbn. rewrite IH. unfold enclosing, own. by rewrite Hf.
Qed.

Lemma show_frames_imap syms (stack : list Z) n i :
  (i + n ≤ length stack)%nat →
  show_frames syms stack i n =
  Some (concat (imap (λ j, show_frame syms (i + j)) (take n (drop i stack)))).
Proof.
  revert i. induction n as [|n IH]; intros i Hl; [done|]. cbn [show_frames].
  destruct (lookup_lt_is_Some_2 stack i ltac:(lia)) as [a Ha]. rewrite Ha, IH by lia.
  rewrite (drop_S _ _ _ Ha). cbn [take imap concat mbind option_bind]. rewrite Nat.add_0_r.
  do 3 f_equal. apply imap_ext. intros j b _. cbn. f_equal. lia.
Qed.

Lemma s32_s32 z : s32 (s32 z) = s32 z.
Proof. apply s32_small, s32_range. Qed.

Lemma s32_u32 z : s32 (u32 z) = s32 z.
Proof. unfold s32, u32, wraps, wrapu. by rewrite Z.mod_mod. Qed.
End user.

Section sample.
Context {RB : Type} `{!RingBuf RB stacktrace_event, !GetStack, !RingBufLaws RB stacktrace_event}.
Variable symbolize : option Z → list Z → option (list blaze_sym).
Variable blaze_err : bytes.

(** A stored stack: its size field and what showing it prints. *)
Lemma stack_shown st (buf : list Z) (p : Z) title none :
  stack_ok st → length buf = MAX_STACK_DEPTH →
  let '(b, sz) := bpf_get_stack st buf in
  (s32 sz <=? 0) = negb (has_frames st) ∧
  (if s32 sz >? 0
   then t ← show_stack_trace symbolize blaze_err b (s32 (s32 sz / 8)) p; Some (title ++ [10] ++ t)
   else Some (none ++ [10])) = Some (stack_text symbolize blaze_err enclosing st title none p).
Proof.
  intros Hok Hbuf. destruct (bpf_get_stack st buf) as [b sz] eqn:E.
  pose proof (get_stack_length st buf) as Hlen. rewrite E in Hlen. cbn in Hlen.
  destruct st as [e|frames].
  { pose proof (get_stack_error e buf) as He. rewrite E in He. cbn in He. subst sz.
    destruct Hok as [Hneg Hin]. rewrite s32_small by done. cbn [has_frames negb].
    split; [lia|]. by replace (e >? 0) with false by lia. }
  pose proof (get_stack_size frames buf) as Hsz. pose proof (get_stack_frames frames buf) as Hfr.
  rewrite E, Hbuf in *. cbn [fst snd] in *. set (n := (length frames `min` MAX_STACK_DEPTH)%nat) in *.
  assert (n ≤ 128)%nat as Hn by (unfold n, MAX_STACK_DEPTH; lia).
  assert (∀ m, 0 ≤ m ≤ 1024 → s32 m = m) as Hs.
  { intros m Hm. apply s32_small. unfold in_s32, INT_MIN, INT_MAX. lia. }
  rewrite Hsz, (Hs (8 * Z.of_nat n)) by lia.
  destruct frames as [|a frames]; [done|]. cbn [has_frames negb].
  assert (0 < n)%nat by (unfold n, MAX_STACK_DEPTH; cbn; lia). split; [lia|].
  replace (8 * Z.of_nat n >? 0) with true by lia.
  rewrite (Z.mul_comm 8), Z.div_mul, Hs by lia. unfold show_stack_trace, stack_text.
  rewrite Nat2Z.id, Hfr. replace (if negb (p =? 0) then Some p else None)
    with (if p =? 0 then None else Some p) by (by destruct (p =? 0)).
  destruct (symbolize _ _) as [syms|]; [|done].
  rewrite show_frames_imap by (rewrite Hlen; unfold n, MAX_STACK_DEPTH; lia).
  rewrite drop_0, Hfr. by rewrite (lines_imap syms _ 0).
Qed.

Lemma stack_text_own st title none p :
  (∀ src l syms, symbolize src l = Some syms → Forall plainly_named syms) →
  stack_text symbolize blaze_err enclosing st title none p =
  stack_text symbolize blaze_err own st title none p.
Proof.
  intros Hs. unfold stack_text. destruct st as [e|[|a l]]; [done..|].
  destruct (symbolize _ _) as [syms|] eqn:E; [|done]. apply Hs in E.
  do 4 f_equal. apply imap_ext. intros i b _. apply frame_lines_own. intros s Hi.
  by eapply Forall_lookup_1 in E.
Qed.

(** ** Properties *)

(** C21. A sample from perf interrupt to screen: for any content of the reserved memory, any
    stacks (empty, failed, deeper than 128) and any answer of the symbolizer (short or
    missing included), [profile] submits one event, and printing that event never indexes
    outside a stack and gives the text of the sample, which does not depend on the reserved
    memory: a title for each stack and, for each frame, its address, symbol, offset and place
    in the source, followed by one line for each function inlined there; with two empty
    stacks nothing is printed.  The line of an inlined function carries the name of the
    enclosing symbol; the text is the one with the functions' own names when these are the
    same. *)
Theorem sample_printed_as_taken (b : RB) (ctx : sample) (g : stacktrace_event) :
  fst (bpf_ringbuf_reserve b) = Some g →
  length (comm g) = TASK_COMM_LEN → length (kstack g) = MAX_STACK_DEPTH →
  length (ustack g) = MAX_STACK_DEPTH →
  stack_ok (kernel_stack ctx) → stack_ok (user_stack ctx) →
  fst (profile ctx b) = 0 ∧
  (∃ e, rb_samples (snd (profile ctx b)) = rb_samples b ++ [e] ∧
        event_handler symbolize blaze_err e = Some (sample_text symbolize blaze_err enclosing ctx)) ∧
  ((∀ src l syms, symbolize src l = Some syms → Forall plainly_named syms) →
   sample_text symbolize blaze_err enclosing ctx = sample_text symbolize blaze_err own ctx).
Proof.
  intros Hres Hc Hk Hu Hko Huo. unfold profile. st_step.
  pose proof (reserve_samples b) as Hsame. rewrite Hres.
  pose proof (stack_shown (kernel_stack ctx) (kstack g) 0 (str "Kernel:") (str "No Kernel Stack") Hko Hk) as HK.
  pose proof (stack_shown (user_stack ctx) (ustack g) (s32 (Z.shiftr (pid_tgid ctx) 32))
    (str "Userspace:") (str "No Userspace Stack") Huo Hu) as HU.
  destruct (bpf_get_stack (kernel_stack ctx) _) as [ks ksz], (bpf_get_stack (user_stack ctx) _) as [us usz].
  destruct HK as [HK0 HK], HU as [HU0 HU]. st_step. split; [done|].
  split; [|intros Hs; unfold sample_text; by rewrite !stack_text_own]. eexists.
  split; [by rewrite submit_samples, Hsame|].
  unfold event_handler, sample_text. cbn [kstack_sz ustack_sz kstack ustack pid cpu_id comm].
  rewrite HK0, HU0. rewrite <- negb_orb. destruct (_ || _); cbn [negb]; [|done].
  rewrite !s32_u32, !s32_s32, HK, HU. cbn [mbind option_bind].
  rewrite <- !app_assoc. do 4 f_equal. destruct (cur_comm ctx); [done|].
  destruct (comm g) as [|x l]; done.
Qed.
End sample.

(** A symbol without the names of its inlined functions. *)
Definition forget (s : blaze_sym) : blaze_sym :=
  Sym (name s) (addr s) (offset s) (sym_code_info s)
    (map (λ f, Inlined [] (i_code_info f)) (inlined s)).

(** The line of an inlined frame carries the name of the enclosing symbol: the names of
    the inlined functions never influence the output. *)
Theorem inlined_names_not_printed (symbolize symbolize' : option Z → list Z → option (list blaze_sym))
    (blaze_err : bytes) (e : stacktrace_event) :
  (∀ src l, option_map (map forget) (symbolize src l) = option_map (map forget) (symbolize' src l)) →
  event_handler symbolize blaze_err e = event_handler symbolize' blaze_err e.
Proof.
  intros Heq.
  assert (∀ syms i a, show_frame (map forget syms) i a = show_frame syms i a) as Hframe.
  { intros syms i a. unfold show_frame. rewrite (list_lookup_fmap forget).
    destruct (syms !! i) as [[[n|] ad off code fns]|]; cbn; [|done..].
    by rewrite map_map. }
  assert (∀ syms stack n i, show_frames (map forget syms) stack i n = show_frames syms stack i n) as Hframes.
  { intros syms stack n. induction n as [|n IH]; intros i; cbn; [done|].
    destruct (stack !! i); cbn; [|done]. by rewrite Hframe, IH. }
  assert (∀ stack sz p, show_stack_trace symbolize blaze_err stack sz p =
                        show_stack_trace symbolize' blaze_err stack sz p) as Htrace.
  { intros stack sz p. unfold show_stack_trace. specialize (Heq (if negb (p =? 0) then Some p else None)
      (take (Z.to_nat sz) stack)).
    destruct (symbolize _ _) as [s1|], (symbolize' _ _) as [s2|]; cbn in Heq; try done.
    injection Heq as Heq. by rewrite <- (Hframes s1), Heq, Hframes. }
  unfold event_handler. by rewrite !Htrace.
Qed.

Definition demo_symbolize (fn : bytes) (src : option Z) (l : list Z) : option (list blaze_sym) :=
  match src with
  | None => None
  | Some _ => Some [Sym (Some (str "main")) 4096 4 (CodeInfo None (Some (str "a.c")) 7)
                      [Inlined fn (CodeInfo None None 0)]]
  end.
Definition demo_stale : stacktrace_event :=
  Event 9 9 (replicate 16 88) 9 9 (replicate 128 9) (replicate 128 9).
Definition demo_sample : sample := Sample (42 * 2 ^ 32 + 43) 3 None (inl (-14)) (inr [4100; 5]).

Lemma sample_printed_as_taken_witness :
  let b := RQueue (E:=stacktrace_event) [] 1 demo_stale in
  fst (profile demo_sample b) = 0 ∧
  (∃ e, rb_samples (snd (profile demo_sample b)) = rb_samples b ++ [e] ∧
        event_handler (demo_symbolize (str "f")) [] e =
        Some (sample_text (demo_symbolize (str "f")) [] enclosing demo_sample)) ∧
  ((∀ src l syms, demo_symbolize (str "f") src l = Some syms → Forall plainly_named syms) →
   sample_text (demo_symbolize (str "f")) [] enclosing demo_sample =
   sample_text (demo_symbolize (str "f")) [] own demo_sample).
Proof.
  apply (sample_printed_as_taken (demo_symbolize (str "f")) []
           (RQueue (E:=stacktrace_event) [] 1 demo_stale) demo_sample demo_stale); done.
Defined.

Lemma inlined_names_not_printed_witness :
  let e := demo_stale in
  event_handler (demo_symbolize (str "f")) [] e = event_handler (demo_symbolize (str "other")) [] e.
Proof. intros e. apply inlined_names_not_printed. intros [s|] l; done. Defined.
