(* ===== verification/Float64.v ===== *)
(** * Float64: binary64 arithmetic

    The benchmarks compute averages, medians and percentiles in double.  The operations are
    the Standard Library's executable SpecFloat at 53 bits; here is what they do to
    non-negative numbers (and to negative ones by symmetry): rounding to nearest has a relative error of at most 2^-53
    ([round_spec]), representable results are exact, and the truncations the benchmarks
    print are the integer quotients and roots. *)

From Stdlib Require Import Floats.SpecFloat.
From S2P Require Import Prelude CInt.

(** ** The operations *)

Abbreviation f64 := spec_float.
Definition f64_add : f64 → f64 → f64 := SFadd 53 1024.
Definition f64_sub : f64 → f64 → f64 := SFsub 53 1024.
Definition f64_mul : f64 → f64 → f64 := SFmul 53 1024.
Definition f64_div : f64 → f64 → f64 := SFdiv 53 1024.
Definition f64_sqrt : f64 → f64 := SFsqrt 53 1024.
Definition f64_of_Z (z : Z) : f64 := binary_normalize 53 1024 z 0 false.

(** Truncation towards zero; None for infinities and NaN. *)
Definition f64_trunc (x : f64) : option Z :=
  match x with
  | S754_zero _ => Some 0
  | S754_finite s m e =>
      let a := if 0 <=? e then Z.pos m * 2 ^ e else Z.pos m / 2 ^ (- e) in
      Some (if s then - a else a)
  | _ => None
  end.

(** ** Digits *)

Lemma Zdigits2_bounds m : 0 < m → 2 ^ (Zdigits2 m - 1) ≤ m < 2 ^ Zdigits2 m.
Proof.
  destruct m as [|p|p]; try lia. intros _. cbn [Zdigits2].
  induction p as [p IH|p IH|]; cbn [digits2_pos]; [| |done];
    rewrite Pos2Z.inj_succ; replace (Z.succ (Z.pos (digits2_pos p)) - 1) with (Z.pos (digits2_pos p)) by lia;
    rewrite Z.pow_succ_r by lia;
    replace (Z.pos (digits2_pos p)) with (Z.succ (Z.pos (digits2_pos p) - 1)) at 1 by lia;
    rewrite Z.pow_succ_r by lia; lia.
Qed.

Lemma Zdigits2_unique m d : 2 ^ (d - 1) ≤ m < 2 ^ d → 0 < d → Zdigits2 m = d.
Proof.
  intros [Hl Hu] Hd. assert (0 < 2 ^ (d - 1)) by (apply Z.pow_pos_nonneg; lia).
  destruct (Zdigits2_bounds m ltac:(lia)) as [Hl' Hu'].
  assert (d - 1 < Zdigits2 m) by (apply (Z.pow_lt_mono_r_iff 2); [lia|destruct m; cbn; lia|lia]).
  assert (Zdigits2 m - 1 < d) by (apply (Z.pow_lt_mono_r_iff 2); lia). lia.
Qed.

Lemma digits_large m : 2 ^ 52 ≤ m → 53 ≤ Zdigits2 m.
Proof.
  intros Hm. destruct (Zdigits2_bounds m ltac:(lia)) as [_ Hu].
  assert (52 < Zdigits2 m); [|lia]. apply (Z.pow_lt_mono_r_iff 2); [lia|destruct m; cbn; lia|lia].
Qed.

(** ** Rounding *)

(** The record of a shifted mantissa: [shr_m] is the integer part of N / D, [shr_r] says
    whether the rest is at least a half and [shr_s] whether it is neither zero nor a half. *)
Record rec_at (N D : Z) (mrs : shr_record) : Prop := {
  at_m : shr_m mrs = N / D;
  at_r : shr_r mrs = bool_decide (D ≤ 2 * (N mod D));
  at_s : shr_s mrs = bool_decide ((2 * (N mod D)) mod D ≠ 0);
}.

Lemma shr_1_at N D mrs : 0 ≤ N → 0 < D → rec_at N D mrs → rec_at N (2 * D) (shr_1 mrs).
Proof.
  intros HN HD [Hm Hr Hs]. destruct mrs as [m r s]. cbn in Hm, Hr, Hs.
  pose proof (Z.mod_pos_bound N D HD) as Hrem.
  assert (N / (2 * D) = m / 2) as Hdiv by (rewrite Hm, Z.div_div by lia; f_equal; lia).
  assert (N mod (2 * D) = N mod D + D * (m mod 2)) as Hmod.
  { rewrite Hm, <- Z.rem_mul_r by lia. f_equal. lia. }
  assert (0 ≤ m) as Hm0 by (rewrite Hm; by apply Z.div_pos).
  assert (r || s = bool_decide (N mod D ≠ 0)) as Hrs.
  { subst r s. destruct (decide (N mod D = 0)) as [->|Hne].
    - rewrite !bool_decide_false; [done|lia|rewrite Z.mod_0_l; lia|lia].
    - rewrite (bool_decide_true (N mod D ≠ 0)) by done. case_bool_decide; [done|].
      rewrite bool_decide_true; [done|]. rewrite Z.mod_small; lia. }
  assert ((2 * (N mod (2 * D))) mod (2 * D) = 2 * (N mod D)) as Hs'.
  { rewrite Hmod. replace (2 * (N mod D + D * (m mod 2))) with (2 * (N mod D) + (m mod 2) * (2 * D)) by lia.
    rewrite Z.mod_add by lia. apply Z.mod_small. lia. }
  assert (shr_m (shr_1 (Build_shr_record m r s)) = m / 2 ∧
          shr_r (shr_1 (Build_shr_record m r s)) = bool_decide (m mod 2 = 1) ∧
          shr_s (shr_1 (Build_shr_record m r s)) = r || s) as (E1 & E2 & E3).
  { destruct m as [|[p|p|]|p]; [done| | |done|lia]; cbn [shr_1 shr_m shr_r shr_s].
    - rewrite Pos2Z.inj_xI.
      rewrite <- (Z.div_unique_pos (2 * Z.pos p + 1) 2 (Z.pos p) 1) by lia.
      by rewrite <- (Z.mod_unique_pos (2 * Z.pos p + 1) 2 (Z.pos p) 1) by lia.
    - rewrite Pos2Z.inj_xO.
      rewrite <- (Z.div_unique_pos (2 * Z.pos p) 2 (Z.pos p) 0) by lia.
      by rewrite <- (Z.mod_unique_pos (2 * Z.pos p) 2 (Z.pos p) 0) by lia. }
  split; [by rewrite E1|rewrite E2|rewrite E3, Hs', Hrs].
  - apply bool_decide_ext. rewrite Hmod. pose proof (Z.mod_pos_bound m 2 ltac:(lia)) as Hb.
    split; [intros ->; lia|]. intros Hle. assert (m mod 2 = 0 ∨ m mod 2 = 1) as [E|E] by lia; [|done].
    rewrite E in Hle. lia.
  - apply bool_decide_ext. lia.
Qed.

Lemma shr_iter_at N n : 0 ≤ N → ∀ mrs D, 0 < D → rec_at N D mrs →
  rec_at N (2 ^ Z.pos n * D) (SpecFloat.iter_pos shr_1 n mrs).
Proof.
  intros HN. induction n as [n IH|n IH|]; intros mrs D HD Hat; cbn [SpecFloat.iter_pos].
  - replace (2 ^ Z.pos n~1 * D) with (2 ^ Z.pos n * (2 ^ Z.pos n * (2 * D))).
    + assert (0 < 2 ^ Z.pos n) by (apply Z.pow_pos_nonneg; lia).
      apply IH; [nia|]. apply IH; [lia|]. by apply shr_1_at.
    + rewrite Pos2Z.inj_xI. replace (2 * Z.pos n + 1) with (Z.succ (Z.pos n + Z.pos n)) by lia.
      rewrite Z.pow_succ_r, Z.pow_add_r by lia. lia.
  - replace (2 ^ Z.pos n~0 * D) with (2 ^ Z.pos n * (2 ^ Z.pos n * D)).
    + assert (0 < 2 ^ Z.pos n) by (apply Z.pow_pos_nonneg; lia).
      apply IH; [nia|]. by apply IH.
    + assert (2 ^ Z.pos n~0 = 2 ^ Z.pos n * 2 ^ Z.pos n) as ->; [|lia].
      rewrite <- Z.pow_add_r by lia. f_equal. lia.
  - by apply shr_1_at.
Qed.

(** N / D lies where the location says, above the integer m. *)
Definition located (N D m : Z) (l : location) : Prop :=
  rec_at N D (shr_record_of_loc m l).

Lemma located_m N D m l : located N D m l → m = N / D.
Proof. intros [Hm _ _]. by destruct l as [|[]]. Qed.

Lemma located_exact m : 0 ≤ m → located m 1 m loc_Exact.
Proof.
  intros Hm. split; cbn [shr_record_of_loc shr_m shr_r shr_s].
  - by rewrite Z.div_1_r.
  - by rewrite Z.mod_1_r, bool_decide_false by lia.
  - by rewrite Z.mod_1_r, bool_decide_false by lia.
Qed.

(** Rounding to nearest is off by at most a half, and exact on integers. *)
Lemma round_nearest_at N D mrs :
  0 ≤ N → 0 < D → rec_at N D mrs →
  let R := round_nearest_even (shr_m mrs) (loc_of_shr_record mrs) in
  N / D ≤ R ≤ N / D + 1 ∧ - D ≤ 2 * (R * D - N) ≤ D ∧ (N mod D = 0 → R = N / D).
Proof.
  intros HN HD [Hm Hr Hs]. destruct mrs as [m r s]. cbn in Hm, Hr, Hs. subst m.
  pose proof (Z.div_mod N D ltac:(lia)) as E. pose proof (Z.mod_pos_bound N D HD) as Hrem.
  remember (N mod D) as rem eqn:Er. remember (N / D) as q eqn:Eq. clear Er Eq.
  assert (r = false → s = false → rem = 0) as Hex.
  { intros -> ->. symmetry in Hr, Hs. apply bool_decide_eq_false in Hr, Hs.
    apply dec_stable in Hs. rewrite Z.mod_small in Hs; lia. }
  assert (r = true → s = false → 2 * rem = D) as Hhalf.
  { intros -> ->. symmetry in Hr, Hs. apply bool_decide_eq_true in Hr.
    apply bool_decide_eq_false, dec_stable in Hs.
    apply Z.mod_divide in Hs as [k Hk]; [|lia].
    assert (1 * D ≤ k * D < 2 * D) as [H1 H2] by lia.
    apply Z.mul_le_mono_pos_r in H1; [|lia]. apply Z.mul_lt_mono_pos_r in H2; [|lia].
    assert (k = 1) by lia. subst k. lia. }
  assert (s = true → rem ≠ 0) as Hne.
  { intros -> ->. symmetry in Hs. apply bool_decide_eq_true in Hs. by rewrite Z.mod_0_l in Hs by lia. }
  clear Hs. symmetry in Hr.
  assert ((if r then D ≤ 2 * rem else 2 * rem < D)) as Hr'.
  { destruct r; [by apply bool_decide_eq_true in Hr|apply bool_decide_eq_false in Hr; lia]. }
  clear Hr. subst N.
  destruct r, s; cbn [shr_m loc_of_shr_record round_nearest_even].
  - specialize (Hne eq_refl). split; [lia|]. split; lia.
  - specialize (Hhalf eq_refl eq_refl). destruct (Z.even q); (split; [lia|]); split; lia.
  - split; [lia|]. split; lia.
  - specialize (Hex eq_refl eq_refl). split; [lia|]. split; lia.
Qed.

(** ** binary64 *)

(** The exponent range the benchmarks stay in, far inside that of binary64. *)
Definition small_exponent (e : Z) : Prop := -900 ≤ e ≤ 900.

Lemma fexp_small d e : small_exponent (d + e) → fexp 53 1024 (d + e) = d + e - 53.
Proof. unfold fexp, emin, small_exponent. lia. Qed.

(** A first rounding to 53 digits. *)
Lemma shr_fexp_at N D m e l :
  0 ≤ N → 0 < D → located N D m l → 2 ^ 52 ≤ m → small_exponent (Zdigits2 m + e) →
  let n := Zdigits2 m - 53 in
  0 ≤ n ∧ snd (shr_fexp 53 1024 m e l) = e + n ∧
  rec_at N (2 ^ n * D) (fst (shr_fexp 53 1024 m e l)).
Proof.
  intros HN HD Hl Hm He n.
  assert (0 ≤ n) as Hn.
  { pose proof (digits_large m Hm). lia. }
  split; [done|]. unfold shr_fexp. rewrite fexp_small by done.
  replace (Zdigits2 m + e - 53 - e) with n by (subst n; lia).
  destruct n as [|p|p]; cbn [shr fst snd]; [|by split; [lia|apply shr_iter_at]|lia].
  split; [lia|]. rewrite Z.pow_0_r, Z.mul_1_l. done.
Qed.

(** The second rounding renormalises a carry. *)
Lemma renormalise R e :
  2 ^ 52 ≤ R ≤ 2 ^ 53 → -900 ≤ e ≤ 800 →
  ∃ m c, 2 ^ 52 ≤ m < 2 ^ 53 ∧ 0 ≤ c ≤ 1 ∧ m * 2 ^ c = R ∧
    shr_m (fst (shr_fexp 53 1024 R e loc_Exact)) = m ∧
    snd (shr_fexp 53 1024 R e loc_Exact) = e + c.
Proof.
  intros HR He.
  assert (Zdigits2 R = 53 ∧ R < 2 ^ 53 ∨ Zdigits2 R = 54 ∧ R = 2 ^ 53) as Hd.
  { destruct (decide (R = 2 ^ 53)) as [->|Hne]; [by right|left].
    split; [|lia]. apply Zdigits2_unique; lia. }
  destruct (shr_fexp_at R 1 R e loc_Exact) as (_ & Hs & Hat); try lia.
  { apply located_exact. lia. }
  { unfold small_exponent. lia. }
  destruct Hat as [Hm _ _]. destruct Hd as [[Hd HR']|[Hd ->]]; rewrite Hd in Hs, Hm.
  - exists R, 0. rewrite Hm, Hs. split; [lia|]. split; [lia|]. split; [lia|].
    split; [|lia]. by rewrite Z.div_1_r.
  - exists (2 ^ 52), 1. rewrite Hm, Hs. split; [lia|]. split; [lia|]. split; [done|]. split; [done|lia].
Qed.

(** Rounding N / D in units of 2^ex: the result is normal, off by at most half of its last
    place, and exact when it can be. *)
Lemma round_spec N D mx ex l :
  0 ≤ N → 0 < D → located N D mx l → 2 ^ 52 ≤ mx →
  -900 ≤ ex → Zdigits2 mx + ex ≤ 800 →
  let n := Zdigits2 mx - 53 in
  ∃ m j, binary_round_aux 53 1024 false mx ex l = S754_finite false (Z.to_pos m) (ex + j) ∧
    2 ^ 52 ≤ m < 2 ^ 53 ∧ 0 ≤ n ≤ j ∧ j ≤ n + 1 ∧
    - (2 ^ n * D) ≤ 2 * (m * 2 ^ j * D - N) ≤ 2 ^ n * D ∧
    (N mod (2 ^ n * D) = 0 → m * 2 ^ j * D = N).
Proof.
  intros HN HD Hl Hm Hex Hd n.
  destruct (shr_fexp_at N D mx ex l HN HD Hl Hm) as (Hn & Hs & Hat).
  { unfold small_exponent. destruct mx; cbn in *; lia. }
  fold n in Hn, Hs, Hat. assert (0 < 2 ^ n) as Hp by (apply Z.pow_pos_nonneg; lia).
  destruct (round_nearest_at N (2 ^ n * D) _ HN ltac:(nia) Hat) as (HR & Herr & Hexact).
  assert (N / (2 ^ n * D) = mx / 2 ^ n) as Hq.
  { rewrite Z.mul_comm, <- Z.div_div by lia. f_equal. symmetry. by apply located_m with l. }
  assert (2 ^ 52 ≤ mx / 2 ^ n < 2 ^ 53) as Hq'.
  { destruct (Zdigits2_bounds mx ltac:(lia)) as [Hlo Hhi].
    replace (Zdigits2 mx - 1) with (52 + n) in Hlo by (subst n; lia).
    replace (Zdigits2 mx) with (53 + n) in Hhi by (subst n; lia).
    rewrite Z.pow_add_r in Hlo, Hhi by lia.
    split; [by apply Z.div_le_lower_bound; lia|by apply Z.div_lt_upper_bound; lia]. }
  rewrite Hq in HR, Hexact.
  unfold binary_round_aux. destruct (shr_fexp 53 1024 mx ex l) as [mrs e'] eqn:E.
  cbn [fst snd] in *. subst e'.
  set (R := round_nearest_even (shr_m mrs) (loc_of_shr_record mrs)) in *.
  destruct (renormalise R (ex + n)) as (m & c & Hm' & Hc & HRm & Hsm & Hse); [lia|subst n; lia|].
  destruct (shr_fexp 53 1024 R (ex + n) loc_Exact) as [mrs2 e2]. cbn [fst snd] in *. subst e2.
  exists m, (n + c).
  assert (m * 2 ^ (n + c) * D = R * (2 ^ n * D)) as Hval.
  { rewrite Z.pow_add_r, <- HRm by lia. lia. }
  rewrite Hsm. split; [|split; [done|]; split; [lia|]; split; [lia|]; split].
  - destruct m as [|p|p]; [lia| |lia]. destruct (Z.leb_spec (ex + n + c) (1024 - 53)); [|lia].
    cbn. f_equal. lia.
  - rewrite Hval. lia.
  - intros H0. rewrite Hval, (Hexact H0), <- Hq. symmetry.
    rewrite Z.mul_comm. apply Z_div_exact_full_2; [nia|done].
Qed.

(** ** Exact values *)

(** The double [x] is the number v / 2^s, in its normal form. *)
Definition is64 (x : f64) (v s : Z) : Prop :=
  v = 0 ∧ x = S754_zero false ∨
  ∃ k, 0 ≤ k ∧ 2 ^ 52 ≤ v * 2 ^ k < 2 ^ 53 ∧ x = S754_finite false (Z.to_pos (v * 2 ^ k)) (- k - s).

Lemma pow2_pos k : 0 ≤ k → 0 < 2 ^ k.
Proof. intros. by apply Z.pow_pos_nonneg. Qed.

Lemma normal_pos v k : 0 ≤ k → 2 ^ 52 ≤ v * 2 ^ k → 0 < v.
Proof. intros Hk Hv. pose proof (pow2_pos k Hk). nia. Qed.

(** There are at most 52 leading zeros to make up. *)
Lemma normal_shift v k : 0 < v → 0 ≤ k → v * 2 ^ k < 2 ^ 53 → k ≤ 52.
Proof.
  intros Hv Hk Hlt. apply Z.lt_succ_r, (Z.pow_lt_mono_r_iff 2); [lia..|].
  change (Z.succ 52) with 53. pose proof (pow2_pos k Hk). nia.
Qed.

Lemma digits_le m d : 0 < m < 2 ^ d → 0 ≤ d → Zdigits2 m ≤ d.
Proof.
  intros [Hm Hd] H0. destruct (Zdigits2_bounds m Hm) as [Hl _].
  apply Z.lt_pred_le, (Z.pow_lt_mono_r_iff 2); [lia|lia|].
  replace (Z.pred (Zdigits2 m)) with (Zdigits2 m - 1) by lia. lia.
Qed.

(** A number with at most 53 significant digits is not changed by rounding. *)
Lemma round_exact v K E s :
  0 < v < 2 ^ 53 → 0 ≤ K → 2 ^ 52 ≤ v * 2 ^ K → -900 ≤ E → K + E ≤ 700 → s = - (E + K) →
  is64 (binary_round_aux 53 1024 false (v * 2 ^ K) E loc_Exact) v s.
Proof.
  intros Hv HK HM HE HKE ->. right. pose proof (pow2_pos K HK) as HpK.
  assert (Zdigits2 (v * 2 ^ K) ≤ 53 + K) as Hd.
  { apply digits_le; [|lia]. rewrite Z.pow_add_r by lia. nia. }
  destruct (round_spec (v * 2 ^ K) 1 (v * 2 ^ K) E loc_Exact) as (m & j & E1 & Hm & Hn & Hj & _ & Hex);
    try lia; [apply located_exact; lia|].
  set (n := Zdigits2 (v * 2 ^ K) - 53) in *.
  assert (m * 2 ^ j = v * 2 ^ K) as Hval.
  { rewrite !Z.mul_1_r in Hex. apply Hex.
    replace (2 ^ K) with (2 ^ (K - n) * 2 ^ n) by (rewrite <- Z.pow_add_r by lia; f_equal; lia).
    rewrite Z.mul_assoc. apply Z.mod_mul. pose proof (pow2_pos n). lia. }
  assert (j ≤ K) as HjK.
  { apply Z.nlt_ge. intros Hlt. replace j with (K + 1 + (j - K - 1)) in Hval by lia.
    rewrite !Z.pow_add_r in Hval by lia. pose proof (pow2_pos (j - K - 1) ltac:(lia)) as HP.
    assert (m * (2 * 2 ^ (j - K - 1)) = v) as Ev by (apply (Z.mul_reg_r _ _ (2 ^ K)); lia).
    assert (m * 2 ≤ m * (2 * 2 ^ (j - K - 1))) by (apply Z.mul_le_mono_nonneg_l; lia). lia. }
  assert (m = v * 2 ^ (K - j)) as Em.
  { apply (Z.mul_reg_r _ _ (2 ^ j)); [pose proof (pow2_pos j); lia|].
    rewrite Hval, <- Z.mul_assoc, <- Z.pow_add_r by lia. do 2 f_equal. lia. }
  exists (K - j). rewrite <- Em. split; [lia|]. split; [done|]. rewrite E1. f_equal. lia.
Qed.

Lemma iter_xO p n : Z.pos (Pos.iter xO p n) = Z.pos p * 2 ^ Z.pos n.
Proof.
  induction n as [|n IH] using Pos.peano_ind; [cbn; lia|].
  rewrite Pos.iter_succ, Pos2Z.inj_xO, IH, Pos2Z.inj_succ, Z.pow_succ_r by lia. lia.
Qed.

(** Aligning to a smaller exponent multiplies the mantissa. *)
Lemma shl_align_down p e e' :
  e' ≤ e → Z.pos (fst (shl_align p e e')) = Z.pos p * 2 ^ (e - e') ∧ snd (shl_align p e e') = e'.
Proof.
  intros He. unfold shl_align. destruct (e' - e) as [|d|d] eqn:E; [|lia|].
  - cbn. replace (e - e') with 0 by lia. lia.
  - cbn [fst snd]. rewrite iter_xO. split; [|done]. do 2 f_equal. lia.
Qed.

Lemma shl_align_up p e e' : e ≤ e' → shl_align p e e' = (p, e).
Proof. intros He. unfold shl_align. by destruct (e' - e) as [|d|d] eqn:E; [|done|lia]. Qed.

(** Integers below 2^53 are doubles. *)
Lemma of_Z_exact z : 0 ≤ z < 2 ^ 53 → is64 (f64_of_Z z) z 0.
Proof.
  intros Hz. destruct z as [|p|p]; [by left| |lia].
  unfold f64_of_Z, binary_normalize, binary_round.
  assert (1 ≤ Z.pos (digits2_pos p) ≤ 53) as Hd.
  { split; [lia|]. apply (digits_le (Z.pos p)); lia. }
  rewrite fexp_small by (unfold small_exponent; lia).
  destruct (shl_align_down p 0 (Z.pos (digits2_pos p) + 0 - 53)) as [E1 E2]; [lia|].
  destruct (shl_align p 0 _) as [mz ez]. cbn [fst snd] in E1, E2. subst ez. rewrite E1.
  replace (0 - (Z.pos (digits2_pos p) + 0 - 53)) with (53 - Z.pos (digits2_pos p)) by lia.
  apply round_exact; try lia.
  destruct (Zdigits2_bounds (Z.pos p)) as [Hl _]; [lia|]. cbn [Zdigits2] in Hl.
  change (2 ^ 52) with (2 ^ (53 - 1)).
  replace (53 - 1) with (Z.pos (digits2_pos p) - 1 + (53 - Z.pos (digits2_pos p))) by lia.
  rewrite Z.pow_add_r by lia. apply Z.mul_le_mono_nonneg_r; [|done].
  apply Z.lt_le_incl, pow2_pos. lia.
Qed.

(** ** The operations on normal numbers *)

Definition fin (m e : Z) : f64 := S754_finite false (Z.to_pos m) e.

Lemma mul_normal m1 e1 m2 e2 :
  0 < m1 → 0 < m2 →
  f64_mul (fin m1 e1) (fin m2 e2) = binary_round_aux 53 1024 false (m1 * m2) (e1 + e2) loc_Exact.
Proof.
  intros H1 H2. unfold f64_mul, SFmul, fin. cbn [xorb].
  by rewrite Pos2Z.inj_mul, !Z2Pos.id.
Qed.

(** Rounding an integer with at least 53 digits. *)
Lemma binary_round_large m e :
  2 ^ 52 ≤ m → small_exponent (Zdigits2 m + e) →
  binary_normalize 53 1024 m e false = binary_round_aux 53 1024 false m e loc_Exact.
Proof.
  intros Hm He. destruct m as [|p|p]; [lia| |lia]. cbn [binary_normalize]. unfold binary_round.
  change (Z.pos (digits2_pos p)) with (Zdigits2 (Z.pos p)).
  rewrite fexp_small, shl_align_up; [done| |done].
  pose proof (digits_large _ Hm). lia.
Qed.

Lemma add_normal m1 e1 m2 e2 :
  2 ^ 52 ≤ m1 → 0 < m2 →
  let ez := Z.min e1 e2 in
  let m := m1 * 2 ^ (e1 - ez) + m2 * 2 ^ (e2 - ez) in
  small_exponent (Zdigits2 m + ez) →
  f64_add (fin m1 e1) (fin m2 e2) = binary_round_aux 53 1024 false m ez loc_Exact.
Proof.
  intros H1 H2 ez m He. unfold f64_add, SFadd, fin. fold ez. cbn [cond_Zopp].
  destruct (shl_align_down (Z.to_pos m1) e1 ez) as [-> _]; [lia|].
  destruct (shl_align_down (Z.to_pos m2) e2 ez) as [-> _]; [lia|].
  rewrite !Z2Pos.id by lia. fold m. apply binary_round_large; [|done]. subst m.
  pose proof (pow2_pos (e1 - ez) ltac:(lia)). pose proof (pow2_pos (e2 - ez) ltac:(lia)).
  assert (m1 * 1 ≤ m1 * 2 ^ (e1 - ez)) by (apply Z.mul_le_mono_nonneg_l; lia).
  assert (0 < m2 * 2 ^ (e2 - ez)) by (by apply Z.mul_pos_pos). lia.
Qed.

(** The location of a quotient. *)
Lemma new_location_located N D :
  0 ≤ N → 1 < D → located N D (N / D) (new_location D (N mod D)).
Proof.
  intros HN HD. pose proof (Z.mod_pos_bound N D ltac:(lia)) as Hr.
  assert (∀ c, c = (2 * (N mod D) ?= D) → N mod D ≠ 0 → located N D (N / D) (loc_Inexact c)) as Hc.
  { intros c -> Hne. unfold located.
    destruct (Z.compare_spec (2 * (N mod D)) D) as [E|E|E]; split; cbn; try done.
    - by rewrite bool_decide_true by lia.
    - rewrite E, Z.mod_same, bool_decide_false by lia. done.
    - by rewrite bool_decide_false by lia.
    - rewrite Z.mod_small, bool_decide_true by lia. done.
    - by rewrite bool_decide_true by lia.
    - rewrite bool_decide_true; [done|]. replace (2 * (N mod D)) with (2 * (N mod D) - D + 1 * D) by lia.
      rewrite Z.mod_add, Z.mod_small by lia. lia. }
  destruct (Z.eqb_spec (N mod D) 0) as [E|E].
  - assert (located N D (N / D) loc_Exact) as H0.
    { split; cbn; [done|by rewrite E, bool_decide_false by lia|].
      rewrite E, bool_decide_false; [done|]. rewrite Z.mod_0_l; lia. }
    rewrite E. unfold new_location. by destruct (Z.even D).
  - unfold new_location. destruct (Z.even D) eqn:Hev;
      unfold new_location_even, new_location_odd; rewrite (proj2 (Z.eqb_neq _ _) E); [by apply Hc|].
    apply Hc; [|done]. apply Bool.negb_true_iff in Hev. rewrite Z.negb_even in Hev.
    apply Z.odd_spec in Hev as [h Hh].
    destruct (Z.compare_spec (2 * (N mod D) + 1) D) as [E1|E1|E1];
      destruct (Z.compare_spec (2 * (N mod D)) D) as [E2|E2|E2]; try done; lia.
Qed.

Lemma div_normal m1 e1 m2 e2 :
  2 ^ 52 ≤ m1 < 2 ^ 53 → 2 ^ 52 ≤ m2 < 2 ^ 53 → small_exponent (e1 - e2) →
  ∃ l, located (m1 * 2 ^ 53) m2 (m1 * 2 ^ 53 / m2) l ∧
    f64_div (fin m1 e1) (fin m2 e2) =
    binary_round_aux 53 1024 false (m1 * 2 ^ 53 / m2) (e1 - e2 - 53) l.
Proof.
  intros H1 H2 He. exists (new_location m2 ((m1 * 2 ^ 53) mod m2)).
  split; [apply new_location_located; lia|].
  unfold f64_div, SFdiv, fin, SFdiv_core_binary. cbn [xorb].
  rewrite !Z2Pos.id by lia. rewrite !(Zdigits2_unique _ 53) by lia.
  replace (53 + e1 - (53 + e2)) with (0 + (e1 - e2)) by lia. rewrite fexp_small by done.
  replace (Z.min (0 + (e1 - e2) - 53) (e1 - e2)) with (e1 - e2 - 53) by lia.
  replace (e1 - e2 - (e1 - e2 - 53)) with 53 by lia.
  rewrite Z.shiftl_mul_pow2 by lia. unfold Z.div, Z.modulo.
  by destruct (Z.div_eucl (m1 * 2 ^ 53) m2).
Qed.

(** ** Quotients and roots, truncated *)

Lemma of_Z_fin z : 0 < z < 2 ^ 53 →
  ∃ k, 0 ≤ k ≤ 52 ∧ 2 ^ 52 ≤ z * 2 ^ k < 2 ^ 53 ∧ f64_of_Z z = fin (z * 2 ^ k) (- k).
Proof.
  intros Hz. destruct (of_Z_exact z) as [[? _]|(k & Hk & Hm & E)]; [lia|lia|].
  exists k. split; [|split; [done|by rewrite E, Z.sub_0_r]].
  split; [done|]. apply (normal_shift z); lia.
Qed.

Lemma trunc_fin m e : 0 < m → e ≤ 0 → f64_trunc (fin m e) = Some (m / 2 ^ (- e)).
Proof.
  intros Hm He. unfold fin, f64_trunc. rewrite Z2Pos.id by done. cbv zeta.
  destruct (Z.leb_spec 0 e); [|done]. assert (e = 0) as -> by lia.
  by rewrite Z.mul_1_r, Z.div_1_r.
Qed.

(** A double within half a last place of a / b has the integer part of a / b. *)
Lemma trunc_quotient a b m T :
  0 ≤ a < 2 ^ 52 → 0 < b → 2 ^ 52 ≤ m → 0 < T → - b ≤ 2 * (m * b - a * T) ≤ b → m / T = a / b.
Proof.
  intros Ha Hb Hm HT Herr. pose proof (Z.div_mod a b ltac:(lia)) as E.
  pose proof (Z.mod_pos_bound a b Hb) as Hr. set (q := a / b) in *.
  assert (q * T ≤ m) as Hlo.
  { apply Z.nlt_ge. intros Hlt. assert (m * b ≤ (q * T - 1) * b) by (apply Z.mul_le_mono_nonneg_r; lia).
    assert (b * q * T ≤ a * T) by (apply Z.mul_le_mono_nonneg_r; lia). lia. }
  assert (m < (q + 1) * T) as Hhi.
  { apply Z.nle_gt. intros Hge. assert ((q + 1) * T * b ≤ m * b) by (apply Z.mul_le_mono_nonneg_r; lia).
    assert ((a + 1) * T ≤ (b * (q + 1)) * T) by (apply Z.mul_le_mono_nonneg_r; lia).
    assert (2 * T ≤ b) as HTb by lia.
    assert ((2 * m - 1) * (2 * T) ≤ (2 * m - 1) * b) by (apply Z.mul_le_mono_nonneg_l; lia).
    assert ((2 * m - 1) * T ≤ a * T) as Hle by lia.
    apply Z.mul_le_mono_pos_r in Hle; lia. }
  symmetry. apply Z.div_unique_pos with (m - q * T); lia.
Qed.

(** (long long)((double)a / b) is the integer quotient. *)
Lemma div_trunc a b :
  0 ≤ a < 2 ^ 52 → 0 < b < 2 ^ 53 → f64_trunc (f64_div (f64_of_Z a) (f64_of_Z b)) = Some (a / b).
Proof.
  intros Ha Hb. destruct (of_Z_fin b Hb) as (k2 & Hk2 & Hm2 & ->).
  destruct (decide (a = 0)) as [->|Hne]; [by rewrite Z.div_0_l by lia|].
  destruct (of_Z_fin a ltac:(lia)) as (k1 & Hk1 & Hm1 & ->).
  destruct (div_normal (a * 2 ^ k1) (- k1) (b * 2 ^ k2) (- k2) Hm1 Hm2) as (l & Hl & ->).
  { unfold small_exponent. lia. }
  set (m1 := a * 2 ^ k1) in *. set (m2 := b * 2 ^ k2) in *. set (mx := m1 * 2 ^ 53 / m2) in *.
  assert (2 ^ 52 ≤ mx < 2 ^ 54) as Hmx.
  { split; [apply Z.div_le_lower_bound; lia|apply Z.div_lt_upper_bound; lia]. }
  assert (Zdigits2 mx ≤ 54) as Hd by (apply digits_le; lia).
  destruct (round_spec (m1 * 2 ^ 53) m2 mx (- k1 - - k2 - 53) l) as (m & j & -> & Hm & Hn & Hj & Herr & _);
    [lia|lia|done|lia|lia|lia|].
  set (n := Zdigits2 mx - 53) in *. set (K := 53 + k1 - k2).
  replace (- k1 - - k2 - 53 + j) with (j - K) by lia.
  assert (0 < 2 ^ j) by (apply pow2_pos; lia). assert (0 < 2 ^ k2) by (apply pow2_pos; lia).
  assert (m1 * 2 ^ 53 = a * 2 ^ K * 2 ^ k2) as E1.
  { subst m1 K. rewrite <- !Z.mul_assoc, <- !Z.pow_add_r by lia. do 2 f_equal. lia. }
  assert (- (2 ^ n * b) ≤ 2 * (m * 2 ^ j * b - a * 2 ^ K) ≤ 2 ^ n * b) as Herr'.
  { rewrite E1 in Herr. subst m2. split; apply (Z.mul_le_mono_pos_r _ _ (2 ^ k2)); lia. }
  assert (j ≤ K) as HjK.
  { apply Z.nlt_ge. intros Hlt. assert (0 < 2 ^ K) by (apply pow2_pos; lia).
    assert (2 ^ n ≤ 2 ^ 1) by (apply Z.pow_le_mono_r; lia).
    assert (2 ^ (K + 1) ≤ 2 ^ j) as Hp by (apply Z.pow_le_mono_r; lia). rewrite Z.pow_add_r in Hp by lia.
    assert (2 ^ 52 * (2 ^ K * 2 ^ 1) ≤ m * 2 ^ j) by (apply Z.mul_le_mono_nonneg; lia).
    assert (2 ^ 52 * (2 ^ K * 2 ^ 1) * b ≤ m * 2 ^ j * b) by (apply Z.mul_le_mono_nonneg_r; lia).
    assert (a * 2 ^ K ≤ 2 ^ 52 * 2 ^ K) by (apply Z.mul_le_mono_nonneg_r; lia).
    assert (2 ^ n * b ≤ 2 ^ 1 * b) by (apply Z.mul_le_mono_nonneg_r; lia).
    assert (2 ^ K * 1 ≤ 2 ^ K * b) by (apply Z.mul_le_mono_nonneg_l; lia).
    assert (1 * b ≤ 2 ^ K * b) by (apply Z.mul_le_mono_nonneg_r; lia). lia. }
  change (S754_finite false (Z.to_pos m) (j - K)) with (fin m (j - K)).
  rewrite trunc_fin by lia. f_equal. replace (- (j - K)) with (K - j) by lia.
  apply trunc_quotient; try lia.
  replace (2 ^ K) with (2 ^ (K - j) * 2 ^ j) in Herr' by (rewrite <- Z.pow_add_r by lia; f_equal; lia).
  assert (2 ^ n ≤ 2 ^ j) by (apply Z.pow_le_mono_r; lia).
  assert (2 ^ n * b ≤ 2 ^ j * b) by (apply Z.mul_le_mono_nonneg_r; lia).
  split; apply (Z.mul_le_mono_pos_r _ _ (2 ^ j)); lia.
Qed.

(** The location of a square root: it is never half-way between two integers. *)
Lemma sqrt_located m :
  0 ≤ m →
  let q := Z.sqrt m in
  let r := m - q * q in
  ∃ N D l, 0 ≤ N ∧ 0 < D ∧ located N D q l ∧
    (if r =? 0 then loc_Exact else loc_Inexact (if r <=? q then Lt else Gt)) = l ∧
    (N, D) = (if r =? 0 then (q, 1) else (4 * q + (if r <=? q then 1 else 3), 4)).
Proof.
  intros Hm q r. assert (0 ≤ q) by apply Z.sqrt_nonneg.
  destruct (r =? 0).
  { exists q, 1, loc_Exact. split; [lia|]. split; [lia|]. split; [by apply located_exact|done]. }
  assert (∀ d, 0 < d < 4 → (4 * q + d) mod 4 = d ∧ (4 * q + d) / 4 = q) as Hd.
  { intros d Hd. split; symmetry; [apply Z.mod_unique_pos with q|apply Z.div_unique_pos with d]; lia. }
  destruct (r <=? q).
  - destruct (Hd 1) as [Em Ed]; [lia|]. eexists _, _, _. split; [|split; [|split; [|done]]]; [lia..|].
    split; cbn; by rewrite ?Em, ?Ed.
  - destruct (Hd 3) as [Em Ed]; [lia|]. eexists _, _, _. split; [|split; [|split; [|done]]]; [lia..|].
    split; cbn; by rewrite ?Em, ?Ed.
Qed.

(** The double nearest to a root, as an integer R in units of the last place. *)
Lemma sqrt_rounded m e :
  2 ^ 104 ≤ m < 2 ^ 106 → -900 ≤ e ≤ 700 →
  let q := Z.sqrt m in
  let r := m - q * q in
  ∃ M j, binary_round_aux 53 1024 false q e
           (if r =? 0 then loc_Exact else loc_Inexact (if r <=? q then Lt else Gt)) = fin M (e + j) ∧
    2 ^ 52 ≤ M ∧ 0 ≤ j ≤ 1 ∧ M * 2 ^ j = if r <=? q then q else q + 1.
Proof.
  intros Hm He q r. destruct (sqrt_located m) as (N & D & l & HN & HD & Hl & E & ND); [lia|].
  fold q r in Hl, E, ND. rewrite E.
  assert (2 ^ 52 ≤ q < 2 ^ 53) as Hq.
  { split; [apply Z.sqrt_le_square; lia|apply Z.sqrt_lt_square; lia]. }
  assert (Zdigits2 q = 53) as Hd by (by apply Zdigits2_unique; lia).
  destruct (round_spec N D q e l HN HD Hl) as (M & j & -> & HM & Hn & Hj & Herr & _); [lia..|].
  rewrite Hd in Hn, Hj, Herr. change (53 - 53) with 0 in Hn, Hj, Herr. rewrite Z.pow_0_r in Herr.
  exists M, j. split; [done|]. split; [lia|]. split; [lia|].
  assert (0 ≤ r) as Hr.
  { destruct (Z.sqrt_spec m) as [Hs _]; [lia|]. fold q in Hs. unfold r. lia. }
  revert ND. destruct (Z.eqb_spec r 0) as [E0|E0], (Z.leb_spec r q); intros [= -> ->]; lia.
Qed.

(** SFsqrt scales the mantissa to 105 or 106 digits and an even exponent. *)
Lemma sqrt_normal m k :
  2 ^ 52 ≤ m < 2 ^ 53 → 0 ≤ k ≤ 52 →
  ∃ T, 52 + k ≤ 2 * T ≤ 53 + k ∧
    let m' := m * 2 ^ (2 * T - k) in
    let q := Z.sqrt m' in
    let r := m' - q * q in
    f64_sqrt (fin m (- k)) =
    binary_round_aux 53 1024 false q (- T)
      (if r =? 0 then loc_Exact else loc_Inexact (if r <=? q then Lt else Gt)).
Proof.
  intros Hm Hk. set (h := Z.div2 (- k)). exists (26 - h).
  assert (2 * h ≤ - k ≤ 2 * h + 1) as Hh.
  { unfold h. rewrite Z.div2_div. pose proof (Z.div_mod (- k) 2 ltac:(lia)).
    pose proof (Z.mod_pos_bound (- k) 2 ltac:(lia)). lia. }
  split; [lia|]. intros m' q r. unfold f64_sqrt, SFsqrt, fin, SFsqrt_core_binary.
  rewrite Z2Pos.id by lia. rewrite (Zdigits2_unique m 53) by lia. fold h.
  assert (Z.div2 (53 + - k + 1) = 27 + h) as ->.
  { unfold h. rewrite !Z.div2_div. replace (53 + - k + 1) with (27 * 2 + - k) by lia.
    by rewrite Z.div_add_l. }
  assert (fexp 53 1024 (27 + h) = h - 26) as -> by (unfold fexp, emin; lia).
  replace (Z.min (h - 26) h) with (h - 26) by lia.
  replace (- (26 - h)) with (h - 26) by lia.
  assert (match - k - 2 * (h - 26) with 0 => m | Z.pos _ => Z.shiftl m (- k - 2 * (h - 26)) | Z.neg _ => 0 end = m') as ->.
  { subst m'. rewrite <- Z.shiftl_mul_pow2 by lia.
    replace (2 * (26 - h) - k) with (- k - 2 * (h - 26)) by lia.
    destruct (- k - 2 * (h - 26)) eqn:E; [lia|done|lia]. }
  pose proof (Z.sqrtrem_sqrt m') as Eq. pose proof (Z.sqrtrem_spec m') as Hspec.
  destruct (Z.sqrtrem m') as [q' r']. cbn [fst] in Eq. subst q'. fold q in Hspec |- *.
  assert (0 ≤ m') as Hm' by (subst m'; apply Z.mul_nonneg_nonneg; [lia|apply Z.pow_nonneg; lia]).
  destruct (Hspec Hm') as [Hs _]. replace r with r' by (unfold r; lia). done.
Qed.

(** The nearest integer to A * sqrt v has the integer part of sqrt v, if A is large. *)
Lemma nearest_root v A q :
  0 ≤ v → 0 < A → v < A * A → q = Z.sqrt (v * (A * A)) →
  (if v * (A * A) - q * q <=? q then q else q + 1) / A = Z.sqrt v.
Proof.
  intros Hv HA HvA ->. set (c := Z.sqrt v). set (q := Z.sqrt (v * (A * A))).
  assert (0 ≤ v * (A * A)) by (apply Z.mul_nonneg_nonneg; lia).
  destruct (Z.sqrt_spec v Hv) as [Hc1 Hc2]. fold c in Hc1, Hc2.
  destruct (Z.sqrt_spec (v * (A * A))) as [Hq1 Hq2]; [done|]. fold q in Hq1, Hq2.
  assert (0 ≤ c) by apply Z.sqrt_nonneg. assert (0 ≤ q) by apply Z.sqrt_nonneg.
  assert (c * A ≤ q) as Hlo.
  { apply Z.sqrt_le_square; [done|apply Z.mul_nonneg_nonneg; lia|].
    replace (c * A * (c * A)) with (c * c * (A * A)) by lia. apply Z.mul_le_mono_nonneg_r; lia. }
  assert (q < (c + 1) * A) as Hhi.
  { apply Z.sqrt_lt_square; [done|apply Z.mul_nonneg_nonneg; lia|].
    replace ((c + 1) * A * ((c + 1) * A)) with ((c + 1) * (c + 1) * (A * A)) by lia.
    apply Z.mul_lt_mono_pos_r; lia. }
  destruct (Z.leb_spec (v * (A * A) - q * q) q) as [Hr|Hr].
  - symmetry. apply Z.div_unique_pos with (q - c * A); lia.
  - assert (q + 1 ≠ (c + 1) * A) as Hne.
    { intros E. assert (A * A ≤ q); [|].
      - assert (v * (A * A) ≤ ((c + 1) * (c + 1) - 1) * (A * A)) by (apply Z.mul_le_mono_nonneg_r; lia).
        assert ((q + 1) * (q + 1) = (c + 1) * (c + 1) * (A * A)) by (rewrite E; lia). lia.
      - assert (A < c + 1) by (apply (Z.mul_lt_mono_pos_r A); lia).
        assert (A * A ≤ c * c) by (apply Z.mul_le_mono_nonneg; lia). lia. }
    symmetry. apply Z.div_unique_pos with (q + 1 - c * A); lia.
Qed.

(** (long long)sqrt((double)v) is the integer root. *)
Lemma sqrt_trunc v : 0 ≤ v < 2 ^ 52 → f64_trunc (f64_sqrt (f64_of_Z v)) = Some (Z.sqrt v).
Proof.
  intros Hv. destruct (decide (v = 0)) as [->|Hne]; [done|].
  destruct (of_Z_fin v ltac:(lia)) as (k & Hk & Hm & ->).
  destruct (sqrt_normal (v * 2 ^ k) k Hm Hk) as (T & HT & E). cbv zeta in E. rewrite E. clear E.
  assert (0 < 2 ^ T) as HpT by (apply pow2_pos; lia).
  assert (2 ^ 52 ≤ 2 ^ (2 * T - k) ≤ 2 ^ 53) by (split; apply Z.pow_le_mono_r; lia).
  assert (2 ^ 52 * 2 ^ 52 ≤ v * 2 ^ k * 2 ^ (2 * T - k)) by (apply Z.mul_le_mono_nonneg; lia).
  assert (v * 2 ^ k * 2 ^ (2 * T - k) ≤ (2 ^ 53 - 1) * 2 ^ 53) by (apply Z.mul_le_mono_nonneg; lia).
  assert (v * 2 ^ k * 2 ^ (2 * T - k) = v * (2 ^ T * 2 ^ T)) as Em.
  { rewrite <- Z.mul_assoc, <- !Z.pow_add_r by lia. do 2 f_equal. lia. }
  rewrite Em in *.
  destruct (sqrt_rounded (v * (2 ^ T * 2 ^ T)) (- T)) as (M & j & -> & HM & Hj & HR); [lia|lia|].
  rewrite trunc_fin by lia. f_equal. replace (- (- T + j)) with (T - j) by lia.
  rewrite <- (nearest_root v (2 ^ T) (Z.sqrt (v * (2 ^ T * 2 ^ T)))); [|lia|done| |done].
  - rewrite <- HR. replace (2 ^ T) with (2 ^ (T - j) * 2 ^ j)
      by (rewrite <- Z.pow_add_r by lia; f_equal; lia).
    rewrite Z.div_mul_cancel_r; [done|apply Z.pow_nonzero; lia..].
  - rewrite <- Z.pow_add_r by lia. apply Z.lt_le_trans with (2 ^ 52); [lia|].
    apply Z.pow_le_mono_r; lia.
Qed.

(** ** Products and sums *)

(** A number with few digits: the value of its normal form. *)
Lemma is64_fin x v s : is64 x v s → 0 < v →
  ∃ k, 0 ≤ k ≤ 52 ∧ 2 ^ 52 ≤ v * 2 ^ k < 2 ^ 53 ∧ x = fin (v * 2 ^ k) (- k - s).
Proof.
  intros [[? _]|(k & Hk & Hm & E)] Hv; [lia|]. exists k. split; [|by split].
  split; [done|]. apply (normal_shift v); lia.
Qed.

Lemma is64_zero x v s : is64 x v s → v = 0 → x = S754_zero false.
Proof.
  intros [[_ E]|(k & Hk & Hm & E)] ->; [done|]. lia.
Qed.

Lemma mul_exact x y v w s t :
  is64 x v s → is64 y w t → 0 ≤ v → 0 < w → v * w < 2 ^ 53 → 0 ≤ s ≤ 100 → 0 ≤ t ≤ 100 →
  is64 (f64_mul x y) (v * w) (s + t).
Proof.
  intros Hx Hy Hv Hw Hvw Hs Ht. destruct (is64_fin _ _ _ Hy Hw) as (k2 & Hk2 & Hm2 & ->).
  destruct (decide (v = 0)) as [->|Hne].
  { left. split; [lia|]. by rewrite (is64_zero _ _ _ Hx). }
  destruct (is64_fin _ _ _ Hx ltac:(lia)) as (k1 & Hk1 & Hm1 & ->).
  rewrite mul_normal by lia.
  replace (v * 2 ^ k1 * (w * 2 ^ k2)) with (v * w * 2 ^ (k1 + k2)) by (rewrite Z.pow_add_r by lia; lia).
  apply round_exact; try lia. rewrite Z.pow_add_r by lia.
  replace (v * w * (2 ^ k1 * 2 ^ k2)) with (v * 2 ^ k1 * (w * 2 ^ k2)) by lia.
  apply Z.le_trans with (2 ^ 52 * 1); [lia|]. apply Z.mul_le_mono_nonneg; lia.
Qed.

Lemma add_exact x y v w s :
  is64 x v s → is64 y w s → 0 ≤ v → 0 ≤ w → v + w < 2 ^ 53 → 0 ≤ s ≤ 100 →
  is64 (f64_add x y) (v + w) s.
Proof.
  intros Hx Hy Hv Hw Hvw Hs. destruct (decide (v = 0)) as [->|Hnv].
  { rewrite (is64_zero _ _ _ Hx) by done. destruct (decide (w = 0)) as [->|Hnw].
    - rewrite (is64_zero _ _ _ Hy) by done. by left.
    - destruct (is64_fin _ _ _ Hy ltac:(lia)) as (k & _ & _ & ->). exact Hy. }
  destruct (is64_fin _ _ _ Hx ltac:(lia)) as (k1 & Hk1 & Hm1 & ->).
  destruct (decide (w = 0)) as [->|Hnw].
  { rewrite (is64_zero _ _ _ Hy) by done. rewrite Z.add_0_r. exact Hx. }
  destruct (is64_fin _ _ _ Hy ltac:(lia)) as (k2 & Hk2 & Hm2 & ->).
  set (K := Z.max k1 k2). set (ez := Z.min (- k1 - s) (- k2 - s)).
  assert (v * 2 ^ k1 * 2 ^ (- k1 - s - ez) + w * 2 ^ k2 * 2 ^ (- k2 - s - ez) = (v + w) * 2 ^ K) as E.
  { rewrite <- !Z.mul_assoc, <- !Z.pow_add_r by lia.
    replace (k1 + (- k1 - s - ez)) with K by lia. replace (k2 + (- k2 - s - ez)) with K by lia. lia. }
  assert (2 ^ 52 ≤ (v + w) * 2 ^ K) as Hlarge.
  { rewrite <- E. pose proof (pow2_pos (- k1 - s - ez) ltac:(lia)).
    pose proof (pow2_pos (- k2 - s - ez) ltac:(lia)).
    assert (v * 2 ^ k1 * 1 ≤ v * 2 ^ k1 * 2 ^ (- k1 - s - ez)) by (apply Z.mul_le_mono_nonneg_l; lia).
    assert (0 < w * 2 ^ k2 * 2 ^ (- k2 - s - ez)) by (apply Z.mul_pos_pos; lia). lia. }
  assert (Zdigits2 ((v + w) * 2 ^ K) ≤ 53 + K) as Hd.
  { apply digits_le; [|lia]. rewrite Z.pow_add_r by lia. pose proof (pow2_pos K ltac:(lia)).
    split; [lia|]. apply Z.mul_lt_mono_pos_r; lia. }
  rewrite add_normal by (done || lia || (fold ez; rewrite E; unfold small_exponent;
    pose proof (digits_large _ Hlarge); lia)).
  fold ez. rewrite E. apply round_exact; lia.
Qed.

Lemma trunc_exact x v s : is64 x v s → 0 ≤ v → 0 ≤ s → f64_trunc x = Some (v / 2 ^ s).
Proof.
  intros Hx Hv Hs. destruct (decide (v = 0)) as [->|Hne].
  { rewrite (is64_zero _ _ _ Hx) by done. cbn. by rewrite Z.div_0_l by (apply Z.pow_nonzero; lia). }
  destruct (is64_fin _ _ _ Hx ltac:(lia)) as (k & Hk & Hm & ->).
  rewrite trunc_fin by lia. f_equal. replace (- (- k - s)) with (s + k) by lia.
  rewrite Z.pow_add_r by lia. apply Z.div_mul_cancel_r; apply Z.pow_nonzero; lia.
Qed.

(** ** An interpolation *)

(** [x] is within 2^-23 of V / 2^120. *)
Definition close (x : f64) (V : Z) : Prop :=
  x = S754_zero false ∧ V = 0 ∨
  ∃ m e, x = fin m e ∧ 2 ^ 52 ≤ m < 2 ^ 53 ∧ -120 ≤ e ≤ -21 ∧
    - 2 ^ 97 ≤ m * 2 ^ (e + 120) - V ≤ 2 ^ 97.

(** A value below 2^31 times a weight below 1. *)
Lemma mul_close z mc ec :
  0 ≤ z < 2 ^ 31 → 2 ^ 52 ≤ mc < 2 ^ 53 → -60 ≤ ec ≤ -53 →
  close (f64_mul (f64_of_Z z) (fin mc ec)) (z * (mc * 2 ^ (ec + 120))).
Proof.
  intros Hz Hmc Hec. destruct (decide (z = 0)) as [->|Hne]; [by left|]. right.
  destruct (of_Z_fin z ltac:(lia)) as (k & Hk & Hm & ->).
  rewrite mul_normal by lia. set (N := z * 2 ^ k * mc). set (ex := - k + ec).
  assert (2 ^ 52 * 2 ^ 52 ≤ N) as HN by (apply Z.mul_le_mono_nonneg; lia).
  assert (Zdigits2 N ≤ 31 - ex) as Hd.
  { apply digits_le; [|lia]. split; [lia|]. subst N.
    replace (31 - ex) with (31 + k + (53 + (- ec - 53))) by lia.
    rewrite !Z.pow_add_r by lia.
    assert (1 * 2 ^ 53 ≤ 2 ^ (- ec - 53) * 2 ^ 53) by (apply Z.mul_le_mono_nonneg_r; [lia|];
      pose proof (pow2_pos (- ec - 53) ltac:(lia)); lia).
    pose proof (pow2_pos k ltac:(lia)).
    apply Z.mul_lt_mono_nonneg; [lia| |lia|lia]. apply Z.mul_lt_mono_pos_r; lia. }
  destruct (round_spec N 1 N ex loc_Exact) as (M & j & -> & HM & Hn & Hj & Herr & _);
    [lia|lia|apply located_exact; lia|lia|lia|lia|].
  set (n := Zdigits2 N - 53) in *. exists M, (ex + j). split; [done|]. split; [done|]. split; [lia|].
  assert (0 < 2 ^ (ex + 120)) as Hp by (apply pow2_pos; lia).
  assert (z * (mc * 2 ^ (ec + 120)) = N * 2 ^ (ex + 120)) as ->.
  { subst N. replace (ec + 120) with (k + (ex + 120)) by lia. rewrite Z.pow_add_r by lia. lia. }
  replace (ex + j + 120) with (j + (ex + 120)) by lia. rewrite Z.pow_add_r, Z.mul_assoc by lia.
  assert (2 ^ n * 2 ^ (ex + 120) ≤ 2 ^ 98) as Hle.
  { rewrite <- Z.pow_add_r by lia. apply Z.pow_le_mono_r; lia. }
  assert (2 * (M * 2 ^ j - N) * 2 ^ (ex + 120) ≤ 2 ^ n * 2 ^ (ex + 120)) by (apply Z.mul_le_mono_nonneg_r; lia).
  assert (- 2 ^ n * 2 ^ (ex + 120) ≤ 2 * (M * 2 ^ j - N) * 2 ^ (ex + 120)) by (apply Z.mul_le_mono_nonneg_r; lia).
  lia.
Qed.

(** The sum of two such numbers. *)
Lemma add_close m1 e1 m2 e2 :
  2 ^ 52 ≤ m1 < 2 ^ 53 → -120 ≤ e1 ≤ -21 → 2 ^ 52 ≤ m2 < 2 ^ 53 → -120 ≤ e2 ≤ -21 →
  ∃ m e, f64_add (fin m1 e1) (fin m2 e2) = fin m e ∧ 2 ^ 52 ≤ m ∧ -120 ≤ e ≤ -19 ∧
    - 2 ^ 99 ≤ m * 2 ^ (e + 120) - (m1 * 2 ^ (e1 + 120) + m2 * 2 ^ (e2 + 120)) ≤ 2 ^ 99.
Proof.
  intros H1 He1 H2 He2. set (ez := Z.min e1 e2).
  set (N := m1 * 2 ^ (e1 - ez) + m2 * 2 ^ (e2 - ez)).
  assert (∀ m e, 2 ^ 52 ≤ m < 2 ^ 53 → ez ≤ e ≤ -21 → 2 ^ 52 ≤ m * 2 ^ (e - ez) < 2 ^ (32 - ez)) as Hb.
  { intros m e Hm He. pose proof (pow2_pos (e - ez) ltac:(lia)). split.
    - apply Z.le_trans with (m * 1); [lia|]. apply Z.mul_le_mono_nonneg_l; lia.
    - apply Z.lt_le_trans with (2 ^ 53 * 2 ^ (e - ez)); [apply Z.mul_lt_mono_pos_r; lia|].
      rewrite <- Z.pow_add_r by lia. apply Z.pow_le_mono_r; lia. }
  assert (2 ^ 52 ≤ N < 2 ^ (33 - ez)) as HN.
  { pose proof (Hb m1 e1 H1 ltac:(lia)). pose proof (Hb m2 e2 H2 ltac:(lia)).
    replace (33 - ez) with (1 + (32 - ez)) by lia. rewrite Z.pow_add_r by lia. lia. }
  assert (53 ≤ Zdigits2 N ≤ 33 - ez) as Hd by (split; [apply digits_large|apply digits_le]; lia).
  rewrite add_normal by (lia || (fold ez N; unfold small_exponent; lia)). fold ez N.
  destruct (round_spec N 1 N ez loc_Exact) as (M & j & -> & HM & Hn & Hj & Herr & _);
    [lia|lia|apply located_exact; lia|lia|lia|lia|].
  set (n := Zdigits2 N - 53) in *. exists M, (ez + j). split; [done|]. split; [lia|]. split; [lia|].
  assert (0 < 2 ^ (ez + 120)) as Hp by (apply pow2_pos; lia).
  assert (m1 * 2 ^ (e1 + 120) + m2 * 2 ^ (e2 + 120) = N * 2 ^ (ez + 120)) as ->.
  { subst N. rewrite Z.mul_add_distr_r, <- !Z.mul_assoc, <- !Z.pow_add_r by lia.
    do 3 f_equal; lia. }
  replace (ez + j + 120) with (j + (ez + 120)) by lia. rewrite Z.pow_add_r, Z.mul_assoc by lia.
  assert (2 ^ n * 2 ^ (ez + 120) ≤ 2 ^ 100) as Hle.
  { rewrite <- Z.pow_add_r by lia. apply Z.pow_le_mono_r; lia. }
  assert (2 * (M * 2 ^ j - N) * 2 ^ (ez + 120) ≤ 2 ^ n * 2 ^ (ez + 120)) by (apply Z.mul_le_mono_nonneg_r; lia).
  assert (- 2 ^ n * 2 ^ (ez + 120) ≤ 2 * (M * 2 ^ j - N) * 2 ^ (ez + 120)) by (apply Z.mul_le_mono_nonneg_r; lia).
  lia.
Qed.

(** The truncated sum of two such products: the quotient of the exact sum, up to a small
    error (the scale is 2^120). *)
Lemma add_close_trunc x y V W :
  close x V → close y W →
  ∃ r d, f64_trunc (f64_add x y) = Some r ∧ r = (V + W + d) / 2 ^ 120 ∧ - 2 ^ 100 ≤ d ≤ 2 ^ 100.
Proof.
  intros Hx Hy.
  assert (∀ m e U, 2 ^ 52 ≤ m → -120 ≤ e ≤ -19 → - 2 ^ 100 ≤ m * 2 ^ (e + 120) - U ≤ 2 ^ 100 →
    ∃ r d, f64_trunc (fin m e) = Some r ∧ r = (U + d) / 2 ^ 120 ∧ - 2 ^ 100 ≤ d ≤ 2 ^ 100) as Htr.
  { intros m e U Hm He Hmu. rewrite trunc_fin by lia.
    exists (m / 2 ^ (- e)), (m * 2 ^ (e + 120) - U). split; [done|]. split; [|done].
    replace (U + (m * 2 ^ (e + 120) - U)) with (m * 2 ^ (e + 120)) by lia.
    pose proof (pow2_pos (- e) ltac:(lia)) as Hpe. pose proof (pow2_pos (e + 120) ltac:(lia)) as Hpe'.
    replace (2 ^ 120) with (2 ^ (- e) * 2 ^ (e + 120)) by (rewrite <- Z.pow_add_r by lia; f_equal; lia).
    by rewrite Z.div_mul_cancel_r by lia. }
  destruct Hx as [[-> ->]|(m1 & e1 & -> & Hm1 & He1 & Hd1)], Hy as [[-> ->]|(m2 & e2 & -> & Hm2 & He2 & Hd2)].
  - exists 0, 0. split; [done|]. split; [done|lia].
  - apply (Htr m2 e2 W); lia.
  - rewrite Z.add_0_r. apply (Htr m1 e1 V); lia.
  - destruct (add_close m1 e1 m2 e2) as (m & e & -> & Hm & He & Hd); [lia..|].
    apply (Htr m e (V + W)); lia.
Qed.

(** ** Large numbers *)

(** Any positive 63-bit integer, rounded. *)
Lemma of_Z_normal a : 0 < a < 2 ^ 63 →
  ∃ m e, f64_of_Z a = fin m e ∧ 2 ^ 52 ≤ m < 2 ^ 53 ∧ -52 ≤ e ≤ 11.
Proof.
  intros Ha. destruct (decide (a < 2 ^ 53)) as [Hs|Hs].
  - destruct (of_Z_fin a ltac:(lia)) as (k & Hk & Hm & ->). exists (a * 2 ^ k), (- k).
    split; [done|]. split; [done|lia].
  - assert (53 ≤ Zdigits2 a ≤ 63) as Hd by (split; [apply digits_large|apply digits_le]; lia).
    unfold f64_of_Z. rewrite binary_round_large by (lia || (unfold small_exponent; lia)).
    destruct (round_spec a 1 a 0 loc_Exact) as (m & j & -> & Hm & Hn & Hj & _);
      [lia|lia|apply located_exact; lia|lia|lia|lia|].
    exists m, (0 + j). split; [done|]. split; [done|lia].
Qed.

(** A quotient by a million, of any such integer, is an integer after truncation. *)
Lemma div_million a : 0 ≤ a < 2 ^ 63 →
  ∃ r, f64_trunc (f64_div (f64_of_Z a) (f64_of_Z 1000000)) = Some r ∧ 0 ≤ r ≤ 2 ^ 53 ∧
    (a < 2 ^ 52 → r = a / 1000000).
Proof.
  intros Ha. assert (a < 2 ^ 52 → f64_trunc (f64_div (f64_of_Z a) (f64_of_Z 1000000)) = Some (a / 1000000))
    as Hex by (intros ?; apply div_trunc; lia).
  destruct (decide (a = 0)) as [->|Hne]; [by exists 0|].
  destruct (of_Z_normal a ltac:(lia)) as (m1 & e1 & Ea & Hm1 & He1). rewrite Ea in *.
  assert (f64_of_Z 1000000 = fin 8589934592000000 (-33)) as Eb by by vm_compute. rewrite Eb in *.
  destruct (div_normal m1 e1 8589934592000000 (-33)) as (l & Hl & Ed);
    [lia|lia|unfold small_exponent; lia|]. rewrite Ed in *.
  set (mx := m1 * 2 ^ 53 / 8589934592000000) in *.
  assert (2 ^ 52 ≤ mx < 2 ^ 54) as Hmx.
  { split; [apply Z.div_le_lower_bound; lia|apply Z.div_lt_upper_bound; lia]. }
  assert (Zdigits2 mx ≤ 54) as Hdx by (apply digits_le; lia).
  destruct (round_spec (m1 * 2 ^ 53) 8589934592000000 mx (e1 - -33 - 53) l) as (m & j & E & Hm & Hn & Hj & _);
    [lia|lia|done|lia|lia|lia|].
  rewrite E in *. change (S754_finite false (Z.to_pos m) ?e) with (fin m e) in *.
  rewrite trunc_fin in * by lia. eexists. split; [done|]. split.
  - assert (0 < 2 ^ (- (e1 - -33 - 53 + j))) by (apply pow2_pos; lia).
    split; [apply Z.div_pos; lia|apply Z.div_le_upper_bound; [lia|]]. nia.
  - intros Hs. by injection (Hex Hs).
Qed.

(** ** Negative numbers *)

Lemma round_aux_opp m e l :
  binary_round_aux 53 1024 true m e l = SFopp (binary_round_aux 53 1024 false m e l).
Proof.
  unfold binary_round_aux. destruct (shr_fexp 53 1024 m e l) as [mrs e1].
  destruct (shr_fexp 53 1024 _ e1 loc_Exact) as [mrs2 e2].
  destruct (shr_m mrs2); [done| |done]. by destruct (e2 <=? _).
Qed.

Lemma of_Z_opp a : 0 < a → f64_of_Z (- a) = SFopp (f64_of_Z a).
Proof.
  intros Ha. destruct a as [|p|p]; [lia| |lia]. change (- Z.pos p) with (Z.neg p).
  unfold f64_of_Z, binary_normalize, binary_round.
  destruct (shl_align p 0 _) as [mz ez]. apply round_aux_opp.
Qed.

Lemma trunc_opp x : f64_trunc (SFopp x) = Z.opp <$> f64_trunc x.
Proof.
  destruct x as [s|s| |s m e]; [done..|]. cbn. by destruct s; cbn; rewrite ?Z.opp_involutive.
Qed.

Lemma div_opp x m e : f64_div (SFopp x) (fin m e) = SFopp (f64_div x (fin m e)).
Proof.
  destruct x as [s|s| |s m1 e1]; [by destruct s..|done|]. unfold f64_div, SFdiv, SFopp, fin.
  destruct (SFdiv_core_binary 53 1024 _ e1 _ e) as [[mz ez] lz].
  destruct s; cbn [negb xorb]; rewrite ?round_aux_opp; [|done].
  by destruct (binary_round_aux 53 1024 false mz ez lz) as [[]|[]| |[]].
Qed.

(** Nanoseconds to milliseconds: (long long)(a / 1e6). *)
Lemma quot_million a : - 2 ^ 63 < a < 2 ^ 63 →
  ∃ r, f64_trunc (f64_div (f64_of_Z a) (f64_of_Z 1000000)) = Some r ∧ - 2 ^ 53 ≤ r ≤ 2 ^ 53 ∧
    (Z.abs a < 2 ^ 52 → r = Z.quot a 1000000).
Proof.
  intros Ha. destruct (decide (0 ≤ a)) as [Hp|Hn].
  - destruct (div_million a) as (r & E & Hr & Hex); [lia|]. exists r.
    split; [done|]. split; [lia|]. intros Hs. rewrite Z.quot_div_nonneg by lia. apply Hex. lia.
  - destruct (div_million (- a)) as (r & E & Hr & Hex); [lia|]. exists (- r).
    split; [|split; [lia|]].
    + replace a with (- - a) by lia. rewrite of_Z_opp by lia.
      assert (f64_of_Z 1000000 = fin 8589934592000000 (-33)) as Eb by by vm_compute.
      rewrite Eb in *. by rewrite div_opp, trunc_opp, E.
    + intros Hs. rewrite Hex by lia. replace a with (- - a) at 2 by lia.
      by rewrite Z.quot_opp_l, Z.quot_div_nonneg by lia.
Qed.
