(* ===== verification/BenchStats.v ===== *)
(** * BenchStats: the latency statistics of examples/c/benchmark.c

    [compare] (handed to qsort), [calculate_average], [calculate_median],
    [calculate_standard_deviation] and [calculate_percentile], over arrays of long long.  An
    index outside the array and a signed overflow are values of [res].  double is IEEE
    binary64 ([Float64]).
    qsort is a parameter with the behaviour the C standard gives it.  (benchmark_file.c's
    [calculate_average] is the same function; the workloads are in the other Bench files.) *)

From Stdlib Require Import Floats.SpecFloat.
From S2P Require Import Prelude CInt Float64.

(** ** Results *)

Inductive res (A : Type) :=
  | Ok (a : A)
  | OutOfBounds
  | Overflow.
Arguments Ok {A} _.
Arguments OutOfBounds {A}.
Arguments Overflow {A}.

#[export] Instance res_ret : MRet res := λ A a, Ok a.
#[export] Instance res_bind : MBind res := λ A B f m,
  match m with Ok a => f a | OutOfBounds => OutOfBounds | Overflow => Overflow end.

(** arr[i], and the result of a signed 64-bit operation. *)
Definition get (arr : list Z) (i : Z) : res Z :=
  if i <? 0 then OutOfBounds
  else match arr !! Z.to_nat i with Some x => Ok x | None => OutOfBounds end.
Definition checked64 (z : Z) : res Z := if bool_decide (in_s64 z) then Ok z else Overflow.

(** ** double to integer *)

(** (long long)x and (int)x; out of range is undefined. *)
Definition f64_to_s64 (x : f64) : res Z :=
  match f64_trunc x with Some z => checked64 z | None => Overflow end.
Definition f64_to_s32 (x : f64) : res Z :=
  match f64_trunc x with
  | Some z => if bool_decide (in_s32 z) then Ok z else Overflow
  | None => Overflow
  end.

(** ** The functions *)

Definition get_time_in_ns (tv_sec tv_nsec : Z) : res Z :=
  s ← checked64 (tv_sec * 1000000000); checked64 (s + tv_nsec).

(** It is handed pointers to long long, and reads an int through each; the host is
    little-endian. *)
Definition compare (a b : Z) : res Z :=
  let d := s32 (u64 a) - s32 (u64 b) in
  if bool_decide (in_s32 d) then Ok d else Overflow.

(** for (i = i0; i < i0 + n; i++) sum += f(arr[i]) *)
Fixpoint sum_loop (f : Z → res Z) (arr : list Z) (i : Z) (n : nat) (sum : Z) : res Z :=
  match n with
  | O => Ok sum
  | S n' =>
      x ← get arr i;
      v ← f x;
      sum ← checked64 (sum + v);
      sum_loop f arr (i + 1) n' sum
  end.

Definition calculate_average (arr : list Z) (n : Z) : res Z :=
  sum ← sum_loop Ok arr 0 (Z.to_nat n) 0;
  Ok (Z.quot sum n).

Definition calculate_median (arr : list Z) (n : Z) : res Z :=
  if Z.rem n 2 =? 0 then
    a ← get arr (Z.quot n 2 - 1);
    b ← get arr (Z.quot n 2);
    s ← checked64 (a + b);
    f64_to_s64 (f64_div (f64_of_Z s) (f64_of_Z 2))
  else get arr (Z.quot n 2).

(** The loop of [calculate_standard_deviation]. *)
Definition square_diff (mean x : Z) : res Z :=
  diff ← checked64 (x - mean); checked64 (diff * diff).
Definition sum_squared_diff (arr : list Z) (n mean : Z) : res Z :=
  sum_loop (square_diff mean) arr 0 (Z.to_nat n) 0.

Definition calculate_standard_deviation (arr : list Z) (n mean : Z) : res Z :=
  sum ← sum_squared_diff arr n mean;
  f64_to_s64 (f64_sqrt (f64_of_Z (Z.quot sum n))).

(** rank = (percentile / 100.0) * (n - 1) *)
Definition percentile_rank (n percentile : Z) : f64 :=
  f64_mul (f64_div (f64_of_Z percentile) (f64_of_Z 100)) (f64_of_Z (n - 1)).

Definition calculate_percentile (arr : list Z) (n percentile : Z) : res Z :=
  let rank := percentile_rank n percentile in
  lower_index ← f64_to_s32 rank;
  let upper_index := lower_index + 1 in
  if upper_index >=? n then get arr lower_index else
  let weight := f64_sub rank (f64_of_Z lower_index) in
  l ← get arr lower_index;
  u ← get arr upper_index;
  f64_to_s64 (f64_add (f64_mul (f64_of_Z l) (f64_sub (f64_of_Z 1) weight))
                      (f64_mul (f64_of_Z u) weight)).

(** qsort(base, n, size, compar): the elements in the order of the comparison, when it is the
    comparison of an order on the elements that are there; otherwise unspecified. *)
Class Qsort := {
  qsort : (Z → Z → res Z) → list Z → list Z;
  qsort_sorts : ∀ compar l,
    (∀ a b, a ∈ l → b ∈ l → ∃ d, compar a b = Ok d ∧ (d ≤ 0 ↔ a ≤ b)) →
    qsort compar l ≡ₚ l ∧ StronglySorted Z.le (qsort compar l);
}.

(** What main prints after the runs: average, deviation, median, P75, P99. *)
Record report := Report { average : Z; std_dev : Z; median : Z; p75 : Z; p99 : Z }.
Definition summarise `{!Qsort} (latencies : list Z) (n : Z) : res report :=
  let latencies := qsort compare latencies in
  average ← calculate_average latencies n;
  std_dev ← calculate_standard_deviation latencies n average;
  median ← calculate_median latencies n;
  p75 ← calculate_percentile latencies n 75;
  p99 ← calculate_percentile latencies n 99;
  Ok (Report average std_dev median p75 p99).

(** ** An implementation of qsort *)

Fixpoint insert (compar : Z → Z → res Z) (x : Z) (l : list Z) : list Z :=
  match l with
  | [] => [x]
  | y :: l' => match compar x y with
               | Ok d => if d <=? 0 then x :: l else y :: insert compar x l'
               | _ => x :: l
               end
  end.
Definition insertion_sort (compar : Z → Z → res Z) (l : list Z) : list Z :=
  foldr (insert compar) [] l.

Lemma insert_perm compar x l : insert compar x l ≡ₚ x :: l.
Proof.
  induction l as [|y l IH]; cbn; [done|]. destruct (compar x y) as [d| |]; try done.
  destruct (d <=? 0); [done|]. rewrite IH. by rewrite Permutation_swap.
Qed.

Lemma insertion_sort_perm compar l : insertion_sort compar l ≡ₚ l.
Proof. induction l as [|x l IH]; cbn; [done|]. by rewrite insert_perm, IH. Qed.

Lemma insert_sorted compar x l :
  (∀ b, b ∈ l → ∃ d, compar x b = Ok d ∧ (d ≤ 0 ↔ x ≤ b)) →
  StronglySorted Z.le l → StronglySorted Z.le (insert compar x l).
Proof.
  intros Hc. induction 1 as [|y l Hs IH Hy]; cbn; [repeat constructor|].
  destruct (Hc y) as (d & -> & Hd); [left|]. destruct (Z.leb_spec d 0).
  - constructor; [by constructor|]. constructor; [lia|].
    eapply Forall_impl; [exact Hy|]. intros z Hz. cbn in Hz. lia.
  - constructor; [apply IH; intros b Hb; apply Hc; by right|].
    rewrite insert_perm. constructor; [lia|done].
Qed.

#[export] Program Instance insertion_qsort : Qsort := {| qsort := insertion_sort |}.
Next Obligation.
  intros compar l Hc. split; [apply insertion_sort_perm|].
  induction l as [|x l IH]; cbn; [constructor|]. apply insert_sorted.
  - intros b Hb. apply Hc; [left|]. right. fold (insertion_sort compar l) in Hb. by rewrite insertion_sort_perm in Hb.
  - apply IH. intros a b Ha Hb. apply Hc; by right.
Qed.

(** ** Lemmas *)

(** Values below 2^31 are read whole. *)
Lemma compare_small a b : 0 ≤ a ≤ INT_MAX → 0 ≤ b ≤ INT_MAX → compare a b = Ok (a - b).
Proof.
  intros Ha Hb. unfold INT_MAX in *. unfold compare.
  rewrite !u64_small by (unfold in_u64; lia).
  rewrite !s32_small by (unfold in_s32, INT_MIN, INT_MAX; lia).
  by rewrite bool_decide_true by (unfold in_s32, INT_MIN, INT_MAX; lia).
Qed.

Definition sum_list (f : Z → Z) (l : list Z) : Z := foldr (λ x s, f x + s) 0 l.

Lemma sum_list_nonneg f l : Forall (λ x, 0 ≤ f x) l → 0 ≤ sum_list f l.
Proof. unfold sum_list. induction 1; cbn [foldr]; lia. Qed.

Lemma get_drop arr i x rest : 0 ≤ i → drop (Z.to_nat i) arr = x :: rest → get arr i = Ok x.
Proof.
  intros Hi Hd. unfold get. replace (i <? 0) with false by lia.
  assert (arr !! Z.to_nat i = Some x) as -> by (by rewrite <- (Nat.add_0_r (Z.to_nat i)), <- lookup_drop, Hd).
  done.
Qed.

(** Summing non-negative values: the sum when it fits, overflow otherwise. *)
Definition fits (z : Z) : res Z := if z <=? LLONG_MAX then Ok z else Overflow.

Lemma checked64_fits z : 0 ≤ z → checked64 z = fits z.
Proof.
  intros Hz. unfold checked64, fits, in_s64, LLONG_MIN.
  destruct (Z.leb_spec z LLONG_MAX); [by rewrite bool_decide_true by lia|].
  by rewrite bool_decide_false by lia.
Qed.

Lemma sum_loop_nonneg (f : Z → res Z) (g : Z → Z) arr i n sum :
  0 ≤ i → 0 ≤ sum ≤ LLONG_MAX → (Z.to_nat i + n ≤ length arr)%nat →
  Forall (λ x, f x = fits (g x) ∧ 0 ≤ g x) (take n (drop (Z.to_nat i) arr)) →
  sum_loop f arr i n sum = fits (sum + sum_list g (take n (drop (Z.to_nat i) arr))).
Proof.
  revert i sum. induction n as [|n IH]; intros i sum Hi Hs Hl Hf.
  { cbn [sum_loop take sum_list foldr]. rewrite Z.add_0_r. unfold fits.
    by rewrite (proj2 (Z.leb_le _ _) (proj2 Hs)). }
  destruct (drop (Z.to_nat i) arr) as [|x rest] eqn:Hd.
  { assert (length (drop (Z.to_nat i) arr) = O) as H0 by by rewrite Hd.
    rewrite length_drop in H0. lia. }
  assert (drop (Z.to_nat (i + 1)) arr = rest) as Hrest.
  { replace (Z.to_nat (i + 1)) with (Z.to_nat i + 1)%nat by lia. by rewrite <- drop_drop, Hd. }
  cbn [take] in *. inversion_clear Hf as [|?? [Hfx Hgx] Hf'].
  cbn [sum_loop]. rewrite (get_drop _ _ _ _ Hi Hd). cbn [mbind res_bind]. rewrite Hfx.
  assert (0 ≤ sum_list g (take n rest)) as H0.
  { apply sum_list_nonneg. eapply Forall_impl; [exact Hf'|]. by intros ? [??]. }
  unfold sum_list. cbn [foldr]. fold (sum_list g (take n rest)).
  destruct (Z.leb_spec (sum + g x) LLONG_MAX) as [Hle|Hgt].
  - unfold fits at 1. rewrite (proj2 (Z.leb_le (g x) LLONG_MAX)) by lia. cbn [mbind res_bind].
    rewrite checked64_fits by lia. unfold fits at 1. rewrite (proj2 (Z.leb_le _ _) Hle).
    cbn [mbind res_bind]. rewrite IH by (try (rewrite Hrest); done || lia).
    by rewrite Hrest, Z.add_assoc.
  - unfold fits at 2. rewrite (proj2 (Z.leb_gt _ _)) by lia. unfold fits.
    destruct (g x <=? LLONG_MAX); [|done]. cbn [mbind res_bind].
    rewrite checked64_fits by lia. unfold fits. by rewrite (proj2 (Z.leb_gt _ _)) by lia.
Qed.

Lemma sum_loop_all (f : Z → res Z) (g : Z → Z) arr :
  Forall (λ x, f x = fits (g x) ∧ 0 ≤ g x) arr →
  sum_loop f arr 0 (length arr) 0 = fits (sum_list g arr).
Proof.
  intros Hf. pose proof (sum_loop_nonneg f g arr 0 (length arr) 0) as H.
  change (Z.to_nat 0) with O in H. rewrite drop_0, firstn_all in H. apply H; [done| |lia|done].
  unfold LLONG_MAX. lia.
Qed.

Lemma sum_list_bounds l lo hi :
  Forall (λ x, lo ≤ x ≤ hi) l →
  Z.of_nat (length l) * lo ≤ sum_list id l ≤ Z.of_nat (length l) * hi.
Proof. unfold sum_list, id. induction 1 as [|x l Hx _ IH]; cbn [foldr length] in *; lia. Qed.

Lemma checked64_ok z : in_s64 z → checked64 z = Ok z.
Proof. intros Hz. unfold checked64. by rewrite bool_decide_true. Qed.

Lemma f64_to_s64_bounds x : f64_to_s64 x ≠ OutOfBounds.
Proof.
  unfold f64_to_s64, checked64. destruct (f64_trunc x); [|discriminate].
  case_bool_decide; discriminate.
Qed.

(** ** Properties *)

(** C28. The latencies are sorted correctly when all are below 2^31 ns (2.1 s): for any qsort that
    meets its specification.  Above, [compare] sees the low half of each value: it says that
    2^32 comes before 1, that 2^32 and 2^33 are equal, and overflows on 2^31 and 1. *)
Theorem latencies_sorted_below_2s `{!Qsort} (l : list Z) :
  Forall (λ x, 0 ≤ x ≤ INT_MAX) l →
  (qsort compare l ≡ₚ l ∧ StronglySorted Z.le (qsort compare l)) ∧
  compare (2 ^ 32) 1 = Ok (-1) ∧ compare (2 ^ 32) (2 ^ 33) = Ok 0 ∧ compare (2 ^ 31) 1 = Overflow.
Proof.
  intros Hl. split; [|by vm_compute]. apply qsort_sorts. intros a b Ha Hb.
  rewrite Forall_forall in Hl. exists (a - b).
  split; [by apply compare_small; apply Hl|lia].
Qed.

Lemma latencies_sorted_below_2s_witness :
  let l := [7; 2147483647; 0] in
  (qsort compare l ≡ₚ l ∧ StronglySorted Z.le (qsort compare l)) ∧
  compare (2 ^ 32) 1 = Ok (-1) ∧ compare (2 ^ 32) (2 ^ 33) = Ok 0 ∧ compare (2 ^ 31) 1 = Overflow.
Proof. apply latencies_sorted_below_2s. repeat constructor; unfold INT_MAX; lia. Defined.

(** C29. Percentiles never index outside the array: for 100 latencies and every percentile, the
    double computation of the rank rounds to the exact integer part of 99 * percentile / 100,
    and both indices are in range (the upper one is not used at the end of the array). *)
Theorem percentile_indices_in_range (arr : list Z) (p : Z) :
  length arr = 100%nat → 0 ≤ p ≤ 100 →
  f64_to_s32 (percentile_rank 100 p) = Ok (99 * p / 100) ∧
  calculate_percentile arr 100 p ≠ OutOfBounds.
Proof.
  intros Hl Hp.
  assert (f64_to_s32 (percentile_rank 100 p) = Ok (99 * p / 100)) as Hrank.
  { assert (forallb (λ k, let p := Z.of_nat k in
      match f64_to_s32 (percentile_rank 100 p) with Ok r => r =? 99 * p / 100 | _ => false end)
      (seq 0 101) = true) as Hall by by vm_compute.
    rewrite forallb_forall in Hall. specialize (Hall (Z.to_nat p)). cbv zeta in Hall.
    rewrite Z2Nat.id in Hall by lia.
    destruct (f64_to_s32 (percentile_rank 100 p)) as [r| |];
      [f_equal; apply Z.eqb_eq, Hall|discriminate Hall..]; apply in_seq; lia. }
  split; [done|]. unfold calculate_percentile. rewrite Hrank. cbn [mbind res_bind].
  assert (∀ i, 0 ≤ i < 100 → ∃ x, get arr i = Ok x) as Hget.
  { intros i Hi. unfold get. replace (i <? 0) with false by lia.
    destruct (lookup_lt_is_Some_2 arr (Z.to_nat i) ltac:(lia)) as [x ->]. by exists x. }
  assert (0 ≤ 99 * p / 100 < 100) as Hr.
  { split; [apply Z.div_pos; lia|apply Z.div_lt_upper_bound; lia]. }
  destruct (Hget _ Hr) as [x Hx]. rewrite Hx.
  destruct (Z.geb_spec (99 * p / 100 + 1) 100); [done|]. cbn [mbind res_bind].
  destruct (Hget (99 * p / 100 + 1) ltac:(lia)) as [y ->]. cbn [mbind res_bind].
  apply f64_to_s64_bounds.
Qed.

Lemma percentile_indices_in_range_witness :
  f64_to_s32 (percentile_rank 100 99) = Ok (99 * 99 / 100) ∧
  calculate_percentile (replicate 100 7) 100 99 ≠ OutOfBounds.
Proof. apply percentile_indices_in_range; [done|lia]. Defined.

(** C30. The sums: for non-negative latencies, the average is the quotient of their sum when
    that is at most LLONG_MAX, and then lies between the smallest and the largest; otherwise
    the addition overflows.  The loop of the standard deviation gives the sum of the squares
    exactly when that sum is at most LLONG_MAX, and overflows otherwise (two deviations of
    3 s from the mean are enough). *)
Theorem average_and_deviation_sums (arr : list Z) (lo hi mean : Z) :
  arr ≠ [] → Forall (λ x, lo ≤ x ≤ hi) arr → 0 ≤ lo → hi ≤ LLONG_MAX → 0 ≤ mean ≤ LLONG_MAX →
  let n := Z.of_nat (length arr) in
  calculate_average arr n =
    (if sum_list id arr <=? LLONG_MAX then Ok (Z.quot (sum_list id arr) n) else Overflow) ∧
  lo ≤ Z.quot (sum_list id arr) n ≤ hi ∧
  (let s := sum_list (λ x, (x - mean) * (x - mean)) arr in
   sum_squared_diff arr n mean = if s <=? LLONG_MAX then Ok s else Overflow) ∧
  sum_squared_diff [6100000000; 0] 2 3050000000 = Overflow.
Proof.
  intros Hne Hb Hlo Hhi Hmean n.
  assert (1 ≤ n) as Hn by (destruct arr; [done|subst n; cbn [length]; lia]).
  pose proof (sum_list_bounds arr lo hi Hb) as Hs. fold n in Hs.
  assert (Forall (λ x, 0 ≤ x ≤ LLONG_MAX) arr) as Hr.
  { eapply Forall_impl; [exact Hb|]. cbn. lia. }
  split; [|split; [|split; [|vm_compute; reflexivity]]].
  - unfold calculate_average. subst n. rewrite Nat2Z.id, (sum_loop_all Ok id).
    + unfold fits. by destruct (sum_list id arr <=? LLONG_MAX).
    + eapply Forall_impl; [exact Hr|]. cbn. unfold id, fits. intros x Hx.
      rewrite (proj2 (Z.leb_le x LLONG_MAX)) by lia. split; [reflexivity|lia].
  - destruct Hs as [Hs1 Hs2].
    split; [apply Z.quot_le_lower_bound|apply Z.quot_le_upper_bound]; first [exact Hs1|exact Hs2|lia].
  - cbv zeta. unfold sum_squared_diff. subst n. rewrite Nat2Z.id. apply sum_loop_all.
    eapply Forall_impl; [exact Hr|]. cbn. intros x Hx. unfold LLONG_MAX in *. split; [|apply Z.square_nonneg].
    unfold square_diff. assert (checked64 (x - mean) = Ok (x - mean)) as ->.
    { unfold checked64. rewrite bool_decide_true; [done|]. unfold in_s64, LLONG_MIN, LLONG_MAX. lia. }
    cbn [mbind res_bind]. apply checked64_fits, Z.square_nonneg.
Qed.

Lemma average_and_deviation_sums_witness :
  let arr := [5; 9; 2] in
  let n := Z.of_nat (length arr) in
  calculate_average arr n =
    (if sum_list id arr <=? LLONG_MAX then Ok (Z.quot (sum_list id arr) n) else Overflow) ∧
  2 ≤ Z.quot (sum_list id arr) n ≤ 9 ∧
  (let s := sum_list (λ x, (x - 5) * (x - 5)) arr in
   sum_squared_diff arr n 5 = if s <=? LLONG_MAX then Ok s else Overflow) ∧
  sum_squared_diff [6100000000; 0] 2 3050000000 = Overflow.
Proof.
  apply (average_and_deviation_sums [5; 9; 2] 2 9 5); unfold LLONG_MAX; try (cbn; lia); [done|].
  repeat constructor; lia.
Defined.
