(* ===== verification/BenchReport.v ===== *)
(** * BenchReport: the numbers benchmark.c prints

    The statistics of [BenchStats] over 100 latencies, through binary64: with the rounding
    lemmas of [Float64] what main of examples/c/benchmark.c prints is the average, the root
    of the variance, the median and the percentiles of the latencies. *)

From Stdlib Require Import Floats.SpecFloat.
From S2P Require Import Prelude CInt Float64 BenchStats.

(** ** Sums *)

Lemma sum_list_perm f l k : l ≡ₚ k → sum_list f l = sum_list f k.
Proof. unfold sum_list. induction 1; cbn [foldr]; lia. Qed.

Lemma sum_list_le (f : Z → Z) l b :
  Forall (λ x, f x ≤ b) l → sum_list f l ≤ Z.of_nat (length l) * b.
Proof. unfold sum_list. induction 1 as [|x l Hx _ IH]; cbn [foldr length] in *; lia. Qed.

Lemma f64_to_s64_trunc x z : f64_trunc x = Some z → in_s64 z → f64_to_s64 x = Ok z.
Proof. intros Hx Hz. unfold f64_to_s64. rewrite Hx. by apply checked64_ok. Qed.

Definition at_ (l : list Z) (i : Z) : Z := nth (Z.to_nat i) l 0.

Lemma get_at arr i : 0 ≤ i < Z.of_nat (length arr) → get arr i = Ok (at_ arr i).
Proof.
  intros Hi. unfold get, at_. replace (i <? 0) with false by lia.
  destruct (nth_lookup_or_length arr (Z.to_nat i) 0) as [->|?]; [done|lia].
Qed.

Lemma at_Forall (P : Z → Prop) arr i : Forall P arr → 0 ≤ i < Z.of_nat (length arr) → P (at_ arr i).
Proof.
  intros HP Hi. unfold at_. destruct (nth_lookup_or_length arr (Z.to_nat i) 0) as [E|?]; [|lia].
  by apply (Forall_lookup_1 _ _ _ _ HP E).
Qed.

Lemma sorted_at s i j :
  StronglySorted Z.le s → 0 ≤ i → i < j < Z.of_nat (length s) → at_ s i ≤ at_ s j.
Proof.
  intros Hs Hi Hj. unfold at_.
  assert (∀ l a b, StronglySorted Z.le l → (a < b < length l)%nat → nth a l 0 ≤ nth b l 0) as Hg.
  { clear. intros l a b Hl. revert a b. induction Hl as [|x l Hl IH Hx]; intros a b Hab; cbn in Hab; [lia|].
    destruct a as [|a], b as [|b]; cbn; [lia| |lia|apply IH; lia].
    destruct (nth_lookup_or_length l b 0) as [E|?]; [|lia]. by apply (Forall_lookup_1 _ _ _ _ Hx E). }
  apply Hg; [done|lia].
Qed.

(** ** The four statistics *)

Section report.
Context (s : list Z) (lo hi : Z).
Hypothesis Hlen : length s = 100%nat.
Hypothesis Hs : StronglySorted Z.le s.
Hypothesis Hr : Forall (λ x, lo ≤ x ≤ hi) s.
Hypothesis Hlo : 0 ≤ lo.
Hypothesis Hhi : hi ≤ INT_MAX.

Lemma at_range i : 0 ≤ i < 100 → lo ≤ at_ s i ≤ hi.
Proof using Hlen Hr. intros Hi. by apply (at_Forall (λ x, lo ≤ x ≤ hi)); [|rewrite Hlen]. Qed.

Lemma average_value :
  calculate_average s 100 = Ok (sum_list id s / 100) ∧ lo ≤ sum_list id s / 100 ≤ hi.
Proof using Hlen Hr Hlo Hhi.
  pose proof (sum_list_bounds s lo hi Hr) as Hb. rewrite Hlen in Hb.
  unfold INT_MAX in Hhi.
  assert (sum_loop Ok s 0 (length s) 0 = Ok (sum_list id s)) as E.
  { rewrite (sum_loop_all Ok id).
    - unfold fits, LLONG_MAX. by rewrite (proj2 (Z.leb_le _ _)) by lia.
    - eapply Forall_impl; [exact Hr|]. cbn. unfold id, fits, LLONG_MAX. intros x Hx.
      rewrite (proj2 (Z.leb_le _ _)) by lia. split; [done|lia]. }
  rewrite Hlen in E. unfold calculate_average. change (Z.to_nat 100) with 100%nat. rewrite E.
  cbn [mbind res_bind]. rewrite Z.quot_div_nonneg by lia. split; [done|].
  split; [apply Z.div_le_lower_bound; lia|apply Z.div_le_upper_bound; lia].
Qed.

Lemma deviation_value mean :
  lo ≤ mean ≤ hi → hi - lo < 2 ^ 26 →
  calculate_standard_deviation s 100 mean =
  Ok (Z.sqrt (sum_list (λ x, (x - mean) * (x - mean)) s / 100)).
Proof using Hlen Hr Hlo Hhi.
  intros Hm Hd. unfold INT_MAX in Hhi. set (f := λ x, (x - mean) * (x - mean)).
  assert (Forall (λ x, 0 ≤ f x ≤ (2 ^ 26 - 1) * (2 ^ 26 - 1)) s) as Hf.
  { eapply Forall_impl; [exact Hr|]. intros x Hx. cbn in Hx. subst f. cbn beta.
    split; [apply Z.square_nonneg|]. rewrite <- (Z.abs_square (x - mean)).
    apply Z.mul_le_mono_nonneg; lia. }
  assert (0 ≤ sum_list f s ≤ 100 * ((2 ^ 26 - 1) * (2 ^ 26 - 1))) as Hsum.
  { split; [apply sum_list_nonneg; eapply Forall_impl; [exact Hf|]; cbn; lia|].
    change 100 with (Z.of_nat 100). rewrite <- Hlen. apply sum_list_le.
    eapply Forall_impl; [exact Hf|]. cbn. lia. }
  unfold calculate_standard_deviation, sum_squared_diff.
  assert (sum_loop (square_diff mean) s 0 (length s) 0 = Ok (sum_list f s)) as E.
  { rewrite (sum_loop_all _ f).
    - unfold fits, LLONG_MAX. by rewrite (proj2 (Z.leb_le _ _)) by lia.
    - apply Forall_forall. intros x Hx. eapply Forall_forall in Hf, Hr; [|done..]. cbn in Hr.
      split; [|lia]. unfold square_diff.
      rewrite checked64_ok by (unfold in_s64, LLONG_MIN, LLONG_MAX; lia). cbn [mbind res_bind].
      apply checked64_fits. lia. }
  rewrite Hlen in E. change (Z.to_nat 100) with 100%nat. rewrite E. cbn [mbind res_bind].
  rewrite Z.quot_div_nonneg by lia.
  assert (0 ≤ sum_list f s / 100 < 2 ^ 52) as Hv.
  { split; [apply Z.div_pos; lia|apply Z.div_lt_upper_bound; lia]. }
  apply f64_to_s64_trunc; [by apply sqrt_trunc|].
  pose proof (Z.sqrt_nonneg (sum_list f s / 100)). pose proof (Z.sqrt_le_lin (sum_list f s / 100)).
  unfold in_s64, LLONG_MIN, LLONG_MAX. lia.
Qed.

Lemma median_value : calculate_median s 100 = Ok ((at_ s 49 + at_ s 50) / 2).
Proof using Hlen Hr Hlo Hhi.
  pose proof (at_range 49 ltac:(lia)). pose proof (at_range 50 ltac:(lia)). unfold INT_MAX in Hhi.
  unfold calculate_median. change (Z.rem 100 2 =? 0) with true. cbv iota.
  change (Z.quot 100 2 - 1) with 49. change (Z.quot 100 2) with 50.
  rewrite !get_at by (rewrite Hlen; lia). cbn [mbind res_bind].
  rewrite checked64_ok by (unfold in_s64, LLONG_MIN, LLONG_MAX; lia). cbn [mbind res_bind].
  apply f64_to_s64_trunc; [apply div_trunc; lia|].
  pose proof (Z.div_pos (at_ s 49 + at_ s 50) 2 ltac:(lia) ltac:(lia)).
  pose proof (Z.div_le_upper_bound (at_ s 49 + at_ s 50) 2 (2 ^ 31) ltac:(lia) ltac:(lia)).
  unfold in_s64, LLONG_MIN, LLONG_MAX. lia.
Qed.

(** The 75th percentile lies a quarter of the way: 0.75 * 99 = 74.25 is exact. *)
Lemma p75_value : calculate_percentile s 100 75 = Ok ((3 * at_ s 74 + at_ s 75) / 4).
Proof using Hlen Hr Hlo Hhi.
  pose proof (at_range 74 ltac:(lia)). pose proof (at_range 75 ltac:(lia)). unfold INT_MAX in Hhi.
  unfold calculate_percentile.
  assert (f64_to_s32 (percentile_rank 100 75) = Ok 74) as -> by by vm_compute.
  cbn [mbind res_bind]. change (74 + 1 >=? 100) with false. cbv iota. change (74 + 1) with 75.
  rewrite !get_at by (rewrite Hlen; lia). cbn [mbind res_bind].
  assert (is64 (f64_sub (percentile_rank 100 75) (f64_of_Z 74)) 1 2) as Hw.
  { right. exists 52. split; [lia|]. split; [lia|by vm_compute]. }
  assert (is64 (f64_sub (f64_of_Z 1) (f64_sub (percentile_rank 100 75) (f64_of_Z 74))) 3 2) as Hw'.
  { right. exists 51. split; [lia|]. split; [lia|by vm_compute]. }
  pose proof (mul_exact _ _ _ _ _ _ (of_Z_exact (at_ s 74) ltac:(lia)) Hw' ltac:(lia) ltac:(lia)
    ltac:(lia) ltac:(lia) ltac:(lia)) as H1.
  pose proof (mul_exact _ _ _ _ _ _ (of_Z_exact (at_ s 75) ltac:(lia)) Hw ltac:(lia) ltac:(lia)
    ltac:(lia) ltac:(lia) ltac:(lia)) as H2.
  pose proof (add_exact _ _ _ _ _ H1 H2 ltac:(lia) ltac:(lia) ltac:(lia) ltac:(lia)) as H3.
  pose proof (trunc_exact _ _ _ H3 ltac:(lia) ltac:(lia)) as H4.
  replace (at_ s 74 * 3 + at_ s 75 * 1) with (3 * at_ s 74 + at_ s 75) in H4 by lia.
  apply f64_to_s64_trunc; [exact H4|].
  pose proof (Z.div_pos (3 * at_ s 74 + at_ s 75) 4 ltac:(lia) ltac:(lia)).
  pose proof (Z.div_le_upper_bound (3 * at_ s 74 + at_ s 75) 4 (2 ^ 31) ltac:(lia) ltac:(lia)).
  unfold in_s64, LLONG_MIN, LLONG_MAX. lia.
Qed.

(** The 99th percentile lies one hundredth of the way: 0.99 * 99 is rounded, so the result
    is rounded down, and one less where the exact value is an integer the computation misses. *)
Definition hundredth (r a b : Z) : Prop :=
  r = (99 * a + b) / 100 ∨ r = (99 * a + b) / 100 - 1 ∧ (99 * a + b) mod 100 = 0.

Lemma p99_value : ∃ r, calculate_percentile s 100 99 = Ok r ∧ hundredth r (at_ s 98) (at_ s 99).
Proof using Hlen Hr Hlo Hhi.
  pose proof (at_range 98 ltac:(lia)) as Ha. pose proof (at_range 99 ltac:(lia)) as Hb. unfold INT_MAX in Hhi.
  unfold calculate_percentile.
  assert (f64_to_s32 (percentile_rank 100 99) = Ok 98) as -> by by vm_compute.
  cbn [mbind res_bind]. change (98 + 1 >=? 100) with false. cbv iota. change (98 + 1) with 99.
  rewrite !get_at by (rewrite Hlen; lia). cbn [mbind res_bind].
  assert (f64_sub (f64_of_Z 1) (f64_sub (percentile_rank 100 99) (f64_of_Z 98)) =
          fin 8917127262193536 (-53)) as -> by by vm_compute.
  assert (f64_sub (percentile_rank 100 99) (f64_of_Z 98) = fin 5764607523037184 (-59)) as ->
    by by vm_compute.
  revert Ha Hb. generalize (at_ s 98) (at_ s 99). intros a b Ha Hb.
  pose proof (mul_close a 8917127262193536 (-53) ltac:(lia) ltac:(lia) ltac:(lia)) as H1.
  pose proof (mul_close b 5764607523037184 (-59) ltac:(lia) ltac:(lia) ltac:(lia)) as H2.
  destruct (add_close_trunc _ _ _ _ H1 H2) as (r & d & E & Hrr & Hd).
  change (-53 + 120) with 67 in Hrr. change (-59 + 120) with 61 in Hrr.
  pose proof (Z.div_mod (99 * a + b) 100 ltac:(lia)). pose proof (Z.mod_pos_bound (99 * a + b) 100 ltac:(lia)).
  set (q := (99 * a + b) / 100) in *. set (t := (99 * a + b) mod 100) in *.
  pose proof (Z.div_mod (a * (8917127262193536 * 2 ^ 67) + b * (5764607523037184 * 2 ^ 61) + d) (2 ^ 120) ltac:(lia)).
  pose proof (Z.mod_pos_bound (a * (8917127262193536 * 2 ^ 67) + b * (5764607523037184 * 2 ^ 61) + d) (2 ^ 120) ltac:(lia)).
  rewrite <- Hrr in *. exists r. split; [|unfold hundredth; fold q t; lia].
  apply f64_to_s64_trunc; [exact E|]. unfold in_s64, LLONG_MIN, LLONG_MAX. lia.
Qed.
End report.

(** ** The report *)

(** For 100 latencies between lo and hi, below 2^31 ns and
    less than 2^26 ns (67 ms) apart, and any qsort that meets its specification, the report
    is computed without overflow and, in spite of the computation in double, consists of
    the average, the root of the average squared deviation, the mean of the two middle
    values, and the value a quarter of the way from the 75th to the 76th smallest, all
    rounded down, and likewise the value a hundredth of the way from the 99th smallest to the
    largest, or one less where that is an integer. *)
Definition close_latencies (l : list Z) : Prop :=
  ∃ lo hi, Forall (λ x, lo ≤ x ≤ hi) l ∧ 0 ≤ lo ∧ hi ≤ INT_MAX ∧ hi - lo < 2 ^ 26.

(** The report of [l] with 99th percentile [p99]; [s] is [l] in order. *)
Definition statistics (l s : list Z) (p99 : Z) : report :=
  let mean := sum_list id l / 100 in
  Report mean (Z.sqrt (sum_list (λ x, (x - mean) * (x - mean)) l / 100))
    ((at_ s 49 + at_ s 50) / 2) ((3 * at_ s 74 + at_ s 75) / 4) p99.

Lemma report_is_statistics `{!Qsort} (l : list Z) :
  length l = 100%nat → close_latencies l →
  ∃ s p99, s ≡ₚ l ∧ StronglySorted Z.le s ∧ hundredth p99 (at_ s 98) (at_ s 99) ∧
    summarise l 100 = Ok (statistics l s p99).
Proof.
  intros Hlen (lo & hi & Hr & Hlo & Hhi & Hd).
  destruct (qsort_sorts compare l) as [Hp Hs].
  { intros a b Ha Hb. eapply Forall_forall in Ha, Hb; [|exact Hr..]. cbn in Ha, Hb.
    exists (a - b). split; [apply compare_small; lia|lia]. }
  rewrite <- Hp in Hr. assert (length (qsort compare l) = 100%nat) as Hlen' by by rewrite Hp.
  destruct (p99_value _ lo hi Hlen' Hr Hlo Hhi) as (r & E99 & Hr99).
  exists (qsort compare l), r. split; [done|]. split; [done|]. split; [done|].
  destruct (average_value _ lo hi Hlen' Hr Hlo Hhi) as [Ea Hm].
  unfold summarise. rewrite Ea. cbn [mbind res_bind].
  rewrite (deviation_value _ lo hi) by done. cbn [mbind res_bind].
  rewrite (median_value _ lo hi) by done. cbn [mbind res_bind].
  rewrite (p75_value _ lo hi) by done. cbn [mbind res_bind]. rewrite E99. cbn [mbind res_bind].
  unfold statistics. by rewrite !(sum_list_perm _ _ _ Hp).
Qed.

Definition demo_latencies : list Z := (λ i, 1000000 + 7919 * Z.of_nat i mod 100000) <$> seq 0 100.

Lemma demo_close : close_latencies demo_latencies.
Proof.
  exists 1000000, 1100000. split; [|unfold INT_MAX; lia].
  apply Forall_forall. intros x. unfold demo_latencies. intros (i & -> & _)%list_elem_of_fmap.
  pose proof (Z.mod_pos_bound (7919 * Z.of_nat i) 100000 ltac:(lia)). lia.
Qed.

Example report_demo :
  summarise demo_latencies 100 = Ok (Report 1048990 28687 1048897 1073390 1097984).
Proof. by vm_compute. Qed.
