(* ===== verification/Process.v ===== *)
(** * Process: user-space programs as computations over an environment

    A program is a computation [P A] that makes calls ([sys]) to libbpf, libc and the
    kernel.  An environment chooses the answer of every call from the calls made so far, and
    whether a signal arrives during it.  The world records the calls, the flag the signal
    handler sets, whether a handler is installed, and the resources the process holds:
    skeletons, descriptors, heap blocks and mappings with their size, and so on.

    A computation returns, exits, is killed by a signal without a handler, runs out of the
    fuel of its loops, or is [Undefined]: it read an uninitialised variable, overflowed, used
    or released something it does not hold (a null pointer, a closed descriptor), or touched
    memory outside a block.  ([Wp] has the rules to reason about all environments at once.) *)

From S2P Require Import Prelude CInt.

(** ** Calls *)

(** Heap blocks and mappings carry their size in bytes, mappings whether they are writable, a
    link to a perf event the descriptor it was made of.  [KStale] stands for the number of a
    descriptor that libbpf closed and the program did not: nothing to release, but a second
    close() of it would not be one of a descriptor the program never had. *)
Inductive kind :=
  | KSkel | KRing | KFd | KFile | KThread | KHook | KFilter | KSym
  | KLink (fd : Z) | KStale
  | KHeap (size : Z)
  | KMap (len : Z) (writable : bool).

(** A resource: its kind and the pointer or descriptor that names it. *)
Abbreviation resource := (kind * Z)%type.

(** Which stream a message goes to. *)
Inductive stream := Stdout | Stderr.

(** Pointers and descriptors are [Z]; NULL is 0. *)
Inductive sys :=
  (* the generated skeleton: <prog>_bpf__open, __load, __open_and_load, __attach, __destroy *)
  | SkelOpen | SkelLoad (skel : Z) | SkelOpenAndLoad | SkelAttach (skel : Z) | SkelDestroy (skel : Z)
  | PokeGlobal (skel : Z) (global : string) (value : Z)
  (* libbpf *)
  | SetPrint
  | MapUpdate (skel : Z) (map : string) (key value : Z)
  | MapGetNextKey (skel : Z) | MapLookup (skel : Z)
  | AttachUprobe (skel : Z) (prog func : string) (retprobe : bool) (pid : Z)
  | AttachUsdt (skel : Z) (pid : Z)
  | AttachPerfEvent (skel fd : Z) | LinkDestroy (link : Z)
  | RingNew (skel : Z) | RingPoll (ring timeout : Z) | RingFree (ring : Z)
  | TcHookCreate | TcAttach (skel : Z) | TcDetach | TcHookDestroy
  | IterCreate (skel : Z)
  | ParseCpuMaskFile | NumPossibleCpus
  (* blazesym *)
  | SymbolizerNew | SymbolizerFree (symbolizer : Z)
  (* libc and system calls *)
  | ArgpParse | Getopt | Getpid | Stat (path : string) | Signal (signo : Z)
  | Sleep (s : Z) | Usleep (us : Z) | ClockGettime | Rand | Srand
  | Print (to : stream) (fmt : string) (args : list Z) | Output (to : stream) (text : list Z)
  | Socket | Bind (fd : Z) | SetSockOpt (fd : Z) | PerfEventOpen (freq pid cpu : Z)
  | Open (path : list Z) (flags : Z) | Close (fd : Z) | Read (fd : Z) | Write (fd : Z) | Lseek (fd : Z)
  | Ftruncate (fd size : Z) | Unlink (path : list Z) | Mkdir (path : list Z)
  | Mmap (len : Z) (writable : bool) (fd : Z) | Munmap (addr len : Z)
  | Malloc (size : Z) | Calloc (size : Z) | Free (ptr : Z)
  | Fopen (path : list Z) | Fprintf (file : Z) (text : list Z) | Fclose (file : Z)
  | PthreadCreate | PthreadJoin (thread : Z).

(** What a call returns, errno after it, whether a signal arrived during it, and the values
    it stored through pointers. *)
Record answer := Answer { ret : Z; errno : Z; sig : bool; out : list Z }.

Definition SIGINT : Z := 2.
Definition SIGTERM : Z := 15.
Definition SIG_ERR : Z := -1.
Definition MAP_FAILED : Z := -1.

(** ** Resources *)

Definition kind_eqb (a b : kind) : bool :=
  match a, b with
  | KSkel, KSkel | KRing, KRing | KFd, KFd | KFile, KFile | KThread, KThread | KHook, KHook
  | KFilter, KFilter | KSym, KSym | KStale, KStale => true
  | KLink n, KLink m => n =? m
  | KHeap n, KHeap m => n =? m
  | KMap n v, KMap m w => (n =? m) && Bool.eqb v w
  | _, _ => false
  end.
Definition res_eqb (x y : resource) : bool := kind_eqb (fst x) (fst y) && (snd x =? snd y).

(** Some heap block at [p]; some mapping of [len] bytes at [p]. *)
Definition heap_at (p : Z) (x : resource) : bool :=
  match fst x with KHeap _ => snd x =? p | _ => false end.
Definition mapped_at (p len : Z) (x : resource) : bool :=
  match fst x with KMap n _ => (snd x =? p) && (n =? len) | _ => false end.

(** A link with the address [l]; what close(fd) may be called with. *)
Definition link_at (l : Z) (x : resource) : bool :=
  match fst x with KLink _ => snd x =? l | _ => false end.
Definition closable (fd : Z) (x : resource) : bool := res_eqb (KFd, fd) x || res_eqb (KStale, fd) x.

(** A block at [p] in which the bytes [off, off + n) may be read (and written). *)
Definition covers (write : bool) (p off n : Z) (x : resource) : bool :=
  (0 <=? off) &&
  match fst x with
  | KHeap size => (snd x =? p) && (off + n <=? size)
  | KMap len writable => (snd x =? p) && (off + n <=? len) && (negb write || writable)
  | _ => false
  end.

(** The process holds something with property [f]; drop the first such thing. *)
Definition holds (f : resource → bool) (held : list resource) : bool := existsb f held.

Fixpoint drop_res (f : resource → bool) (held : list resource) : list resource :=
  match held with
  | [] => []
  | y :: held' => if f y then held' else y :: drop_res f held'
  end.

(** close(fd): of the open descriptor if there is one.  A descriptor that libbpf closed may be
    closed again (EBADF, as long as no open descriptor has taken the number). *)
Definition close_fd (fd : Z) (held : list resource) : list resource :=
  if holds (res_eqb (KFd, fd)) held then drop_res (res_eqb (KFd, fd)) held
  else drop_res (res_eqb (KStale, fd)) held.

(** bpf_link__destroy of a link to a perf event also closes the descriptor of the event. *)
Definition destroy_link (l : Z) (held : list resource) : list resource :=
  match find (link_at l) held with
  | Some (KLink fd, _) => drop_res (res_eqb (KFd, fd)) ((KStale, fd) :: drop_res (link_at l) held)
  | _ => held
  end.

(** What a call needs the process to hold; releasing NULL or a negative descriptor is
    harmless. *)
Definition needs (c : sys) : list (resource → bool) :=
  match c with
  | SkelLoad s | SkelAttach s | PokeGlobal s _ _ | MapUpdate s _ _ _ | MapGetNextKey s | MapLookup s
  | AttachUprobe s _ _ _ _ | AttachUsdt s _ | RingNew s | TcAttach s | IterCreate s =>
      [res_eqb (KSkel, s)]
  | SkelDestroy s => if s =? 0 then [] else [res_eqb (KSkel, s)]
  | AttachPerfEvent s fd => [res_eqb (KSkel, s); res_eqb (KFd, fd)]
  | LinkDestroy l => if l =? 0 then [] else [link_at l]
  | RingPoll r _ => [res_eqb (KRing, r)]
  | RingFree r => if r =? 0 then [] else [res_eqb (KRing, r)]
  | SymbolizerFree s => if s =? 0 then [] else [res_eqb (KSym, s)]
  | TcDetach => [res_eqb (KFilter, 0)]
  | TcHookDestroy => [res_eqb (KHook, 0)]
  | Bind fd | SetSockOpt fd | Read fd | Write fd | Lseek fd | Ftruncate fd _ | Mmap _ _ fd =>
      [res_eqb (KFd, fd)]
  | Close fd => if fd <? 0 then [] else [closable fd]
  | Munmap p len => [mapped_at p len]
  | Free p => if p =? 0 then [] else [heap_at p]
  | Fprintf f _ | Fclose f => [res_eqb (KFile, f)]
  | PthreadJoin t => [res_eqb (KThread, t)]
  | _ => []
  end.

(** The resources after a call.  The programs name the ingress attach point only, so
    bpf_tc_hook_destroy does not remove the hook (the clsact qdisc): it removes the filters
    attached there, if it succeeds.
    parse_cpu_mask_file stores a heap block with one byte per CPU: [out] is its address
    followed by its content. *)
Definition effect (c : sys) (a : answer) (held : list resource) : list resource :=
  let r := ret a in
  match c with
  | SkelOpen | SkelOpenAndLoad => if r =? 0 then held else (KSkel, r) :: held
  | SkelDestroy s => if s =? 0 then held else drop_res (res_eqb (KSkel, s)) held
  | AttachPerfEvent _ fd => if r =? 0 then held else (KLink fd, r) :: held
  | LinkDestroy l => if l =? 0 then held else destroy_link l held
  | RingNew _ => if r =? 0 then held else (KRing, r) :: held
  | RingFree x => if x =? 0 then held else drop_res (res_eqb (KRing, x)) held
  | SymbolizerNew => if r =? 0 then held else (KSym, r) :: held
  | SymbolizerFree s => if s =? 0 then held else drop_res (res_eqb (KSym, s)) held
  | TcHookCreate => if r =? 0 then (KHook, 0) :: held else held
  | TcAttach _ => if r =? 0 then (KFilter, 0) :: held else held
  | TcDetach => if r =? 0 then drop_res (res_eqb (KFilter, 0)) held else held
  | TcHookDestroy => if r =? 0 then drop_res (res_eqb (KFilter, 0)) held else held
  | ParseCpuMaskFile =>
      match out a with
      | p :: mask => if r =? 0 then (KHeap (Z.of_nat (length mask)), p) :: held else held
      | [] => held
      end
  | IterCreate _ | Socket | Open _ _ | PerfEventOpen _ _ _ => if r <? 0 then held else (KFd, r) :: held
  | Close fd => if fd <? 0 then held else close_fd fd held
  | Mmap len writable _ => if r =? MAP_FAILED then held else (KMap len writable, r) :: held
  | Munmap p len => if r =? 0 then drop_res (mapped_at p len) held else held
  | Malloc n | Calloc n => if r =? 0 then held else (KHeap n, r) :: held
  | Free p => if p =? 0 then held else drop_res (heap_at p) held
  | Fopen _ => if r =? 0 then held else (KFile, r) :: held
  | Fclose f => drop_res (res_eqb (KFile, f)) held
  | PthreadCreate => if r =? 0 then (KThread, 0) :: held else held
  | PthreadJoin t => drop_res (res_eqb (KThread, t)) held
  | _ => held
  end.

(** The resources after the calls [tr] (most recent first). *)
Definition held_after (tr : list (sys * answer)) : list resource :=
  foldr (λ x, effect (fst x) (snd x)) [] tr.

(** Two resources of one name space with one name.  (Hook, filter and thread have no names
    of their own; the number of a closed descriptor can be given out again.) *)
Definition same_name (x y : resource) : bool :=
  (snd x =? snd y) &&
  match fst x, fst y with
  | KHeap _, KHeap _ | KMap _ _, KMap _ _ | KLink _, KLink _ => true
  | KHook, _ | KFilter, _ | KThread, _ | KStale, _ => false
  | a, b => kind_eqb a b
  end.

(** What a call acquires is not what the process holds already. *)
Definition fresh (held : list resource) (c : sys) (a : answer) : Prop :=
  ∀ x, effect c a held = x :: held → holds (same_name x) held = false.

(** ** Worlds and computations *)

Record world := World {
  trace : list (sys * answer);     (* most recent call first *)
  stop : bool;                     (* the flag the signal handler sets *)
  handler : bool;                  (* a handler is installed *)
  held : list resource;
}.

Definition init : world := World [] false false [].

Definition environment : Type := list (sys * answer) → sys → answer.

Inductive outcome (A : Type) :=
  | Returned (a : A)
  | Exited (code : Z)
  | Killed
  | OutOfFuel
  | Undefined.
Arguments Returned {A} _.
Arguments Exited {A} _.
Arguments Killed {A}.
Arguments OutOfFuel {A}.
Arguments Undefined {A}.

Definition P (A : Type) : Type := environment → world → outcome A * world.

#[export] Instance P_ret : MRet P := λ A a env w, (Returned a, w).
#[export] Instance P_bind : MBind P := λ A B f m env w,
  match m env w with
  | (Returned a, w') => f a env w'
  | (Exited code, w') => (Exited code, w')
  | (Killed, w') => (Killed, w')
  | (OutOfFuel, w') => (OutOfFuel, w')
  | (Undefined, w') => (Undefined, w')
  end.

Definition installs (c : sys) (r : Z) : bool :=
  match c with Signal _ => negb (r =? SIG_ERR) | _ => false end.

(** The world after call [c] was answered [a]. *)
Definition after_call (c : sys) (a : answer) (w : world) : world :=
  let h := handler w || installs c (ret a) in
  World ((c, a) :: trace w) (stop w || (sig a && h)) h (effect c a (held w)).

(** The process holds what the call needs. *)
Definition enabled (c : sys) (w : world) : bool := forallb (λ f, holds f (held w)) (needs c).

(** Make a call. *)
Definition do (c : sys) : P answer := λ env w,
  if enabled c w then
    let a := env (trace w) c in
    let w' := after_call c a w in
    if sig a && negb (handler w') then (Killed, w') else (Returned a, w')
  else (Undefined, w).

Definition call (c : sys) : P Z := a ← do c; mret (ret a).
Definition call_ (c : sys) : P () := do c;; mret ().
Definition stopped : P bool := λ env w, (Returned (stop w), w).
Definition history : P (list (sys * answer)) := λ env w, (Returned (trace w), w).
Definition exit {A} (code : Z) : P A := λ env w, (Exited code, w).

(** Read a variable that may not have been assigned. *)
Definition read_var (x : option Z) : P Z := λ env w,
  match x with Some v => (Returned v, w) | None => (Undefined, w) end.

(** The result of a signed 32-bit operation: overflow is undefined. *)
Definition checked (z : Z) : P Z := λ env w,
  (if bool_decide (in_s32 z) then Returned z else Undefined, w).

(** Touch [n] bytes at offset [off] of the block at [p]. *)
Definition touch (write : bool) (p off n : Z) : P () := λ env w,
  (if holds (covers write p off n) (held w) then Returned () else Undefined, w).

(** An array in a heap block: its address and its elements, [None] while indeterminate. *)
Record array := Array { base : Z; cells : list (option Z) }.

Definition load (width : Z) (x : array) (i : nat) : P Z :=
  touch false (base x) (width * Z.of_nat i) width;;
  read_var (cells x !! i ≫= id).
Definition store (width : Z) (x : array) (i : nat) (v : Z) : P array :=
  touch true (base x) (width * Z.of_nat i) width;;
  mret (Array (base x) (<[i := Some v]> (cells x))).

(** A counted loop: [body] for [i], .., [i + n - 1]. *)
Fixpoint for_each {S} (i n : nat) (body : nat → S → P S) (s : S) : P S :=
  match n with
  | O => mret s
  | Datatypes.S n' => s' ← body i s; for_each (Datatypes.S i) n' body s'
  end.

(** The same with a way out: [inr] leaves the loop. *)
Fixpoint for_until {S R} (i n : nat) (body : nat → S → P (S + R)) (s : S) : P (S + R) :=
  match n with
  | O => mret (inl s)
  | Datatypes.S n' =>
      r ← body i s;
      match r with
      | inl s' => for_until (Datatypes.S i) n' body s'
      | inr x => mret (inr x)
      end
  end.

(** A loop without a bound: [inl] goes round again, [inr] leaves it. *)
Fixpoint iter {S A} (fuel : nat) (body : S → P (S + A)) (s : S) : P A :=
  match fuel with
  | O => λ env w, (OutOfFuel, w)
  | Datatypes.S fuel' =>
      r ← body s;
      match r with
      | inl s' => iter fuel' body s'
      | inr a => mret a
      end
  end.

(** Runs in which no signal arrives. *)
Lemma bind_returned {A B} (m : P A) (f : A → P B) env w a w' :
  m env w = (Returned a, w') → (m ≫= f) env w = f a env w'.
Proof. intros E. unfold mbind, P_bind. by rewrite E. Qed.

Lemma do_run c env w :
  enabled c w = true → sig (env (trace w) c) = false →
  do c env w = (Returned (env (trace w) c), after_call c (env (trace w) c) w).
Proof. intros Hn Hs. unfold do. by rewrite Hn, Hs. Qed.

Lemma call_run c env w :
  enabled c w = true → sig (env (trace w) c) = false →
  call c env w = (Returned (ret (env (trace w) c)), after_call c (env (trace w) c) w).
Proof. intros Hn Hs. unfold call. by rewrite (bind_returned _ _ _ _ _ _ (do_run c env w Hn Hs)). Qed.

Lemma call__run c env w :
  enabled c w = true → sig (env (trace w) c) = false →
  call_ c env w = (Returned (), after_call c (env (trace w) c) w).
Proof. intros Hn Hs. unfold call_. by rewrite (bind_returned _ _ _ _ _ _ (do_run c env w Hn Hs)). Qed.
