(* ===== verification/Wp.v ===== *)
(** * Wp: weakest preconditions for processes

    [wp σ m Q w]: from world [w], in every environment the scenario [σ] allows, the
    computation [m] is never [Undefined], reaches only worlds with the invariant of [σ], exits
    only as [σ] says, runs out of fuel only if [σ] sets no limit, and satisfies [Q] when it
    returns. *)

From S2P Require Import Prelude CInt Process.

(** What the environment guarantees of an answer to a process with the resources [held]:
    errno is positive where it is read, pointers and descriptors are new, libbpf's int
    functions and munmap return 0 or a negative error, open returns a descriptor or -1, mmap never
    returns the null page, rand is not negative, a process has a positive number, stat stores
    what the programs read (st_dev and st_ino), and parse_cpu_mask_file stores a mask when it
    succeeds. *)
Definition answer_ok (held : list resource) (c : sys) (a : answer) : Prop :=
  0 < errno a ∧ fresh held c a ∧
  match c with
  | SkelLoad _ | SkelAttach _ | TcHookCreate | TcAttach _ | TcDetach | Munmap _ _ => ret a ≤ 0
  | Open _ _ => -1 ≤ ret a
  | Mmap _ _ _ => ret a ≠ 0
  | Rand => 0 ≤ ret a
  | Getpid => 0 < ret a ≤ INT_MAX
  | Stat _ => ret a ≠ -1 → length (out a) = 2%nat
  | ParseCpuMaskFile => ret a = 0 → out a ≠ [] ∧ hd 0 (out a) ≠ 0
  | _ => True
  end.

Definition env_ok (env : environment) : Prop :=
  ∀ tr c, answer_ok (held_after tr) c (env tr c).

(** ** Resources are told apart by their names *)

Lemma holds_iff f l : holds f l = true ↔ ∃ x, x ∈ l ∧ f x = true.
Proof. unfold holds. rewrite existsb_exists. by setoid_rewrite list_elem_of_In. Qed.

Lemma holds_false_iff f l : holds f l = false ↔ ∀ x, x ∈ l → f x = false.
Proof.
  rewrite <- not_true_iff_false, holds_iff. setoid_rewrite <- not_true_iff_false. naive_solver.
Qed.

Lemma drop_res_sublist f h : drop_res f h `sublist_of` h.
Proof. induction h as [|x h IH]; cbn; [done|]. destruct (f x); by constructor. Qed.

Lemma drop_res_none f h : (∀ x, x ∈ h → f x = false) → drop_res f h = h.
Proof.
  intros Hf. induction h as [|x h IH]; [done|]. cbn. rewrite Hf by by left. f_equal. apply IH.
  intros y Hy. apply Hf. by right.
Qed.

(** What a call can do to the resources: acquire one, close a descriptor for the program, or
    nothing but release. *)
Lemma effect_cases c a h :
  (∃ x, effect c a h = x :: h) ∨
  (∃ fd h', effect c a h = (KStale, fd) :: h' ∧ h' `sublist_of` h ∧ length h' < length h)%nat ∨
  effect c a h `sublist_of` h.
Proof.
  destruct c; cbn [effect];
    try (repeat case_match; first [by right; right|left; by eexists|right; right; apply drop_res_sublist]).
  - case_match; [by right; right|]. unfold destroy_link.
    destruct (find (link_at link) h) as [[[] p]|] eqn:Ef; try by right; right.
    right. left. exists fd. eexists. split; [done|]. apply find_some in Ef as [Hin Hl].
    assert (holds (link_at link) h = true) as Hh
      by (apply holds_iff; eexists; by rewrite list_elem_of_In).
    split; [etrans; [apply drop_res_sublist|apply drop_res_sublist]|].
    eapply Nat.le_lt_trans; [apply sublist_length, drop_res_sublist|].
    clear -Hh. induction h as [|y h IH]; [done|]. cbn [drop_res]. revert Hh. cbn [holds existsb].
    destruct (link_at link y); [cbn; lia|]. intros Hh%IH. cbn. lia.
  - case_match; [by right; right|]. unfold close_fd. case_match; right; right; apply drop_res_sublist.
Qed.

(** No two resources have the same name. *)
Definition distinct (h : list resource) : Prop :=
  ∀ x l, h ≡ₚ x :: l → holds (same_name x) l = false.

Lemma same_name_sym x y : same_name x y = same_name y x.
Proof.
  destruct x as [[] p], y as [[] q]; unfold same_name; cbn [fst snd kind_eqb]; rewrite (Z.eqb_sym p q);
    try done; by destruct (q =? p).
Qed.

Lemma distinct_nil : distinct [].
Proof. by intros x l ?%Permutation_nil_cons. Qed.

Lemma distinct_submseteq h h' : h' ⊆+ h → distinct h → distinct h'.
Proof.
  intros [k Hk]%submseteq_Permutation Hd x l Hl. apply holds_false_iff. intros y Hy.
  apply (holds_false_iff (same_name x) (l ++ k)); [|apply elem_of_app; by left].
  apply Hd. by rewrite Hk, Hl.
Qed.

Lemma distinct_cons x h : holds (same_name x) h = false → distinct h → distinct (x :: h).
Proof.
  intros Hx Hd y l Hl. destruct (Permutation_vs_cons_inv Hl) as (l1 & l2 & He).
  destruct l1 as [|x' l1]; cbn in He; injection He as <- He.
  - subst h. apply Permutation_cons_inv in Hl. apply holds_false_iff. intros z Hz.
    eapply holds_false_iff; [exact Hx|by rewrite Hl].
  - subst h. rewrite <- Permutation_middle, perm_swap in Hl. apply Permutation_cons_inv in Hl.
    apply holds_false_iff. intros z Hz. rewrite <- Hl in Hz. apply elem_of_cons in Hz as [->|Hz].
    + rewrite same_name_sym. eapply holds_false_iff; [exact Hx|]. apply elem_of_app. right. by left.
    + eapply holds_false_iff; [apply Hd; symmetry; apply Permutation_middle|done].
Qed.

Lemma distinct_effect c a h : fresh h c a → distinct h → distinct (effect c a h).
Proof.
  intros Hf Hd. destruct (effect_cases c a h) as [[x Hx]|[(fd & h' & Hx & Hs & _)|Hs]].
  - rewrite Hx. apply distinct_cons; [by apply Hf|done].
  - rewrite Hx. apply distinct_cons; [|by eapply distinct_submseteq, Hd; apply sublist_submseteq].
    apply holds_false_iff. intros y _. apply andb_false_r.
  - eapply distinct_submseteq, Hd. by apply sublist_submseteq.
Qed.

(** A signal arrives during the call with number [n]. *)
Definition interrupts (n : nat) (env : environment) : Prop :=
  ∀ tr c, length tr = n → sig (env tr c) = true.

(** Under an environment that interrupts at [n], a process that made that call has been
    told to stop. *)
Definition told (n : nat) (w : world) : Prop := (n < length (trace w))%nat → stop w = true.

(** [limit = Some n]: only environments that interrupt at call [n], and no loop may run out
    of fuel.  [allowed]: only environments that give such answers after such
    calls.  [always]: an invariant of
    every world that is reached.  [on_exit]: what holds when exit() is called. *)
Record scenario := Scenario {
  limit : option nat;
  allowed : list (sys * answer) → sys → answer → Prop;
  always : world → Prop;
  on_exit : Z → world → Prop;
}.

(** Nothing assumed, nothing demanded. *)
Definition anything : scenario := Scenario None (λ _ _ _, True) (λ _, True) (λ _ _, True).

(** A signal arrives during call [n]. *)
Definition until (n : nat) : scenario := Scenario (Some n) (λ _ _ _, True) (λ _, True) (λ _ _, True).

Section wp.
Variable σ : scenario.

Definition good_env (env : environment) : Prop :=
  env_ok env ∧ (∀ tr c, allowed σ tr c (env tr c)) ∧
  match limit σ with Some n => interrupts n env | None => True end.
Definition good_world (w : world) : Prop :=
  always σ w ∧ (stop w = true → handler w = true) ∧
  (held w = held_after (trace w) ∧ distinct (held w)) ∧
  match limit σ with Some n => told n w | None => True end.

(** Enough fuel for the limit. *)
Definition fuel_ok (fuel : nat) : Prop :=
  match limit σ with Some n => (n + 2 ≤ fuel)%nat | None => True end.
(** A round of a loop from [w] to [w'] that goes on: with a limit it has made a call, and
    the interrupting call had not been made when it began. *)
Definition goes_on (w w' : world) : Prop :=
  match limit σ with
  | Some n => (length (trace w) ≤ n)%nat ∧ (length (trace w) < length (trace w'))%nat
  | None => True
  end.

Definition wp {A} (m : P A) (Q : A → world → Prop) (w : world) : Prop :=
  ∀ env, good_env env → good_world w →
    match m env w with
    | (Returned a, w') => Q a w' ∧ good_world w'
    | (Exited code, w') => on_exit σ code w' ∧ always σ w'
    | (Killed, w') => always σ w'
    | (OutOfFuel, w') => limit σ = None ∧ always σ w'
    | (Undefined, _) => False
    end.

Lemma wp_ret {A} (a : A) Q w : Q a w → wp (mret a) Q w.
Proof. intros HQ env _ Hw. by split. Qed.

Lemma wp_bind {A B} (m : P A) (f : A → P B) Q w :
  wp m (λ a w', wp (f a) Q w') w → wp (m ≫= f) Q w.
Proof.
  intros Hm env He Hw. specialize (Hm env He Hw). unfold mbind, P_bind.
  destruct (m env w) as [[a|code| | |] w']; try done. destruct Hm as [Hf Hw']. by apply Hf.
Qed.

Lemma wp_mono {A} (m : P A) (Q Q' : A → world → Prop) w :
  wp m Q w → (∀ a w', Q a w' → Q' a w') → wp m Q' w.
Proof.
  intros Hm HQ env He Hw. specialize (Hm env He Hw).
  destruct (m env w) as [[a|code| | |] w']; try done. destruct Hm as [? ?]. split; [by apply HQ|done].
Qed.

Lemma wp_do c Q w :
  enabled c w = true →
  (∀ a, always σ (after_call c a w)) →
  (∀ a, answer_ok (held w) c a → allowed σ (trace w) c a → Q a (after_call c a w)) → wp (do c) Q w.
Proof.
  intros Hn Hal HQ env (He & Hall & Hl) (_ & Hsh & [Hheld Hdis] & Hw). unfold do. rewrite Hn.
  destruct (sig (env (trace w) c) && negb _) eqn:Es; [apply Hal|].
  split; [apply HQ; [rewrite Hheld; apply He|apply Hall]|]. split; [apply Hal|]. split.
  { cbn. destruct (stop w); cbn; [by rewrite Hsh|]. intros [? ->]%andb_prop. done. }
  split; [split; [cbn; by rewrite Hheld|]|].
  { apply distinct_effect; [rewrite Hheld; apply He|done]. }
  destruct (limit σ) as [n|]; [|done].
  unfold told, after_call in *. cbn [trace stop handler length] in *. intros Hlt.
  destruct (decide (length (trace w) = n)) as [Heq|Hne].
  - rewrite (Hl (trace w) c Heq) in *. cbn [andb] in *. apply negb_false_iff in Es. rewrite Es.
    apply orb_true_r.
  - rewrite Hw by lia. done.
Qed.

(** Facts every reachable world satisfies may be used. *)
Lemma wp_world {A} (m : P A) Q w : (good_world w → wp m Q w) → wp m Q w.
Proof. intros Hm env He Hw. by apply Hm. Qed.

Lemma wp_call c Q w :
  enabled c w = true →
  (∀ a, always σ (after_call c a w)) →
  (∀ a, answer_ok (held w) c a → allowed σ (trace w) c a → Q (ret a) (after_call c a w)) → wp (call c) Q w.
Proof. intros Hn Hal HQ. apply wp_bind, wp_do; [done..|]. intros a Ha Hl. by apply wp_ret, HQ. Qed.

Lemma wp_call_ c (Q : () → world → Prop) w :
  enabled c w = true →
  (∀ a, always σ (after_call c a w)) →
  (∀ a, answer_ok (held w) c a → allowed σ (trace w) c a → Q () (after_call c a w)) → wp (call_ c) Q w.
Proof. intros Hn Hal HQ. apply wp_bind, wp_do; [done..|]. intros a Ha Hl. by apply wp_ret, HQ. Qed.

Lemma wp_stopped (Q : bool → world → Prop) w :
  (∀ b, b = stop w →
     (b = false → match limit σ with Some n => (length (trace w) ≤ n)%nat | None => True end) →
     Q b w) → wp stopped Q w.
Proof.
  intros HQ env _ Hw. split; [|done]. apply HQ; [done|]. intros Hs.
  destruct Hw as (_ & _ & _ & Hw). unfold told in Hw. destruct (limit σ) as [n|]; [|done].
  destruct (decide (n < length (trace w))%nat) as [Hlt|?]; [|lia]. by rewrite Hw in Hs.
Qed.

Lemma wp_history (Q : list (sys * answer) → world → Prop) w : Q (trace w) w → wp history Q w.
Proof. intros HQ env _ Hw. by split. Qed.

Lemma wp_exit {A} code (Q : A → world → Prop) w : on_exit σ code w → wp (exit code) Q w.
Proof. intros Hx env _ Hw. split; [done|]. apply Hw. Qed.

Lemma wp_read_var v (Q : Z → world → Prop) w : Q v w → wp (read_var (Some v)) Q w.
Proof. intros HQ env _ Hw. by split. Qed.

(** A value a call stored. *)
Lemma wp_read_out a i (Q : Z → world → Prop) w :
  (i < length (out a))%nat → (∀ v, out a !! i = Some v → Q v w) → wp (read_var (out a !! i)) Q w.
Proof.
  intros Hi HQ. destruct (lookup_lt_is_Some_2 (out a) i Hi) as [v Hv]. rewrite Hv.
  by apply wp_read_var, HQ.
Qed.

Lemma wp_checked z (Q : Z → world → Prop) w : in_s32 z → Q z w → wp (checked z) Q w.
Proof. intros Hz HQ env _ Hw. unfold checked. by rewrite bool_decide_true. Qed.

Lemma wp_touch write p off n (Q : () → world → Prop) w :
  holds (covers write p off n) (held w) = true → Q () w → wp (touch write p off n) Q w.
Proof. intros Hh HQ env _ Hw. unfold touch. by rewrite Hh. Qed.

(** ** Loops *)

Lemma wp_for_each {S} (I : nat → S → world → Prop) i n (body : nat → S → P S) s
    (Q : S → world → Prop) w :
  (∀ j s w, (i ≤ j < i + n)%nat → I j s w → wp (body j s) (λ s' w', I (Datatypes.S j) s' w') w) →
  I i s w → (∀ s' w', I (i + n)%nat s' w' → Q s' w') → wp (for_each i n body s) Q w.
Proof.
  revert i s w. induction n as [|n IH]; intros i s w Hbody HI HQ; cbn [for_each].
  - apply wp_ret, HQ. by rewrite Nat.add_0_r.
  - apply wp_bind. eapply wp_mono; [apply Hbody; [lia|done]|]. intros s' w' HI'.
    apply IH; [|done|].
    + intros j s1 w1 Hj. apply Hbody. lia.
    + intros s1 w1. replace (Datatypes.S i + n)%nat with (i + Datatypes.S n)%nat by lia. apply HQ.
Qed.

Lemma wp_for_until {S R} (I : nat → S → world → Prop) i n (body : nat → S → P (S + R)) s
    (Q : S + R → world → Prop) w :
  (∀ j s w, (i ≤ j < i + n)%nat → I j s w →
     wp (body j s) (λ r w', match r with inl s' => I (Datatypes.S j) s' w' | inr x => Q (inr x) w' end) w) →
  I i s w → (∀ s' w', I (i + n)%nat s' w' → Q (inl s') w') → wp (for_until i n body s) Q w.
Proof.
  revert i s w. induction n as [|n IH]; intros i s w Hbody HI HQ; cbn [for_until].
  - apply wp_ret, HQ. by rewrite Nat.add_0_r.
  - apply wp_bind. eapply wp_mono; [apply Hbody; [lia|done]|]. intros [s'|x] w'; [|by apply wp_ret].
    intros HI'. apply IH; [|done|].
    + intros j s1 w1 Hj. apply Hbody. lia.
    + intros s1 w1. replace (Datatypes.S i + n)%nat with (i + Datatypes.S n)%nat by lia. apply HQ.
Qed.

(** The loop without a bound; the invariant may speak of the rounds left. *)
Lemma wp_iter_fuel {S A} (I : nat → S → world → Prop) fuel (body : S → P (S + A)) s
    (Q : A → world → Prop) w :
  (∀ k s w, I (Datatypes.S k) s w →
    wp (body s) (λ r w', match r with inl s' => I k s' w' ∧ goes_on w w' | inr a => Q a w' end) w) →
  fuel_ok fuel → I fuel s w → wp (iter fuel body s) Q w.
Proof.
  unfold fuel_ok, goes_on. intros Hbody Hfuel HI.
  assert (∀ fuel s w, I fuel s w →
    match limit σ with Some n => (n + 2 ≤ fuel + length (trace w))%nat ∧ (1 ≤ fuel)%nat | None => True end →
    wp (iter fuel body s) Q w) as Hgen.
  { clear fuel s w Hfuel HI. intros fuel. induction fuel as [|fuel IH]; intros s w HI Hf.
    - intros env He Hw. cbn. destruct (limit σ); [lia|]. split; [done|apply Hw].
    - cbn [iter]. apply wp_bind. eapply wp_mono; [by apply Hbody|].
      intros [s'|a] w'; [|by apply wp_ret]. intros [HI' Hl]. apply IH; [done|].
      destruct (limit σ); [lia|done]. }
  apply Hgen; [done|]. destruct (limit σ); lia.
Qed.

Lemma wp_iter {S A} (I : S → world → Prop) fuel (body : S → P (S + A)) s (Q : A → world → Prop) w :
  (∀ s w, I s w →
    wp (body s) (λ r w', match r with inl s' => I s' w' ∧ goes_on w w' | inr a => Q a w' end) w) →
  fuel_ok fuel → I s w → wp (iter fuel body s) Q w.
Proof. intros Hbody. by apply (wp_iter_fuel (λ _, I)). Qed.

(** From a verified program to its runs. *)
Lemma good_init : always σ init → good_world init.
Proof. intros Ha. split_and!; [done|done|done|apply distinct_nil|]. unfold told. destruct (limit σ); [cbn; lia|done]. Qed.

Lemma wp_run {A} (m : P A) (Q : A → world → Prop) env :
  wp m Q init → good_env env → always σ init →
  match m env init with
  | (Returned a, w') => Q a w' ∧ always σ w'
  | (Exited code, w') => on_exit σ code w' ∧ always σ w'
  | (Killed, w') => always σ w'
  | (OutOfFuel, w') => limit σ = None ∧ always σ w'
  | (Undefined, _) => False
  end.
Proof.
  intros Hm He Ha. specialize (Hm env He (good_init Ha)). destruct (m env init) as [[a|code| | |] w']; try done.
  destruct Hm as [? [? _]]. done.
Qed.

(** What is left of it when only normal returns matter. *)
Lemma wp_returned {A} (m : P A) (Q : A → world → Prop) env :
  wp m Q init → good_env env → always σ init →
  match m env init with
  | (Returned a, w') => Q a w'
  | (Undefined, _) => False
  | _ => True
  end.
Proof.
  intros Hm He Ha. pose proof (wp_run m Q env Hm He Ha) as Hr.
  destruct (m env init) as [[] w']; try done. apply Hr.
Qed.
End wp.

Lemma anything_env env : env_ok env → good_env anything env.
Proof. done. Qed.
Lemma anything_always w : always anything w.
Proof. exact I. Qed.
Lemma anything_exit code w : on_exit anything code w.
Proof. exact I. Qed.
Lemma anything_fuel fuel : fuel_ok anything fuel.
Proof. exact I. Qed.

(** ** Computations without loops that need fuel *)

Definition total {A} (m : P A) : Prop := ∀ env w, fst (m env w) ≠ OutOfFuel.

Create HintDb total.

Lemma total_ret {A} (a : A) : total (mret a).
Proof. done. Qed.
Lemma total_bind {A B} (m : P A) (f : A → P B) : total m → (∀ a, total (f a)) → total (m ≫= f).
Proof.
  intros Hm Hf env w. unfold mbind, P_bind. specialize (Hm env w).
  destruct (m env w) as [[a| | | |] w']; try done. apply Hf.
Qed.
Lemma total_do c : total (do c).
Proof. intros env w. unfold do. by repeat case_match. Qed.
Lemma total_call c : total (call c).
Proof. apply total_bind; [apply total_do|intros; apply total_ret]. Qed.
Lemma total_call_ c : total (call_ c).
Proof. apply total_bind; [apply total_do|intros; apply total_ret]. Qed.
Lemma total_exit {A} code : total (exit code : P A).
Proof. done. Qed.
Lemma total_read_var x : total (read_var x).
Proof. intros env w. by destruct x. Qed.
Lemma total_checked z : total (checked z).
Proof. intros env w. unfold checked. by case_match. Qed.
Lemma total_touch b p off n : total (touch b p off n).
Proof. intros env w. unfold touch. by case_match. Qed.
Lemma total_load width x i : total (load width x i).
Proof. apply total_bind; [apply total_touch|intros; apply total_read_var]. Qed.
Lemma total_store width x i v : total (store width x i v).
Proof. apply total_bind; [apply total_touch|intros; apply total_ret]. Qed.
Lemma total_if {A} (b : bool) (m m' : P A) : total m → total m' → total (if b then m else m').
Proof. by destruct b. Qed.
Lemma total_for_each {S} i n (body : nat → S → P S) s :
  (∀ j s, total (body j s)) → total (for_each i n body s).
Proof.
  intros Hb. revert i s. induction n as [|n IH]; intros i s; cbn [for_each]; [done|].
  apply total_bind; [apply Hb|intros; apply IH].
Qed.

Lemma wp_run_total σ {A} (m : P A) (Q : A → world → Prop) env :
  total m → wp σ m Q init → good_env σ env → always σ init →
  match m env init with
  | (Returned a, w) => Q a w
  | (Exited code, w) => on_exit σ code w
  | (Killed, _) => True
  | (OutOfFuel, _) | (Undefined, _) => False
  end.
Proof.
  intros Ht Hm He Ha. specialize (Ht env init). pose proof (wp_run σ m Q env Hm He Ha) as Hr.
  destruct (m env init) as [[a|code| | |] w]; try done; apply Hr.
Qed.

#[export] Hint Resolve total_ret total_bind total_do total_call total_call_ total_exit total_read_var
  total_checked total_touch total_load total_store total_if total_for_each : total.

(** ** What the process owns, in any order *)

(** A pointer that may be NULL. *)
Definition res_of (k : kind) (p : Z) : list resource := if p =? 0 then [] else [(k, p)].

(** The process holds exactly [l], in some order. *)
Definition owns (w : world) (l : list resource) : Prop := held w ≡ₚ l.

#[export] Instance owns_proper : Proper ((=) ==> (≡ₚ) ==> iff) owns.
Proof. intros w _ <- l l' Hl. unfold owns. by rewrite Hl. Qed.

Lemma kind_eqb_eq k k' : kind_eqb k k' = true ↔ k = k'.
Proof.
  split.
  - destruct k, k'; cbn; try done; rewrite ?andb_true_iff, ?Z.eqb_eq, ?Bool.eqb_true_iff; intuition congruence.
  - intros <-. destruct k; cbn; rewrite ?Z.eqb_refl, ?Bool.eqb_reflx; done.
Qed.

Lemma res_eqb_eq x y : res_eqb x y = true ↔ x = y.
Proof.
  destruct x as [k p], y as [k' p']. unfold res_eqb. cbn [fst snd].
  rewrite andb_true_iff, kind_eqb_eq, Z.eqb_eq. split; [by intros [-> ->]|by intros [= -> ->]].
Qed.

Lemma drop_res_perm f l : holds f l = true → ∃ x, f x = true ∧ l ≡ₚ x :: drop_res f l.
Proof.
  induction l as [|y l IH]; [done|]. cbn [holds existsb drop_res]. destruct (f y) eqn:E; [eauto|].
  intros (x & Hx & Hl)%IH. exists x. split; [done|]. by rewrite Hl at 1; apply Permutation_swap.
Qed.

Section owns.
Context (c : sys) (a : answer) (w : world) (l : list resource).

Lemma owns_holds f : owns w l → holds f l = true → holds f (held w) = true.
Proof.
  intros Hl (x & Hin & Hx)%holds_iff. apply holds_iff. exists x. split; [|done].
  unfold owns in Hl. by rewrite Hl.
Qed.

Lemma owns_not_held f x : owns w l → holds f (held w) = false → x ∈ l → f x = false.
Proof.
  intros Hl Hf Hin. apply not_true_is_false. intros Hx. rewrite <- not_true_iff_false in Hf. apply Hf.
  apply holds_iff. exists x. split; [|done]. unfold owns in Hl. by rewrite Hl.
Qed.

Lemma owns_same : owns w l → effect c a (held w) = held w → owns (after_call c a w) l.
Proof. intros Hl He. unfold owns. cbn [held after_call]. by rewrite He. Qed.

Lemma owns_acquire x : owns w l → effect c a (held w) = x :: held w → owns (after_call c a w) (x :: l).
Proof. unfold owns. intros Hl He. cbn [held after_call]. by rewrite He, Hl. Qed.

Lemma owns_acquire_ptr k :
  owns w l → effect c a (held w) = (if ret a =? 0 then held w else (k, ret a) :: held w) →
  owns (after_call c a w) (res_of k (ret a) ++ l).
Proof.
  unfold res_of. intros Hl He. destruct (ret a =? 0); [by apply owns_same|by apply owns_acquire].
Qed.

(** Releasing [x], when only [x] can be meant. *)
Lemma owns_release f x :
  owns w (x :: l) → effect c a (held w) = drop_res f (held w) →
  f x = true → (∀ y, y ∈ l → f y = true → y = x) → owns (after_call c a w) l.
Proof.
  unfold owns. intros Hl He Hx Hf. cbn [held after_call]. rewrite He.
  destruct (drop_res_perm f (held w)) as (y & Hy & Hperm).
  { apply holds_iff. exists x. split; [|done]. rewrite Hl. by left. }
  assert (y = x) as ->.
  { assert (y ∈ x :: l) as Hin by (rewrite <- Hl, Hperm; by left).
    apply elem_of_cons in Hin as [?|?]; auto. }
  rewrite Hperm in Hl at 1. by apply Permutation_cons_inv in Hl.
Qed.
End owns.

(** Closing a descriptor; a second close of one that libbpf closed; a link that is destroyed. *)
Lemma owns_close fd a w l : 0 ≤ fd → owns w ((KFd, fd) :: l) → owns (after_call (Close fd) a w) l.
Proof.
  intros Hfd Hl. assert (res_eqb (KFd, fd) (KFd, fd) = true) as Hr by by apply res_eqb_eq.
  eapply (owns_release _ _ _ _ (res_eqb (KFd, fd))); [exact Hl| |exact Hr|].
  - cbn [effect]. rewrite (proj2 (Z.ltb_ge _ _) Hfd). unfold close_fd.
    erewrite owns_holds; [done|exact Hl|]. apply holds_iff. eexists. split; [by left|done].
  - intros y _ Hy. by apply res_eqb_eq in Hy.
Qed.

Lemma owns_close_stale fd a w l :
  0 ≤ fd → owns w ((KStale, fd) :: l) → (KFd, fd) ∉ l → owns (after_call (Close fd) a w) l.
Proof.
  intros Hfd Hl Hn. eapply (owns_release _ _ _ _ (res_eqb (KStale, fd))); [exact Hl| |by apply res_eqb_eq|].
  - cbn [effect]. rewrite (proj2 (Z.ltb_ge _ _) Hfd). unfold close_fd.
    rewrite (proj2 (holds_false_iff _ _)); [done|]. intros y Hy. apply not_true_is_false.
    intros <-%res_eqb_eq. unfold owns in Hl. rewrite Hl in Hy. by apply elem_of_cons in Hy as [?|?].
  - intros y _ Hy. by apply res_eqb_eq in Hy.
Qed.

Lemma enabled_close fd w l x :
  0 ≤ fd → owns w l → x ∈ l → closable fd x = true → enabled (Close fd) w = true.
Proof.
  intros Hfd Hl Hin Hx. unfold enabled. cbn [needs]. rewrite (proj2 (Z.ltb_ge _ _) Hfd). cbn [forallb].
  rewrite andb_true_r. eapply owns_holds; [exact Hl|]. apply holds_iff. eauto.
Qed.
Lemma closable_fd fd : closable fd (KFd, fd) = true.
Proof. unfold closable. by rewrite (proj2 (res_eqb_eq _ _)). Qed.
Lemma closable_stale fd : closable fd (KStale, fd) = true.
Proof. unfold closable. by rewrite (proj2 (res_eqb_eq (KStale, fd) _)), orb_true_r. Qed.

Lemma owns_destroy_link p fd a w l :
  p ≠ 0 → distinct (held w) → owns w ((KLink fd, p) :: (KFd, fd) :: l) →
  owns (after_call (LinkDestroy p) a w) ((KStale, fd) :: l).
Proof.
  intros Hp Hd Hl. unfold owns in *. cbn [held after_call effect].
  rewrite (proj2 (Z.eqb_neq _ _) Hp). unfold destroy_link.
  assert (link_at p (KLink fd, p) = true) as Hat by (cbn; apply Z.eqb_refl).
  assert (∀ y, y ∈ held w → link_at p y = true → y = (KLink fd, p)) as Hu.
  { intros [k q]. rewrite Hl, elem_of_cons. intros [Hy|Hy] Hq; [done|].
    pose proof (proj1 (holds_false_iff _ _) (Hd _ _ Hl) _ Hy) as Hs.
    unfold link_at, same_name in *. cbn [fst snd] in *. destruct k; try done. lia. }
  assert (holds (link_at p) (held w) = true) as Hh
    by (apply holds_iff; exists (KLink fd, p); split; [rewrite Hl; by left|done]).
  destruct (find (link_at p) (held w)) as [y|] eqn:Ef.
  2: { apply holds_iff in Hh as (y & Hin%list_elem_of_In & Hy). by rewrite (find_none _ _ Ef _ Hin) in Hy. }
  pose proof (find_some _ _ Ef) as [Hin%list_elem_of_In Hy]. apply Hu in Hin; [subst y|done].
  destruct (drop_res_perm _ _ Hh) as (z & Hz & Hperm).
  rewrite (Hu z) in Hperm; [|rewrite Hperm; by left|done].
  rewrite Hl in Hperm at 1. apply Permutation_cons_inv in Hperm. cbn [drop_res res_eqb kind_eqb andb fst].
  assert (holds (res_eqb (KFd, fd)) (drop_res (link_at p) (held w)) = true) as Hf.
  { apply holds_iff. exists (KFd, fd). split; [rewrite <- Hperm; by left|by apply res_eqb_eq]. }
  destruct (drop_res_perm _ _ Hf) as (v & Hv%res_eqb_eq & Hperm'). subst v.
  rewrite <- Hperm in Hperm' at 1. apply Permutation_cons_inv in Hperm'. by rewrite <- Hperm'.
Qed.

(** [w'] comes after [w]. *)
Definition extends (w w' : world) : Prop := trace w `suffix_of` trace w'.

#[export] Instance extends_preorder : PreOrder extends.
Proof. split; [intros w; by exists []|intros w1 w2 w3 H1 H2; unfold extends in *; by etrans]. Qed.
Lemma extends_after c a w : extends w (after_call c a w).
Proof. by exists [(c, a)]. Qed.

Section release.
Variable σ : scenario.
Hypothesis Hal : ∀ w, always σ w.

(** A call that changes nothing, one that acquires, one that releases [x]. *)
Lemma wp_same c (Q : answer → world → Prop) w l :
  enabled c w = true → (∀ a h, effect c a h = h) → owns w l →
  (∀ a, answer_ok (held w) c a → allowed σ (trace w) c a →
     owns (after_call c a w) l → Q a (after_call c a w)) → wp σ (do c) Q w.
Proof using Hal.
  intros Hn He Hl HQ. apply wp_do; [done|by intros|]. intros a Ha Hall. apply HQ; [done..|].
  apply owns_same; auto.
Qed.

Lemma wp_release c f x (Q : () → world → Prop) w l :
  enabled c w = true → (∀ a h, effect c a h = drop_res f h) → owns w (x :: l) →
  f x = true → (∀ y, y ∈ l → f y = true → y = x) →
  (∀ w', owns w' l → extends w w' → Q () w') → wp σ (call_ c) Q w.
Proof using Hal.
  intros Hn He Hl Hx Hu HQ. apply wp_call_; [done|by intros|]. intros a _ _.
  apply HQ; [|apply extends_after]. by eapply owns_release; eauto.
Qed.

(** A destructor that accepts NULL. *)
Lemma wp_destroy c k p (Q : () → world → Prop) w l :
  (p = 0 → needs c = [] ∧ ∀ a h, effect c a h = h) →
  (p ≠ 0 → needs c = [res_eqb (k, p)] ∧ ∀ a h, effect c a h = drop_res (res_eqb (k, p)) h) →
  owns w (res_of k p ++ l) →
  (∀ w', owns w' l → extends w w' → Q () w') → wp σ (call_ c) Q w.
Proof using Hal.
  unfold res_of. intros H0 H1 Hl HQ. destruct (Z.eqb_spec p 0) as [Hp|Hp].
  - destruct (H0 Hp) as [Hn He]. apply wp_call_; [unfold enabled; by rewrite Hn|by intros|].
    intros a _ _. apply HQ; [by apply owns_same|apply extends_after].
  - destruct (H1 Hp) as [Hn He]. eapply (wp_release c (res_eqb (k, p)) (k, p)); [|done|exact Hl|..].
    + unfold enabled. rewrite Hn. cbn [forallb]. rewrite andb_true_r.
      eapply owns_holds; [exact Hl|]. apply holds_iff. exists (k, p). split; [by left|]. by apply res_eqb_eq.
    + by apply res_eqb_eq.
    + intros y _ Hy. by apply res_eqb_eq in Hy.
    + done.
Qed.

(** Calls that change nothing the program owns. *)
Lemma wp_idle c (Q : () → world → Prop) w l :
  enabled c w = true → (∀ a h, effect c a h = h) → owns w l →
  (∀ w', owns w' l → Q () w') → wp σ (call_ c) Q w.
Proof using Hal.
  intros Hn He Hl HQ. apply wp_call_; [done|by intros|]. intros a _ _. apply HQ, owns_same; auto.
Qed.

Lemma wp_idle_call c (Q : Z → world → Prop) w l :
  enabled c w = true → (∀ a h, effect c a h = h) → owns w l →
  (∀ a w', answer_ok (held w) c a → owns w' l → Q (ret a) w') → wp σ (call c) Q w.
Proof using Hal.
  intros Hn He Hl HQ. apply wp_call; [done|by intros|]. intros a Ha _. apply HQ; [done|].
  apply owns_same; auto.
Qed.

(** A descriptor the program owns can be used, and is gone when it is closed. *)
Lemma enabled_owned c f x w l :
  needs c = [f] → owns w l → x ∈ l → f x = true → enabled c w = true.
Proof.
  intros Hn Hl Hin Hx. unfold enabled. rewrite Hn. cbn [forallb]. rewrite andb_true_r.
  eapply owns_holds; [exact Hl|]. apply holds_iff. eauto.
Qed.

Lemma wp_close fd (Q : () → world → Prop) w l :
  0 ≤ fd → owns w ((KFd, fd) :: l) → (∀ w', owns w' l → Q () w') → wp σ (call_ (Close fd)) Q w.
Proof using Hal.
  intros Hfd Hl HQ. apply wp_call_; [|by intros|].
  - eapply enabled_close; [done|exact Hl|by left|apply closable_fd].
  - intros a _ _. by apply HQ, owns_close.
Qed.

Definition no_block (p : Z) (x : resource) : Prop := heap_at p x = false.

Lemma wp_free p n (Q : () → world → Prop) w l :
  owns w (res_of (KHeap n) p ++ l) → Forall (no_block p) l →
  (∀ w', owns w' l → extends w w' → Q () w') → wp σ (call_ (Free p)) Q w.
Proof using Hal.
  unfold res_of. intros Hl Hu HQ. destruct (Z.eqb_spec p 0) as [Hp|Hp].
  - subst p. apply wp_call_; [done|by intros|].
    intros a _ _. apply HQ; [by apply owns_same|apply extends_after].
  - assert (heap_at p (KHeap n, p) = true) as Hx by apply Z.eqb_refl.
    assert ((p =? 0) = false) as Hp0 by by apply Z.eqb_neq.
    eapply (wp_release (Free p) (heap_at p) (KHeap n, p)); [| |exact Hl|done| |done].
    + unfold enabled. cbn [needs]. rewrite Hp0. cbn [forallb]. rewrite andb_true_r.
      eapply owns_holds; [exact Hl|]. apply holds_iff. exists (KHeap n, p). split; [by left|done].
    + intros a h. cbn [effect]. by rewrite Hp0.
    + intros y Hy. eapply Forall_forall in Hu; [|exact Hy]. unfold no_block in Hu. by rewrite Hu.
Qed.

(** Elements of an array. *)
Definition block (width : Z) (x : array) : resource := (KHeap (width * Z.of_nat (length (cells x))), base x).

Lemma wp_touch_block write p off n size (Q : () → world → Prop) w l :
  owns w l → (KHeap size, p) ∈ l → 0 ≤ off → off + n ≤ size → Q () w → wp σ (touch write p off n) Q w.
Proof.
  intros Hl Hin Ho Hs HQ. apply wp_touch; [|done]. eapply owns_holds; [exact Hl|]. apply holds_iff.
  eexists. split; [exact Hin|]. unfold covers. cbn [fst snd]. rewrite !andb_true_iff. lia.
Qed.

Lemma wp_load width x i v (Q : Z → world → Prop) w l :
  owns w l → block width x ∈ l → 0 < width → cells x !! i = Some (Some v) → Q v w →
  wp σ (load width x i) Q w.
Proof.
  intros Hl Hin Hw Hi HQ. apply wp_bind. pose proof (lookup_lt_Some _ _ _ Hi).
  eapply wp_touch_block; [exact Hl|exact Hin|nia..|]. rewrite Hi. by apply wp_read_var.
Qed.

Lemma wp_store width x i v (Q : array → world → Prop) w l :
  owns w l → block width x ∈ l → 0 < width → (i < length (cells x))%nat →
  Q (Array (base x) (<[i := Some v]> (cells x))) w → wp σ (store width x i v) Q w.
Proof.
  intros Hl Hin Hw Hi HQ. apply wp_bind.
  eapply wp_touch_block; [exact Hl|exact Hin|nia..|]. by apply wp_ret.
Qed.
End release.

(** ** Environments to try programs in *)

(** A name that nothing in [held] has. *)
Definition next_name (held : list resource) : Z := foldr (λ x m, Z.max (snd x + 1) m) 64 held.

Lemma next_name_bound held x : x ∈ held → snd x < next_name held.
Proof. unfold next_name. induction 1; cbn [foldr]; lia. Qed.
Lemma next_name_min held : 64 ≤ next_name held.
Proof. unfold next_name. induction held; cbn [foldr]; lia. Qed.

Lemma next_name_fresh k held : holds (same_name (k, next_name held)) held = false.
Proof.
  apply holds_false_iff. intros [k' p] Hin%next_name_bound. unfold same_name. cbn [fst snd] in *.
  by replace (next_name held =? p) with false by lia.
Qed.

Lemma drop_res_length f held : (length (drop_res f held) ≤ length held)%nat.
Proof. induction held as [|x h IH]; cbn; [done|]. destruct (f x); cbn; lia. Qed.

Lemma close_fd_length fd held : (length (close_fd fd held) ≤ length held)%nat.
Proof. unfold close_fd. destruct (holds _ held); apply drop_res_length. Qed.

Lemma destroy_link_length l held : (length (destroy_link l held) ≤ length held)%nat.
Proof.
  unfold destroy_link. destruct (find (link_at l) held) as [[[] p]|] eqn:Ef; try done.
  apply find_some in Ef as [Hin%list_elem_of_In Hl].
  destruct (drop_res_perm (link_at l) held) as (y & _ & Hp); [apply holds_iff; eauto|].
  rewrite Hp at 2. cbn. apply le_n_S, drop_res_length.
Qed.

Lemma not_longer {A} (x : A) h l : (length l ≤ length h)%nat → l ≠ x :: h.
Proof. intros Hl ->. cbn in Hl. lia. Qed.

(** Everything succeeds; a signal arrives during call [n]. *)
Definition obliging_ret (held : list resource) (c : sys) : Z :=
  match c with
  | SkelOpen | SkelOpenAndLoad | RingNew _ | AttachPerfEvent _ _ | SymbolizerNew | IterCreate _
  | Socket | Open _ _ | PerfEventOpen _ _ _ | Mmap _ _ _ | Malloc _ | Calloc _ | Fopen _ => next_name held
  | AttachUsdt _ _ | AttachUprobe _ _ _ _ _ | MapGetNextKey _ => 64
  | NumPossibleCpus => 4
  | Getpid => 4242
  | Getopt => -1
  | Write _ | Read _ => 4096
  | _ => 0
  end.
Definition obliging_out (tr : list (sys * answer)) (c : sys) : list Z :=
  match c with
  | ParseCpuMaskFile => [next_name (held_after tr); 1; 0; 1]
  | ClockGettime => [Z.of_nat (length tr) mod 1000; 0]
  | Stat _ => [4; 5]
  | _ => []
  end.
Definition obliging (n : nat) : environment := λ tr c,
  Answer (obliging_ret (held_after tr) c) 5 (bool_decide (length tr = n)) (obliging_out tr c).

Lemma obliging_ok n : env_ok (obliging n).
Proof.
  intros tr c. pose proof (next_name_min (held_after tr)) as Hm. split; [done|]. split.
  - intros x. unfold obliging. destruct c; cbn -[next_name held_after close_fd destroy_link Z.eqb Z.ltb]; repeat case_match;
      intros Hx; simplify_eq; try apply next_name_fresh;
      try (apply holds_false_iff; intros; apply andb_false_r).
    all: exfalso; revert Hx; apply not_longer; first [done|apply destroy_link_length|apply close_fd_length|apply drop_res_length].
  - unfold obliging. destruct c; cbn [obliging_ret obliging_out ret out hd]; try done; try lia.
    intros _. split; [done|lia].
Qed.

(** The same without a signal. *)
Definition undisturbed : environment := λ tr c,
  let a := obliging 0 tr c in Answer (ret a) (errno a) false (out a).

Lemma undisturbed_ok : env_ok undisturbed.
Proof. intros tr c. exact (obliging_ok 0 tr c). Qed.

(** No pointer, descriptor or mapping is ever handed out; no signal arrives. *)
Definition uncooperative : environment := λ tr c,
  Answer (match c with
          | IterCreate _ | Socket | Open _ _ | PerfEventOpen _ _ _ | Mmap _ _ _ | ParseCpuMaskFile
          | Stat _ => -1
          | Getpid => 1
          | _ => 0
          end) 5 false [].

Lemma uncooperative_ok : env_ok uncooperative.
Proof.
  intros tr c. split; [done|]. split; [|by destruct c].
  intros x. unfold uncooperative. destruct c; cbn -[held_after close_fd destroy_link Z.eqb Z.ltb]; repeat case_match;
    intros Hx; simplify_eq; try (apply holds_false_iff; intros; apply andb_false_r).
  all: exfalso; revert Hx; apply not_longer; first [done|apply destroy_link_length|apply close_fd_length|apply drop_res_length].
Qed.

(** ** The calls a computation makes *)

(** Whatever happens, [m] makes only calls with property [C]. *)
Definition only (C : sys → bool) {A} (m : P A) : Prop :=
  ∀ env w, ∃ l, trace (snd (m env w)) = l ++ trace w ∧ Forall (λ x, C (fst x) = true) l.

Create HintDb only.

Lemma only_pure C {A} (m : P A) : (∀ env w, trace (snd (m env w)) = trace w) → only C m.
Proof. intros Hm env w. by exists []. Qed.
Lemma only_ret C {A} (a : A) : only C (mret a).
Proof. by apply only_pure. Qed.
Lemma only_bind C {A B} (m : P A) (f : A → P B) : only C m → (∀ a, only C (f a)) → only C (m ≫= f).
Proof.
  intros Hm Hf env w. unfold mbind, P_bind. destruct (Hm env w) as (l & Hl & HC).
  destruct (m env w) as [[a| | | |] w']; cbn in *; [|by exists l..].
  destruct (Hf a env w') as (k & Hk & HC'). exists (k ++ l).
  rewrite Hk, Hl, app_assoc. split; [done|]. by apply Forall_app.
Qed.
Lemma only_do (C : sys → bool) c : C c = true → only C (do c).
Proof.
  intros Hc env w. unfold do. destruct (enabled c w); [|by exists []].
  exists [(c, env (trace w) c)]. split; [|by repeat constructor]. by destruct (_ && _).
Qed.
Lemma only_call (C : sys → bool) c : C c = true → only C (call c).
Proof. intros Hc. apply only_bind; [by apply only_do|intros; apply only_ret]. Qed.
Lemma only_call_ (C : sys → bool) c : C c = true → only C (call_ c).
Proof. intros Hc. apply only_bind; [by apply only_do|intros; apply only_ret]. Qed.
Lemma only_exit C {A} code : only C (exit code : P A).
Proof. by apply only_pure. Qed.
Lemma only_read_var C x : only C (read_var x).
Proof. apply only_pure. by destruct x. Qed.
Lemma only_touch C b p off n : only C (touch b p off n).
Proof. by apply only_pure. Qed.
Lemma only_load C width x i : only C (load width x i).
Proof. apply only_bind; [apply only_touch|intros; apply only_read_var]. Qed.
Lemma only_store C width x i v : only C (store width x i v).
Proof. apply only_bind; [apply only_touch|intros; apply only_ret]. Qed.
Lemma only_if C {A} (b : bool) (m m' : P A) : only C m → only C m' → only C (if b then m else m').
Proof. by destruct b. Qed.
Lemma only_for_each C {S} i n (body : nat → S → P S) s :
  (∀ j s, only C (body j s)) → only C (for_each i n body s).
Proof.
  intros Hb. revert i s. induction n as [|n IH]; intros i s; cbn [for_each]; [apply only_ret|].
  apply only_bind; [apply Hb|intros; apply IH].
Qed.

#[export] Hint Resolve only_ret only_bind only_do only_call only_call_ only_exit only_read_var
  only_touch only_load only_store only_if only_for_each : only.
#[export] Hint Extern 1 (_ = true) => reflexivity : only.

Lemma wp_only σ C {A} (m : P A) (Q : A → world → Prop) w :
  only C m → wp σ m Q w →
  wp σ m (λ a w', Q a w' ∧ ∃ l, trace w' = l ++ trace w ∧ Forall (λ x, C (fst x) = true) l) w.
Proof.
  intros Hm Hw env He Hg. specialize (Hw env He Hg). specialize (Hm env w).
  destruct (m env w) as [[a|code| | |] w']; [|done..]. by destruct Hw.
Qed.
