(* ===== verification/Loaders.v ===== *)
(** * Loaders: the main functions of the C programs, as processes

    One Module per program of examples/c: its [main] with every call, branch and clean-up
    path of the source, in the order of the source.  [main fuel] bounds the rounds of each
    loop by [fuel].  (The callbacks the programs register are in [Bootstrap], [Sockfilter]
    and [TaskIter]; kprobe.c's PID thread is in [PageUser]; profile.c's main is in
    [ProfileMain].) *)

From S2P Require Import Prelude CInt CFormat BpfKernel Process.
From S2P Require Bootstrap PageTracker PageUser TaskIter.

(** printf and fprintf(stderr, ..) *)
Definition printf (fmt : string) : P () := call_ (Print Stdout fmt []).
Definition eprintf (fmt : string) : P () := call_ (Print Stderr fmt []).
Definition eprintf1 (fmt : string) (x : Z) : P () := call_ (Print Stderr fmt [x]).

Definition started : P () :=
  printf ("Successfully started! Please run `sudo cat /sys/kernel/debug/tracing/trace_pipe` to see output of the BPF programs." +:+ nl).

(** for (;;) { fprintf(stderr, "."); sleep(1); } *)
Definition dots_forever (fuel : nat) : P () :=
  iter fuel (λ _, eprintf ".";; call_ (Sleep 1);; mret (inl ())) ().
(** while (!stop) { fprintf(stderr, "."); sleep(1); } *)
Definition dots_until_stop (fuel : nat) : P () :=
  iter fuel (λ _,
    s ← stopped;
    if s : bool then mret (inr ()) else
    eprintf ".";; call_ (Sleep 1);; mret (inl ())) ().

(** return -err *)
Definition return_neg (err : Z) : P Z := mret (- err).

(** ** minimal.c *)
Module MinimalMain.
Definition cleanup (skel err : Z) : P Z := call_ (SkelDestroy skel);; return_neg err.

Definition main (fuel : nat) : P Z :=
  call_ SetPrint;;
  skel ← call SkelOpen;
  if skel =? 0 then eprintf ("Failed to open BPF skeleton" +:+ nl);; mret 1 else
  pid ← call Getpid;
  call_ (PokeGlobal skel "my_pid" pid);;
  err ← call (SkelLoad skel);
  if negb (err =? 0) then
    eprintf ("Failed to load and verify BPF skeleton" +:+ nl);; cleanup skel err
  else
  err ← call (SkelAttach skel);
  if negb (err =? 0) then
    eprintf ("Failed to attach BPF skeleton" +:+ nl);; cleanup skel err
  else
  started;;
  dots_forever fuel;;
  cleanup skel err.
End MinimalMain.

(** ** minimal_ns.c *)
Module MinimalNsMain.
(** stat stores st_dev and st_ino in sb. *)
Definition main (fuel : nat) : P Z :=
  call_ SetPrint;;
  skel ← call SkelOpen;
  if skel =? 0 then eprintf ("Failed to open BPF skeleton" +:+ nl);; mret 1 else
  sb ← do (Stat "/proc/self/ns/pid");
  if ret sb =? -1 then eprintf "Failed to acquire namespace information";; mret 1 else
  st_dev ← read_var (out sb !! 0%nat);
  st_ino ← read_var (out sb !! 1%nat);
  call_ (PokeGlobal skel "dev" st_dev);;
  call_ (PokeGlobal skel "ino" st_ino);;
  pid ← call Getpid;
  call_ (PokeGlobal skel "my_pid" pid);;
  err ← call (SkelLoad skel);
  if negb (err =? 0) then
    eprintf ("Failed to load and verify BPF skeleton" +:+ nl);; MinimalMain.cleanup skel err
  else
  err ← call (SkelAttach skel);
  if negb (err =? 0) then
    eprintf ("Failed to attach BPF skeleton" +:+ nl);; MinimalMain.cleanup skel err
  else
  started;;
  dots_forever fuel;;
  MinimalMain.cleanup skel err.
End MinimalNsMain.

(** ** minimal_legacy.c *)
Module MinimalLegacyMain.
Definition main (fuel : nat) : P Z :=
  let index := 0 in
  call_ SetPrint;;
  skel ← call SkelOpenAndLoad;
  if skel =? 0 then eprintf ("Failed to open and load BPF skeleton" +:+ nl);; mret 1 else
  pid ← call Getpid;
  err ← call (MapUpdate skel "my_pid_map" index pid);
  if err <? 0 then
    eprintf1 ("Error updating map with pid: %s" +:+ nl) err;; MinimalMain.cleanup skel err
  else
  err ← call (SkelAttach skel);
  if negb (err =? 0) then
    eprintf ("Failed to attach BPF skeleton" +:+ nl);; MinimalMain.cleanup skel err
  else
  started;;
  dots_forever fuel;;
  MinimalMain.cleanup skel err.
End MinimalLegacyMain.

(** ** usdt.c *)
Module UsdtMain.
Definition main (fuel : nat) : P Z :=
  call_ SetPrint;;
  skel ← call SkelOpen;
  if skel =? 0 then eprintf ("Failed to open BPF skeleton" +:+ nl);; mret 1 else
  pid ← call Getpid;
  call_ (PokeGlobal skel "my_pid" pid);;
  err ← call (SkelLoad skel);
  if skel =? 0 then eprintf ("Failed to load BPF skeleton" +:+ nl);; mret 1 else
  pid ← call Getpid;
  link ← do (AttachUsdt skel pid);
  if ret link =? 0 then
    let err := errno link in
    eprintf ("Failed to attach BPF program `usdt_manual_attach`" +:+ nl);; MinimalMain.cleanup skel err
  else
  err ← call (SkelAttach skel);
  if negb (err =? 0) then
    eprintf ("Failed to attach BPF skeleton" +:+ nl);; MinimalMain.cleanup skel err
  else
  s ← do (Signal SIGINT);
  if ret s =? SIG_ERR then
    let err := errno s in
    eprintf1 ("can't set signal handler: %s" +:+ nl) err;; MinimalMain.cleanup skel err
  else
  started;;
  dots_until_stop fuel;;     (* usdt_trigger() only calls setjmp *)
  MinimalMain.cleanup skel err.
End UsdtMain.

(** ** uprobe.c *)
Module UprobeMain.
Definition uprobed_add (a b : Z) : P Z := checked (a + b).
Definition uprobed_sub (a b : Z) : P Z := checked (a - b).

Definition loop (fuel : nat) : P () :=
  iter fuel (λ i,
    eprintf ".";;
    i1 ← checked (i + 1);
    _ ← uprobed_add i i1;
    ii ← checked (i * i);
    _ ← uprobed_sub ii i;
    call_ (Sleep 1);;
    i' ← checked (i + 1);
    mret (inl i')) 0.

Definition main (fuel : nat) : P Z :=
  call_ SetPrint;;
  skel ← call SkelOpenAndLoad;
  if skel =? 0 then eprintf ("Failed to open and load BPF skeleton" +:+ nl);; mret 1 else
  link ← do (AttachUprobe skel "uprobe_add" "uprobed_add" false 0);
  if ret link =? 0 then
    let err := - errno link in
    eprintf1 ("Failed to attach uprobe: %d" +:+ nl) err;; MinimalMain.cleanup skel err
  else
  link ← do (AttachUprobe skel "uretprobe_add" "uprobed_add" true (-1));
  if ret link =? 0 then
    let err := - errno link in
    eprintf1 ("Failed to attach uprobe: %d" +:+ nl) err;; MinimalMain.cleanup skel err
  else
  err ← call (SkelAttach skel);
  if negb (err =? 0) then
    eprintf1 ("Failed to auto-attach BPF skeleton: %d" +:+ nl) err;; MinimalMain.cleanup skel err
  else
  started;;
  loop fuel;;
  MinimalMain.cleanup skel err.
End UprobeMain.

(** ** ksyscall.c and fentry.c: the same [main] over their own skeletons *)
Module KsyscallMain.
Definition main (fuel : nat) : P Z :=
  call_ SetPrint;;
  skel ← call SkelOpenAndLoad;
  if skel =? 0 then eprintf ("Failed to open BPF skeleton" +:+ nl);; mret 1 else
  err ← call (SkelAttach skel);
  if negb (err =? 0) then
    eprintf ("Failed to attach BPF skeleton" +:+ nl);; MinimalMain.cleanup skel err
  else
  s ← do (Signal SIGINT);
  if ret s =? SIG_ERR then
    eprintf1 ("can't set signal handler: %s" +:+ nl) (errno s);; MinimalMain.cleanup skel err
  else
  started;;
  dots_until_stop fuel;;
  MinimalMain.cleanup skel err.
End KsyscallMain.

Module FentryMain.
Definition main : nat → P Z := KsyscallMain.main.
End FentryMain.

(** ** lsm.c: err is not initialised *)
Module LsmMain.
Definition cleanup (skel : Z) (err : option Z) : P Z :=
  call_ (SkelDestroy skel);; err ← read_var err; return_neg err.

Definition main (fuel : nat) : P Z :=
  call_ SetPrint;;
  skel ← call SkelOpenAndLoad;
  if skel =? 0 then
    eprintf ("Failed to open and load BPF skeleton" +:+ nl);; cleanup skel None
  else
  err ← call (SkelAttach skel);
  if negb (err =? 0) then
    eprintf ("Failed to attach BPF skeleton" +:+ nl);; cleanup skel (Some err)
  else
  started;;
  dots_forever fuel;;
  cleanup skel (Some err).
End LsmMain.

(** ** bootstrap.c *)
Module BootstrapMain.
Definition cleanup (rb skel err : Z) : P Z :=
  call_ (RingFree rb);;
  call_ (SkelDestroy skel);;
  mret (if err <? 0 then - err else 0).

(** The polling loop; its result is err. *)
Definition poll_loop (rb err : Z) (fuel : nat) : P Z :=
  iter fuel (λ err,
    s ← stopped;
    if s : bool then mret (inr err) else
    err ← call (RingPoll rb 100);
    if err =? - EINTR then mret (inr 0) else
    if err <? 0 then
      call_ (Print Stdout ("Error polling perf buffer: %d" +:+ nl) [err]);; mret (inr err)
    else mret (inl err)) err.

Definition main (env : Bootstrap.env) (fuel : nat) : P Z :=
  let rb := 0 in
  err ← call ArgpParse;
  if negb (err =? 0) then mret err else
  call_ SetPrint;;
  call_ (Signal SIGINT);;
  call_ (Signal SIGTERM);;
  skel ← call SkelOpen;
  if skel =? 0 then eprintf ("Failed to open and load BPF skeleton" +:+ nl);; mret 1 else
  call_ (PokeGlobal skel "min_duration_ns" (Bootstrap.min_duration_ns_of env));;
  err ← call (SkelLoad skel);
  if negb (err =? 0) then
    eprintf ("Failed to load and verify BPF skeleton" +:+ nl);; cleanup rb skel err
  else
  err ← call (SkelAttach skel);
  if negb (err =? 0) then
    eprintf ("Failed to attach BPF skeleton" +:+ nl);; cleanup rb skel err
  else
  rb ← call (RingNew skel);
  if rb =? 0 then
    let err := -1 in
    eprintf ("Failed to create ring buffer" +:+ nl);; cleanup rb skel err
  else
  printf ("%-8s %-5s %-16s %-7s %-7s %s" +:+ nl);;
  err ← poll_loop rb err fuel;
  cleanup rb skel err.
End BootstrapMain.

(** ** sockfilter.c *)
Module SockfilterMain.
Definition open_raw_sock : P Z :=
  sock ← call Socket;
  if sock <? 0 then eprintf ("Failed to create raw socket" +:+ nl);; mret (-1) else
  b ← do (Bind sock);
  if ret b <? 0 then
    eprintf1 ("Failed to bind to %s: %s" +:+ nl) (errno b);;
    call_ (Close sock);;
    mret (-1)
  else mret sock.

Definition cleanup (rb skel err : Z) : P Z :=
  call_ (RingFree rb);;
  call_ (SkelDestroy skel);;
  return_neg err.

Definition poll_loop (rb err : Z) (fuel : nat) : P Z :=
  iter fuel (λ err,
    s ← stopped;
    if s : bool then mret (inr err) else
    err ← call (RingPoll rb 100);
    if err =? - EINTR then mret (inr 0) else
    if err <? 0 then
      eprintf1 ("Error polling perf buffer: %d" +:+ nl) err;; mret (inr err)
    else call_ (Sleep 1);; mret (inl err)) err.

Definition main (fuel : nat) : P Z :=
  let rb := 0 in
  err ← call ArgpParse;
  if negb (err =? 0) then return_neg err else
  call_ SetPrint;;
  call_ (Signal SIGINT);;
  call_ (Signal SIGTERM);;
  skel ← call SkelOpenAndLoad;
  if skel =? 0 then eprintf ("Failed to open and load BPF skeleton" +:+ nl);; mret 1 else
  rb ← call (RingNew skel);
  if rb =? 0 then
    eprintf ("Failed to create ring buffer" +:+ nl);; cleanup rb skel (-1)
  else
  sock ← open_raw_sock;
  if sock <? 0 then
    eprintf ("Failed to open raw socket" +:+ nl);; cleanup rb skel (-2)
  else
  r ← call (SetSockOpt sock);
  if negb (r =? 0) then
    eprintf ("Failed to attach to raw socket" +:+ nl);; cleanup rb skel (-3)
  else
  err ← poll_loop rb err fuel;
  cleanup rb skel err.
End SockfilterMain.

(** ** tc.c *)
Module TcMain.
Definition cleanup (hook_created : bool) (skel err : Z) : P Z :=
  (if hook_created then call_ TcHookDestroy else mret ());;
  call_ (SkelDestroy skel);;
  return_neg err.

Definition main (fuel : nat) : P Z :=
  call_ SetPrint;;
  skel ← call SkelOpenAndLoad;
  if skel =? 0 then eprintf ("Failed to open BPF skeleton" +:+ nl);; mret 1 else
  err ← call TcHookCreate;
  let hook_created := err =? 0 in
  if negb (err =? 0) && negb (err =? - EEXIST) then
    eprintf1 ("Failed to create TC hook: %d" +:+ nl) err;; cleanup hook_created skel err
  else
  err ← call (TcAttach skel);
  if negb (err =? 0) then
    eprintf1 ("Failed to attach TC: %d" +:+ nl) err;; cleanup hook_created skel err
  else
  s ← do (Signal SIGINT);
  if ret s =? SIG_ERR then
    let err := errno s in
    eprintf1 ("Can't set signal handler: %s" +:+ nl) err;; cleanup hook_created skel err
  else
  printf ("Successfully started! Please run `sudo cat /sys/kernel/debug/tracing/trace_pipe` to see output of the BPF program." +:+ nl);;
  dots_until_stop fuel;;
  err ← call TcDetach;
  if negb (err =? 0) then
    eprintf1 ("Failed to detach TC: %d" +:+ nl) err;; cleanup hook_created skel err
  else cleanup hook_created skel err.
End TcMain.

(** ** task_iter.c: err and iter_fd are not initialised *)
Module TaskIterMain.
Definition cleanup (iter_fd : option Z) (skel : Z) (err : option Z) : P Z :=
  fd ← read_var iter_fd;
  call_ (Close fd);;
  call_ (SkelDestroy skel);;
  err ← read_var err;
  mret (if err <? 0 then - err else 0).

(** The reading loop; its result is err.  [contents] says what the last read stored in buf. *)
Definition read_loop (contents : list (sys * answer) → TaskIter.task_info) (fd err : Z)
    (fuel : nat) : P Z :=
  iter fuel (λ _,
    r ← do (Read fd);
    if ret r <? 0 then
      (if errno r =? EAGAIN then mret (inl ()) else mret (inr (- errno r)))
    else if ret r =? 0 then mret (inr err)
    else
      tr ← history;
      call_ (Output Stdout (TaskIter.task_line (contents tr)));;
      mret (inl ())) ().

Definition main (contents : list (sys * answer) → TaskIter.task_info) (fuel : nat) : P Z :=
  call_ SetPrint;;
  call_ (Signal SIGINT);;
  call_ (Signal SIGTERM);;
  skel ← call SkelOpenAndLoad;
  if skel =? 0 then
    eprintf ("Failed to open and load BPF skeleton" +:+ nl);; cleanup None skel None
  else
  err ← call (SkelAttach skel);
  if negb (err =? 0) then
    eprintf ("Failed to attach BPF skeleton" +:+ nl);; cleanup None skel (Some err)
  else
  iter_fd ← call (IterCreate skel);
  if iter_fd <? 0 then
    eprintf ("Failed to create iter" +:+ nl);; cleanup (Some iter_fd) skel (Some (-1))
  else
  err ← read_loop contents iter_fd err fuel;
  cleanup (Some iter_fd) skel (Some err).
End TaskIterMain.

(** ** kprobe.c *)
Module KprobeMain.
(** The dump of page_access_map into [file]; [found] says which key and value the last two
    calls stored in next_key and value ([PageUser.dump] has the loop over a map). *)
Definition dump_map (found : list (sys * answer) → PageTracker.page_key * PageTracker.metric)
    (skel file : Z) (fuel : nat) : P () :=
  iter fuel (λ _,
    n ← call (MapGetNextKey skel);
    if negb (n =? 0) then mret (inr ()) else
    l ← call (MapLookup skel);
    tr ← history;
    let '(next_key, value) := found tr in
    (if l =? 0 then call_ (Fprintf file (PageUser.dump_line next_key value))
     else eprintf "Failed to lookup map element");;
    mret (inl ())) ().

(** The snapshot loop: [Some code] when main returns from inside it. *)
Definition snapshots (found : list (sys * answer) → PageTracker.page_key * PageTracker.metric)
    (skel : Z) (fuel : nat) : P (option Z) :=
  iter fuel (λ i,
    s ← stopped;
    if s : bool then mret (inr None) else
    match PageUser.snapshot_name i with
    | None => eprintf ("Error: Result buffer is too small." +:+ nl);; exit 1
    | Some result =>
        file ← call (Fopen result);
        if file =? 0 then eprintf "Failed to open file";; mret (inr (Some 1)) else
        dump_map found skel file fuel;;
        call_ (Usleep 500000);;
        i' ← checked (i + 1);
        call_ (Fclose file);;
        mret (inl i')
    end) 0.

Definition main (found : list (sys * answer) → PageTracker.page_key * PageTracker.metric)
    (fuel : nat) : P Z :=
  call_ SetPrint;;
  skel ← call SkelOpenAndLoad;
  if skel =? 0 then eprintf ("Failed to open BPF skeleton" +:+ nl);; mret 1 else
  err ← call (SkelAttach skel);
  if negb (err =? 0) then
    eprintf ("Failed to attach BPF skeleton" +:+ nl);; MinimalMain.cleanup skel err
  else
  s ← do (Signal SIGINT);
  if ret s =? SIG_ERR then
    eprintf1 ("Can't set signal handler: %s" +:+ nl) (errno s);; MinimalMain.cleanup skel err
  else
  started;;
  t ← call PthreadCreate;
  if negb (t =? 0) then
    eprintf ("Failed to create PID receiver thread" +:+ nl);; MinimalMain.cleanup skel err
  else
  r ← snapshots found skel fuel;
  match r with
  | Some code => mret code
  | None => call_ (PthreadJoin 0);; MinimalMain.cleanup skel err
  end.
End KprobeMain.
