(* ===== verification/LoadersSpec.v ===== *)
(** * LoadersSpec: what the main functions guarantee

    Each [main] of [Loaders] is verified once with the rules of [Wp], for every
    environment and every fuel; the properties at the end are read off.  [succeeded] says for
    every call that sets up, runs or takes down something when it did so, and the verdict of a
    main names the calls whose failure it overlooks. *)

From S2P Require Import Prelude CInt CFormat BpfKernel Process Wp Loaders.
From S2P Require Bootstrap PageTracker PageUser TaskIter.

(** What the result of a call that sets up, runs or takes down says: it did what it was
    called for.  (libbpf documents a null pointer or a negative error; a poll interrupted by a
    signal is no failure.)  Calls that only print, sleep, read a map or cannot fail are not
    judged. *)
Definition succeeded (x : sys * answer) : Prop :=
  let r := ret (snd x) in
  match fst x with
  | SkelOpen | SkelOpenAndLoad | RingNew _ | AttachUprobe _ _ _ _ _ | AttachUsdt _ _ | Fopen _ => r ≠ 0
  | ArgpParse | SkelLoad _ | SkelAttach _ | SetSockOpt _ | TcAttach _ | TcDetach | TcHookDestroy
  | PthreadCreate | PthreadJoin _ | Close _ | Fclose _ => r = 0
  | TcHookCreate => r = 0 ∨ r = - EEXIST
  | MapUpdate _ _ _ _ | Socket | Bind _ => 0 ≤ r
  | RingPoll _ _ => 0 ≤ r ∨ r = - EINTR
  | Stat _ => r ≠ -1
  | Signal _ => r ≠ SIG_ERR
  | _ => True
  end.

(** Every call succeeded except, perhaps, those that are [overlooked]. *)
Definition all_succeeded (overlooked : sys → bool) (tr : list (sys * answer)) : Prop :=
  Forall (λ x, overlooked (fst x) = false → succeeded x) tr.

(** What the programs overlook: nothing, the result of signal(), and so on. *)
Definition nothing (c : sys) : bool := false.
Definition is_signal (c : sys) : bool := match c with Signal _ => true | _ => false end.
Definition is_load (c : sys) : bool := match c with SkelLoad _ => true | _ => false end.
Definition is_hook_destroy (c : sys) : bool := match c with TcHookDestroy => true | _ => false end.
Definition is_signal_or_close (c : sys) : bool := match c with Signal _ | Close _ => true | _ => false end.
Definition is_signal_or_thread_or_fclose (c : sys) : bool :=
  match c with Signal _ | PthreadCreate | PthreadJoin _ | Fclose _ => true | _ => false end.

(** [w'] is [w] after calls that neither acquire nor release anything and cannot fail, or polls
    that did not. *)
Definition quiet_call (x : sys * answer) : bool :=
  match fst x with
  | Print _ _ _ | Output _ _ | Sleep _ | Usleep _ | Read _ | MapGetNextKey _ | MapLookup _
  | Fprintf _ _ => true
  | RingPoll _ _ => (0 <=? ret (snd x)) || (ret (snd x) =? - EINTR)
  | _ => false
  end.
Definition quiet (w w' : world) : Prop :=
  held w' = held w ∧ handler w' = handler w ∧ ∃ tr, trace w' = tr ++ trace w ∧ forallb quiet_call tr = true.

#[export] Instance quiet_refl : Reflexive quiet.
Proof. intros w. split_and!; [done|done|]. by exists []. Qed.
#[export] Instance quiet_trans : Transitive quiet.
Proof.
  intros w1 w2 w3 (H1 & G1 & t1 & E1 & F1) (H2 & G2 & t2 & E2 & F2).
  split_and!; [by rewrite H2|by rewrite G2|].
  exists (t2 ++ t1). rewrite E2, E1, app_assoc. split; [done|]. by rewrite forallb_app, F1, F2.
Qed.

Lemma quiet_after c a w w' :
  quiet w w' → quiet_call (c, a) = true → quiet w (after_call c a w').
Proof.
  intros Hq Hc. etrans; [done|]. split_and!.
  - cbn. by destruct c.
  - cbn. destruct c; try done; cbn; apply orb_false_r.
  - exists [(c, a)]. cbn [trace after_call app forallb]. by rewrite Hc.
Qed.

Lemma quiet_succeeded o w w' :
  quiet w w' → all_succeeded o (trace w) → all_succeeded o (trace w').
Proof.
  intros (_ & _ & tr & -> & Hq) Hw. apply Forall_app. split; [|done].
  apply Forall_forall. intros [c a] Hin. apply list_elem_of_In in Hin.
  rewrite forallb_forall in Hq. specialize (Hq _ Hin). destruct c; try done.
  apply orb_true_iff in Hq. cbn in *. lia.
Qed.

Ltac simp_eqb :=
  repeat match goal with
  | H : ?x = false |- context [?x] => rewrite H
  | H : ?x = true |- context [?x] => rewrite H
  end.

(** A loop has kept the resources. *)
Ltac after_loop :=
  repeat match goal with
  | H : quiet _ ?w |- context [held ?w] => rewrite (proj1 H)
  | H : held ?w = _ |- context [held ?w] => rewrite H
  end.

(** Compute a list of resources. *)
Ltac reduce_held :=
  cbn [held after_call needs]; after_loop;
  repeat (progress (
    cbn [held after_call needs effect forallb holds existsb drop_res ret init res_eqb kind_eqb
         enabled heap_at mapped_at fst snd andb orb];
    try unfold closable; try unfold close_fd; simp_eqb; rewrite ?Z.eqb_refl)).

(** The resources a call needs are in the list. *)
Ltac solve_needs := unfold enabled; reduce_held; rewrite ?orb_true_r, ?andb_true_r; done.

(** The invariant of a scenario survives quiet calls. *)
Definition stable (σ : scenario) : Prop := ∀ w w', quiet w w' → always σ w → always σ w'.

Section loops.
Variable σ : scenario.
Variable fuel : nat.
Hypothesis Hfuel : fuel_ok σ fuel.
Hypothesis Hst : stable σ.

(** A round that polled the flag, and one of a process without a handler. *)
Lemma goes_on_polled w w' :
  match limit σ with Some n => (length (trace w) ≤ n)%nat | None => True end →
  (length (trace w) < length (trace w'))%nat → goes_on σ w w'.
Proof. unfold goes_on. destruct (limit σ); auto. Qed.

Lemma goes_on_unhandled w0 w w' :
  quiet w0 w → handler w0 = false → good_world σ w →
  (length (trace w) < length (trace w'))%nat → goes_on σ w w'.
Proof.
  intros (_ & Hq & _) Hh (_ & Hsh & _ & Hg) Hl. apply goes_on_polled; [|done].
  unfold told in Hg. destruct (limit σ) as [n|]; [|done].
  destruct (decide (n < length (trace w))%nat) as [Hlt|]; [|lia].
  rewrite Hq, Hh in Hsh. specialize (Hsh (Hg Hlt)). done.
Qed.

(** A loop whose rounds are quiet keeps the invariant of the scenario. *)
Lemma wp_iter_quiet {S A} (I : nat → S → Prop) (body : S → P (S + A)) s (Q : A → world → Prop) w :
  (∀ k s w1, I (Datatypes.S k) s → quiet w w1 → good_world σ w1 →
     wp σ (body s) (λ r w', match r with
                            | inl s' => I k s' ∧ quiet w1 w' ∧ goes_on σ w1 w'
                            | inr a => Q a w'
                            end) w1) →
  I fuel s → wp σ (iter fuel body s) Q w.
Proof using Hfuel.
  intros Hb HI. apply (wp_iter_fuel σ (λ k s w', I k s ∧ quiet w w')); [|done|done].
  intros k s1 w1 [HI1 Hq]. apply wp_world. intros Hg. eapply wp_mono; [by apply Hb|].
  intros [s'|a] w'; [|done]. intros (? & ? & ?). split; [split; [done|by etrans]|done].
Qed.

(** A quiet call. *)
Lemma wp_quiet c w0 w (Q : Z → world → Prop) :
  (∀ a, quiet_call (c, a) = true) → enabled c w = true →
  quiet w0 w → always σ w0 →
  (∀ a, quiet w0 (after_call c a w) → Q (ret a) (after_call c a w)) → wp σ (call c) Q w.
Proof using Hst.
  intros Hc He Hq Hw HQ.
  assert (∀ a, quiet w0 (after_call c a w)) as Hqa by (intros a; by apply quiet_after).
  apply wp_call; [done|intros a; by apply (Hst w0)|auto].
Qed.

Lemma wp_quiet_ c w0 w (Q : () → world → Prop) :
  (∀ a, quiet_call (c, a) = true) → enabled c w = true →
  quiet w0 w → always σ w0 →
  (∀ a, quiet w0 (after_call c a w) → Q () (after_call c a w)) → wp σ (call_ c) Q w.
Proof using Hst.
  intros Hc He Hq Hw HQ.
  assert (∀ a, quiet w0 (after_call c a w)) as Hqa by (intros a; by apply quiet_after).
  apply wp_call_; [done|intros a; by apply (Hst w0)|auto].
Qed.

Lemma wp_dots_until_stop (Q : () → world → Prop) w :
  (∀ w', quiet w w' → Q () w') → wp σ (dots_until_stop fuel) Q w.
Proof using Hfuel Hst.
  intros HQ. apply (wp_iter_quiet (λ _ _, True)); [|done].
  intros _ _ w1 _ Hq [Ha _]. apply wp_bind, wp_stopped. intros b _ Hb.
  destruct b; [by apply wp_ret, HQ|].
  apply wp_bind, (wp_quiet_ _ w1); [done..|]. intros a1 Hq1.
  apply wp_bind, (wp_quiet_ _ w1); [done..|]. intros a2 Hq2.
  apply wp_ret. split; [done|]. split; [done|]. apply goes_on_polled; [by apply Hb|cbn; lia].
Qed.

Lemma wp_dots_forever (Q : () → world → Prop) w :
  handler w = false → wp σ (dots_forever fuel) Q w.
Proof using Hfuel Hst.
  intros Hh. apply (wp_iter_quiet (λ _ _, True)); [|done].
  intros _ _ w1 _ Hq Hg. destruct (Hg) as [Ha _].
  apply wp_bind, (wp_quiet_ _ w1); [done..|]. intros a1 Hq1.
  apply wp_bind, (wp_quiet_ _ w1); [done..|]. intros a2 Hq2.
  apply wp_ret. split; [done|]. split; [done|]. apply (goes_on_unhandled w); [done..|cbn; lia].
Qed.

End loops.

(** ** The programs *)

(** Exit code 0 says that all calls but the overlooked ones succeeded, and no other code does. *)
Definition tells (overlooked : sys → bool) (code : Z) (w : world) : Prop :=
  code = 0 ↔ all_succeeded overlooked (trace w).

(** And every resource is released. *)
Definition clean (overlooked : sys → bool) (code : Z) (w : world) : Prop :=
  held w = [] ∧ tells overlooked code w.

(** What the last poll of the ring buffer said; [err0] if there was none. *)
Fixpoint last_poll (err0 : Z) (tr : list (sys * answer)) : Z :=
  match tr with
  | [] => err0
  | (RingPoll _ _, a) :: _ => if ret a =? - EINTR then 0 else ret a
  | _ :: tr' => last_poll err0 tr'
  end.

(** How a poll loop ends: with the result of the last poll (0 if a signal interrupted it) after
    quiet calls, or after a poll that failed and a message. *)
Inductive polled (rb err0 : Z) (w : world) : Z → world → Prop :=
  | polled_stopped w' : quiet w w' → 0 ≤ last_poll err0 (trace w') → polled rb err0 w (last_poll err0 (trace w')) w'
  | polled_failed w1 a to fmt args b :
      quiet w w1 → ret a < 0 → ret a ≠ - EINTR →
      polled rb err0 w (ret a) (after_call (Print to fmt args) b (after_call (RingPoll rb 100) a w1)).

Ltac test_of b :=
  match b with
  | context [?x =? ?y] => constr:(x =? y)
  | context [?x <? ?y] => constr:(x <? y)
  | _ => b
  end.

(** The invariant of the scenario after a call; files that have one add hints. *)
Create HintDb invariants.
Ltac solve_always :=
  intros; first [match goal with H : ∀ w, always _ w |- _ => apply H end | solve [auto with invariants nocore]].

Ltac wp_step :=
  lazymatch goal with
  | |- wp _ (mret _) _ _ => apply wp_ret
  | |- wp _ (return_neg _) _ _ => apply wp_ret
  | |- wp _ (_ ≫= _) _ _ => apply wp_bind
  | |- wp _ (call _) _ _ => apply wp_call; [solve_needs|solve_always|intros ? (?&?&?) ?]
  | |- wp _ (call_ TcHookDestroy) _ _ =>
      let a := fresh "a" in
      apply wp_call_; [solve_needs|solve_always|intros a (?&?&?) ?; destruct (ret a =? 0) eqn:?]
  | |- wp _ (call_ _) _ _ => apply wp_call_; [solve_needs|solve_always|intros ? (?&?&?) ?]
  | |- wp _ (do _) _ _ => apply wp_do; [solve_needs|solve_always|intros ? (?&?&?) ?]
  | |- wp _ (printf _) _ _ => apply wp_call_; [done|solve_always|intros ? _ _]
  | |- wp _ (eprintf _) _ _ => apply wp_call_; [done|solve_always|intros ? _ _]
  | |- wp _ (eprintf1 _ _) _ _ => apply wp_call_; [done|solve_always|intros ? _ _]
  | |- wp _ started _ _ => apply wp_call_; [done|solve_always|intros ? _ _]
  | |- wp _ (MinimalMain.cleanup _ _) _ _ => unfold MinimalMain.cleanup
  | |- wp _ (read_var (Some _)) _ _ => apply wp_read_var
  | |- wp _ (read_var (out ?a !! _)) _ _ =>
      apply wp_read_out;
      [match goal with H : ret a ≠ -1 → length (out a) = _ |- _ => rewrite H by lia; lia end|intros ? ?]
  | |- wp _ (if true then _ else _) _ _ => cbn [negb andb orb]
  | |- wp _ (if false then _ else _) _ _ => cbn [negb andb orb]
  | |- wp _ (let x := _ in _) _ _ => cbv zeta
  | |- wp _ (if ?b then _ else _) _ _ =>
      let t := test_of b in
      let v := eval cbv in t in
      lazymatch v with
      | true => change t with true; cbn [negb andb orb]
      | false => change t with false; cbn [negb andb orb]
      | _ => destruct t eqn:?; cbn [negb andb orb]
      end
  end.

(** All calls succeeded; they cannot all have. *)
Ltac solve_trace :=
  unfold all_succeeded; cbn [trace after_call];
  repeat first
    [apply Forall_nil; done
    |apply Forall_cons; split; [unfold succeeded; cbn; first [done|intros; lia]|]
    |eapply quiet_succeeded; [eassumption|]; unfold all_succeeded; cbn [trace after_call]].
Ltac refute_trace H :=
  exfalso; unfold all_succeeded in H; cbn [trace after_call] in H;
  repeat match type of H with
  | Forall _ (_ :: _) =>
      let Hx := fresh in
      apply Forall_cons in H as [Hx H]; unfold succeeded in Hx; cbn in Hx;
      first [specialize (Hx eq_refl); lia|clear Hx]
  end.

(** The code is 0, or it is not. *)
Ltac solve_tells :=
  let H := fresh in
  split; intros H;
  [first [solve [solve_trace]|exfalso; repeat case_match; cbn in *; lia]
  |first [solve [repeat case_match; cbn in *; lia]|refute_trace H]].
Ltac solve_clean := split; [reduce_held; done|solve_tells].

Section mains.
Variable σ : scenario.
Variable fuel : nat.
Hypothesis Hfuel : fuel_ok σ fuel.
Hypothesis Hal : ∀ w, always σ w.

Lemma always_stable : stable σ.
Proof using Hal. intros w w' _ _. apply Hal. Qed.
Hint Resolve always_stable : core.

(** The poll loops. *)
Lemma wp_bootstrap_poll rb err0 (Q : Z → world → Prop) w :
  holds (res_eqb (KRing, rb)) (held w) = true → err0 = 0 → last_poll err0 (trace w) = err0 →
  (∀ err w', polled rb err0 w err w' → Q err w') → wp σ (BootstrapMain.poll_loop rb err0 fuel) Q w.
Proof using Hfuel Hal.
  intros Hrb H0 Hlast HQ.
  apply (wp_iter σ (λ e w', e = last_poll err0 (trace w') ∧ 0 ≤ e ∧ quiet w w'));
    [|done|split_and!; [done|lia|done]].
  intros e w1 (-> & He & Hq). apply wp_bind, wp_stopped. intros b _ Hb.
  destruct b; [by apply wp_ret, HQ; constructor|]. apply wp_bind, wp_call; [|done|].
  { unfold enabled. cbn [needs forallb]. by rewrite (proj1 Hq), Hrb. }
  intros a _ _. destruct (Z.eqb_spec (ret a) (- EINTR)) as [Ha|Ha].
  { apply wp_ret. assert (last_poll err0 (trace (after_call (RingPoll rb 100) a w1)) = 0) as Hl
      by (cbn; by rewrite Ha). rewrite <- Hl. apply HQ. constructor; [|lia].
    apply quiet_after; [done|]. cbn. by rewrite Ha. }
  destruct (Z.ltb_spec (ret a) 0) as [Hn|Hn].
  - apply wp_bind, wp_call_; [done..|]. intros a2 _ _. apply wp_ret, HQ. by constructor.
  - apply wp_ret. split; [|apply goes_on_polled; [by apply Hb|cbn; lia]].
    split_and!; [cbn; by rewrite (proj2 (Z.eqb_neq _ _) Ha)|done|].
    apply quiet_after; [done|]. cbn. by rewrite (proj2 (Z.leb_le _ _) Hn).
Qed.

Lemma wp_sockfilter_poll rb err0 (Q : Z → world → Prop) w :
  holds (res_eqb (KRing, rb)) (held w) = true → err0 = 0 → last_poll err0 (trace w) = err0 →
  (∀ err w', polled rb err0 w err w' → Q err w') → wp σ (SockfilterMain.poll_loop rb err0 fuel) Q w.
Proof using Hfuel Hal.
  intros Hrb H0 Hlast HQ.
  apply (wp_iter σ (λ e w', e = last_poll err0 (trace w') ∧ 0 ≤ e ∧ quiet w w'));
    [|done|split_and!; [done|lia|done]].
  intros e w1 (-> & He & Hq). apply wp_bind, wp_stopped. intros b _ Hb.
  destruct b; [by apply wp_ret, HQ; constructor|]. apply wp_bind, wp_call; [|done|].
  { unfold enabled. cbn [needs forallb]. by rewrite (proj1 Hq), Hrb. }
  intros a _ _. destruct (Z.eqb_spec (ret a) (- EINTR)) as [Ha|Ha].
  { apply wp_ret. assert (last_poll err0 (trace (after_call (RingPoll rb 100) a w1)) = 0) as Hl
      by (cbn; by rewrite Ha). rewrite <- Hl. apply HQ. constructor; [|lia].
    apply quiet_after; [done|]. cbn. by rewrite Ha. }
  destruct (Z.ltb_spec (ret a) 0) as [Hn|Hn].
  - apply wp_bind, wp_call_; [done..|]. intros a2 _ _. apply wp_ret, HQ. by constructor.
  - apply wp_bind, wp_call_; [done..|]. intros a2 _ _. apply wp_ret.
    split; [|apply goes_on_polled; [by apply Hb|cbn; lia]].
    split_and!; [cbn; by rewrite (proj2 (Z.eqb_neq _ _) Ha)|done|].
    apply quiet_after; [|done]. apply quiet_after; [done|]. cbn. by rewrite (proj2 (Z.leb_le _ _) Hn).
Qed.

Lemma minimal_ok : wp σ (MinimalMain.main fuel) (clean nothing) init.
Proof using Hfuel Hal.
  unfold MinimalMain.main. repeat wp_step; try solve_clean. apply wp_dots_forever; done.
Qed.

Lemma minimal_legacy_ok : wp σ (MinimalLegacyMain.main fuel) (clean nothing) init.
Proof using Hfuel Hal.
  unfold MinimalLegacyMain.main. repeat wp_step; try solve_clean. apply wp_dots_forever; done.
Qed.

(** minimal_ns keeps the skeleton when stat fails. *)
Lemma minimal_ns_ok :
  wp σ (MinimalNsMain.main fuel) (λ _ w, held w = [] ∨ ∃ s, held w = [(KSkel, s)]) init.
Proof using Hfuel Hal.
  unfold MinimalNsMain.main. repeat wp_step; try (left; reduce_held; done).
  - right. eexists. (reduce_held; done).
  - apply wp_dots_forever; done.
Qed.

(** ksyscall and fentry return 0 when no handler could be installed. *)
Lemma ksyscall_ok : wp σ (KsyscallMain.main fuel) (clean is_signal) init.
Proof using Hfuel Hal.
  unfold KsyscallMain.main. repeat wp_step; try solve_clean.
  apply wp_dots_until_stop; [done..|]. intros w' Hq. repeat wp_step. solve_clean.
Qed.

(** usdt does not look at the result of usdt_bpf__load. *)
Lemma usdt_ok : wp σ (UsdtMain.main fuel) (clean is_load) init.
Proof using Hfuel Hal.
  unfold UsdtMain.main. repeat wp_step; try solve_clean.
  apply wp_dots_until_stop; [done..|]. intros w' Hq. repeat wp_step. solve_clean.
Qed.

Lemma bootstrap_ok env : wp σ (BootstrapMain.main env fuel) (clean is_signal) init.
Proof using Hfuel Hal.
  unfold BootstrapMain.main. repeat wp_step; unfold BootstrapMain.cleanup; repeat wp_step; try solve_clean.
  apply wp_bootstrap_poll; [solve_needs|lia|done|]. intros e w' [w2 Hq|w2]; repeat wp_step; solve_clean.
Qed.

(** The loop of uprobe.c: the squares stay in range for 46341 rounds. *)
Lemma wp_uprobe_loop (Q : () → world → Prop) w :
  Z.of_nat fuel ≤ 46341 → handler w = false → wp σ (UprobeMain.loop fuel) Q w.
Proof using Hfuel Hal.
  intros Hf Hh.
  apply (wp_iter_quiet σ _ Hfuel (λ k i, 0 ≤ i ∧ i + Z.of_nat k ≤ 46341)); [|lia].
  intros k i w1 [Hi Hk] Hq Hg.
  assert (∀ z, -3000000 ≤ z ≤ 46340 * 46340 → in_s32 z) as Hin
    by (intros; unfold in_s32, INT_MIN, INT_MAX; lia).
  apply wp_bind, (wp_quiet_ σ always_stable _ w1); [done..|]. intros a1 Hq1.
  unfold UprobeMain.uprobed_add, UprobeMain.uprobed_sub.
  apply wp_bind, wp_checked; [apply Hin; lia|]. apply wp_bind, wp_checked; [apply Hin; lia|].
  apply wp_bind, wp_checked; [apply Hin; nia|]. apply wp_bind, wp_checked; [apply Hin; nia|].
  apply wp_bind, (wp_quiet_ σ always_stable _ w1); [done..|]. intros a2 Hq2.
  apply wp_bind, wp_checked; [apply Hin; lia|].
  apply wp_ret. split; [lia|]. split; [done|]. apply (goes_on_unhandled σ w); [done..|cbn; lia].
Qed.

Lemma uprobe_ok : Z.of_nat fuel ≤ 46341 → wp σ (UprobeMain.main fuel) (clean nothing) init.
Proof using Hfuel Hal.
  intros Hf. unfold UprobeMain.main. repeat wp_step; try solve_clean. by apply wp_uprobe_loop.
Qed.

(** sockfilter never closes the socket, and returns the number of events of the last poll,
    negated. *)
Definition counts (code : Z) (w : world) : Prop :=
  (code = 0 → all_succeeded is_signal_or_close (trace w)) ∧
  (all_succeeded is_signal_or_close (trace w) → code = - last_poll 0 (trace w)).

Ltac solve_counts :=
  let H := fresh in
  split; intros H;
  [first [solve [solve_trace]|exfalso; cbn in *; lia]|first [solve [cbn; lia]|refute_trace H]].

Lemma sockfilter_ok :
  wp σ (SockfilterMain.main fuel)
    (λ code w, (held w = [] ∨ ∃ fd, held w = [(KFd, fd)]) ∧ counts code w) init.
Proof using Hfuel Hal.
  unfold SockfilterMain.main, SockfilterMain.open_raw_sock.
  repeat wp_step; unfold SockfilterMain.cleanup; repeat wp_step;
    try (split; [left; reduce_held; done|solve_counts]).
  - apply wp_sockfilter_poll; [solve_needs|lia|done|].
    intros e w' [w2 Hq|w2]; repeat wp_step; (split; [right; eexists; reduce_held; done|]).
    + split; intros H'; [solve_trace|]. cbn [trace after_call last_poll].
      replace (ret a) with 0 by lia. done.
    + solve_counts.
  - split; [right; eexists; reduce_held; done|solve_counts].
Qed.

(** tc keeps the hook it created, and its filter when signal or the detaching fails and the hook
    is not its own or cannot be flushed. *)
Fixpoint hook_made (tr : list (sys * answer)) : bool :=
  match tr with
  | [] => false
  | (TcHookCreate, a) :: tr' => (ret a =? 0) || hook_made tr'
  | _ :: tr' => hook_made tr'
  end.

Lemma quiet_hook_made w w' : quiet w w' → hook_made (trace w') = hook_made (trace w).
Proof.
  intros (_ & _ & tr & -> & Hq). induction tr as [|[c a] tr IH]; [done|].
  cbn in Hq |- *. apply andb_prop in Hq as [? ?]. rewrite IH by done. by destruct c.
Qed.

Definition tc_keeps (code : Z) (w : world) : Prop :=
  let hook := if hook_made (trace w) then [(KHook, 0)] else [] in
  held w = hook ∨ code ≠ 0 ∧ held w = (KFilter, 0) :: hook.

Ltac solve_tc_keeps :=
  unfold tc_keeps; cbn [trace after_call hook_made];
  repeat match goal with H : quiet _ ?w |- context [hook_made (trace ?w)] => rewrite (quiet_hook_made _ _ H) end;
  cbn [trace after_call hook_made init]; simp_eqb; cbn [orb];
  first [left; reduce_held; done|right; split; [lia|reduce_held; done]].

Lemma tc_ok :
  wp σ (TcMain.main fuel) (λ code w, tc_keeps code w ∧ tells is_hook_destroy code w) init.
Proof using Hfuel Hal.
  unfold TcMain.main. repeat wp_step; unfold TcMain.cleanup; repeat wp_step;
    try (split; [solve_tc_keeps|solve_tells]).
  all: apply wp_dots_until_stop; [done..|]; intros w' Hq; repeat wp_step;
    (split; [solve_tc_keeps|solve_tells]).
Qed.

(** With a skeleton that opens, lsm is like the others. *)
Lemma lsm_ok :
  (∀ tr a, allowed σ tr SkelOpenAndLoad a → ret a ≠ 0) → wp σ (LsmMain.main fuel) (clean nothing) init.
Proof using Hfuel Hal.
  intros Hopen. unfold LsmMain.main. repeat wp_step; unfold LsmMain.cleanup; repeat wp_step; try solve_clean.
  - match goal with H : allowed _ _ SkelOpenAndLoad _ |- _ => apply Hopen in H; lia end.
  - apply wp_dots_forever; done.
Qed.
End mains.

(** kprobe and task_iter have loops that a signal does not end; they are verified without a
    limit. *)
Section unlimited.
Variable σ : scenario.
Variable fuel : nat.
Hypothesis Hlimit : limit σ = None.
Hypothesis Hal : ∀ w, always σ w.
Hypothesis Hex : ∀ code w, on_exit σ code w.

Lemma no_limit_fuel : fuel_ok σ fuel.
Proof using Hlimit. unfold fuel_ok. by rewrite Hlimit. Qed.
Lemma no_limit_goes_on w w' : goes_on σ w w'.
Proof using Hlimit. unfold goes_on. by rewrite Hlimit. Qed.
Hint Resolve no_limit_fuel no_limit_goes_on : core.

Lemma wp_task_iter_read contents fd err (Q : Z → world → Prop) w :
  holds (res_eqb (KFd, fd)) (held w) = true →
  (∀ err w', quiet w w' → Q err w') → wp σ (TaskIterMain.read_loop contents fd err fuel) Q w.
Proof using Hlimit Hal.
  intros Hfd HQ. apply (wp_iter σ (λ _ w', quiet w w')); [|done|done].
  intros _ w1 Hq. apply wp_bind, wp_do; [|by auto|].
  { unfold enabled. cbn [needs forallb]. destruct Hq as [-> _]. by rewrite Hfd. }
  intros a _ _. assert (quiet w (after_call (Read fd) a w1)) by by apply quiet_after.
  destruct (ret a <? 0); [destruct (errno a =? EAGAIN); apply wp_ret; auto|].
  destruct (ret a =? 0); [apply wp_ret; auto|].
  apply wp_bind, wp_history, wp_bind, wp_call_; [done|by auto|]. intros a2 _ _. apply wp_ret.
  split; [by apply quiet_after|done].
Qed.

Lemma task_iter_ok contents :
  (∀ tr a, allowed σ tr SkelOpenAndLoad a → ret a ≠ 0) → (∀ tr s a, allowed σ tr (SkelAttach s) a → ret a = 0) →
  wp σ (TaskIterMain.main contents fuel) (λ _ w, held w = []) init.
Proof using Hlimit Hal.
  intros Hopen Hatt. unfold TaskIterMain.main.
  repeat wp_step; unfold TaskIterMain.cleanup; repeat wp_step; try (reduce_held; done).
  - match goal with H : allowed _ _ SkelOpenAndLoad _ |- _ => apply Hopen in H; lia end.
  - apply wp_task_iter_read; [solve_needs|]. intros e w' Hq. repeat wp_step. reduce_held. done.
  - match goal with H : allowed _ _ (SkelAttach _) _ |- _ => apply Hatt in H; lia end.
Qed.

Lemma wp_kprobe_dump found skel file (Q : () → world → Prop) w :
  holds (res_eqb (KSkel, skel)) (held w) = true → holds (res_eqb (KFile, file)) (held w) = true →
  (∀ w', quiet w w' → Q () w') → wp σ (KprobeMain.dump_map found skel file fuel) Q w.
Proof using Hlimit Hal.
  intros Hs Hf HQ. apply (wp_iter σ (λ _ w', quiet w w')); [|done|done].
  intros _ w1 Hq. pose proof (proj1 Hq) as Hh. apply wp_bind, wp_call; [|by auto|].
  { unfold enabled. cbn [needs forallb]. by rewrite Hh, Hs. }
  intros a1 _ _. assert (quiet w (after_call (MapGetNextKey skel) a1 w1)) by by apply quiet_after.
  destruct (negb (ret a1 =? 0)); [apply wp_ret; auto|]. apply wp_bind, wp_call; [|by auto|].
  { unfold enabled. cbn [needs forallb after_call held effect]. by rewrite Hh, Hs. }
  intros a2 _ _. apply wp_bind, wp_history.
  destruct (found _) as [k v]. apply wp_bind. destruct (ret a2 =? 0).
  - apply wp_call_; [|by auto|].
    { unfold enabled. cbn [needs forallb after_call held effect]. by rewrite Hh, Hf. }
    intros a3 _ _. apply wp_ret. split; [by repeat apply quiet_after|done].
  - apply wp_call_; [done|by auto|]. intros a3 _ _. apply wp_ret.
    split; [by repeat apply quiet_after|done].
Qed.

(** The snapshot loop holds the skeleton and the thread, and a file only within a round. *)
Lemma wp_kprobe_snapshots found skel (Q : option Z → world → Prop) w :
  Z.of_nat fuel ≤ INT_MAX → held w = [(KThread, 0); (KSkel, skel)] →
  all_succeeded is_signal_or_thread_or_fclose (trace w) →
  (∀ r w', held w' = held w →
     (r = None ∧ all_succeeded is_signal_or_thread_or_fclose (trace w')) ∨
     (r = Some 1 ∧ ¬ all_succeeded is_signal_or_thread_or_fclose (trace w')) → Q r w') →
  wp σ (KprobeMain.snapshots found skel fuel) Q w.
Proof using Hlimit Hal Hex.
  intros Hf Hh Hok HQ.
  apply (wp_iter_fuel σ
    (λ k i w', (held w' = held w ∧ all_succeeded is_signal_or_thread_or_fclose (trace w')) ∧
       0 ≤ i ∧ i + Z.of_nat k ≤ INT_MAX)); [|done|split; [done|lia]].
  intros k i w1 ([Hw1 Hok1] & Hi & Hk). rewrite Hh in *.
  apply wp_bind, wp_stopped. intros b _ _. destruct b; [apply wp_ret, HQ; auto|].
  destruct (PageUser.snapshot_name i) as [name|]; [|repeat wp_step; by apply wp_exit].
  do 2 wp_step. destruct (ret a =? 0) eqn:Ea.
  { repeat wp_step. apply HQ; [reduce_held; done|]. right. split; [done|].
    intros HF. refute_trace HF. }
  apply wp_bind, wp_kprobe_dump.
  { cbn [held after_call effect]. rewrite Hw1. solve_needs. }
  { cbn [held after_call effect]. rewrite Hw1. reduce_held. done. }
  intros w2 Hq. do 2 wp_step.
  apply wp_bind, wp_checked; [unfold in_s32, INT_MIN; lia|]. repeat wp_step.
  split; [|done]. split; [|lia]. split; [reduce_held; done|]. solve_trace. exact Hok1.
Qed.

(** kprobe keeps the skeleton and the thread when a snapshot file cannot be opened. *)
Lemma kprobe_ok found :
  Z.of_nat fuel ≤ INT_MAX →
  wp σ (KprobeMain.main found fuel)
    (λ code w, (held w = [] ∨ code = 1 ∧ ∃ s, held w = [(KThread, 0); (KSkel, s)]) ∧
       tells is_signal_or_thread_or_fclose code w) init.
Proof using Hlimit Hal Hex.
  intros Hf. unfold KprobeMain.main. repeat wp_step; try (split; [left; reduce_held; done|solve_tells]).
  apply wp_kprobe_snapshots; [done|reduce_held; done|solve_trace|]. intros r w' Hw' Hr.
  revert Hw'. reduce_held. intros Hw'. destruct Hr as [[-> Hr]|[-> Hr]].
  - repeat wp_step. split; [left; reduce_held; done|]. split; [intros _|lia]. solve_trace. exact Hr.
  - repeat wp_step. split; [right; split; [done|by eexists]|]. by split.
Qed.
End unlimited.

(** ** Properties *)

#[local] Hint Resolve anything_always anything_exit anything_fuel : core.
#[local] Hint Extern 0 (fuel_ok (until _) _) => assumption : core.
#[local] Hint Extern 0 (always (until _) _) => exact I : core.

(** The mains that release everything on every path. *)
Definition clean_programs : list (nat → P Z) :=
  [MinimalMain.main; MinimalLegacyMain.main; UsdtMain.main; KsyscallMain.main; FentryMain.main;
   BootstrapMain.main (Bootstrap.Env false 0)].

(** C16. Resource safety: whatever libbpf, libc and the kernel answer, whenever signals arrive and
    however long it runs, none of these programs uses or releases a pointer or descriptor it
    does not hold, and when its main returns it has released everything it acquired. *)
Theorem mains_release_everything (main : nat → P Z) (env : environment) (fuel : nat) :
  main ∈ clean_programs → env_ok env →
  match main fuel env init with
  | (Returned code, w) => held w = []
  | (Undefined, _) => False
  | _ => True
  end.
Proof.
  intros Hin He.
  pose proof (anything_env env He) as Hg.
  assert (wp anything (main fuel) (λ _ w, held w = []) init) as Hwp.
  { unfold clean_programs in Hin.
    repeat rewrite elem_of_cons in Hin.
    destruct_or! Hin; [..|by apply not_elem_of_nil in Hin]; subst main.
    - eapply wp_mono; [by apply minimal_ok|]. by intros ?? [??].
    - eapply wp_mono; [by apply minimal_legacy_ok|]. by intros ?? [??].
    - eapply wp_mono; [by apply usdt_ok|]. by intros ?? [??].
    - eapply wp_mono; [by apply ksyscall_ok|]. by intros ?? [??].
    - eapply wp_mono; [by apply ksyscall_ok|]. by intros ?? [??].
    - eapply wp_mono; [by apply bootstrap_ok|]. by intros ?? [??]. }
  exact (wp_returned _ _ _ _ Hwp Hg I).
Qed.

Lemma mains_release_everything_witness :
  match UsdtMain.main 40 (obliging 12) init with
  | (Returned code, w) => held w = []
  | (Undefined, _) => False
  | _ => True
  end.
Proof.
  apply (mains_release_everything UsdtMain.main); [|apply obliging_ok].
  do 2 right. left.
Defined.

(** The mains that poll a flag, or loop until they are killed. *)
Definition stoppable_programs : list (nat → P Z) :=
  [MinimalMain.main; MinimalNsMain.main; MinimalLegacyMain.main; UsdtMain.main; KsyscallMain.main; FentryMain.main;
   BootstrapMain.main (Bootstrap.Env false 0); SockfilterMain.main; TcMain.main].

(** C17. Termination: once a signal arrives, at any call, each of these programs ends (it
    returns through its clean-up path, or is killed if no handler is installed yet): it
    cannot keep looping, and n + 2 rounds are enough for a signal at call n. *)
Theorem mains_end_on_signal (main : nat → P Z) (env : environment) (n fuel : nat) :
  main ∈ stoppable_programs → env_ok env → interrupts n env → (n + 2 ≤ fuel)%nat →
  match main fuel env init with
  | (OutOfFuel, _) | (Undefined, _) => False
  | _ => True
  end.
Proof.
  intros Hin He Hi Hf.
  assert (good_env (until n) env) as Hg by done.
  assert (wp (until n) (main fuel) (λ _ _, True) init) as Hwp.
  { unfold stoppable_programs in Hin.
    repeat rewrite elem_of_cons in Hin.
    destruct_or! Hin; [..|by apply not_elem_of_nil in Hin]; subst main;
      (eapply wp_mono;
       [first [by apply minimal_ok|by apply minimal_ns_ok|by apply minimal_legacy_ok|by apply usdt_ok
              |by apply ksyscall_ok|by apply bootstrap_ok|by apply sockfilter_ok|by apply tc_ok]|done]). }
  pose proof (wp_run _ _ _ _ Hwp Hg I) as Hr.
  destruct (main fuel env init) as [[] w]; [done..|by destruct Hr|done].
Qed.

Lemma mains_end_on_signal_witness :
  match TcMain.main 20 (obliging 15) init with
  | (OutOfFuel, _) | (Undefined, _) => False
  | _ => True
  end.
Proof.
  apply (mains_end_on_signal TcMain.main (obliging 15) 15).
  - by do 8 right; left.
  - apply obliging_ok.
  - intros tr c <-. unfold obliging. cbn. by apply bool_decide_true.
  - lia.
Defined.

(** The contents of next_key and value do not matter here. *)
Definition no_entry (tr : list (sys * answer)) : PageTracker.page_key * PageTracker.metric :=
  (PageTracker.PageKey 0 0, PageTracker.Metric 0 0 0 0).

(** The mains that can return 0, and the calls whose failure each of them overlooks: signal()
    in four of them, usdt_bpf__load in usdt, bpf_tc_hook_destroy in tc. *)
Definition telling_programs : list ((nat → P Z) * (sys → bool)) :=
  [(UsdtMain.main, is_load); (KsyscallMain.main, is_signal); (FentryMain.main, is_signal);
   (BootstrapMain.main (Bootstrap.Env false 0), is_signal); (TcMain.main, is_hook_destroy);
   (KprobeMain.main no_entry, is_signal_or_thread_or_fclose)].

(** The obliging environment with one answer changed. *)
Definition env_with (f : sys → option Z) (n : nat) : environment := λ tr c,
  let a := obliging n tr c in
  match f c with Some r => Answer r (errno a) (sig a) (out a) | None => a end.

(** A run that returns 0 although a call [f] answers failed. *)
Definition hides (main : nat → P Z) (f : sys → option Z) (n : nat) : Prop :=
  match main 50%nat (env_with f n) init with
  | (Returned code, w) => code = 0 ∧ Exists (λ x, ¬ succeeded x ∧ is_Some (f (fst x))) (trace w)
  | _ => False
  end.

(** C24. Exit codes: each of these programs returns 0 exactly when every call that sets up, runs
    or takes down its BPF program succeeded (options, opening, loading, attaching, the ring
    buffer, every poll, the tc hook, the snapshot files, ..), leaving out only the calls whose
    failure it overlooks: usdt the loading of its program, ksyscall, fentry, bootstrap and
    kprobe signal(), kprobe also the creation of its thread, pthread_join and fclose, and tc
    bpf_tc_hook_destroy. *)
Theorem zero_iff_success (main : nat → P Z) (overlooked : sys → bool) (env : environment) (fuel : nat) :
  (main, overlooked) ∈ telling_programs → env_ok env → Z.of_nat fuel ≤ INT_MAX →
  match main fuel env init with
  | (Returned code, w) => code = 0 ↔ Forall (λ x, overlooked (fst x) = false → succeeded x) (trace w)
  | _ => True
  end.
Proof.
  intros Hin He Hf.
  pose proof (anything_env env He) as Hg.
  assert (wp anything (main fuel) (tells overlooked) init) as Hwp.
  { unfold telling_programs in Hin.
    repeat rewrite elem_of_cons in Hin.
    destruct_or! Hin; [..|by apply not_elem_of_nil in Hin]; injection Hin as -> ->.
    - eapply wp_mono; [by apply usdt_ok|]. by intros ?? [??].
    - eapply wp_mono; [by apply ksyscall_ok|]. by intros ?? [??].
    - eapply wp_mono; [by apply ksyscall_ok|]. by intros ?? [??].
    - eapply wp_mono; [by apply bootstrap_ok|]. by intros ?? [??].
    - eapply wp_mono; [by apply tc_ok|]. by intros ?? [??].
    - eapply wp_mono; [by apply kprobe_ok|]. by intros ?? [??]. }
  pose proof (wp_returned _ _ _ _ Hwp Hg I) as Hr.
  by destruct (main fuel env init) as [[code| | | |] w].
Qed.

Lemma zero_iff_success_witness :
  match BootstrapMain.main (Bootstrap.Env false 0) 9 (obliging 14) init with
  | (Returned code, w) => code = 0 ↔ Forall (λ x, is_signal (fst x) = false → succeeded x) (trace w)
  | _ => True
  end.
Proof.
  apply (zero_iff_success (BootstrapMain.main (Bootstrap.Env false 0)));
    [by do 3 right; left|apply obliging_ok|done].
Defined.

(** The mains that may keep something, and the kinds they may keep. *)
Definition leaking_programs : list ((nat → P Z) * list (list kind)) :=
  [(MinimalNsMain.main, [[KSkel]]); (SockfilterMain.main, [[KFd]]);
   (TcMain.main, [[KHook]; [KFilter]; [KFilter; KHook]]); (KprobeMain.main no_entry, [[KThread; KSkel]])].

(** What main still holds when it returns. *)
Definition kept (main : nat → P Z) (env : environment) : option (list kind) :=
  match main 50%nat env init with
  | (Returned _, w) => Some (fst <$> held w)
  | _ => None
  end.

(** C26. The exact leaks: on every path these programs release everything, or keep exactly the
    resources of one of their lists, and use nothing they do not hold; and each leak happens:
    minimal_ns keeps its skeleton when stat fails, sockfilter its raw socket on every run that
    opened it, kprobe its skeleton and its thread when a snapshot file cannot be opened, and tc
    the hook it created on every run that created it (bpf_tc_hook_destroy does not remove the
    qdisc for the ingress point alone), and its filter when signal() or the detaching fails and
    the hook is not its own, or cannot be flushed.  tc keeps a hook only if it created one, and a
    filter only if it returns an error. *)
Theorem leaks_are_these :
  (∀ main kinds env fuel, (main, kinds) ∈ leaking_programs → env_ok env → Z.of_nat fuel ≤ INT_MAX →
    match main fuel env init with
    | (Returned _, w) => held w = [] ∨ fst <$> held w ∈ kinds
    | (Undefined, _) => False
    | _ => True
    end) ∧
  (∀ env fuel, env_ok env →
    match TcMain.main fuel env init with
    | (Returned code, w) =>
        ((KHook, 0) ∈ held w ↔ hook_made (trace w) = true) ∧ ((KFilter, 0) ∈ held w → code ≠ 0)
    | _ => True
    end) ∧
  let fails g c := if g c : bool then Some (-1) else None in
  let exists_already c := match c with TcHookCreate => Some (- EEXIST) | _ => fails is_signal c end in
  kept MinimalNsMain.main (env_with (λ c, match c with Stat _ => Some (-1) | _ => None end) 99) = Some [KSkel] ∧
  kept SockfilterMain.main (obliging 12) = Some [KFd] ∧
  kept TcMain.main (obliging 12) = Some [KHook] ∧
  kept TcMain.main (env_with exists_already 99) = Some [KFilter] ∧
  kept TcMain.main (env_with (fails (λ c, is_signal c || is_hook_destroy c)) 99) = Some [KFilter; KHook] ∧
  kept (KprobeMain.main no_entry) (env_with (λ c, match c with Fopen _ => Some 0 | _ => None end) 99) = Some [KThread; KSkel].
Proof.
  split; [|split; [|by vm_compute]].
  - intros main kinds env fuel Hin He Hf.
    pose proof (anything_env env He) as Hg.
    assert (wp anything (main fuel) (λ _ w, held w = [] ∨ fst <$> held w ∈ kinds) init) as Hwp.
    { unfold leaking_programs in Hin. repeat rewrite elem_of_cons in Hin.
      destruct_or! Hin; [..|by apply not_elem_of_nil in Hin]; injection Hin as -> ->.
      - eapply wp_mono; [by apply minimal_ns_ok|]. intros ?? [?|[s ->]]; [by left|right; by left].
      - eapply wp_mono; [by apply sockfilter_ok|]. intros ?? [[?|[s ->]] _]; [by left|right; by left].
      - eapply wp_mono; [by apply tc_ok|]. intros ?? [Hk _].
        destruct Hk as [->|[_ ->]]; destruct (hook_made _); [right; by left|by left|..];
          right; cbn; rewrite !elem_of_cons; auto.
      - eapply wp_mono; [by apply kprobe_ok|]. intros ?? [[?|[_ [s ->]]] _]; [by left|right; by left]. }
    exact (wp_returned _ _ _ _ Hwp Hg I).
  - intros env fuel He. pose proof (anything_env env He) as Hg.
    pose proof (wp_returned _ _ _ _ (tc_ok anything fuel I (λ _, I)) Hg I) as Hr.
    destruct (TcMain.main fuel env init) as [[code| | | |] w]; try done. destruct Hr as [Hk _].
    destruct Hk as [->|[? ->]]; destruct (hook_made (trace w)); cbn; rewrite ?elem_of_cons, ?elem_of_nil;
      (split; [|naive_solver]); split; naive_solver.
Qed.

(** Opening and attaching the skeleton succeed. *)
Definition opens : scenario := Scenario None
  (λ _ c a, match c with SkelOpenAndLoad => ret a ≠ 0 | SkelAttach _ => ret a = 0 | _ => True end)
  (λ _, True) (λ _ _, True).

(** C37. Uninitialised variables: lsm and task_iter are defined on every run in which the
    skeleton opens (for task_iter, also attaches), and then release everything; when opening
    fails they read err (task_iter also iter_fd) without having assigned it. *)
Theorem uninitialised_iff_open_fails (env : environment)
    (contents : list (sys * answer) → TaskIter.task_info) (fuel : nat) :
  env_ok env →
  ((∀ tr, ret (env tr SkelOpenAndLoad) ≠ 0) → (∀ tr s, ret (env tr (SkelAttach s)) = 0) →
    Forall (λ main, match main fuel env init with
                    | (Returned _, w) => held w = []
                    | (Undefined, _) => False
                    | _ => True
                    end) [LsmMain.main; TaskIterMain.main contents]) ∧
  ((∀ tr, ret (env tr SkelOpenAndLoad) = 0) → (∀ tr c, sig (env tr c) = false) →
    Forall (λ main, fst (main fuel env init) = Undefined) [LsmMain.main; TaskIterMain.main contents]).
Proof.
  intros He. split.
  - intros Hopen Hatt.
    assert (good_env opens env) as Hg.
    { split_and!; [done| |done]. intros tr c. destruct c; cbn; auto. }
    assert (wp opens (LsmMain.main fuel) (λ _ w, held w = []) init) as Hl.
    { eapply wp_mono; [exact (lsm_ok opens fuel I (λ _, I) (λ _ _ H, H))|]. by intros ?? [??]. }
    assert (wp opens (TaskIterMain.main contents fuel) (λ _ w, held w = []) init) as Ht
      by exact (task_iter_ok opens fuel eq_refl (λ _, I) contents (λ _ _ H, H) (λ _ _ _ H, H)).
    repeat constructor; [exact (wp_returned _ _ _ _ Hl Hg I)|exact (wp_returned _ _ _ _ Ht Hg I)].
  - intros Hopen Hsig.
    assert (∀ m (f : () → P Z) c w, m = call_ c → needs c = [] →
      (m ≫= f) env w = f () env (after_call c (env (trace w) c) w)) as Hstep.
    { intros m f c w -> Hn. apply bind_returned, call__run; [unfold enabled; by rewrite Hn|apply Hsig]. }
    assert (∀ (f : Z → P Z) w, (call SkelOpenAndLoad ≫= f) env w =
      f 0 env (after_call SkelOpenAndLoad (env (trace w) SkelOpenAndLoad) w)) as Hopened.
    { intros f w. rewrite <- (Hopen (trace w)). by apply bind_returned, call_run; [|apply Hsig]. }
    repeat constructor.
    + unfold LsmMain.main, LsmMain.cleanup. erewrite Hstep, Hopened by done. cbn [Z.eqb].
      by repeat erewrite Hstep by done.
    + unfold TaskIterMain.main, TaskIterMain.cleanup. do 3 erewrite Hstep by done.
      rewrite Hopened. cbn [Z.eqb]. by erewrite Hstep by done.
Qed.


Lemma uninitialised_iff_open_fails_witness :
  Forall (λ main, fst (main 7%nat uncooperative init) = Undefined) [LsmMain.main; TaskIterMain.main (λ _, TaskIter.TaskInfo 0 0 0 [] 0 [])].
Proof.
  apply (uninitialised_iff_open_fails uncooperative (λ _, TaskIter.TaskInfo 0 0 0 [] 0 []) 7); [|done|done].
  apply uncooperative_ok.
Defined.

(** The squares of uprobe.c: for 46341 rounds (one a second) no arithmetic overflows and
    the program behaves like the others; in the next round i * i overflows an int. *)
Theorem uprobe_squares_overflow :
  (∀ env fuel, env_ok env → Z.of_nat fuel ≤ 46341 →
    match UprobeMain.main fuel env init with
    | (Returned _, w) => held w = []
    | (Undefined, _) => False
    | _ => True
    end) ∧
  fst (UprobeMain.main (Z.to_nat 46342) (λ _ c, Answer (obliging_ret [] c) 5 false []) init) = Undefined.
Proof.
  split; [|by vm_compute].
  intros env fuel He Hf.
  pose proof (anything_env env He) as Hg.
  pose proof (uprobe_ok anything fuel I (λ _, I) Hf) as Hwp.
  pose proof (wp_returned _ _ _ _ Hwp Hg I) as Hr.
  destruct (UprobeMain.main fuel env init) as [[] w]; try done. apply Hr.
Qed.

(** Each of these failures is overlooked in some run: the program returns 0. *)
Example failures_overlooked :
  let fails (g : sys → bool) (r : Z) c := if g c then Some r else None in
  hides UsdtMain.main (fails is_load (-22)) 12 ∧
  hides KsyscallMain.main (fails is_signal SIG_ERR) 99 ∧
  hides FentryMain.main (fails is_signal SIG_ERR) 99 ∧
  hides (KprobeMain.main no_entry) (fails is_signal SIG_ERR) 99 ∧
  hides (KprobeMain.main no_entry) (fails (λ c, match c with PthreadCreate => true | _ => false end) 11) 99 ∧
  hides TcMain.main (fails is_hook_destroy (-22)) 12.
Proof.
  refine (conj _ (conj _ (conj _ (conj _ (conj _ _))))); vm_compute; (split; [done|]);
    repeat first [apply Exists_cons_hd; split; [intros Hs; first [discriminate|by apply Hs]|by eexists]|apply Exists_cons_tl].
Qed.

(** C39. The exit code of sockfilter: if every call it makes succeeded (it does not look at
    signal() or close()), main returns the negated number of events that the last poll consumed
    (0 if a signal interrupted that poll), so an ordinary stop can end with a code that is not
    0; a code of 0 still says that all of them succeeded. *)
Theorem sockfilter_exit_code (env : environment) (fuel : nat) :
  env_ok env →
  match SockfilterMain.main fuel env init with
  | (Returned code, w) =>
      (code = 0 → all_succeeded is_signal_or_close (trace w)) ∧
      (all_succeeded is_signal_or_close (trace w) → code = - last_poll 0 (trace w))
  | _ => True
  end.
Proof.
  intros He. pose proof (anything_env env He) as Hg.
  pose proof (wp_returned _ _ _ _ (sockfilter_ok anything fuel I (λ _, I)) Hg I) as Hr.
  destruct (SockfilterMain.main fuel env init) as [[code| | | |] w]; try done. apply Hr.
Qed.

(** Polls that consume three events, and a signal. *)
Lemma sockfilter_exit_code_witness :
  let env := env_with (λ c, match c with RingPoll _ _ => Some 3 | _ => None end) 12 in
  fst (SockfilterMain.main 50 env init) = Returned (-3) ∧
  match SockfilterMain.main 50 env init with
  | (Returned code, w) =>
      (code = 0 → all_succeeded is_signal_or_close (trace w)) ∧
      (all_succeeded is_signal_or_close (trace w) → code = - last_poll 0 (trace w))
  | _ => True
  end.
Proof.
  intros env. split; [by vm_compute|]. apply (sockfilter_exit_code env 50).
  intros tr c. pose proof (obliging_ok 12 tr c) as Ho. destruct c; exact Ho.
Defined.
