(* ===== verification/ProfileMain.v ===== *)
(** * ProfileMain: the main function of examples/c/profile.c

    [main] parses the options, opens the skeleton, the symbolizer and the ring buffer,
    attaches a perf event to every CPU that is online, polls, and takes everything down again
    at [cleanup], from wherever it got to.  The arrays pefds and links are heap blocks of the
    number of CPUs; the mask of online CPUs is the block parse_cpu_mask_file stores.
    Destroying a link to a perf event closes the descriptor of the event ([destroy_link]), and
    [cleanup] closes it again: [closed_again] lists the descriptors for which that happens.
    (The callback of the ring buffer is in [Profile].) *)

From S2P Require Import Prelude CInt CFormat BpfKernel Process Wp Loaders LoadersSpec.

(** ** The program *)

(** The local variables [cleanup] looks at; num_cpus may not have been assigned. *)
Record locals := Locals {
  num_cpus : option Z;
  skel : Z;
  symbolizer : Z;
  ring_buf : Z;
  online_mask : Z;
  pefds : array;
  links : array;
}.

Definition NULL_array : array := Array 0 [].

Definition sizeof_int : Z := 4.
Definition sizeof_ptr : Z := 8.

(** The attributes the program sets: the frequency; group_fd is -1. *)
Definition perf_event_open (freq pid cpu : Z) : P Z := call (PerfEventOpen freq pid cpu).

Definition show_help : P () := printf ("Usage: %s [-f <frequency>] [-h]" +:+ nl).

(** The getopt loop: the frequency, or the exit code of a run that only shows the help.
    [out] is optarg. *)
Definition parse_args (fuel : nat) : P (Z + Z) :=
  iter fuel (λ freq,
    argp ← do Getopt;
    if ret argp =? -1 then mret (inr (inl freq)) else
    if ret argp =? 102 then                                       (* 'f' *)
      let freq := atoi (out argp) in
      let freq := if freq <? 1 then 1 else freq in
      mret (inl freq)
    else show_help;; mret (inr (inr 1))) 1.

Definition cleanup (v : locals) (err : Z) : P Z :=
  (if negb (base (links v) =? 0) then
     n ← read_var (num_cpus v);
     for_each 0 (Z.to_nat n) (λ cpu _,
       link ← load sizeof_ptr (links v) cpu;
       call_ (LinkDestroy link)) ();;
     call_ (Free (base (links v)))
   else mret ());;
  (if negb (base (pefds v) =? 0) then
     n ← read_var (num_cpus v);
     for_each 0 (Z.to_nat n) (λ i _,
       fd ← load sizeof_int (pefds v) i;
       if 0 <=? fd then call_ (Close fd) else mret ()) ();;
     call_ (Free (base (pefds v)))
   else mret ());;
  call_ (RingFree (ring_buf v));;
  call_ (SkelDestroy (skel v));;
  call_ (SymbolizerFree (symbolizer v));;
  call_ (Free (online_mask v));;
  return_neg err.

(** A round of the loop over the CPUs; [inr] is goto cleanup. *)
Definition attach_cpu (freq pid skel : Z) (mask : array) (num_online_cpus : Z) (cpu : nat)
    (s : array * array) : P ((array * array) + (array * array)) :=
  let '(pefds, links) := s in
  skip ← (if num_online_cpus <=? Z.of_nat cpu then mret true
          else m ← load 1 mask cpu; mret (m =? 0));
  if skip : bool then mret (inl (pefds, links)) else
  pefd ← perf_event_open freq pid (Z.of_nat cpu);
  if pefd <? 0 then
    eprintf ("Fail to set up performance monitor on a CPU/Core" +:+ nl);; mret (inr (pefds, links))
  else
  pefds ← store sizeof_int pefds cpu pefd;
  link ← call (AttachPerfEvent skel pefd);
  links ← store sizeof_ptr links cpu link;
  mret (if link =? 0 then inr (pefds, links) else inl (pefds, links)).

(** while (ring_buffer__poll(ring_buf, -1) >= 0) {} *)
Definition poll_loop (ring_buf : Z) (fuel : nat) : P () :=
  iter fuel (λ _, r ← call (RingPoll ring_buf (-1)); mret (if 0 <=? r then inl () else inr ())) ().

(** From the two arrays on: err is 0 here. *)
Definition run (freq : Z) (mask : array) (num_online_cpus num_cpus skel symbolizer ring_buf : Z)
    (fuel : nat) : P Z :=
  let pid := -1 in
  p ← call (Malloc (num_cpus * sizeof_int));
  pefds ← for_each 0 (Z.to_nat num_cpus) (λ i pefds, store sizeof_int pefds i (-1))
            (Array p (replicate (Z.to_nat num_cpus) None));
  l ← call (Calloc (num_cpus * sizeof_ptr));
  let links := Array l (replicate (Z.to_nat num_cpus) (Some 0)) in
  s ← for_until 0 (Z.to_nat num_cpus) (attach_cpu freq pid skel mask num_online_cpus) (pefds, links);
  let vars s := Locals (Some num_cpus) skel symbolizer ring_buf (base mask) (fst s) (snd s) in
  match s with
  | inr s => cleanup (vars s) (-1)
  | inl s => poll_loop ring_buf fuel;; cleanup (vars s) 0
  end.

Definition main (fuel : nat) : P Z :=
  args ← parse_args fuel;
  match args with
  | inr code => mret code
  | inl freq =>
  let vars n skel sym ring mask := Locals n skel sym ring mask NULL_array NULL_array in
  a ← do ParseCpuMaskFile;
  if negb (ret a =? 0) then
    eprintf1 ("Fail to get online CPU numbers: %d" +:+ nl) (ret a);; cleanup (vars None 0 0 0 0) (ret a)
  else
  let online_mask := Array (hd 0 (out a)) (Some <$> tl (out a)) in
  let num_online_cpus := Z.of_nat (length (tl (out a))) in
  n ← call NumPossibleCpus;
  if n <=? 0 then
    eprintf ("Fail to get the number of processors" +:+ nl);; cleanup (vars (Some n) 0 0 0 (base online_mask)) (-1)
  else
  skel ← call SkelOpenAndLoad;
  if skel =? 0 then
    eprintf ("Fail to open and load BPF skeleton" +:+ nl);; cleanup (vars (Some n) skel 0 0 (base online_mask)) (-1)
  else
  symbolizer ← call SymbolizerNew;
  if symbolizer =? 0 then
    eprintf ("Fail to create a symbolizer" +:+ nl);; cleanup (vars (Some n) skel symbolizer 0 (base online_mask)) (-1)
  else
  ring_buf ← call (RingNew skel);
  if ring_buf =? 0 then cleanup (vars (Some n) skel symbolizer ring_buf (base online_mask)) (-1)
  else run freq online_mask num_online_cpus n skel symbolizer ring_buf fuel
  end.

(** ** What it owns *)

(** The allocations succeed; exit() is never called. *)
Definition memory_suffices : scenario := Scenario None
  (λ _ c a, match c with Malloc _ | Calloc _ => ret a ≠ 0 | _ => True end) (λ _, True) (λ _ _, False).

(** The entry of a CPU in the two arrays: its link and its descriptor; what they name while
    both are open, and after the link was destroyed (libbpf has then closed the descriptor). *)
Definition own_fd (fd : Z) : list resource := if 0 <=? fd then [(KFd, fd)] else [].
Definition own_cpu (x : Z * Z) : list resource := res_of (KLink (snd x)) (fst x) ++ own_fd (snd x).
Definition own_unlinked (x : Z * Z) : list resource :=
  if fst x =? 0 then own_fd (snd x) else [(KStale, snd x)].
Definition cpu_ok (x : Z * Z) : Prop := fst x ≠ 0 → 0 ≤ snd x.

(** The cells of an array with the elements [f] of [cs]. *)
Definition cells_of {A} (f : A → Z) (cs : list A) : list (option Z) := (λ a, Some (f a)) <$> cs.

Lemma bind_insert {A} (own : A → list resource) (cs : list A) i old v :
  cs !! i = Some old → own old = [] → <[i := v]> cs ≫= own ≡ₚ own v ++ (cs ≫= own).
Proof.
  intros Hi Ho. pose proof (lookup_lt_Some _ _ _ Hi) as Hlt.
  rewrite insert_take_drop by done. rewrite <- (take_drop_middle cs i old) at 3 by done.
  rewrite !bind_app. cbn. rewrite Ho. cbn. solve_Permutation.
Qed.

Lemma bind_Forall {A} (own : A → list resource) (P : resource → Prop) cs :
  (∀ a, Forall P (own a)) → Forall P (cs ≫= own).
Proof. intros HP. apply Forall_bind, Forall_forall. auto. Qed.

Lemma bind_replicate {A} (own : A → list resource) n a : own a = [] → replicate n a ≫= own = [].
Proof. intros Ho. induction n as [|n IH]; [done|]. cbn. by rewrite Ho. Qed.

Lemma own_fd_no_block p fd : Forall (no_block p) (own_fd fd).
Proof. unfold own_fd. destruct (0 <=? fd); repeat constructor. Qed.

Lemma own_unlinked_no_block p x : Forall (no_block p) (own_unlinked x).
Proof. unfold own_unlinked. destruct (fst x =? 0); [apply own_fd_no_block|repeat constructor]. Qed.

(** No two CPUs have one descriptor. *)
Definition fds_distinct (cs : list (Z * Z)) : Prop :=
  ∀ i j x y, cs !! i = Some x → cs !! j = Some y → snd x = snd y → 0 ≤ snd x → i = j.

Lemma own_cpu_fd x : 0 ≤ snd x → (KFd, snd x) ∈ own_cpu x.
Proof.
  intros Hx. unfold own_cpu, own_fd. rewrite (proj2 (Z.leb_le _ _) Hx). apply elem_of_app. right. by left.
Qed.

Lemma held_fds_distinct w cs l : distinct (held w) → owns w ((cs ≫= own_cpu) ++ l) → fds_distinct cs.
Proof.
  intros Hd Hl.
  assert (∀ i j x y, cs !! i = Some x → cs !! j = Some y → snd x = snd y → 0 ≤ snd x → ¬ (i < j)%nat) as Hlt.
  { intros i j x y Hi Hj He Hx Hij.
    assert ((KFd, snd x) ∈ drop (S i) cs ≫= own_cpu) as Hin.
    { apply list_elem_of_bind. exists y. rewrite He in *. split; [by apply own_cpu_fd|].
      apply list_elem_of_lookup. exists (j - S i)%nat. rewrite lookup_drop.
      by replace (S i + (j - S i))%nat with j by lia. }
    rewrite <- (take_drop_middle cs i x) in Hl by done. rewrite bind_app, bind_cons in Hl.
    pose proof (own_cpu_fd x Hx) as (l1 & l2 & Hown)%list_elem_of_split.
    assert (held w ≡ₚ (KFd, snd x) :: ((take i cs ≫= own_cpu) ++ l1 ++ l2 ++ (drop (S i) cs ≫= own_cpu) ++ l)) as Hh.
    { unfold owns in Hl. rewrite Hl, Hown. solve_Permutation. }
    assert (same_name (KFd, snd x) (KFd, snd x) = false) as Hs.
    { eapply holds_false_iff; [exact (Hd _ _ Hh)|]. rewrite !elem_of_app. auto. }
    unfold same_name in Hs. cbn in Hs. by rewrite Z.eqb_refl in Hs. }
  intros i j x y Hi Hj He Hx. destruct (Nat.lt_total i j) as [|[|]]; [|done|]; exfalso.
  - by apply (Hlt i j x y).
  - apply (Hlt j i y x); (done || congruence).
Qed.

(** ** Taking it down *)

Section profile.
Let σ := memory_suffices.

(** The loop of [cleanup] over an array, and the release of its block: the element [a] named
    [before a], and names [after a] when it was released. *)
Lemma wp_release_array {A} width (before after : A → list resource) (f : A → Z) (release : Z → P ())
    x (cs : list A) (Q : () → world → Prop) w l :
  0 < width → base x ≠ 0 → cells x = cells_of f cs →
  (∀ i a w (Q : () → world → Prop), cs !! i = Some a →
     let others := (take i cs ≫= after) ++ (drop (S i) cs ≫= before) ++ block width x :: l in
     owns w (before a ++ others) → (∀ w', owns w' (after a ++ others) → extends w w' → Q () w') →
     wp σ (release (f a)) Q w) →
  (∀ a, Forall (no_block (base x)) (after a)) → Forall (no_block (base x)) l →
  owns w ((cs ≫= before) ++ block width x :: l) →
  (∀ w', owns w' ((cs ≫= after) ++ l) → extends w w' → Q () w') →
  wp σ (if negb (base x =? 0) then
          n ← read_var (Some (Z.of_nat (length cs)));
          for_each 0 (Z.to_nat n) (λ i _, v ← load width x i; release v) ();;
          call_ (Free (base x))
        else mret ()) Q w.
Proof.
  intros Hwidth Hb Hx Hrel Ha Hu Hl HQ. rewrite (proj2 (Z.eqb_neq _ _) Hb). cbn [negb].
  apply wp_bind, wp_read_var, wp_bind. rewrite Nat2Z.id.
  apply (wp_for_each σ (λ i _ w', owns w' ((take i cs ≫= after) ++ (drop i cs ≫= before) ++ block width x :: l) ∧
    extends w w')).
  - intros i [] w1 Hi [Hw1 He1]. destruct (lookup_lt_is_Some_2 cs i) as [a Hia]; [lia|].
    eapply wp_bind, (wp_load σ width x i (f a)); [exact Hw1|rewrite !elem_of_app; right; right; by left|done| |].
    { rewrite Hx. unfold cells_of. by rewrite list_lookup_fmap, Hia. }
    rewrite (drop_S cs a i Hia), bind_cons in Hw1.
    eapply (Hrel i a); [done| |].
    + unfold owns in *. rewrite Hw1. solve_Permutation.
    + intros w2 Hw2 He2. split; [|by etrans]. rewrite (take_S_r _ _ _ Hia), bind_app.
      unfold owns in *. rewrite Hw2. cbn. rewrite app_nil_r. solve_Permutation.
  - rewrite drop_0. split; [exact Hl|done].
  - intros [] w1 [Hw1 He1]. cbn [Nat.add] in Hw1. rewrite drop_ge, take_ge in Hw1 by lia.
    apply (wp_free σ (λ _, I) (base x) (width * Z.of_nat (length (cells x))) _ _ ((cs ≫= after) ++ l)).
    + unfold res_of. rewrite (proj2 (Z.eqb_neq _ _) Hb). unfold owns in *. rewrite Hw1.
      cbn. by rewrite <- Permutation_middle.
    + apply Forall_app_2; [by apply bind_Forall|done].
    + intros w2 Hw2 He2. apply HQ; [done|by etrans].
Qed.

(** bpf_link__destroy of the link of a CPU, close of its descriptor. *)
Lemma wp_link_destroy x w l (Q : () → world → Prop) :
  cpu_ok x → owns w (own_cpu x ++ l) →
  (∀ w', owns w' (own_unlinked x ++ l) → extends w w' → Q () w') →
  wp σ (call_ (LinkDestroy (fst x))) Q w.
Proof.
  destruct x as [p fd]. unfold own_cpu, own_unlinked, cpu_ok, res_of. cbn [fst snd]. intros Hok Hl HQ.
  destruct (Z.eqb_spec p 0) as [->|Hp].
  { apply wp_call_; [done|by intros|]. intros a _ _. apply HQ; [by apply owns_same|apply extends_after]. }
  unfold own_fd in *. rewrite (proj2 (Z.leb_le _ _) (Hok Hp)) in *. cbn [app] in *.
  apply wp_world. intros (_ & _ & [_ Hd] & _). apply wp_call_; [|by intros|].
  - unfold enabled. cbn [needs]. rewrite (proj2 (Z.eqb_neq _ _) Hp). cbn [forallb]. rewrite andb_true_r.
    eapply owns_holds; [exact Hl|]. cbn. by rewrite Z.eqb_refl.
  - intros a _ _. apply HQ; [by apply owns_destroy_link|apply extends_after].
Qed.

Lemma wp_close_again x w l (Q : () → world → Prop) :
  cpu_ok x → owns w (own_unlinked x ++ l) → (fst x ≠ 0 → (KFd, snd x) ∉ l) →
  (∀ w', owns w' l → extends w w' → Q () w') →
  wp σ (if 0 <=? snd x then call_ (Close (snd x)) else mret ()) Q w.
Proof.
  destruct x as [p fd]. unfold own_unlinked, cpu_ok. cbn [fst snd]. intros Hok Hl Hn HQ.
  destruct (Z.eqb_spec p 0) as [->|Hp].
  - unfold own_fd in Hl. destruct (Z.leb_spec 0 fd) as [Hfd|]; [|by apply wp_ret, HQ].
    apply wp_call_; [|by intros|intros a _ _; apply HQ; [by apply owns_close|apply extends_after]].
    eapply enabled_close; [done|exact Hl|by left|apply closable_fd].
  - specialize (Hok Hp). rewrite (proj2 (Z.leb_le _ _) Hok).
    apply wp_call_; [|by intros|intros a _ _; apply HQ; [by apply owns_close_stale; auto|apply extends_after]].
    eapply enabled_close; [done|exact Hl|by left|apply closable_stale].
Qed.

(** A CPU after another one names another descriptor. *)
Lemma later_fd_other cs i x :
  fds_distinct cs → cs !! i = Some x → 0 ≤ snd x → (KFd, snd x) ∉ (drop (S i) cs ≫= own_unlinked).
Proof.
  intros Hd Hi Hx ([p fd] & Hin & (j & Hj)%list_elem_of_lookup)%list_elem_of_bind.
  rewrite lookup_drop in Hj. unfold own_unlinked, own_fd in Hin. cbn [fst snd] in Hin.
  repeat case_match; rewrite ?elem_of_cons, ?elem_of_nil in Hin; [|done|by destruct Hin as [[=]|]].
  destruct Hin as [[= He]|[]]. pose proof (Hd i _ x (p, fd) Hi Hj He Hx). lia.
Qed.

(** What the other variables name. *)
Definition outer (ring skel sym mask mask_size : Z) : list resource :=
  res_of KRing ring ++ res_of KSkel skel ++ res_of KSym sym ++ res_of (KHeap mask_size) mask.
Definition outer_of (v : locals) (mask_size : Z) : list resource :=
  outer (ring_buf v) (skel v) (symbolizer v) (online_mask v) mask_size.

Lemma outer_Forall (P : resource → Prop) ring skel sym mask m :
  (∀ p, P (KRing, p)) → (∀ p, P (KSkel, p)) → (∀ p, P (KSym, p)) → (mask ≠ 0 → P (KHeap m, mask)) →
  Forall P (outer ring skel sym mask m).
Proof.
  intros H1 H2 H3 H4. unfold outer, res_of. repeat apply Forall_app_2;
    match goal with |- context [?p =? 0] => destruct (Z.eqb_spec p 0) end; repeat constructor; auto.
Qed.

(** The calls of [cleanup] that take a pointer or NULL. *)
Ltac destroys :=
  intros; eapply (wp_destroy σ (λ _, I));
  [intros ->; done
  |intros ?%Z.eqb_neq; cbn [needs effect]; simp_eqb; done
  |eassumption
  |].

(** The second half of [cleanup]. *)
Lemma wp_cleanup_rest v err m (Q : Z → world → Prop) w :
  owns w (outer_of v m) → (∀ w', held w' = [] → extends w w' → Q (- err) w') →
  wp σ (call_ (RingFree (ring_buf v));; call_ (SkelDestroy (skel v));; call_ (SymbolizerFree (symbolizer v));;
        call_ (Free (online_mask v));; return_neg err) Q w.
Proof.
  unfold outer_of, outer. intros Hw2 HQ. apply wp_bind. destroys. intros w3 Hw3 He3.
  apply wp_bind. destroys. intros w4 Hw4 He4. apply wp_bind. destroys. intros w5 Hw5 He5.
  apply wp_bind, (wp_free σ (λ _, I) _ m _ _ []); [by rewrite app_nil_r|constructor|].
  intros w6 Hw6 He6. apply wp_ret, HQ; [by apply Permutation_nil_r in Hw6|].
  by repeat (etrans; [eassumption|]).
Qed.

(** Before the arrays exist. *)
Lemma wp_cleanup_early v err m (Q : Z → world → Prop) w :
  base (links v) = 0 → base (pefds v) = 0 → owns w (outer_of v m) →
  (∀ w', held w' = [] → extends w w' → Q (- err) w') → wp σ (cleanup v err) Q w.
Proof.
  intros Hl Hp Hw HQ. unfold cleanup. rewrite Hl, Hp. cbn [Z.eqb negb].
  apply wp_bind, wp_ret, wp_bind, wp_ret. by apply (wp_cleanup_rest v err m).
Qed.

(** Both arrays have an element for each CPU, and their blocks are different. *)
Record arrays (cs : list (Z * Z)) (pefds links : array) : Prop := Arrays {
  arrays_pefds : cells pefds = cells_of snd cs;
  arrays_links : cells links = cells_of fst cs;
  arrays_ok : Forall cpu_ok cs;
}.

Lemma wp_cleanup v cs err m (Q : Z → world → Prop) w :
  num_cpus v = Some (Z.of_nat (length cs)) → arrays cs (pefds v) (links v) →
  base (pefds v) ≠ 0 → base (links v) ≠ 0 → base (links v) ≠ base (pefds v) →
  base (links v) ≠ online_mask v → base (pefds v) ≠ online_mask v →
  owns w ((cs ≫= own_cpu) ++ block sizeof_ptr (links v) :: block sizeof_int (pefds v) :: outer_of v m) →
  (∀ w', held w' = [] → extends w w' → Q (- err) w') → wp σ (cleanup v err) Q w.
Proof.
  intros Hnum [Hpf Hlk Hok] Hp0 Hl0 Hlp Hlm Hpm Hw HQ. unfold cleanup. rewrite Hnum.
  apply wp_world. intros (_ & _ & [_ Hd] & _). pose proof (held_fds_distinct _ _ _ Hd Hw) as Hfds.
  assert (∀ p, p ≠ online_mask v → Forall (no_block p) (outer_of v m)) as Hrest.
  { intros p Hp. apply outer_Forall; try done. intros _. unfold no_block. cbn. lia. }
  apply wp_bind. eapply (wp_release_array sizeof_ptr own_cpu own_unlinked fst (λ p, call_ (LinkDestroy p)));
    [done|done|exact Hlk| |intros; apply own_unlinked_no_block| |exact Hw|].
  { intros i a w1 Q1 Hi others Hw1 HQ1. eapply wp_link_destroy; [|exact Hw1|done].
    by eapply Forall_lookup_1. }
  { constructor; [|auto]. unfold no_block. cbn. lia. }
  intros w1 Hw1 He1. apply wp_bind.
  eapply (wp_release_array sizeof_int own_unlinked (λ _, []) snd (λ fd, if 0 <=? fd then call_ (Close fd) else mret ()));
    [done|done|exact Hpf| |by constructor|auto|exact Hw1|].
  { intros i a w2 Q2 Hi others Hw2 HQ2. pose proof (Forall_lookup_1 _ _ _ _ Hok Hi) as Ha.
    eapply wp_close_again; [exact Ha|exact Hw2| |done]. intros Hlink. unfold others.
    rewrite !elem_of_app, elem_of_cons. intros [Hin|[Hin|[?|Hin]]]; [|by eapply (later_fd_other cs i a); auto|done|].
    - apply list_elem_of_bind in Hin as (y & Hy & _). by apply not_elem_of_nil in Hy.
    - assert (Forall (λ x, x ≠ (KFd, snd a)) (outer_of v m)) as Hno by by apply outer_Forall.
      by eapply Forall_forall in Hin; [|exact Hno]. }
  intros w2 Hw2 He2. apply (wp_cleanup_rest v err m).
  - replace (cs ≫= λ _, []) with (@nil resource) in Hw2; [exact Hw2|].
    clear. by induction cs.
  - intros w3 Hw3 He3. apply HQ; [done|]. by repeat (etrans; [eassumption|]).
Qed.

(** ** Putting it up *)

(** The CPUs that were sampled, most recent first, with the frequency; a CPU of the mask. *)
Definition sampled (tr : list (sys * answer)) : list (Z * Z) :=
  omap (λ x, match fst x with PerfEventOpen freq _ cpu => Some (freq, cpu) | _ => None end) tr.
Definition cpu_online (mask : list (option Z)) (cpu : nat) : bool :=
  match mask !! cpu with Some (Some m) => negb (m =? 0) | _ => false end.
Definition sample_of (freq : Z) (mask : list (option Z)) (cpu : nat) : list (Z * Z) :=
  if cpu_online mask cpu then [(freq, Z.of_nat cpu)] else [].

Section attach.
Variables (n : nat) (p l : Z) (skel freq pid : Z) (mask : array) (rest : list resource).
Hypothesis Hpefds : (KHeap (sizeof_int * Z.of_nat n), p) ∈ rest.
Hypothesis Hlinks : (KHeap (sizeof_ptr * Z.of_nat n), l) ∈ rest.
Hypothesis Hskel : (KSkel, skel) ∈ rest.
Hypothesis Hmask : block 1 mask ∈ rest.
Hypothesis Hcells : Forall is_Some (cells mask).

(** The arrays have an element per CPU, and the process owns what they name. *)
Definition attached (cs : list (Z * Z)) (s : array * array) (w : world) : Prop :=
  base s.1 = p ∧ base s.2 = l ∧ length cs = n ∧ arrays cs s.1 s.2 ∧ owns w ((cs ≫= own_cpu) ++ rest).

(** No CPU from [i] on has been looked at. *)
Definition untouched (i : nat) (cs : list (Z * Z)) : Prop := ∀ j, (i ≤ j < n)%nat → cs !! j = Some (0, -1).

Lemma rest_in cs x : x ∈ rest → x ∈ (cs ≫= own_cpu) ++ rest.
Proof. intros Hx. apply elem_of_app. by right. Qed.

(** The CPU is skipped if it is not in the mask. *)
Lemma skip_cpu i cs w :
  owns w ((cs ≫= own_cpu) ++ rest) →
  wp σ (if Z.of_nat (length (cells mask)) <=? Z.of_nat i then mret true
        else m ← load 1 mask i; mret (m =? 0))
    (λ skip w', w' = w ∧ skip = negb (cpu_online (cells mask) i)) w.
Proof using Hmask Hcells.
  intros Hw. unfold cpu_online.
  destruct (Z.leb_spec (Z.of_nat (length (cells mask))) (Z.of_nat i)) as [|Hlt].
  { apply wp_ret. by rewrite lookup_ge_None_2 by lia. }
  destruct (lookup_lt_is_Some_2 (cells mask) i) as [o Ho]; [lia|].
  destruct (Forall_lookup_1 _ _ _ _ Hcells Ho) as [m ->].
  eapply wp_bind, wp_load; [exact Hw|by apply rest_in, Hmask|done|exact Ho|].
  apply wp_ret. by rewrite Ho, negb_involutive.
Qed.

(** A new entry in both arrays. *)
Lemma attached_insert i cs pf lk fd link w :
  attached cs (pf, lk) w → cs !! i = Some (0, -1) → 0 ≤ fd →
  (∀ w', owns w' (own_cpu (link, fd) ++ (cs ≫= own_cpu) ++ rest) →
     attached (<[i := (link, fd)]> cs)
       (Array (base pf) (<[i := Some fd]> (cells pf)), Array (base lk) (<[i := Some link]> (cells lk))) w').
Proof.
  intros (Hp & Hl & Hn & [Hpf Hlk Hok] & _) Hi Hfd w' Hw'. cbn [fst snd] in *.
  unfold attached. cbn [fst snd base]. rewrite length_insert. split_and!; try done.
  - constructor; cbn [cells]; [by rewrite Hpf; unfold cells_of; rewrite list_fmap_insert
      |by rewrite Hlk; unfold cells_of; rewrite list_fmap_insert|apply Forall_insert; [done|by intros _]].
  - unfold owns in *. rewrite Hw', (bind_insert own_cpu _ _ (0, -1)) by done. by rewrite app_assoc.
Qed.

Lemma attach_cpu_ok i cs s w :
  (i < n)%nat → attached cs s w → untouched i cs →
  wp σ (attach_cpu freq pid skel mask (Z.of_nat (length (cells mask))) i s)
    (λ r w', match r with
             | inl s' => ∃ cs', attached cs' s' w' ∧ untouched (S i) cs' ∧ extends w w' ∧
                           sampled (trace w') = sample_of freq (cells mask) i ++ sampled (trace w)
             | inr s' => ∃ cs', attached cs' s' w'
             end) w.
Proof using Hpefds Hlinks Hskel Hmask Hcells.
  destruct s as [pf lk]. intros Hi Hat Hun. pose proof (Hun i (conj (le_n i) Hi)) as Hci.
  pose proof Hat as (Hp & Hl & Hn & [Hpf Hlk Hok] & Hw). cbn [fst snd] in *.
  assert (length (cells pf) = n ∧ length (cells lk) = n) as [Hnp Hnl]
    by (rewrite Hpf, Hlk; unfold cells_of; by rewrite !length_fmap).
  unfold attach_cpu. eapply wp_bind, wp_mono; [by apply (skip_cpu i cs)|].
  intros skip w' [-> ->]. unfold sample_of. destruct (cpu_online (cells mask) i); cbn [negb].
  2: { apply wp_ret. exists cs. split_and!; [done| |done|done]. intros j Hj. apply Hun. lia. }
  apply wp_bind, wp_call; [done|by intros|]. intros a _ _.
  destruct (Z.ltb_spec (ret a) 0) as [Ha|Ha].
  { apply wp_bind, wp_call_; [done|by intros|]. intros a1 _ _. apply wp_ret. exists cs.
    split_and!; try done. apply owns_same; [apply owns_same; [done|]|done]. cbn.
    by rewrite (proj2 (Z.ltb_lt _ _) Ha). }
  assert (owns (after_call (PerfEventOpen freq pid (Z.of_nat i)) a w)
    ((KFd, ret a) :: (cs ≫= own_cpu) ++ rest)) as Hw1.
  { apply owns_acquire; [done|]. cbn. by rewrite (proj2 (Z.ltb_ge _ _) Ha). }
  apply wp_bind. eapply (wp_store σ sizeof_int pf i (ret a)); [exact Hw1| |done|lia|].
  { right. apply rest_in. unfold block. by rewrite Hnp, Hp. }
  apply wp_bind, wp_call; [|by intros|].
  { unfold enabled. cbn [needs forallb]. rewrite andb_true_r. apply andb_true_iff.
    split; (eapply owns_holds; [exact Hw1|]; apply holds_iff; eexists; split; [|by apply res_eqb_eq]);
      [right; by apply rest_in|by left]. }
  intros a1 _ _. set (w2 := after_call (AttachPerfEvent skel (ret a)) a1 _).
  assert (owns w2 (own_cpu (ret a1, ret a) ++ (cs ≫= own_cpu) ++ rest)) as Hw2.
  { unfold own_cpu, own_fd, res_of. cbn [fst snd]. rewrite (proj2 (Z.leb_le _ _) Ha).
    destruct (Z.eqb_spec (ret a1) 0) as [Hz|Hz]; cbn [app].
    - apply owns_same; [done|]. cbn. by rewrite Hz.
    - apply owns_acquire; [done|]. cbn. by rewrite (proj2 (Z.eqb_neq _ _) Hz). }
  apply wp_bind. eapply (wp_store σ sizeof_ptr lk i (ret a1)); [exact Hw2| |done|lia|].
  { apply elem_of_app. right. apply rest_in. unfold block. by rewrite Hnl, Hl. }
  apply wp_ret. pose proof (attached_insert _ _ _ _ _ (ret a1) _ Hat Hci Ha _ Hw2) as Hat2.
  destruct (ret a1 =? 0); [by eexists|]. eexists. split; [exact Hat2|].
  split_and!; [|by do 2 (etrans; [|apply extends_after])|done].
  intros j Hj. rewrite list_lookup_insert_ne by lia. apply Hun. lia.
Qed.
End attach.

(** After the calls [tr] exactly the CPUs that are online had been sampled, in order, each
    with the frequency asked for. *)
Definition set_up (tr : list (sys * answer)) : Prop :=
  ∃ m n freq, (ParseCpuMaskFile, m) ∈ tr ∧ (NumPossibleCpus, n) ∈ tr ∧ 1 ≤ freq ∧
    reverse (sampled tr) =
    seq 0 (Z.to_nat (ret n)) ≫= sample_of freq (Some <$> tl (out m)).

(** The program was set up, and then a poll of the ring buffer failed. *)
Definition poll_failed (w : world) : Prop :=
  ∃ ring t a tr, (RingPoll ring t, a) :: tr `suffix_of` trace w ∧ ret a < 0 ∧ set_up tr.

Lemma poll_failed_extends w w' : extends w w' → poll_failed w → poll_failed w'.
Proof. intros He (r & t & a & tr & Hs & Ha). exists r, t, a, tr. split; [by etrans|done]. Qed.

Lemma set_up_extends tr tr' :
  tr `suffix_of` tr' → sampled tr' = sampled tr → set_up tr → set_up tr'.
Proof.
  intros [k ->] Hs (m & n & freq & Hm & Hn & Hf & Hsm). exists m, n, freq.
  rewrite !elem_of_app, Hs. auto.
Qed.

Lemma poll_loop_ok ring fuel l w :
  owns w l → (KRing, ring) ∈ l → set_up (trace w) →
  wp σ (poll_loop ring fuel) (λ _ w', owns w' l ∧ poll_failed w') w.
Proof.
  intros Hl Hin Hset.
  apply (wp_iter σ (λ _ w', owns w' l ∧ set_up (trace w'))); [|done|done].
  intros _ w1 [Hw1 Hs]. apply wp_bind, wp_call; [|by intros|].
  { unfold enabled. cbn [needs forallb]. rewrite andb_true_r. eapply owns_holds; [exact Hw1|].
    apply holds_iff. eexists. split; [exact Hin|]. by apply res_eqb_eq. }
  intros a _ _. apply wp_ret. destruct (Z.leb_spec 0 (ret a)) as [|Ha].
  - split; [|done]. split; [by apply owns_same|].
    apply (set_up_extends (trace w1)); [apply extends_after|done|done].
  - split; [by apply owns_same|]. by exists ring, (-1), a, (trace w1).
Qed.

(** The loop that sets all of pefds to -1. *)
Lemma init_pefds_ok p n rest (Q : array → world → Prop) w :
  owns w ((KHeap (sizeof_int * Z.of_nat n), p) :: rest) →
  Q (Array p (replicate n (Some (-1)))) w →
  wp σ (for_each 0 n (λ i pefds, store sizeof_int pefds i (-1)) (Array p (replicate n None))) Q w.
Proof.
  intros Hw HQ.
  apply (wp_for_each σ (λ i x w', w' = w ∧ x = Array p (replicate i (Some (-1)) ++ replicate (n - i) None))).
  - intros i x w' Hi [-> ->].
    eapply (wp_store σ); [exact Hw|apply elem_of_cons; left; unfold block; cbn [cells base]|done| |].
    + rewrite length_app, !length_replicate. by replace (i + (n - i))%nat with n by lia.
    + cbn [cells]. rewrite length_app, !length_replicate. lia.
    + split; [done|]. cbn [base cells]. f_equal.
      rewrite insert_app_r_alt, length_replicate by (rewrite length_replicate; lia).
      rewrite Nat.sub_diag. replace (n - i)%nat with (S (n - S i)) by lia.
      rewrite (replicate_S_end i), <- app_assoc. done.
  - by rewrite Nat.sub_0_r.
  - intros x w' [-> ->]. cbn [Nat.add]. by rewrite Nat.sub_diag, app_nil_r.
Qed.

(** Everything is released, and 0 is returned only after a poll failed. *)
Definition finished (code : Z) (w : world) : Prop := held w = [] ∧ (code = 0 → poll_failed w).

Section run.
Variables (num skel sym ring p l : Z) (mask : array).
Hypothesis Hnum : 0 < num.
Hypothesis Hring : ring ≠ 0.
Hypothesis Hskel : skel ≠ 0.
Hypothesis Hmask : base mask ≠ 0.
Hypothesis Hcells : Forall is_Some (cells mask).
Hypothesis Hp : p ≠ 0 ∧ p ≠ base mask.
Hypothesis Hl : l ≠ 0 ∧ l ≠ p ∧ l ≠ base mask.

Let n := Z.to_nat num.
Definition mask_size : Z := Z.of_nat (length (cells mask)).
Definition others : list resource := outer ring skel sym (base mask) mask_size.
Definition blocks : list resource :=
  (KHeap (sizeof_ptr * Z.of_nat n), l) :: (KHeap (sizeof_int * Z.of_nat n), p) :: others.

Lemma mask_in_outer : block 1 mask ∈ others.
Proof using Hmask.
  unfold others, outer, res_of, block, mask_size. rewrite (proj2 (Z.eqb_neq _ _) Hmask), !elem_of_app, Z.mul_1_l.
  right. right. right. by left.
Qed.

Lemma ring_in_outer : (KRing, ring) ∈ others.
Proof using Hring. unfold others, outer, res_of. rewrite (proj2 (Z.eqb_neq _ _) Hring). by left. Qed.

Lemma skel_in_outer : (KSkel, skel) ∈ others.
Proof using Hskel.
  unfold others, outer, res_of. rewrite (proj2 (Z.eqb_neq _ _) Hskel), !elem_of_app. right. left. by left.
Qed.

(** From the loop over the CPUs, wherever it ended, to the end of the program. *)
Lemma cleanup_arrays_ok cs s err (Q : Z → world → Prop) w :
  attached n p l blocks cs s w →
  (∀ w', held w' = [] → extends w w' → Q (- err) w') →
  wp σ (cleanup (Locals (Some num) skel sym ring (base mask) (fst s) (snd s)) err) Q w.
Proof using Hnum Hp Hl.
  destruct s as [pf lk]. intros (Hbp & Hbl & Hn & Harr & Hw). cbn [fst snd] in *.
  destruct Hp as [Hp0 Hpm], Hl as (Hl0 & Hlp & Hlm).
  assert (length (cells pf) = n ∧ length (cells lk) = n) as [Hnp Hnl].
  { destruct Harr as [-> -> _]. unfold cells_of. by rewrite !length_fmap. }
  apply (wp_cleanup _ cs err mask_size);
    cbn [num_cpus ProfileMain.pefds ProfileMain.links online_mask]; rewrite ?Hbp, ?Hbl; try done.
  - unfold n in Hn. f_equal. lia.
  - unfold block. by rewrite Hnp, Hnl, Hbp, Hbl.
Qed.

Lemma attach_and_poll_ok freq fuel w :
  owns w blocks → sampled (trace w) = [] →
  (∀ tr, trace w `suffix_of` tr →
     reverse (sampled tr) = seq 0 n ≫= sample_of freq (cells mask) → set_up tr) →
  wp σ (s ← for_until 0 n (attach_cpu freq (-1) skel mask mask_size)
              (Array p (replicate n (Some (-1))), Array l (replicate n (Some 0)));
        let vars s := Locals (Some num) skel sym ring (base mask) (fst s) (snd s) in
        match s with
        | inr s => cleanup (vars s) (-1)
        | inl s => poll_loop ring fuel;; cleanup (vars s) 0
        end) finished w.
Proof using Hnum Hring Hskel Hmask Hcells Hp Hl.
  intros Hw Hs0 Hset.
  assert (∀ x, x ∈ others → x ∈ blocks) as Hout by (intros x Hx; by do 2 right).
  apply wp_bind, (wp_for_until σ (λ i s w', ∃ cs, attached n p l blocks cs s w' ∧ untouched n i cs ∧ extends w w' ∧
    reverse (sampled (trace w')) = seq 0 i ≫= sample_of freq (cells mask))).
  - intros i s w1 Hi (cs & Hs & Hu & He & Hsm). eapply wp_mono.
    + apply (attach_cpu_ok n p l skel freq (-1) mask blocks) with (cs := cs); try done; try lia.
      * right. by left.
      * by left.
      * apply Hout, skel_in_outer.
      * apply Hout, mask_in_outer.
    + intros [s'|s'] w'.
      { intros (cs' & ? & ? & ? & Hsm'). exists cs'. split_and!; [done|done|by etrans|].
        rewrite Hsm', reverse_app, Hsm, seq_S, bind_app. cbn. rewrite app_nil_r.
        f_equal. unfold sample_of. by destruct (cpu_online _ _). }
      intros [cs' Hs']. apply (cleanup_arrays_ok cs' s'); [done|].
      intros w2 Hw2 _. by split.
  - exists (replicate n (0, -1)). split_and!; [|by intros j Hj; apply lookup_replicate_2; lia|done|by rewrite Hs0].
    unfold attached. cbn [fst snd base]. rewrite length_replicate, bind_replicate by done.
    split_and!; try done. constructor; cbn [cells]; unfold cells_of; rewrite ?fmap_replicate; try done.
    apply Forall_replicate. by intros ?.
  - intros s w1 (cs & Hs & _ & He & Hsm). apply wp_bind. pose proof Hs as (_ & _ & _ & _ & Hw1).
    eapply wp_mono.
    + eapply (poll_loop_ok ring); [exact Hw1| |by apply Hset]. apply elem_of_app. right. apply Hout, ring_in_outer.
    + intros _ w2 [Hw2 Hpoll]. apply (cleanup_arrays_ok cs s); [by destruct Hs as (? & ? & ? & ? & _)|].
      intros w3 Hw3 He3. split; [done|]. intros _. by eapply poll_failed_extends.
Qed.
End run.

Lemma fresh_block c a w l size size' p :
  owns w l → fresh (held w) c a → effect c a (held w) = (KHeap size, ret a) :: held w →
  (KHeap size', p) ∈ l → ret a ≠ p.
Proof.
  intros Hl Hfr He Hin. pose proof (owns_not_held _ _ _ _ Hl (Hfr _ He) Hin) as Hne.
  unfold same_name in Hne. cbn [fst snd] in Hne. lia.
Qed.

Lemma run_ok freq mask num skel sym ring fuel w :
  0 < num → ring ≠ 0 → skel ≠ 0 → base mask ≠ 0 → Forall is_Some (cells mask) →
  owns w (others skel sym ring mask) → sampled (trace w) = [] →
  (∀ tr, trace w `suffix_of` tr →
     reverse (sampled tr) = seq 0 (Z.to_nat num) ≫= sample_of freq (cells mask) → set_up tr) →
  wp σ (run freq mask (mask_size mask) num skel sym ring fuel) finished w.
Proof.
  intros Hnum Hring Hskel Hmask Hcells Hw Hs0 Hset.
  assert (∀ k, num * k = k * Z.of_nat (Z.to_nat num)) as Hsz by lia.
  pose proof (mask_in_outer skel sym ring mask Hmask) as Hm. unfold block in Hm.
  unfold run. rewrite !Hsz. apply wp_bind, wp_call; [done|by intros|]. intros a (_ & Hfr & _) Ha. cbn in Ha.
  set (w1 := after_call _ a w).
  assert (effect (Malloc (sizeof_int * Z.of_nat (Z.to_nat num))) a (held w) =
    (KHeap (sizeof_int * Z.of_nat (Z.to_nat num)), ret a) :: held w) as He.
  { cbn [effect]. by rewrite (proj2 (Z.eqb_neq _ _) Ha). }
  pose proof (fresh_block _ _ _ _ _ _ _ Hw Hfr He Hm) as Hpm.
  pose proof (owns_acquire _ _ _ _ _ Hw He) as Hw1. fold w1 in Hw1.
  eapply wp_bind, init_pefds_ok; [exact Hw1|].
  apply wp_bind, wp_call; [done|by intros|]. intros b (_ & Hfr' & _) Hb. cbn in Hb.
  assert (effect (Calloc (sizeof_ptr * Z.of_nat (Z.to_nat num))) b (held w1) =
    (KHeap (sizeof_ptr * Z.of_nat (Z.to_nat num)), ret b) :: held w1) as He'.
  { cbn [effect]. by rewrite (proj2 (Z.eqb_neq _ _) Hb). }
  eapply attach_and_poll_ok; try done.
  - split; [done|]. split.
    + eapply fresh_block; [exact Hw1|exact Hfr'|exact He'|by left].
    + eapply fresh_block; [exact Hw1|exact Hfr'|exact He'|by right].
  - exact (owns_acquire _ _ _ _ _ Hw1 He').
  - intros tr Htr. apply Hset. etrans; [|exact Htr]. by apply (suffix_cons_r), suffix_cons_r.
Qed.

Lemma parse_args_ok fuel :
  wp σ (parse_args fuel)
    (λ r w', owns w' [] ∧ sampled (trace w') = [] ∧
       match r with inl freq => 1 ≤ freq | inr code => code = 1 end) init.
Proof.
  apply (wp_iter σ (λ freq w', owns w' [] ∧ sampled (trace w') = [] ∧ 1 ≤ freq));
    [|done|split_and!; [apply perm_nil|done|done]].
  intros freq w (Hw & Hs & Hf). apply wp_bind, wp_do; [done|by intros|]. intros a _ _.
  destruct (ret a =? -1).
  { apply wp_ret. split_and!; [by apply owns_same|done|done]. }
  destruct (ret a =? 102).
  { apply wp_ret. split; [|done]. split_and!; [by apply owns_same|done|].
    destruct (Z.ltb_spec (atoi (out a)) 1); lia. }
  apply wp_bind, wp_call_; [done|by intros|]. intros a1 _ _. apply wp_ret.
  split_and!; [by apply owns_same; [apply owns_same|]|done|done].
Qed.

(** [cleanup] before the arrays exist. *)
Lemma cleanup_early n skel sym ring mask m err w :
  err ≠ 0 → owns w (outer ring skel sym mask m) →
  wp σ (cleanup (Locals n skel sym ring mask NULL_array NULL_array) err) finished w.
Proof.
  intros He Hw. apply (wp_cleanup_early _ _ m); [done|done|exact Hw|].
  intros w' Hw' _. split; [done|lia].
Qed.

(** A message, and [cleanup]. *)
Ltac complain m :=
  apply wp_bind, wp_call_; [done|by intros|]; intros ? _ _;
  apply (cleanup_early _ _ _ _ _ m); [done|].

Lemma profile_main_ok fuel : wp σ (main fuel) finished init.
Proof.
  unfold main. eapply wp_bind, wp_mono; [apply parse_args_ok|].
  intros r w (Hw & Hs & Hr). destruct r as [freq|code].
  2: { apply wp_ret. split; [by apply Permutation_nil_r in Hw|lia]. }
  apply wp_bind, wp_do; [done|by intros|]. intros m (_ & _ & Hm) _.
  destruct (Z.eqb_spec (ret m) 0) as [Hm0|Hm0]; cbn [negb].
  2: { complain 0.
       apply owns_same; [|done]. apply owns_same; [done|]. cbn. rewrite (proj2 (Z.eqb_neq _ _) Hm0). by destruct (out m). }
  destruct (Hm Hm0) as [Ho Hh]. destruct (out m) as [|p mask] eqn:Em; [done|]. cbn [hd tl] in *.
  assert (owns (after_call ParseCpuMaskFile m w) (res_of (KHeap (Z.of_nat (length mask))) p)) as Hw1.
  { unfold res_of. rewrite (proj2 (Z.eqb_neq _ _) Hh). apply owns_acquire; [done|]. cbn. by rewrite Em, Hm0. }
  apply wp_bind, wp_call; [done|by intros|]. intros n _ _.
  eapply (owns_same NumPossibleCpus n) in Hw1; [|done].
  destruct (Z.leb_spec (ret n) 0) as [Hn|Hn].
  { complain (Z.of_nat (length mask)). by apply owns_same. }
  apply wp_bind, wp_call; [done|by intros|]. intros sk _ _.
  eapply (owns_acquire_ptr SkelOpenAndLoad sk _ _ KSkel) in Hw1; [|done].
  destruct (Z.eqb_spec (ret sk) 0) as [Hsk|Hsk].
  { complain (Z.of_nat (length mask)). by apply owns_same. }
  apply wp_bind, wp_call; [done|by intros|]. intros sy _ _.
  eapply (owns_acquire_ptr SymbolizerNew sy _ _ KSym) in Hw1; [|done].
  destruct (Z.eqb_spec (ret sy) 0) as [Hsy|Hsy].
  { complain (Z.of_nat (length mask)). apply owns_same; [|done]. rewrite Hsy. rewrite Hsy in Hw1. unfold owns in *. rewrite Hw1. solve_Permutation. }
  apply wp_bind, wp_call; [|by intros|].
  { unfold enabled. cbn [needs forallb]. rewrite andb_true_r. eapply owns_holds; [exact Hw1|].
    apply holds_iff. exists (KSkel, ret sk). split; [|by apply res_eqb_eq].
    rewrite !elem_of_app. right. left. unfold res_of. rewrite (proj2 (Z.eqb_neq _ _) Hsk). by left. }
  intros rb _ _. eapply (owns_acquire_ptr (RingNew (ret sk)) rb _ _ KRing) in Hw1; [|done].
  assert (owns (after_call (RingNew (ret sk)) rb (after_call SymbolizerNew sy (after_call SkelOpenAndLoad sk
      (after_call NumPossibleCpus n (after_call ParseCpuMaskFile m w)))))
    (res_of KRing (ret rb) ++ res_of KSkel (ret sk) ++ res_of KSym (ret sy) ++
     res_of (KHeap (Z.of_nat (length mask))) p)) as Hw2.
  { unfold owns in *. rewrite Hw1. solve_Permutation. }
  destruct (Z.eqb_spec (ret rb) 0) as [Hrb|Hrb]; [by apply (cleanup_early _ _ _ _ _ (Z.of_nat (length mask)))|].
  assert (Z.of_nat (length mask) = mask_size (Array p (Some <$> mask))) as Hsz
    by (unfold mask_size; cbn [cells]; by rewrite length_fmap).
  rewrite Hsz in Hw2 |- *.
  apply (run_ok freq (Array p (Some <$> mask))); try done.
  - apply Forall_fmap, Forall_forall. intros x _. by eexists.
  - intros tr Htr Hsm. exists m, n, freq. rewrite Em. cbn [tl]. split_and!; [..|done|done].
    + eapply elem_of_suffix; [|exact Htr]. do 4 right. left.
    + eapply elem_of_suffix; [|exact Htr]. do 3 right. left.
Qed.
End profile.

(** ** Descriptors that are closed twice *)

(** The descriptors links were made of, and those that close() was called for after libbpf had
    closed them. *)
Definition linked (tr : list (sys * answer)) : list Z :=
  omap (λ x, match fst x with
             | AttachPerfEvent _ fd => if ret (snd x) =? 0 then None else Some fd
             | _ => None
             end) tr.
Fixpoint closed_again (tr : list (sys * answer)) : list Z :=
  match tr with
  | [] => []
  | (Close fd, _) :: tr' =>
      let held := held_after tr' in
      if (0 <=? fd) && negb (holds (res_eqb (KFd, fd)) held) && holds (res_eqb (KStale, fd)) held
      then fd :: closed_again tr' else closed_again tr'
  | _ :: tr' => closed_again tr'
  end.

(** The descriptors of links, and of links that were destroyed. *)
Definition due1 (x : resource) : option Z :=
  match fst x with KLink fd => Some fd | KStale => Some (snd x) | _ => None end.
Definition due (held : list resource) : list Z := omap due1 held.

Lemma due_perm h h' : h ≡ₚ h' → due h ≡ₚ due h'.
Proof. unfold due. by intros ->. Qed.

Lemma due_cons k p h : due ((k, p) :: h) = option_list (due1 (k, p)) ++ due h.
Proof. unfold due. cbn. by destruct (due1 (k, p)). Qed.

Lemma due_drop f h : (∀ x, f x = true → due1 x = None) → due (drop_res f h) = due h.
Proof.
  intros Hf. unfold due. induction h as [|x h IH]; [done|]. cbn [drop_res]. destruct (f x) eqn:E.
  - cbn. by rewrite Hf.
  - cbn. by rewrite IH.
Qed.

Lemma due_drop_fd fd h : due (drop_res (res_eqb (KFd, fd)) h) = due h.
Proof. apply due_drop. by intros x <-%res_eqb_eq. Qed.

(** Only three calls matter: the others acquire or release other things. *)
Lemma due_effect c a h :
  match c with AttachPerfEvent _ _ | LinkDestroy _ | Close _ => True | _ => due (effect c a h) = due h end.
Proof.
  destruct c; try done; cbn [effect]; repeat case_match; try done; rewrite ?due_cons; try done;
    apply due_drop; intros [[] q]; unfold heap_at, mapped_at, res_eqb; cbn; try done; lia.
Qed.

Lemma due_release f h x :
  holds f h = true → (∀ y, f y = true → due1 y = x) → due h ≡ₚ option_list x ++ due (drop_res f h).
Proof.
  intros (y & Hy & Hp)%drop_res_perm Hx. rewrite (due_perm _ _ Hp). destruct y. by rewrite due_cons, Hx.
Qed.

Lemma due_destroy_link l h : due (destroy_link l h) ≡ₚ due h.
Proof.
  unfold destroy_link. destruct (find (link_at l) h) as [[k p]|] eqn:Ef; [|done]. destruct k; try done.
  rewrite due_drop_fd, due_cons. cbn [option_list due1 fst snd app].
  revert Ef. induction h as [|[k q] h IH]; [done|]. cbn [find drop_res].
  destruct (link_at l (k, q)) eqn:E; [intros [= -> ->]; by rewrite due_cons|].
  intros Hf%IH. rewrite !due_cons, <- Hf. solve_Permutation.
Qed.

Lemma due_close fd a h :
  due h ≡ₚ due (effect (Close fd) a h) ++
    (if (0 <=? fd) && negb (holds (res_eqb (KFd, fd)) h) && holds (res_eqb (KStale, fd)) h then [fd] else []).
Proof.
  cbn [effect]. destruct (Z.leb_spec 0 fd) as [Hf|Hf].
  2: { rewrite (proj2 (Z.ltb_lt _ _) Hf). cbn. by rewrite app_nil_r. }
  rewrite (proj2 (Z.ltb_ge _ _) Hf). unfold close_fd.
  destruct (holds (res_eqb (KFd, fd)) h); cbn [negb andb]; [by rewrite due_drop_fd, app_nil_r|].
  destruct (holds (res_eqb (KStale, fd)) h) eqn:E.
  - rewrite (due_release _ _ (Some fd) E) by (by intros y <-%res_eqb_eq). cbn. solve_Permutation.
  - rewrite app_nil_r. replace (drop_res _ h) with h; [done|]. symmetry. apply drop_res_none.
    by apply holds_false_iff.
Qed.

(** Every link is still there, or was destroyed and its descriptor is still to be closed, or was
    closed again. *)
Lemma links_accounted tr : linked tr ≡ₚ due (held_after tr) ++ closed_again tr.
Proof.
  induction tr as [|[c a] tr IH]; [done|].
  change (held_after ((c, a) :: tr)) with (effect c a (held_after tr)).
  pose proof (due_effect c a (held_after tr)) as He.
  destruct c; try (change (linked (_ :: tr)) with (linked tr);
    change (closed_again (_ :: tr)) with (closed_again tr); rewrite He; exact IH); clear He.
  - cbn [effect closed_again]. unfold linked. cbn [omap list_omap fst snd]. fold (linked tr).
    destruct (ret a =? 0); [exact IH|]. rewrite due_cons. cbn [option_list due1 fst app]. by rewrite IH.
  - change (linked (_ :: tr)) with (linked tr). change (closed_again (_ :: tr)) with (closed_again tr).
    cbn [effect]. destruct (link =? 0); [exact IH|]. by rewrite due_destroy_link.
  - change (linked (_ :: tr)) with (linked tr). rewrite IH, (due_close fd a) at 1. cbn [closed_again].
    destruct (_ && _ && _); [|by rewrite app_nil_r]. by rewrite <- app_assoc.
Qed.

(** ** Properties *)


(** Four CPUs of which the first three are in the mask and the second is offline; polls are
    interrupted.  And the same without memory. *)
Definition demo_env : environment := λ tr c,
  match c with RingPoll _ _ => Answer (- EINTR) 5 false [] | _ => obliging 99 tr c end.
Definition demo_no_memory : environment := λ tr c,
  match c with Malloc _ => Answer 0 12 false [] | _ => demo_env tr c end.

Lemma demo_env_ok : env_ok demo_env.
Proof.
  intros tr c. pose proof (obliging_ok 99 tr c) as Ho. destruct c; exact Ho.
Qed.


(** What these environments do. *)
Lemma profile_demo_run :
  let r := main 50 demo_env init in
  fst r = Returned 0 ∧ held (snd r) = [] ∧ sampled (trace (snd r)) = [(1, 2); (1, 0)] ∧
  linked (trace (snd r)) = [72; 70] ∧ closed_again (trace (snd r)) = [72; 70].
Proof. by vm_compute. Qed.

Lemma allocation_unchecked : fst (main 50 demo_no_memory init) = Undefined.
Proof. by vm_compute. Qed.
