(* ===== verification/BenchTime.v ===== *)
(** * BenchTime: what the benchmark programs share

    Reading the clock, messages, and the scenario the workloads are verified in: the clock is
    set to less than 90 million seconds, and a mapping that exists can be unmapped. *)

From S2P Require Import Prelude CInt BenchStats Process Wp Loaders.

(** A computation of [BenchStats] inside a process, and an array of constants. *)
Definition of_res {A} (r : res A) : P A := λ env w,
  (match r with Ok a => Returned a | _ => Undefined end, w).
Definition of_option {A} (o : option A) : P A := λ env w,
  (match o with Some a => Returned a | None => Undefined end, w).

Definition EXIT_FAILURE : Z := 1.
Definition O_RDONLY : Z := 0.
Definition O_WRONLY : Z := 1.
Definition O_RDWR : Z := 2.
Definition O_CREAT : Z := 64.
Definition O_TRUNC : Z := 512.

(** perror writes the message and the description of errno. *)
Definition perror (msg : string) : P () := eprintf (msg +:+ ": %s" +:+ nl).

(** long long get_time_in_ns(): ts is what clock_gettime stored. *)
Definition get_time_in_ns : P Z :=
  ts ← do ClockGettime;
  tv_sec ← read_var (out ts !! 0%nat);
  tv_nsec ← read_var (out ts !! 1%nat);
  of_res (BenchStats.get_time_in_ns tv_sec tv_nsec).

(** ** The scenario *)

Definition clock_ok (a : answer) : Prop :=
  ∃ s ns, out a = [s; ns] ∧ 0 ≤ s < 90000000 ∧ 0 ≤ ns < 1000000000.

(** Readings of such a clock. *)
Definition MAX_TIME : Z := 90000000 * 1000000000.

Definition workload_env (c : sys) (a : answer) : Prop :=
  match c with ClockGettime => clock_ok a | Munmap _ _ => ret a = 0 | _ => True end.

(** [ends code w]: what holds if the program calls exit. *)
Definition workload (ends : Z → world → Prop) : scenario :=
  Scenario None (λ _, workload_env) (λ _, True) ends.

Lemma wp_of_res {A} σ (r : res A) a (Q : A → world → Prop) w : r = Ok a → Q a w → wp σ (of_res r) Q w.
Proof. intros -> HQ env _ Hw. by split. Qed.

Lemma wp_of_option {A} σ (o : option A) a (Q : A → world → Prop) w :
  o = Some a → Q a w → wp σ (of_option o) Q w.
Proof. intros -> HQ env _ Hw. by split. Qed.

Lemma get_time_in_ns_ok s ns :
  0 ≤ s < 90000000 → 0 ≤ ns < 1000000000 → BenchStats.get_time_in_ns s ns = Ok (s * 1000000000 + ns).
Proof.
  intros Hs Hn. unfold BenchStats.get_time_in_ns.
  rewrite checked64_fits by lia. unfold fits. replace (_ <=? LLONG_MAX) with true by (unfold LLONG_MAX; lia).
  cbn [mbind res_bind]. rewrite checked64_fits by lia. unfold fits.
  by replace (_ <=? LLONG_MAX) with true by (unfold LLONG_MAX; lia).
Qed.

(** ** The readings of the clock, latest first, and the intervals between them *)

Definition reading (x : sys * answer) : option Z :=
  match x with
  | (ClockGettime, Answer _ _ _ [s; ns]) => Some (s * 1000000000 + ns)
  | _ => None
  end.
Definition readings (w : world) : list Z := omap reading (trace w).

(** From every second reading to the next. *)
Fixpoint intervals (ts : list Z) : list Z :=
  match ts with
  | t2 :: t1 :: ts => intervals ts ++ [t2 - t1]
  | _ => []
  end.

Definition not_clock (c : sys) : bool := match c with ClockGettime => false | _ => true end.

(** What does not look at the clock. *)
Lemma wp_unclocked σ {A} (m : P A) (Q : A → world → Prop) w :
  only not_clock m → wp σ m Q w → wp σ m (λ a w', Q a w' ∧ readings w' = readings w) w.
Proof.
  intros Hm Hw. eapply wp_mono; [by eapply wp_only|]. intros a w' [HQ (l & Hl & HC)].
  split; [done|]. unfold readings. rewrite Hl, omap_app.
  replace (omap reading l) with (@nil Z); [done|].
  clear Hl. induction HC as [|[c r] l Hc _ IH]; [done|]. cbn. rewrite <- IH. by destruct c.
Qed.

Lemma only_of_res C {A} (r : res A) : only C (of_res r).
Proof. by apply only_pure. Qed.
Lemma only_of_option C {A} (o : option A) : only C (of_option o).
Proof. by apply only_pure. Qed.
#[export] Hint Resolve only_of_res only_of_option : only.

Lemma wp_get_time σ (Q : Z → world → Prop) w :
  (∀ w, always σ w) → (∀ tr a, allowed σ tr ClockGettime a → clock_ok a) →
  (∀ t a, 0 ≤ t ≤ MAX_TIME → reading (ClockGettime, a) = Some t → Q t (after_call ClockGettime a w)) →
  wp σ get_time_in_ns Q w.
Proof.
  intros Hal Hc HQ. apply wp_bind, wp_do; [done|by intros|]. intros a _ (s & ns & Hout & Hs & Hns)%Hc.
  rewrite Hout. apply wp_bind, wp_read_var, wp_bind, wp_read_var.
  eapply wp_of_res; [by apply get_time_in_ns_ok|]. apply HQ; [unfold MAX_TIME; lia|].
  destruct a. cbn in *. by subst out.
Qed.

Lemma total_of_res {A} (r : res A) : total (of_res r).
Proof. intros env w. by destruct r. Qed.
Lemma total_of_option {A} (o : option A) : total (of_option o).
Proof. intros env w. by destruct o. Qed.
#[export] Hint Resolve total_of_res total_of_option : total.
Lemma total_get_time : total get_time_in_ns.
Proof. unfold get_time_in_ns. eauto 10 with total nocore. Qed.
#[export] Hint Resolve total_get_time : total.

Section workload.
Context (ends : Z → world → Prop).
Let σ := workload ends.

(** Unmapping succeeds; the address names one mapping. *)
Lemma wp_munmap p len b (Q : Z → world → Prop) w l :
  owns w ((KMap len b, p) :: l) → (∀ y, y ∈ l → mapped_at p len y = false) →
  (∀ a, owns (after_call (Munmap p len) a w) l → Q 0 (after_call (Munmap p len) a w)) →
  wp σ (call (Munmap p len)) Q w.
Proof.
  intros Hl Hu HQ. assert (mapped_at p len (KMap len b, p) = true) as Hx
    by (unfold mapped_at; cbn [fst snd]; by rewrite !Z.eqb_refl).
  apply wp_call; [|by intros|].
  - eapply enabled_owned; [done|exact Hl|by left|exact Hx].
  - intros a _ Ha. cbn in Ha. rewrite Ha. apply HQ. eapply owns_release; [exact Hl| |exact Hx|].
    + cbn. by rewrite Ha.
    + intros y Hy Hm. by rewrite Hu in Hm.
Qed.
End workload.

(** ** The addresses of mappings *)

Definition map_names (l : list resource) : list Z :=
  omap (λ x, match fst x with KMap _ _ => Some (snd x) | _ => None end) l.

#[export] Instance map_names_proper : Proper ((≡ₚ) ==> (≡ₚ)) map_names.
Proof. intros l l' Hl. unfold map_names. by rewrite Hl. Qed.

Lemma map_names_app l k : map_names (l ++ k) = map_names l ++ map_names k.
Proof. apply omap_app. Qed.

Lemma map_names_unique p len l y : p ∉ map_names l → y ∈ l → mapped_at p len y = false.
Proof.
  intros Hp Hy. destruct y as [k q]. unfold mapped_at. cbn [fst snd]. destruct k; try done.
  destruct (Z.eqb_spec q p) as [->|]; [|done]. destruct Hp. apply list_elem_of_omap.
  by eexists; split; [exact Hy|].
Qed.

(** A mapping is made where there is none. *)
Lemma fresh_mapping w l len b fd a :
  owns w l → fresh (held w) (Mmap len b fd) a → ret a ≠ MAP_FAILED → ret a ∉ map_names l.
Proof.
  intros Hl Hfr Ha (x & Hin & Hx)%list_elem_of_omap. destruct x as [k q].
  assert (effect (Mmap len b fd) a (held w) = (KMap len b, ret a) :: held w) as He.
  { cbn. by rewrite (proj2 (Z.eqb_neq _ _) Ha). }
  pose proof (owns_not_held _ _ _ _ Hl (Hfr _ He) Hin) as Hn. unfold same_name in Hn. cbn in *.
  destruct k; try done. injection Hx as ->. by rewrite Z.eqb_refl in Hn.
Qed.

(** ** Latencies *)

Definition latency_ok (t : Z) : Prop := - MAX_TIME ≤ t ≤ MAX_TIME.

Lemma latency_checked t1 t2 :
  0 ≤ t1 ≤ MAX_TIME → 0 ≤ t2 ≤ MAX_TIME → checked64 (t2 - t1) = Ok (t2 - t1) ∧ latency_ok (t2 - t1).
Proof.
  intros H1 H2. unfold MAX_TIME, latency_ok in *. split; [|unfold MAX_TIME; lia].
  apply checked64_ok. unfold in_s64, LLONG_MIN, LLONG_MAX. lia.
Qed.

(** The average of at most 100 of them does not overflow. *)
Lemma sum_loop_bounded B arr i n sum :
  0 ≤ i → (Z.to_nat i + n ≤ length arr)%nat → Forall (λ x, - B ≤ x ≤ B) arr →
  - (B * i) ≤ sum ≤ B * i → B * (i + Z.of_nat n) ≤ LLONG_MAX →
  ∃ s, sum_loop Ok arr i n sum = Ok s ∧ - (B * (i + Z.of_nat n)) ≤ s ≤ B * (i + Z.of_nat n).
Proof.
  intros Hi Hlen Hb. revert i sum Hi Hlen. induction n as [|n IH]; intros i sum Hi Hlen Hs HB.
  { exists sum. split; [done|lia]. }
  destruct (lookup_lt_is_Some_2 arr (Z.to_nat i)) as [x Hx]; [lia|].
  pose proof (Forall_lookup_1 _ _ _ _ Hb Hx) as Hxb. cbn beta in Hxb.
  cbn [sum_loop]. unfold get. replace (i <? 0) with false by lia. rewrite Hx. cbn [mbind res_bind].
  rewrite checked64_ok by (unfold in_s64, LLONG_MIN, LLONG_MAX in *; nia). cbn [mbind res_bind].
  destruct (IH (i + 1) (sum + x)) as (s & Hsum & Hbound); [lia|lia|lia|nia|].
  exists s. split; [exact Hsum|nia].
Qed.

Lemma average_of_latencies arr :
  (1 ≤ length arr ≤ 100)%nat → Forall latency_ok arr →
  ∃ avg, calculate_average arr (Z.of_nat (length arr)) = Ok avg ∧ latency_ok avg.
Proof.
  intros Hl Hb. destruct (sum_loop_bounded MAX_TIME arr 0 (length arr) 0) as (s & Hs & Hsb);
    [lia|lia|exact Hb|lia|unfold MAX_TIME, LLONG_MAX; lia|].
  exists (Z.quot s (Z.of_nat (length arr))). unfold calculate_average. rewrite Nat2Z.id, Hs.
  split; [done|]. split.
  - apply Z.quot_le_lower_bound; lia.
  - apply Z.quot_le_upper_bound; lia.
Qed.

Lemma undisturbed_clock tr : clock_ok (undisturbed tr ClockGettime).
Proof.
  exists (Z.of_nat (length tr) mod 1000), 0. split; [done|].
  pose proof (Z.mod_pos_bound (Z.of_nat (length tr)) 1000). lia.
Qed.
