(* ===== verification/BenchCache.v ===== *)
(** * BenchCache: examples/c/benchmark_cache.c

    Writes a file of 10000 blocks, reads it back block by block, and removes it.  What the
    blocks contain is not modelled: the accesses to the buffer are. *)

From S2P Require Import Prelude CInt CFormat Process Wp Loaders BenchTime.

Definition FILE_NAME : bytes := str "example_file.txt".
Definition BUFFER_SIZE : Z := 4096.
Definition ITERATIONS : nat := Z.to_nat 10000.

(** if (io(fd, buffer, BUFFER_SIZE) != BUFFER_SIZE) { .. exit(EXIT_FAILURE); } where the call
    reads the buffer (write) or writes it (read). *)
Definition transfer (writes : bool) (io : sys) (msg : string) (buffer fd : Z) : P () :=
  touch writes buffer 0 BUFFER_SIZE;;
  n ← call io;
  if negb (n =? BUFFER_SIZE) then
    perror msg;;
    call_ (Free buffer);;
    call_ (Close fd);;
    exit EXIT_FAILURE
  else mret ().

Definition main : P Z :=
  buffer ← call (Malloc BUFFER_SIZE);
  if buffer =? 0 then perror "Failed to allocate buffer";; exit EXIT_FAILURE else
  touch true buffer 0 BUFFER_SIZE;;                                  (* memset *)
  fd ← call (Open FILE_NAME (O_RDWR + O_CREAT + O_TRUNC));
  if fd =? -1 then
    perror "Failed to open file";;
    call_ (Free buffer);;
    exit EXIT_FAILURE
  else
  for_each 0 ITERATIONS (λ _ _, transfer false (Write fd) "Failed to write to file" buffer fd) ();;
  call_ (Lseek fd);;
  for_each 0 ITERATIONS (λ _ _, transfer true (Read fd) "Failed to read from file" buffer fd) ();;
  printf ("File operations completed successfully." +:+ nl);;
  call_ (Free buffer);;
  call_ (Close fd);;
  call_ (Unlink FILE_NAME);;
  mret 0.

(** ** Proof *)

(** A read or write of a whole block; the number of them in a trace. *)
Definition transfers (tr : list (sys * answer)) : list (bool * Z) :=
  omap (λ x, match fst x with
             | Write _ => Some (true, ret (snd x)) | Read _ => Some (false, ret (snd x)) | _ => None
             end) tr.

(** Exits have released everything. *)
Definition exits_clean : scenario :=
  Scenario None (λ _ _ _, True) (λ _, True) (λ code w, code = EXIT_FAILURE ∧ held w = []).

Section cache.
Let σ := exits_clean.
Variables (buffer fd : Z).
Hypothesis Hbuffer : buffer ≠ 0.
Hypothesis Hfd : 0 ≤ fd.

Definition open_file : list resource := [(KFd, fd); (KHeap BUFFER_SIZE, buffer)].

(** Releasing both, on the error path and at the end. *)
Lemma wp_release_both {A} (m : P A) Q w :
  owns w open_file →
  (∀ w', held w' = [] → transfers (trace w') = transfers (trace w) → wp σ m Q w') →
  wp σ (call_ (Free buffer);; call_ (Close fd);; m) Q w.
Proof using Hbuffer Hfd.
  intros Hw HQ.
  assert ((buffer =? 0) = false) as Hb by lia.
  assert (heap_at buffer (KHeap BUFFER_SIZE, buffer) = true) as Hh by apply Z.eqb_refl.
  apply wp_bind, wp_call_; [|by intros|].
  { eapply (enabled_owned _ (heap_at buffer)); [|exact Hw|by right; left|exact Hh]. cbn. by rewrite Hb. }
  intros a1 _ _. assert (owns (after_call (Free buffer) a1 w) [(KFd, fd)]) as Hw1.
  { eapply (owns_release _ _ _ _ (heap_at buffer) (KHeap BUFFER_SIZE, buffer)); [| |exact Hh|].
    - unfold owns in *. rewrite Hw. apply Permutation_swap.
    - cbn. by rewrite Hb.
    - intros y Hy. apply list_elem_of_singleton in Hy as ->. done. }
  apply wp_bind, wp_call_; [|by intros|].
  { eapply enabled_close; [done|exact Hw1|by left|apply closable_fd]. }
  intros a2 _ _. apply HQ; [|done]. apply Permutation_nil_r. exact (owns_close fd a2 _ [] Hfd Hw1).
Qed.

(** A loop of [n] transfers: if it ends, all of them were whole. *)
Lemma wp_transfers writes io b msg n (Q : () → world → Prop) w :
  needs io = [res_eqb (KFd, fd)] → (∀ a h, effect io a h = h) →
  (∀ a tr, transfers ((io, a) :: tr) = (b, ret a) :: transfers tr) →
  owns w open_file →
  (∀ w', owns w' open_file →
     transfers (trace w') = replicate n (b, BUFFER_SIZE) ++ transfers (trace w) → Q () w') →
  wp σ (for_each 0 n (λ _ _, transfer writes io msg buffer fd) ()) Q w.
Proof using Hbuffer Hfd.
  intros Hn He Ht Hw HQ.
  apply (wp_for_each σ (λ i _ w', owns w' open_file ∧
    transfers (trace w') = replicate i (b, BUFFER_SIZE) ++ transfers (trace w))); [|done|].
  - intros i [] w1 _ [Hw1 Hs]. unfold transfer. apply wp_bind.
    eapply wp_touch_block; [exact Hw1|by right; left|done|done|].
    apply wp_bind, wp_call; [|by intros|].
    { eapply enabled_owned; [exact Hn|exact Hw1|by left|by apply res_eqb_eq]. }
    intros a _ _. destruct (Z.eqb_spec (ret a) BUFFER_SIZE) as [Ha|Ha]; cbn [negb].
    + apply wp_ret. split; [by apply owns_same; [|apply He]|].
      cbn [trace after_call]. by rewrite Ht, Hs, Ha.
    + apply wp_bind, wp_call_; [done|by intros|]. intros a1 _ _.
      apply wp_release_both; [by repeat apply owns_same|]. intros w2 Hw2 _. by apply wp_exit.
  - intros [] w1 [Hw1 Hs]. by apply HQ.
Qed.
End cache.

Lemma cache_main_ok :
  wp exits_clean main (λ code w, code = 0 ∧ held w = [] ∧
    transfers (trace w) = replicate ITERATIONS (false, BUFFER_SIZE) ++ replicate ITERATIONS (true, BUFFER_SIZE))
    init.
Proof.
  unfold main. apply wp_bind, wp_call; [done|by intros|]. intros a _ _.
  destruct (Z.eqb_spec (ret a) 0) as [Ha|Ha].
  { apply wp_bind, wp_call_; [done|by intros|]. intros a1 _ _. apply wp_exit. split; [done|]. cbn. by rewrite Ha. }
  assert (owns (after_call (Malloc BUFFER_SIZE) a init) [(KHeap BUFFER_SIZE, ret a)]) as Hw.
  { apply owns_acquire; [apply perm_nil|]. cbn. by rewrite (proj2 (Z.eqb_neq _ _) Ha). }
  apply wp_bind. eapply wp_touch_block; [exact Hw|by left|done|done|].
  apply wp_bind, wp_call; [done|by intros|]. intros o (_ & _ & Ho) _.
  destruct (Z.eqb_spec (ret o) (-1)) as [Hm|Hm].
  { apply wp_bind, wp_call_; [done|by intros|]. intros a1 _ _.
    eapply wp_bind, (wp_free exits_clean (λ _, I) _ BUFFER_SIZE _ _ []); [|constructor|].
    - unfold res_of. rewrite (proj2 (Z.eqb_neq _ _) Ha). apply owns_same; [|done]. apply owns_same; [exact Hw|].
      cbn. by rewrite Hm.
    - intros w' Hw' _. apply wp_exit. split; [done|]. by apply Permutation_nil_r. }
  assert (0 ≤ ret o) as Hfd by lia.
  apply wp_bind, (wp_transfers (ret a) (ret o) Ha Hfd _ _ true); [done..| |].
  { apply owns_acquire; [exact Hw|]. cbn. by rewrite (proj2 (Z.ltb_ge _ _) Hfd). }
  intros w1 Hw1 Ht1. apply wp_bind, wp_call_; [|by intros|].
  { eapply enabled_owned; [done|exact Hw1|by left|by apply res_eqb_eq]. }
  intros a2 _ _. apply wp_bind, (wp_transfers (ret a) (ret o) Ha Hfd _ _ false); [done..|by apply owns_same|].
  intros w2 Hw2 Ht2. apply wp_bind, wp_call_; [done|by intros|]. intros a3 _ _.
  apply wp_release_both; [done|done|by apply owns_same|]. intros w3 Hw3 Ht3.
  apply wp_bind, wp_call_; [done|by intros|]. intros a4 _ _. apply wp_ret. split; [done|]. split; [exact Hw3|].
  etrans; [exact Ht3|]. etrans; [exact Ht2|]. apply (f_equal (app _)). etrans; [exact Ht1|]. apply app_nil_r.
Qed.

Lemma cache_main_total : total main.
Proof.
  unfold main, transfer, perror, eprintf, printf. eauto 60 with total nocore.
Qed.

(** ** Property *)

(** C34. Whatever malloc, open, write and read answer, benchmark_cache.c stays inside its
    buffer, and has freed it and closed the file whether it returns or exits; it returns (0)
    only after 10000 whole writes followed by 10000 whole reads, and never loops forever. *)
Theorem cache_benchmark_complete_or_clean (env : environment) :
  env_ok env →
  match main env init with
  | (Returned code, w) => code = 0 ∧ held w = [] ∧
      transfers (trace w) = replicate ITERATIONS (false, BUFFER_SIZE) ++ replicate ITERATIONS (true, BUFFER_SIZE)
  | (Exited code, w) => code = EXIT_FAILURE ∧ held w = []
  | (Killed, _) => True
  | (OutOfFuel, _) | (Undefined, _) => False
  end.
Proof.
  intros He. apply (wp_run_total exits_clean main); [apply cache_main_total|apply cache_main_ok|done..].
Qed.

Lemma cache_benchmark_complete_or_clean_witness :
  match main undisturbed init with
  | (Returned code, w) => code = 0 ∧ held w = [] ∧
      transfers (trace w) = replicate ITERATIONS (false, BUFFER_SIZE) ++ replicate ITERATIONS (true, BUFFER_SIZE)
  | (Exited code, w) => code = EXIT_FAILURE ∧ held w = []
  | (Killed, _) => True
  | (OutOfFuel, _) | (Undefined, _) => False
  end.
Proof. apply (cache_benchmark_complete_or_clean undisturbed), undisturbed_ok. Defined.
