(* ===== verification/BenchFiles.v ===== *)
(** * BenchFiles: examples/c/benchmark_file.c

    Creates, maps, fills and removes files in bursts, and prints how long that took.  The arrays
    of descriptors and buffers are lists; what the buffers contain is not modelled: the accesses
    to them are.  Lines that are commented out in [main] ([generate_old_files],
    [destroy_old_files]) are not called, but the functions are modelled.  Which files are left is
    computed from the calls, by name ([disk_of]). *)

From S2P Require Import Prelude CInt CFormat Float64 BenchStats Process Wp Loaders BenchTime.

Definition FILE_SIZE_MB : Z := 1.
Definition OLD_FILE_SIZE_MB : Z := 64.
Definition FILES_PER_ITERATION : nat := 20.
Definition OLD_FILES : nat := 2.
Definition BURSTS : nat := 60.
Definition ITERATIONS : nat := 20.

(** buffer[i] = rand() % 256, and buffer2[i] = buffer[i] *)
Definition generate_random_data (buffer size : Z) : P () :=
  for_each 0 (Z.to_nat size) (λ i _, _ ← call Rand; touch true buffer (Z.of_nat i) 1) ().
Definition read_random_data (buffer size : Z) : P () :=
  for_each 0 (Z.to_nat size) (λ i _, touch false buffer (Z.of_nat i) 1) ().

(** fds_old and buffers_old *)
Record old_files := Old { fds_old : list Z; buffers_old : list Z }.
Definition no_old_files : old_files := Old (replicate OLD_FILES 0) (replicate OLD_FILES 0).

(** snprintf(filename, sizeof(filename), "file_%d.dat", file_index) *)
Definition filename (prefix : string) (i : nat) : bytes :=
  snprintf_cut 256 (str prefix ++ fmt_d (Z.of_nat i) ++ str ".dat").

(** A round of the loops that create the files: the values of fds[i] and buffers[i];
    [buffer] is the value of buffers[i] before. *)
Definition create_file (name : bytes) (size buffer : Z) : P (Z * Z) :=
  fd ← call (Open name (O_RDWR + O_CREAT + O_TRUNC));
  if fd =? -1 then perror "Failed to open file";; mret (fd, buffer) else
  r ← call (Ftruncate fd size);
  if r =? -1 then perror "Failed to set file size";; call_ (Close fd);; mret (-1, buffer) else
  m ← call (Mmap size true fd);
  if m =? MAP_FAILED then perror "Failed to map the file";; call_ (Close fd);; mret (-1, 0) else
  generate_random_data m size;;
  mret (fd, m).

(** A round of the loops that remove the files. *)
Definition remove_file (name : bytes) (size fd buffer : Z) : P () :=
  (if negb (buffer =? 0) then
     r ← call (Munmap buffer size);
     if r =? -1 then perror "Failed to unmap memory" else mret ()
   else mret ());;
  if negb (fd =? -1) then
    call_ (Close fd);;
    r ← call (Unlink name);
    if r =? -1 then perror "Failed to delete file" else mret ()
  else mret ().

(** fds[20] is not initialised, buffers[20] is NULL. *)
Definition generate_files (old : old_files) (file_size : Z) (old_visit : bool) : P () :=
  files ← for_each 0 FILES_PER_ITERATION (λ i files,
    f ← create_file (filename "file_" i) file_size 0;
    (if old_visit && negb (snd f =? 0) then
       for_each 0 OLD_FILES (λ i _, b ← of_option (buffers_old old !! i); read_random_data b file_size) ()
     else mret ());;
    mret (files ++ [f])) [];
  for_each 0 FILES_PER_ITERATION (λ i _,
    f ← of_option (files !! i);
    remove_file (filename "file_" i) file_size (fst f) (snd f)) ().

Definition old_size : Z := OLD_FILE_SIZE_MB * 1024 * 1024.

Definition generate_old_files (old : old_files) : P old_files :=
  for_each 0 OLD_FILES (λ i old,
    b ← of_option (buffers_old old !! i);
    f ← create_file (filename "file_old_" i) old_size b;
    mret (Old (<[i := fst f]> (fds_old old)) (<[i := snd f]> (buffers_old old)))) old.

Definition destroy_old_files (old : old_files) : P () :=
  for_each 0 OLD_FILES (λ i _,
    fd ← of_option (fds_old old !! i);
    b ← of_option (buffers_old old !! i);
    remove_file (filename "file_old_" i) old_size fd b) ().

(** The two calls that are commented out in [main]. *)
Definition old_files_round : P () := old ← generate_old_files no_old_files; destroy_old_files old.

(** A round of main's loop: the latency.  (The double that is printed is recorded as the
    nanoseconds it is computed from.) *)
Definition measure_iteration (iteration : nat) : P Z :=
  start_time ← get_time_in_ns;
  call_ (Print Stdout ("Iteration %d..." +:+ nl) [Z.of_nat iteration + 1]);;
  printf ("Created old files..." +:+ nl);;
  for_each 0 BURSTS (λ _ _, generate_files no_old_files (FILE_SIZE_MB * 1024 * 1024) false) ();;
  end_time ← get_time_in_ns;
  latency_ns ← of_res (checked64 (end_time - start_time));
  call_ (Print Stdout ("Total latency: %.2f ms" +:+ nl) [latency_ns]);;
  mret latency_ns.

Definition measure : P (list Z) :=
  call_ Srand;;
  printf ("Starting file generation..." +:+ nl);;
  latencies ← for_each 0 ITERATIONS (λ i latencies, l ← measure_iteration i; mret (latencies ++ [l])) [];
  printf ("File generation complete." +:+ nl);;
  mret latencies.

(** The function is that of benchmark.c. *)
Definition calculate_average : list Z → Z → res Z := BenchStats.calculate_average.

Definition average_ms (latencies : list Z) : res Z :=
  average ← calculate_average latencies (Z.of_nat ITERATIONS);
  f64_to_s64 (f64_div (f64_of_Z average) (f64_of_Z 1000000)).

Definition main : P Z :=
  latencies ← measure;
  average ← of_res (average_ms latencies);
  call_ (Print Stdout ("Average: %lld ms" +:+ nl) [average]);;
  mret 0.

(** ** Proof *)

(** The names that were created and not removed; of them, those that were given up (after
    ftruncate or mmap failed on their descriptor) or that unlink did not remove; and the name
    each descriptor was last opened for. *)
Record disk := Disk { present : gset bytes; excused : gset bytes; named : gmap Z bytes }.

Definition excuse (n : bytes) (d : disk) : disk := Disk (present d) ({[n]} ∪ excused d) (named d).
Definition abandon (fd : Z) (d : disk) : disk :=
  match named d !! fd with Some n => excuse n d | None => d end.

Definition disk_step (x : sys * answer) (d : disk) : disk :=
  match fst x with
  | Open n _ =>
      if 0 <=? ret (snd x)
      then Disk ({[n]} ∪ present d) (excused d ∖ {[n]}) (<[ret (snd x) := n]> (named d)) else d
  | Unlink n =>
      if ret (snd x) =? 0 then Disk (present d ∖ {[n]}) (excused d ∖ {[n]}) (named d) else excuse n d
  | Ftruncate fd _ => if ret (snd x) =? -1 then abandon fd d else d
  | Mmap _ _ fd => if ret (snd x) =? MAP_FAILED then abandon fd d else d
  | _ => d
  end.
Definition disk_of (w : world) : disk := foldr disk_step (Disk ∅ ∅ ∅) (trace w).

(** Every file that is there is excused or one of [k]. *)
Definition accounted (w : world) (k : gset bytes) : Prop :=
  present (disk_of w) ⊆ excused (disk_of w) ∪ k.

(** The process owns [l], in which mappings have different addresses, and the files [k] are
    still to be removed. *)
Definition has (w : world) (l : list resource) (k : gset bytes) : Prop :=
  owns w l ∧ NoDup (map_names l) ∧ accounted w k.

Lemma has_files_same c a w l k :
  has w l k → effect c a (held w) = held w → (∀ d, disk_step (c, a) d = d) → has (after_call c a w) l k.
Proof.
  intros (Hl & Hd & Hk) He Hc. split; [by apply owns_same|]. split; [done|].
  unfold accounted, disk_of in *. cbn. by rewrite Hc.
Qed.

(** What the calls on a file do to the account. *)
Lemma open_accounted n flags a w k :
  0 ≤ ret a → accounted w k →
  accounted (after_call (Open n flags) a w) ({[n]} ∪ k) ∧
  named (disk_of (after_call (Open n flags) a w)) !! ret a = Some n.
Proof.
  intros Ha Hk. unfold accounted, disk_of in *. cbn [after_call trace foldr disk_step fst snd].
  replace (0 <=? ret a) with true by lia. cbn [present excused named].
  split; [|by rewrite lookup_insert_eq].
  intros x. destruct (decide (x = n)); set_solver.
Qed.

Lemma excuse_accounted n w w' k :
  disk_of w' = excuse n (disk_of w) → accounted w ({[n]} ∪ k) → accounted w' k.
Proof. unfold accounted. intros ->. cbn. set_solver. Qed.

Lemma give_up_disk c a w fd n :
  (∀ d, disk_step (c, a) d = abandon fd d) → named (disk_of w) !! fd = Some n →
  disk_of (after_call c a w) = excuse n (disk_of w).
Proof.
  intros Hs Hn. unfold disk_of in *. cbn. rewrite Hs. unfold abandon. by rewrite Hn.
Qed.

Lemma unlink_accounted n a w k :
  accounted w ({[n]} ∪ k) → accounted (after_call (Unlink n) a w) k.
Proof.
  intros Hk. destruct (Z.eqb_spec (ret a) 0) as [Ha|Ha].
  - unfold accounted, disk_of in *. cbn. rewrite Ha. cbn. set_solver.
  - eapply excuse_accounted; [|exact Hk]. unfold disk_of. cbn. by rewrite (proj2 (Z.eqb_neq _ _) Ha).
Qed.

(** The resources of a file: its descriptor and its mapping. *)
Definition file_res (size : Z) (f : Z * Z) : list resource :=
  (if fst f <? 0 then [] else [(KFd, fst f)]) ++ (if snd f =? 0 then [] else [(KMap size true, snd f)]).
Definition files_res (size : Z) (files : list (Z * Z)) : list resource := files ≫= file_res size.
Definition opened (n : bytes) (f : Z * Z) : gset bytes := if fst f <? 0 then ∅ else {[n]}.

Section files.
Let σ := workload (λ _ _, False).

Ltac idle := apply wp_bind, wp_call_; [done|by intros|]; intros ? _ _.

Lemma generate_random_data_ok p size (Q : () → world → Prop) w l k :
  0 ≤ size → has w ((KMap size true, p) :: l) k →
  (∀ w', has w' ((KMap size true, p) :: l) k → Q () w') → wp σ (generate_random_data p size) Q w.
Proof.
  intros Hs Hw HQ. unfold generate_random_data.
  apply (wp_for_each σ (λ _ _ w', has w' ((KMap size true, p) :: l) k)); [|done|].
  - intros i [] w1 Hi Hw1. apply wp_bind, wp_call; [done|by intros|]. intros a _ _.
    apply wp_touch; [|by apply has_files_same].
    eapply owns_holds; [by apply owns_same; [apply Hw1|]|]. apply holds_iff. eexists. split; [by left|].
    unfold covers. cbn [fst snd]. rewrite Z.eqb_refl. cbn. lia.
  - intros [] w1. apply HQ.
Qed.

Lemma has_enabled c f x w l k : has w l k → needs c = [f] → x ∈ l → f x = true → enabled c w = true.
Proof. intros [Hl _] Hn Hin Hx. eapply enabled_owned; eauto. Qed.

Lemma wp_has_close fd (Q : () → world → Prop) w l k :
  0 ≤ fd → has w ((KFd, fd) :: l) k → (∀ w', has w' l k → Q () w') → wp σ (call_ (Close fd)) Q w.
Proof.
  intros Hfd (Hl & Hd & Hk) HQ. apply wp_call_; [|by intros|].
  - eapply enabled_close; [done|exact Hl|by left|apply closable_fd].
  - intros a _ _. apply HQ. split; [by apply owns_close|done].
Qed.

(** Giving a file up after a failure. *)
Lemma abandon_file msg fd b (Q : Z * Z → world → Prop) w l k :
  0 ≤ fd → has w ((KFd, fd) :: l) k → (∀ w', has w' l k → Q (-1, b) w') →
  wp σ (perror msg;; call_ (Close fd);; mret (-1, b)) Q w.
Proof.
  intros Hfd Hw HQ. idle. eapply wp_bind, wp_has_close; [done|by apply has_files_same|].
  intros w' Hw'. by apply wp_ret, HQ.
Qed.

(** A file whose ftruncate or mmap fails. *)
Lemma give_up_file c a msg n fd b (Q : Z * Z → world → Prop) w l k :
  0 ≤ fd → has w ((KFd, fd) :: l) ({[n]} ∪ k) → named (disk_of w) !! fd = Some n →
  effect c a (held w) = held w → (∀ d, disk_step (c, a) d = abandon fd d) →
  (∀ w', has w' l k → Q (-1, b) w') →
  wp σ (perror msg;; call_ (Close fd);; mret (-1, b)) Q (after_call c a w).
Proof.
  intros Hfd (Hl & Hd & Hk) Hn He Hs. eapply abandon_file; [done|].
  split; [by apply owns_same|]. split; [done|].
  eapply excuse_accounted; [by eapply give_up_disk|exact Hk].
Qed.

(** A mapping that was made. *)
Lemma mapped_file fd size m w l k :
  has w ((KFd, fd) :: l) k → fresh (held w) (Mmap size true fd) m → ret m ≠ MAP_FAILED →
  has (after_call (Mmap size true fd) m w) ((KMap size true, ret m) :: (KFd, fd) :: l) k.
Proof.
  intros (Hl & Hd & Hk) Hfr Hm. split; [|split].
  - apply owns_acquire; [done|]. cbn. by rewrite (proj2 (Z.eqb_neq _ _) Hm).
  - cbn. apply NoDup_cons. split; [|done]. exact (fresh_mapping _ _ _ _ _ _ Hl Hfr Hm).
  - unfold accounted, disk_of in *. cbn. by rewrite (proj2 (Z.eqb_neq _ _) Hm).
Qed.

Lemma create_file_ok name size w l k :
  0 ≤ size → has w l k →
  wp σ (create_file name size 0)
    (λ f w', -1 ≤ fst f ∧ has w' (file_res size f ++ l) (opened name f ∪ k)) w.
Proof.
  intros Hs Hw. unfold create_file, opened. apply wp_bind, wp_call; [done|by intros|]. intros a (_ & _ & Ha) _.
  set (w1 := after_call _ _ _). destruct (Z.eqb_spec (ret a) (-1)) as [E|E].
  { idle. apply wp_ret. rewrite E. split; [done|]. cbn [fst snd file_res app].
    change (if -1 <? 0 then ∅ else {[name]}) with (∅ : gset bytes). rewrite union_empty_l_L.
    apply has_files_same; [|done..]. apply has_files_same; [done|cbn; by rewrite E|].
    intros d. cbn. by rewrite E. }
  assert (0 ≤ ret a ∧ (ret a <? 0) = false) as [Hfd Hfd'] by lia.
  assert (has w1 ((KFd, ret a) :: l) ({[name]} ∪ k) ∧ named (disk_of w1) !! ret a = Some name) as [Hw1 Hn1].
  { destruct Hw as (Hl & Hd & Hk).
    destruct (open_accounted name (O_RDWR + O_CREAT + O_TRUNC) a w k Hfd Hk) as [Hk1 Hn].
    split; [|exact Hn]. split; [|split; [done|exact Hk1]].
    apply owns_acquire; [done|]. cbn. by rewrite Hfd'. }
  clearbody w1. clear Hw Ha. apply wp_bind, wp_call; [|by intros|].
  { eapply has_enabled; [exact Hw1|done|by left|by apply res_eqb_eq]. }
  intros r _ _. destruct (Z.eqb_spec (ret r) (-1)) as [Hr|Hr].
  { eapply (give_up_file _ _ _ name _ _ _ _ l k); [done|exact Hw1|done|done| |].
    - intros d. cbn. by rewrite Hr.
    - intros w' Hw'. split; [done|]. cbn [fst snd].
      change (if -1 <? 0 then ∅ else {[name]}) with (∅ : gset bytes). by rewrite union_empty_l_L. }
  assert (∀ d, disk_step (Ftruncate (ret a) size, r) d = d) as Hsame.
  { intros d. cbn. by rewrite (proj2 (Z.eqb_neq _ _) Hr). }
  assert (named (disk_of (after_call (Ftruncate (ret a) size) r w1)) !! ret a = Some name) as Hn2.
  { unfold disk_of in *. cbn [after_call trace foldr]. by rewrite Hsame. }
  eapply (has_files_same (Ftruncate (ret a) size) r) in Hw1; [|done|exact Hsame].
  revert Hw1 Hn2. generalize (after_call (Ftruncate (ret a) size) r w1). clear w1 Hn1. intros w1 Hw1 Hn1.
  apply wp_bind, wp_call; [|by intros|].
  { eapply has_enabled; [exact Hw1|done|by left|by apply res_eqb_eq]. }
  intros m (_ & Hfr & Hm0) _. destruct (Z.eqb_spec (ret m) MAP_FAILED) as [Hm|Hm].
  { eapply (give_up_file _ _ _ name _ _ _ _ l k); [done|exact Hw1|done|cbn; by rewrite Hm| |].
    - intros d. cbn. by rewrite Hm.
    - intros w' Hw'. split; [done|]. cbn [fst snd].
      change (if -1 <? 0 then ∅ else {[name]}) with (∅ : gset bytes). by rewrite union_empty_l_L. }
  eapply (mapped_file (ret a) size m) in Hw1; [|done..]. revert Hw1.
  generalize (after_call (Mmap size true (ret a)) m w1). intros w2 Hw2.
  eapply wp_bind, generate_random_data_ok; [done|exact Hw2|]. intros w3 (Hl & Hd & Hk). apply wp_ret.
  split; [cbn; lia|]. unfold file_res. cbn [fst snd]. rewrite Hfd', (proj2 (Z.eqb_neq _ _) Hm0).
  split; [|split; [exact Hd|exact Hk]]. unfold owns in *. rewrite Hl. apply Permutation_swap.
Qed.

Lemma remove_file_ok name size f w l k (Q : () → world → Prop) :
  has w (file_res size f ++ l) (opened name f ∪ k) → (∀ w', has w' l k → Q () w') →
  -1 ≤ fst f → wp σ (remove_file name size (fst f) (snd f)) Q w.
Proof.
  destruct f as [fd b]. unfold file_res, opened. cbn [fst snd]. intros Hw HQ Hfd. unfold remove_file.
  apply wp_bind. eapply (wp_mono σ _ (λ _ w', has w' ((if fd <? 0 then [] else [(KFd, fd)]) ++ l)
    ((if fd <? 0 then ∅ else {[name]}) ∪ k))).
  - destruct (Z.eqb_spec b 0) as [|Hb]; cbn [negb].
    { apply wp_ret. by rewrite app_nil_r in Hw. }
    destruct Hw as (Hl & Hd & Hk). rewrite <- app_assoc in Hl. cbn [app] in Hl.
    apply wp_bind. eapply wp_munmap.
    + unfold owns. rewrite Hl. symmetry. apply Permutation_middle.
    + intros y Hy. eapply map_names_unique; [|exact Hy].
      rewrite !map_names_app in *. by destruct (fd <? 0); cbn in *; apply NoDup_cons in Hd as [? _].
    + intros a Hw'. apply wp_ret. split; [exact Hw'|]. split; [|done].
      rewrite !map_names_app in *. by destruct (fd <? 0); cbn in *; apply NoDup_cons in Hd as [_ ?].
  - intros _ w1 Hw1. destruct (Z.eqb_spec fd (-1)) as [->|Hne]; cbn [negb].
    { apply wp_ret, HQ. cbn in *. by rewrite union_empty_l_L in Hw1. }
    replace (fd <? 0) with false in * by lia. cbn [app] in Hw1.
    eapply wp_bind, wp_has_close; [lia|exact Hw1|]. intros w2 Hw2.
    apply wp_bind, wp_call; [done|by intros|]. intros a _ _.
    assert (has (after_call (Unlink name) a w2) l k) as Hw3.
    { destruct Hw2 as (Hl & Hd & Hk). split; [by apply owns_same|]. split; [done|].
      by apply unlink_accounted. }
    destruct (ret a =? -1); [|by apply wp_ret, HQ].
    apply wp_call_; [done|by intros|]. intros a1 _ _. apply HQ. by apply has_files_same.
Qed.

(** ** Rounds of files *)

(** The names of the files from index [i] on that are open. *)
Fixpoint open_names (prefix : string) (i : nat) (files : list (Z * Z)) : gset bytes :=
  match files with
  | [] => ∅
  | f :: files => opened (filename prefix i) f ∪ open_names prefix (S i) files
  end.

Lemma open_names_snoc prefix i files f :
  open_names prefix i (files ++ [f]) =
  opened (filename prefix (i + length files)) f ∪ open_names prefix i files.
Proof.
  revert i. induction files as [|g files IH]; intros i; cbn.
  - by rewrite Nat.add_0_r.
  - rewrite IH. replace (S i + length files)%nat with (i + S (length files))%nat by lia. set_solver.
Qed.

Lemma has_files_perm w l l' k : l ≡ₚ l' → has w l k → has w l' k.
Proof. intros Hp (Hl & Hd & Hk). split; [|split; [|done]]; [unfold owns in *|]; by rewrite <- Hp. Qed.

(** The process owns what [files], numbered from [i], name, on top of [l]. *)
Definition has_files (prefix : string) (i : nat) (size : Z) (files : list (Z * Z))
    (l : list resource) (k : gset bytes) (w : world) : Prop :=
  Forall (λ f, -1 ≤ fst f) files ∧ has w (files_res size files ++ l) (open_names prefix i files ∪ k).

Lemma create_next prefix size files l k w :
  0 ≤ size → has_files prefix 0 size files l k w →
  wp σ (create_file (filename prefix (length files)) size 0)
    (λ f w', has_files prefix 0 size (files ++ [f]) l k w') w.
Proof.
  intros Hs [Hf Hw]. eapply wp_mono; [by apply create_file_ok|]. intros f w' [Hf1 Hw'].
  split; [apply Forall_app; auto|]. rewrite open_names_snoc, <- union_assoc_L. cbn [Nat.add].
  eapply has_files_perm; [|exact Hw']. unfold files_res. rewrite bind_app. cbn. rewrite app_nil_r. solve_Permutation.
Qed.

Lemma remove_next prefix i size f files l k w (Q : () → world → Prop) :
  has_files prefix i size (f :: files) l k w → (∀ w', has_files prefix (S i) size files l k w' → Q () w') →
  wp σ (remove_file (filename prefix i) size (fst f) (snd f)) Q w.
Proof.
  intros [Hf Hw] HQ. apply Forall_cons in Hf as [Hf Hfs]. cbn in Hw.
  rewrite <- app_assoc, <- union_assoc_L in Hw.
  eapply remove_file_ok; [exact Hw| |done]. intros w' Hw'. apply HQ. by split.
Qed.

Lemma burst_files_ok old size l k (Q : () → world → Prop) w :
  0 ≤ size → has w l k → (∀ w', has w' l k → Q () w') → wp σ (generate_files old size false) Q w.
Proof.
  intros Hs Hw HQ. unfold generate_files. cbn [andb]. generalize FILES_PER_ITERATION. intros n.
  apply wp_bind, (wp_for_each σ (λ i files w', length files = i ∧ has_files "file_" 0 size files l k w')).
  - intros i files w1 _ [Hi Hw1]. eapply wp_bind, wp_mono; [subst i; by apply create_next|]. intros f w2 Hw2.
    apply wp_bind, wp_ret, wp_ret. split; [rewrite length_app; cbn; lia|done].
  - split; [done|]. split; [done|]. cbn. by rewrite union_empty_l_L.
  - intros files w1 [Hn Hw1].
    apply (wp_for_each σ (λ i _ w', has_files "file_" i size (drop i files) l k w')); [|done|].
    + intros i [] w2 Hi Hw2. destruct (lookup_lt_is_Some_2 files i) as [f Hf]; [lia|].
      rewrite (drop_S _ _ _ Hf) in Hw2.
      eapply wp_bind, wp_of_option; [exact Hf|]. eapply remove_next; [exact Hw2|done].
    + intros [] w2. rewrite drop_ge by lia. intros [_ Hw2]. apply HQ. cbn in Hw2. by rewrite union_empty_l_L in Hw2.
Qed.

(** The files [generate_old_files] leaves are those [destroy_old_files] removes. *)
Lemma old_files_ok l k w :
  has w l k →
  wp σ old_files_round (λ _ w', has w' l k) w.
Proof.
  intros Hw. assert (0 ≤ old_size) as Hs by done. revert Hs. unfold old_files_round, generate_old_files, destroy_old_files, no_old_files.
  generalize old_size OLD_FILES. intros size n Hs.
  apply wp_bind, (wp_for_each σ (λ i old w', ∃ files, length files = i ∧ has_files "file_old_" 0 size files l k w' ∧
    old = Old (fst <$> files ++ replicate (n - i) (0, 0)) (snd <$> files ++ replicate (n - i) (0, 0)))).
  - intros i old w1 Hi (files & Hlen & Hw1 & ->). cbn [fds_old buffers_old].
    replace (n - i)%nat with (S (n - S i)) by lia.
    apply wp_bind. eapply wp_of_option.
    { rewrite list_lookup_fmap, lookup_app_r, Hlen, Nat.sub_diag by lia. done. }
    eapply wp_bind, wp_mono; [subst i; by apply create_next|]. intros f w2 Hw2. apply wp_ret.
    exists (files ++ [f]). split; [rewrite length_app; cbn; lia|]. split; [done|].
    rewrite <- !list_fmap_insert. rewrite !insert_app_r_alt, Hlen, Nat.sub_diag by lia.
    rewrite <- !app_assoc. done.
  - exists []. split; [done|]. cbn [app]. rewrite Nat.sub_0_r, !fmap_replicate. split; [|done]. split; [done|]. cbn. by rewrite union_empty_l_L.
  - intros old w1 (files & Hlen & Hw1 & ->). rewrite Nat.sub_diag, app_nil_r. cbn [fds_old buffers_old].
    apply (wp_for_each σ (λ i _ w', has_files "file_old_" i size (drop i files) l k w')); [|done|].
    + intros i [] w2 Hi Hw2. destruct (lookup_lt_is_Some_2 files i) as [f Hf]; [cbn in *; lia|].
      rewrite (drop_S _ _ _ Hf) in Hw2.
      eapply wp_bind, wp_of_option; [by rewrite list_lookup_fmap, Hf|].
      eapply wp_bind, wp_of_option; [by rewrite list_lookup_fmap, Hf|].
      eapply remove_next; [exact Hw2|done].
    + intros [] w2. rewrite drop_ge by (cbn in *; lia). intros [_ Hw2]. cbn in Hw2. by rewrite union_empty_l_L in Hw2.
Qed.

(** ** The measurement *)

Lemma only_create_file name size b : only not_clock (create_file name size b).
Proof. unfold create_file, generate_random_data, perror, eprintf. eauto 60 with only nocore. Qed.
Lemma only_remove_file name size fd b : only not_clock (remove_file name size fd b).
Proof. unfold remove_file, perror, eprintf. eauto 60 with only nocore. Qed.
#[local] Hint Resolve only_create_file only_remove_file : only.
Lemma only_generate_files old size b : only not_clock (generate_files old size b).
Proof. unfold generate_files, read_random_data. eauto 60 with only nocore. Qed.
#[local] Hint Resolve only_generate_files : only.

(** An iteration reads the clock at its beginning and at its end. *)
Lemma measure_iteration_ok i l k w :
  has w l k →
  wp σ (measure_iteration i) (λ t w', latency_ok t ∧ has w' l k ∧
    intervals (readings w') = intervals (readings w) ++ [t]) w.
Proof.
  intros Hw. unfold measure_iteration. apply wp_bind, wp_get_time; [done|done|]. intros t1 a1 Ht1 Hr1. do 2 idle.
  assert (0 ≤ FILE_SIZE_MB * 1024 * 1024) as Hs by done. revert Hs.
  generalize (FILE_SIZE_MB * 1024 * 1024) BURSTS. intros size n Hs.
  apply wp_bind. eapply wp_mono.
  { apply wp_unclocked; [by eauto with only nocore|].
    apply (wp_for_each σ (λ _ _ w', has w' l k)); [|by repeat apply has_files_same|intros ? w' Hw'; exact Hw'].
    intros j [] w1 _ Hw1. by eapply burst_files_ok. }
  intros [] w1 [Hw1 Hr]. apply wp_bind, wp_get_time; [done|done|]. intros t2 a4 Ht2 Hr2.
  destruct (latency_checked t1 t2 Ht1 Ht2) as [Hc Hlat].
  eapply wp_bind, wp_of_res; [exact Hc|]. idle. apply wp_ret. split; [done|].
  split; [by repeat apply has_files_same|].
  assert (readings w1 = t1 :: readings w) as E by (rewrite Hr; unfold readings; cbn in *; by rewrite Hr1).
  unfold readings in *. cbn. cbn in Hr2. by rewrite Hr2, E.
Qed.

Lemma file_measure_ok :
  wp σ measure (λ ls w, length ls = ITERATIONS ∧ Forall latency_ok ls ∧ has w [] ∅ ∧
    intervals (readings w) = ls) init.
Proof.
  unfold measure. do 2 idle. generalize ITERATIONS. intros n.
  apply wp_bind, (wp_for_each σ (λ i ls w', length ls = i ∧ Forall latency_ok ls ∧ has w' [] ∅ ∧
    intervals (readings w') = ls)).
  - intros i ls w1 _ (Hi & Hls & Hw1 & Hr). eapply wp_bind, wp_mono; [by apply measure_iteration_ok|].
    intros t w2 (Ht & Hw2 & Hr2). apply wp_ret. split; [rewrite length_app; cbn; lia|].
    split; [apply Forall_app; auto|]. split; [done|]. by rewrite Hr2, Hr.
  - split; [done|]. split; [constructor|]. split; [|done].
    do 2 (apply has_files_same; [|done..]). split; [apply perm_nil|]. split; [constructor|done].
  - intros ls w1 (Hi & Hls & Hw1 & Hr). idle. apply wp_ret. split; [done|]. split; [done|].
    split; [by apply has_files_same|done].
Qed.

(** The clock was read before and after each iteration, and what main printed last is the
    average of the intervals in milliseconds. *)
Definition average_printed (w : world) : Prop :=
  let latencies := intervals (readings w) in
  length latencies = ITERATIONS ∧
  ∃ average ms a older,
    calculate_average latencies (Z.of_nat ITERATIONS) = Ok average ∧
    (Z.abs average < 2 ^ 52 → ms = Z.quot average 1000000) ∧
    trace w = (Print Stdout ("Average: %lld ms" +:+ nl) [ms], a) :: older.

Lemma file_main_ok : wp σ main (λ code w, code = 0 ∧ has w [] ∅ ∧ average_printed w) init.
Proof.
  unfold main. eapply wp_bind, wp_mono; [apply file_measure_ok|]. intros ls w (Hlen & Hls & Hw & Hrd).
  destruct (average_of_latencies ls) as (avg & Ha & Hb); [rewrite Hlen; unfold ITERATIONS; lia|done|].
  rewrite Hlen in Ha. unfold latency_ok, MAX_TIME in Hb.
  destruct (quot_million avg) as (ms & Hms & Hr & Hex); [lia|].
  apply wp_bind, (wp_of_res _ _ ms).
  { unfold average_ms. unfold calculate_average in *. rewrite Ha. cbn [mbind res_bind].
    unfold f64_to_s64. rewrite Hms. apply checked64_ok. unfold in_s64, LLONG_MIN, LLONG_MAX. lia. }
  apply wp_bind, wp_call_; [done|by intros|]. intros a _ _. apply wp_ret. split; [done|].
  split; [by apply has_files_same|]. change (readings (after_call _ _ w)) with (readings w).
  unfold average_printed. cbv zeta. change (readings (after_call _ a w)) with (readings w). rewrite Hrd.
  split; [done|]. by exists avg, ms, a, (trace w).
Qed.
End files.

Lemma total_create_file name size b : total (create_file name size b).
Proof. unfold create_file, generate_random_data, perror, eprintf. eauto 20 with total nocore. Qed.
Lemma total_remove_file name size fd b : total (remove_file name size fd b).
Proof. unfold remove_file, perror, eprintf. eauto 20 with total nocore. Qed.
#[local] Hint Resolve total_create_file total_remove_file : total.
Lemma total_generate_files old size b : total (generate_files old size b).
Proof. unfold generate_files, read_random_data. eauto 30 with total nocore. Qed.
#[local] Hint Resolve total_generate_files : total.
Lemma file_measure_total : total measure.
Proof. unfold measure, measure_iteration, printf. eauto 30 with total nocore. Qed.
#[local] Hint Resolve file_measure_total : total.
Lemma file_main_total : total main.
Proof. unfold main. eauto 10 with total nocore. Qed.

Lemma old_files_total : total old_files_round.
Proof. unfold old_files_round, generate_old_files, destroy_old_files. eauto 30 with total nocore. Qed.

(** ** Property *)

(** The files that are left are those that were given up or that unlink did not remove. *)
Definition files_left (w : world) : Prop := present (disk_of w) ⊆ excused (disk_of w).

Lemma accounted_left w : accounted w ∅ → files_left w.
Proof. unfold accounted, files_left. by rewrite union_empty_r_L. Qed.

(** How main, and a round of old files, end. *)
Definition finished (r : outcome Z * world) : Prop :=
  match r with
  | (Returned code, w) => code = 0 ∧ held w = [] ∧ files_left w ∧ average_printed w
  | (Killed, _) => True
  | _ => False
  end.
Definition cleaned_up (r : outcome () * world) : Prop :=
  match r with
  | (Returned _, w) => held w = [] ∧ files_left w
  | (Killed, _) => True
  | _ => False
  end.

(** C32. With a clock below 90 million seconds, an environment that unmaps what is mapped, and
    whatever open, ftruncate and mmap answer, benchmark_file.c terminates by itself with
    exit code 0; it stays inside its mappings, has unmapped and closed everything, and has
    removed every file it created, except those it gave up after ftruncate or mmap failed and
    those that unlink did not remove; it prints the average, in milliseconds, of the 20
    intervals between the clock readings before and after each iteration (exactly, when the
    average is below 2^52 ns, 52 days).  [destroy_old_files] after [generate_old_files] cleans up
    in the same way. *)
Theorem file_benchmark_cleans_up (env : environment) :
  env_ok env → (∀ tr c, workload_env c (env tr c)) →
  finished (main env init) ∧ cleaned_up (old_files_round env init).
Proof.
  intros He Hw. assert (good_env (workload (λ _ _, False)) env) as Hg by by split_and!.
  split.
  - pose proof (wp_run_total _ main _ env file_main_total file_main_ok Hg I) as Hr. unfold finished.
    destruct (main env init) as [[code|code| | |] w]; [|done..].
    destruct Hr as (Hc & (Hl & _ & Hp) & Hpr). split; [done|].
    split; [by apply Permutation_nil_r in Hl|]. split; [by apply accounted_left|done].
  - assert (has init [] ∅) as Hi by (split; [apply perm_nil|split; [constructor|done]]).
    pose proof (wp_run_total _ _ _ env old_files_total (old_files_ok [] ∅ init Hi) Hg I) as Hr. unfold cleaned_up.
    destruct (old_files_round env init) as [[u|code| | |] w]; [|done..].
    destruct Hr as (Hl & _ & Hp). split; [by apply Permutation_nil_r in Hl|by apply accounted_left].
Qed.

Lemma file_benchmark_cleans_up_witness :
  finished (main undisturbed init) ∧ cleaned_up (old_files_round undisturbed init).
Proof.
  apply (file_benchmark_cleans_up undisturbed); [apply undisturbed_ok|]. intros tr c. destruct c; try done.
  apply undisturbed_clock.
Defined.

(** When ftruncate fails, the files of a burst are created, closed and left on the disk; when
    nothing fails, none is left. *)
Lemma failed_ftruncate_leaves_files :
  let failing : environment := λ tr c, match c with Ftruncate _ _ => Answer (-1) 28 false [] | _ => undisturbed tr c end in
  let w := snd (generate_files no_old_files 1 false failing init) in
  held w = [] ∧ size (present (disk_of w)) = 20%nat ∧
  disk_of (snd (generate_files no_old_files 1 false undisturbed init)) =
    Disk ∅ ∅ (named (disk_of (snd (generate_files no_old_files 1 false undisturbed init)))).
Proof. by vm_compute. Qed.
