(* ===== verification/BenchWmhigh.v ===== *)
(** * BenchWmhigh: examples/c/benchmark_wmhigh.c

    Maps files of 500 MB one at a time and reads or writes a block at a random place in each.
    What the mappings contain is not modelled: the accesses to them are, against the length of
    the mapping (a file shorter than its mapping is the kernel's business).  doubles are those
    of [BenchStats]; those that are only printed are recorded as the integers they come from.
    The call of [generate_files] in [main] is commented out. *)

From Stdlib Require Import Floats.SpecFloat.
From S2P Require Import Prelude CInt CFormat BpfKernel Float64 BenchStats Process Wp Loaders BenchTime.

Definition NUM_FILES : nat := 30.
Definition FILE_SIZE_MB : Z := 500.
Definition FILE_SIZE : Z := FILE_SIZE_MB * 1024 * 1024.
Definition BLOCK_SIZE : Z := 4096.
Definition NUM_ITERATIONS : Z := 5.
Definition OPERATIONS : nat := Z.to_nat 100000.
(** 0.7 as a double. *)
Definition READ_RATIO : f64 := S754_finite false 6305039478318694 (-53).
Definition FILE_PATH : bytes := str "./test_files".

(** snprintf(file_name, sizeof(file_name), "%s/file_%d.dat", FILE_PATH, i) *)
Definition file_name (i : nat) : bytes :=
  snprintf_cut 256 (FILE_PATH ++ str "/file_" ++ fmt_d (Z.of_nat i) ++ str ".dat").

(** perror(msg); exit(EXIT_FAILURE) *)
Definition die (msg : string) : P () := perror msg;; exit EXIT_FAILURE.

(** One file of [generate_files]. *)
Definition write_file (name : bytes) : P () :=
  call_ (Print Stdout ("Creating %s..." +:+ nl) []);;
  fd ← call (Open name (O_WRONLY + O_CREAT + O_TRUNC));
  if fd <? 0 then die "Failed to open file for writing" else
  buffer ← call (Malloc BLOCK_SIZE);
  if buffer =? 0 then die "Failed to allocate buffer" else
  for_each 0 (Z.to_nat (FILE_SIZE / BLOCK_SIZE)) (λ _ _,
    for_each 0 (Z.to_nat BLOCK_SIZE) (λ k _, _ ← call Rand; touch true buffer (Z.of_nat k) 1) ();;
    touch false buffer 0 BLOCK_SIZE;;
    n ← call (Write fd);
    if negb (n =? BLOCK_SIZE) then die "Failed to write to file" else mret ()) ();;
  call_ (Free buffer);;
  call_ (Close fd).

Definition generate_files : P () :=
  r ← do (Mkdir FILE_PATH);
  (if negb (ret r =? 0) && negb (errno r =? EEXIST) then die "Failed to create directory" else mret ());;
  for_each 0 NUM_FILES (λ i _, write_file (file_name i)) ();;
  printf ("File generation complete." +:+ nl).

(** (rand() % 100) < (READ_RATIO * 100), a comparison of doubles. *)
Definition is_read_of (r : Z) : bool :=
  SFltb (f64_of_Z (r mod 100)) (f64_mul READ_RATIO (f64_of_Z 100)).

(** The block that is read or written. *)
Definition access_block (is_read : bool) (mapped : Z) : P () :=
  r ← call Rand;
  let offset := r mod (FILE_SIZE - BLOCK_SIZE) in
  for_each 0 (Z.to_nat BLOCK_SIZE) (λ i _,
    if is_read then touch false mapped (offset + Z.of_nat i) 1
    else _ ← call Rand; touch true mapped (offset + Z.of_nat i) 1) ().

(** One operation. *)
Definition operation (file_names : list bytes) : P () :=
  r ← call Rand;
  let file_index := r mod Z.of_nat NUM_FILES in
  file_name ← of_option (file_names !! Z.to_nat file_index);
  r ← call Rand;
  let is_read := is_read_of r in
  fd ← call (Open file_name (if is_read then O_RDONLY else O_RDWR));
  if fd <? 0 then die "Failed to open file" else
  mapped ← call (Mmap FILE_SIZE (negb is_read) fd);
  if mapped =? MAP_FAILED then perror "Failed to mmap file";; call_ (Close fd);; exit EXIT_FAILURE else
  access_block is_read mapped;;
  u ← call (Munmap mapped FILE_SIZE);
  if u <? 0 then perror "Failed to unmap memory";; call_ (Close fd);; exit EXIT_FAILURE else
  call_ (Close fd).

Definition simulate_workload (total_iterations : Z) : P f64 :=
  let file_names := file_name <$> seq 0 NUM_FILES in
  total_latency ← for_each 0 (Z.to_nat total_iterations) (λ iteration total_latency,
    call_ (Print Stdout ("Iteration %d/%d..." +:+ nl) [Z.of_nat iteration + 1; total_iterations]);;
    start_time ← get_time_in_ns;
    for_each 0 OPERATIONS (λ _ _, operation file_names) ();;
    end_time ← get_time_in_ns;
    latency ← of_res (checked64 (end_time - start_time));
    call_ (Print Stdout ("Iteration %d latency: %.2f ms" +:+ nl) [Z.of_nat iteration + 1; latency]);;
    mret (f64_add total_latency (f64_of_Z latency))) (f64_of_Z 0);
  mret (f64_div total_latency (f64_of_Z NUM_ITERATIONS)).

Definition main : P Z :=
  printf ("Generating files..." +:+ nl);;
  call_ (Sleep 20);;
  _ ← simulate_workload 2;
  printf ("Starting workload simulation..." +:+ nl);;
  _ ← simulate_workload NUM_ITERATIONS;
  call_ (Print Stdout ("Average latency over %d iterations: %.5f ms" +:+ nl) [NUM_ITERATIONS]);;
  mret 0.

(** ** Proof *)

(** The clock is set to less than 90 million seconds.  On exit at most the mapping that could
    not be unmapped is left. *)
Definition clock_set : scenario := Scenario None
  (λ _ c a, match c with ClockGettime => clock_ok a | _ => True end) (λ _, True)
  (λ code w, code = EXIT_FAILURE ∧
     (held w = [] ∨ ∃ writable p, held w = [(KMap FILE_SIZE writable, p)])).

Lemma is_read_iff r : is_read_of r = (r mod 100 <? 70).
Proof.
  unfold is_read_of. pose proof (Z.mod_pos_bound r 100 eq_refl) as Hr. revert Hr.
  generalize (r mod 100). intros m Hm.
  assert (forallb (λ i, eqb (SFltb (f64_of_Z (Z.of_nat i)) (f64_mul READ_RATIO (f64_of_Z 100)))
    (Z.of_nat i <? 70)) (seq 0 100) = true) as Hall by by vm_compute.
  rewrite forallb_forall in Hall. specialize (Hall (Z.to_nat m)).
  rewrite in_seq, eqb_true_iff, Z2Nat.id in Hall by lia. apply Hall. lia.
Qed.

Section wmhigh.
Let σ := clock_set.

Ltac idle := apply wp_bind, wp_call_; [done|by intros|]; intros ? _ _.

Lemma die_ok msg (Q : () → world → Prop) w : held w = [] → wp σ (die msg) Q w.
Proof. intros Hw. unfold die, perror, eprintf. idle. apply wp_exit. split; [done|]. by left. Qed.

(** Every access lies in the mapping, which is writable if it is written. *)
Lemma access_block_ok b p (Q : () → world → Prop) w l :
  owns w ((KMap FILE_SIZE (negb b), p) :: l) →
  (∀ w', owns w' ((KMap FILE_SIZE (negb b), p) :: l) → Q () w') → wp σ (access_block b p) Q w.
Proof.
  intros Hw HQ. unfold access_block. apply wp_bind, wp_call; [done|by intros|]. intros a _ _.
  pose proof (Z.mod_pos_bound (ret a) (FILE_SIZE - BLOCK_SIZE) eq_refl) as Ho. revert Ho.
  generalize (ret a mod (FILE_SIZE - BLOCK_SIZE)). intros offset Ho.
  assert (∀ i write w', (i < Z.to_nat BLOCK_SIZE)%nat → (write = true → b = false) →
    owns w' ((KMap FILE_SIZE (negb b), p) :: l) →
    holds (covers write p (offset + Z.of_nat i) 1) (held w') = true) as Hin.
  { intros i write w' Hi Hb Hw'. eapply owns_holds; [exact Hw'|]. apply holds_iff. eexists. split; [by left|].
    unfold covers. cbn [fst snd]. rewrite Z.eqb_refl.
    assert ((0 <=? offset + Z.of_nat i) = true) as -> by lia.
    assert ((offset + Z.of_nat i + 1 <=? FILE_SIZE) = true) as -> by (unfold BLOCK_SIZE in *; lia).
    destruct write; [by rewrite Hb|done]. }
  apply (wp_for_each σ (λ _ _ w', owns w' ((KMap FILE_SIZE (negb b), p) :: l))).
  - intros i [] w1 Hi Hw1. destruct b.
    + apply wp_touch; [by apply Hin; [lia| |]|done].
    + apply wp_bind, wp_call; [done|by intros|]. intros a1 _ _.
      assert (owns (after_call Rand a1 w1) ((KMap FILE_SIZE true, p) :: l)) as Hw2 by by apply owns_same.
      apply wp_touch; [by apply Hin; [lia| |]|done].
  - by apply owns_same.
  - intros [] w1. apply HQ.
Qed.

Lemma operation_ok names w :
  length names = NUM_FILES → held w = [] → wp σ (operation names) (λ _ w', held w' = []) w.
Proof.
  intros Hnames Hw. unfold operation. apply wp_bind, wp_call; [done|by intros|]. intros r1 _ _.
  destruct (lookup_lt_is_Some_2 names (Z.to_nat (ret r1 mod Z.of_nat NUM_FILES))) as [name Hname].
  { pose proof (Z.mod_pos_bound (ret r1) (Z.of_nat NUM_FILES) eq_refl). lia. }
  eapply wp_bind, wp_of_option; [exact Hname|].
  apply wp_bind, wp_call; [done|by intros|]. intros r2 _ _. generalize (is_read_of (ret r2)). intros b.
  set (w1 := after_call Rand r2 _). assert (owns w1 []) as Hw1 by (unfold owns; cbn; by rewrite Hw).
  clearbody w1. clear Hw. apply wp_bind, wp_call; [done|by intros|]. intros a (_ & _ & Ha) _.
  destruct (Z.ltb_spec (ret a) 0) as [Hfd|Hfd].
  { apply die_ok. apply Permutation_nil_r, owns_same; [done|]. cbn. by rewrite (proj2 (Z.ltb_lt _ _) Hfd). }
  set (flags := if b then O_RDONLY else O_RDWR).
  assert (owns (after_call (Open name flags) a w1) [(KFd, ret a)]) as Hw2.
  { apply owns_acquire; [done|]. cbn. by rewrite (proj2 (Z.ltb_ge _ _) Hfd). }
  revert Hw2. generalize (after_call (Open name flags) a w1). clear w1 Hw1. intros w2 Hw2.
  apply wp_bind, wp_call; [|by intros|].
  { eapply enabled_owned; [done|exact Hw2|by left|by apply res_eqb_eq]. }
  intros m _ _. destruct (Z.eqb_spec (ret m) MAP_FAILED) as [Hm|Hm].
  { idle. eapply wp_bind, (wp_close σ (λ _, I)); [exact Hfd| |].
    - apply owns_same; [|done]. apply owns_same; [exact Hw2|]. cbn. by rewrite Hm.
    - intros w3 Hw3. apply wp_exit. split; [done|]. left. by apply Permutation_nil_r. }
  eapply wp_bind, access_block_ok.
  { apply owns_acquire; [exact Hw2|]. cbn. by rewrite (proj2 (Z.eqb_neq _ _) Hm). }
  intros w3 Hw3. assert (mapped_at (ret m) FILE_SIZE (KMap FILE_SIZE (negb b), ret m) = true) as Hx
    by (unfold mapped_at; cbn [fst snd]; by rewrite !Z.eqb_refl).
  apply wp_bind, wp_call; [|by intros|].
  { eapply enabled_owned; [done|exact Hw3|by left|exact Hx]. }
  intros u (_ & _ & Hu) _. destruct (Z.ltb_spec (ret u) 0) as [Hu0|Hu0].
  - idle. eapply wp_bind, (wp_close σ (λ _, I)); [exact Hfd| |].
    + apply owns_same; [|done]. apply owns_same; [|cbn; by replace (ret u =? 0) with false by lia].
      unfold owns in *. rewrite Hw3. apply Permutation_swap.
    + intros w4 Hw4. apply wp_exit. split; [done|]. right. exists (negb b), (ret m). by apply Permutation_singleton_r.
  - assert (ret u = 0) as Hu1 by lia.
    eapply (wp_close σ (λ _, I)); [exact Hfd| |intros w4; apply Permutation_nil_r].
    eapply owns_release; [exact Hw3|cbn; by rewrite Hu1|exact Hx|].
    by intros y ->%list_elem_of_singleton.
Qed.

Lemma simulate_workload_ok total w :
  held w = [] → wp σ (simulate_workload total) (λ _ w', held w' = []) w.
Proof.
  intros Hw. unfold simulate_workload. generalize OPERATIONS. intros n.
  apply wp_bind, (wp_for_each σ (λ _ _ w', held w' = [])); [|done|by intros; apply wp_ret].
  intros i t w1 _ Hw1. idle. apply wp_bind, wp_get_time; [done|by intros|]. intros t1 a1 Ht1 _.
  apply wp_bind, (wp_for_each σ (λ _ _ w', held w' = [])); [|done|].
  - intros j [] w2 _ Hw2. apply operation_ok; [|done]. by rewrite length_fmap, length_seq.
  - intros [] w2 Hw2. apply wp_bind, wp_get_time; [done|by intros|]. intros t2 a2 Ht2 _.
    destruct (latency_checked t1 t2 Ht1 Ht2) as [Hc _]. eapply wp_bind, wp_of_res; [exact Hc|].
    idle. by apply wp_ret.
Qed.

Lemma wmhigh_main_ok : wp σ main (λ code w, code = 0 ∧ held w = []) init.
Proof.
  unfold main. do 2 idle. eapply wp_bind, wp_mono; [by apply simulate_workload_ok|]. intros ? w Hw.
  idle. eapply wp_bind, wp_mono; [by apply simulate_workload_ok|]. intros ? w1 Hw1.
  idle. by apply wp_ret.
Qed.
End wmhigh.

Lemma total_access_block b p : total (access_block b p).
Proof. unfold access_block. eauto 20 with total nocore. Qed.
#[local] Hint Resolve total_access_block : total.
Lemma total_operation names : total (operation names).
Proof. unfold operation, die, perror, eprintf. eauto 40 with total nocore. Qed.
#[local] Hint Resolve total_operation : total.
Lemma wmhigh_main_total : total main.
Proof. unfold main, simulate_workload, printf. eauto 40 with total nocore. Qed.

(** ** The files themselves *)

Section generate.
Let σ := anything.

Lemma die_anything msg (Q : () → world → Prop) w : wp σ (die msg) Q w.
Proof. unfold die, perror, eprintf. apply wp_bind, wp_call_; [done|by intros|]. intros ? _ _. by apply wp_exit. Qed.

(** A file is written from one block of memory; both are released. *)
Lemma write_file_ok name w : held w = [] → wp σ (write_file name) (λ _ w', held w' = []) w.
Proof.
  intros Hw. unfold write_file. apply wp_bind, wp_call_; [done|by intros|]. intros a0 _ _.
  apply wp_bind, wp_call; [done|by intros|]. intros a _ _.
  destruct (Z.ltb_spec (ret a) 0) as [|Hfd]; [by apply die_anything|].
  apply wp_bind, wp_call; [done|by intros|]. intros b _ _.
  destruct (Z.eqb_spec (ret b) 0) as [|Hb]; [by apply die_anything|].
  set (l := [(KHeap BLOCK_SIZE, ret b); (KFd, ret a)]).
  assert (owns (after_call (Malloc BLOCK_SIZE) b (after_call (Open name (O_WRONLY + O_CREAT + O_TRUNC)) a
    (after_call (Print Stdout ("Creating %s..." +:+ nl) []) a0 w))) l) as Hw1.
  { apply owns_acquire; [|cbn; by rewrite (proj2 (Z.eqb_neq _ _) Hb)].
    apply owns_acquire; [|cbn; by rewrite (proj2 (Z.ltb_ge _ _) Hfd)]. apply owns_same; [|done].
    unfold owns. by rewrite Hw. }
  revert Hw1. generalize (after_call (Malloc BLOCK_SIZE) b (after_call (Open name (O_WRONLY + O_CREAT + O_TRUNC)) a
    (after_call (Print Stdout ("Creating %s..." +:+ nl) []) a0 w))).
  generalize (Z.to_nat (FILE_SIZE / BLOCK_SIZE)). clear w Hw a0. intros n w Hw.
  apply wp_bind, (wp_for_each σ (λ _ _ w', owns w' l)); [|done|].
  - intros j [] w1 _ Hw1. apply wp_bind, (wp_for_each σ (λ _ _ w', owns w' l)); [|done|].
    + intros k [] w2 Hk Hw2. apply wp_bind, wp_call; [done|by intros|]. intros r _ _.
      eapply (wp_touch_block σ); [by apply owns_same; [exact Hw2|]|by left|lia| |by apply owns_same].
      unfold BLOCK_SIZE in *. lia.
    + intros [] w2 Hw2. apply wp_bind. eapply (wp_touch_block σ); [exact Hw2|by left|done|done|].
      apply wp_bind, wp_call; [|by intros|].
      { eapply enabled_owned; [done|exact Hw2|by right; left|by apply res_eqb_eq]. }
      intros r _ _. destruct (ret r =? BLOCK_SIZE); [|by apply die_anything].
      apply wp_ret. by apply owns_same.
  - intros [] w1 Hw1. eapply wp_bind, (wp_free σ (λ _, I) _ BLOCK_SIZE _ _ [(KFd, ret a)]).
    + unfold res_of. by rewrite (proj2 (Z.eqb_neq _ _) Hb).
    + by repeat constructor.
    + intros w2 Hw2 _. eapply (wp_close σ (λ _, I)); [exact Hfd|exact Hw2|]. intros w3. apply Permutation_nil_r.
Qed.

Lemma wmhigh_generate_files_ok w : held w = [] → wp σ generate_files (λ _ w', held w' = []) w.
Proof.
  intros Hw. unfold generate_files. apply wp_bind, wp_do; [done|by intros|]. intros r _ _.
  apply wp_bind. eapply (wp_mono _ _ (λ _ w', held w' = [])).
  { destruct (negb _ && _); [by apply die_anything|by apply wp_ret]. }
  intros _ w1 Hw1. apply wp_bind, (wp_for_each σ (λ _ _ w', held w' = [])); [|done|].
  - intros i [] w2 _ Hw2. by apply write_file_ok.
  - intros [] w2 Hw2. by apply wp_call_; [done|by intros|].
Qed.
End generate.

(** ** Property *)

(** How a run ends. *)
Definition ends_well (r : outcome Z * world) : Prop :=
  match r with
  | (Returned code, w) => code = 0 ∧ held w = []
  | (Exited code, w) => code = EXIT_FAILURE ∧
      (held w = [] ∨ ∃ writable p, held w = [(KMap FILE_SIZE writable, p)])
  | (Killed, _) => True
  | (OutOfFuel, _) | (Undefined, _) => False
  end.

Definition leaves_nothing (r : outcome () * world) : Prop :=
  match r with (Returned _, w) => held w = [] | (Undefined, _) => False | _ => True end.


