(* ===== verification/BenchMemory.v ===== *)
(** * BenchMemory: the memory workload of examples/c/benchmark.c

    [bursty_memory_usage] fills two arrays of pointers with fresh blocks, touches them, and
    frees everything; [main] measures it a hundred times and prints the statistics of
    [BenchStats].  What the blocks contain is not modelled, except the pointers in the two
    arrays: the accesses are.  (The latencies in ms that are printed are recorded as ns.) *)

From S2P Require Import Prelude CInt CFormat BenchStats BenchReport Process Wp Loaders BenchTime.

Definition ALLOCATION_SIZE_MB : Z := 512.
Definition NUM_ALLOCATION_BURSTS : nat := 70.
Definition NUM_ALLOCATION_PASSIVE : nat := 10.
Definition PAGE_SIZE : Z := 4096.
Definition sizeof_ptr : Z := 8.

(** for (i = 0; i < size; i += PAGE_SIZE) .. : the number of rounds. *)
Definition pages (size : Z) : nat := Z.to_nat ((size + PAGE_SIZE - 1) / PAGE_SIZE).

Definition touch_memory (addr size : Z) : P () :=
  for_each 0 (pages size) (λ i _, touch true addr (PAGE_SIZE * Z.of_nat i) 1) ().
Definition access_memory (buffer size : Z) : P () :=
  for_each 0 (pages size) (λ i _, touch true buffer (PAGE_SIZE * Z.of_nat i) 1) ().

(** The loops that fill an array of [n] pointers with blocks of [size] bytes; [use] is what is
    done to a block. *)
Definition fill (n : nat) (size : Z) (use : Z → P ()) (buffers : array) : P array :=
  for_each 0 n (λ i buffers,
    p ← call (Malloc size);
    buffers ← store sizeof_ptr buffers i p;
    p ← load sizeof_ptr buffers i;
    if p =? 0 then perror "malloc failed";; exit EXIT_FAILURE else
    use p;;
    mret buffers) buffers.

(** The loops that free the blocks of an array. *)
Definition free_all (n : nat) (buffers : array) : P () :=
  for_each 0 n (λ i _, p ← load sizeof_ptr buffers i; call_ (Free p)) ().

Definition bursty_memory_usage : P () :=
  b ← call (Malloc (Z.of_nat NUM_ALLOCATION_BURSTS * sizeof_ptr));
  p ← call (Malloc (Z.of_nat NUM_ALLOCATION_PASSIVE * sizeof_ptr));
  if (b =? 0) || (p =? 0) then perror "malloc failed";; exit EXIT_FAILURE else
  printf ("Starting passive memory allocation..." +:+ nl);;
  buffers_passive ← fill NUM_ALLOCATION_PASSIVE ALLOCATION_SIZE_MB
    (λ p, touch true p 0 ALLOCATION_SIZE_MB)                      (* memset *)
    (Array p (replicate NUM_ALLOCATION_PASSIVE None));
  printf ("Starting bursty memory allocation..." +:+ nl);;
  buffers ← fill NUM_ALLOCATION_BURSTS (ALLOCATION_SIZE_MB * 1024 * 1024)
    (λ p, access_memory p (ALLOCATION_SIZE_MB * 1024 * 1024))
    (Array b (replicate NUM_ALLOCATION_BURSTS None));
  printf ("Releasing memory..." +:+ nl);;
  free_all NUM_ALLOCATION_BURSTS buffers;;
  free_all NUM_ALLOCATION_PASSIVE buffers_passive;;
  call_ (Free (base buffers));;
  call_ (Free (base buffers_passive));;
  printf ("Memory released." +:+ nl).

(** The loop of [main]. *)
Definition runs : nat := 100.
Definition measure : P (list Z) :=
  printf "Sleeping...";;
  call_ (Sleep 10);;
  for_each 0 runs (λ i latencies,
    call_ (Print Stdout ("Iter: %d" +:+ nl) [Z.of_nat i]);;
    start_time ← get_time_in_ns;
    bursty_memory_usage;;
    printf ("Cycle completed. Sleeping before the next cycle..." +:+ nl +:+ nl);;
    end_time ← get_time_in_ns;
    latency_ns ← of_res (checked64 (end_time - start_time));
    call_ (Print Stdout ("Total latency: %.2f ms" +:+ nl) [latency_ns]);;
    mret (latencies ++ [latency_ns])) [].

(** The end of [main]: sorting, statistics and messages. *)
Definition print_report `{!Qsort} (latencies : list Z) : P Z :=
  r ← of_res (summarise latencies (Z.of_nat runs));
  call_ (Print Stdout ("Average: %lld" +:+ nl) [average r]);;
  call_ (Print Stdout ("Standard Deviation: %lld" +:+ nl) [std_dev r]);;
  call_ (Print Stdout ("Median: %lld" +:+ nl) [median r]);;
  call_ (Print Stdout ("75th Percentile (P75): %lld" +:+ nl) [p75 r]);;
  call_ (Print Stdout ("99th Percentile (P99): %lld" +:+ nl) [p99 r]);;
  mret 0.

Definition main `{!Qsort} : P Z := latencies ← measure; print_report latencies.

(** ** Proof *)

(** Blocks: sizes and addresses. *)
Definition blocks (bs : list (Z * Z)) : list resource := (λ b, (KHeap (fst b), snd b)) <$> bs.

(** The process owns exactly the blocks [bs], at different addresses. *)
Definition has (bs : list (Z * Z)) (w : world) : Prop := owns w (blocks bs) ∧ NoDup (snd <$> bs).

Definition malloc_failed (w : world) : Prop := ∃ n a, (Malloc n, a) ∈ trace w ∧ ret a = 0.

(** The clock is below 90 million seconds; exits are failures of malloc. *)
Definition memory_run : scenario := Scenario None
  (λ _ c a, match c with ClockGettime => clock_ok a | _ => True end) (λ _, True)
  (λ code w, code = EXIT_FAILURE ∧ malloc_failed w).

Lemma malloc_failed_after c a w : malloc_failed w → malloc_failed (after_call c a w).
Proof. intros (n & r & Hin & Hr). exists n, r. split; [by right|done]. Qed.

Section memory.
Let σ := memory_run.

Ltac idle := apply wp_bind, wp_call_; [done|by intros|]; intros ? _ _.

Lemma has_blocks_perm bs bs' w : bs ≡ₚ bs' → has bs w → has bs' w.
Proof. intros Hp [Hw Hd]. split; [unfold owns, blocks in *|]; by rewrite <- Hp. Qed.

Lemma has_blocks_same c a bs w : has bs w → effect c a (held w) = held w → has bs (after_call c a w).
Proof. intros [Hw Hd] He. split; [by apply owns_same|done]. Qed.

Lemma wp_malloc size (Q : Z → world → Prop) bs w :
  has bs w →
  (∀ w', has bs w' → malloc_failed w' → Q 0 w') → (∀ p w', p ≠ 0 → has ((size, p) :: bs) w' → Q p w') →
  wp σ (call (Malloc size)) Q w.
Proof.
  intros Hw H0 H1. apply wp_call; [done|by intros|]. intros a (_ & Hfr & _) _.
  destruct (Z.eqb_spec (ret a) 0) as [Ha|Ha].
  - rewrite Ha. apply H0; [|by exists size, a; split; [left|]].
    apply has_blocks_same; [done|]. cbn. by rewrite Ha.
  - assert (effect (Malloc size) a (held w) = (KHeap size, ret a) :: held w) as He.
    { cbn. by rewrite (proj2 (Z.eqb_neq _ _) Ha). }
    apply H1; [done|]. destruct Hw as [Hw Hd]. split; [by apply owns_acquire|]. apply NoDup_cons. split; [|done].
    intros ([n p] & Hp & Hin)%list_elem_of_fmap. cbn in Hp. subst p.
    assert ((KHeap n, ret a) ∈ blocks bs) as Hb by (apply list_elem_of_fmap; by eexists (n, ret a)).
    pose proof (owns_not_held _ _ _ _ Hw (Hfr _ He) Hb) as Hn. unfold same_name in Hn. cbn in Hn. lia.
Qed.

Lemma blocks_no_block p bs : p ∉ snd <$> bs → Forall (no_block p) (blocks bs).
Proof.
  intros Hp. apply Forall_fmap, Forall_forall. intros [n q] Hin. unfold no_block, heap_at. cbn.
  apply Z.eqb_neq. intros ->. apply Hp, list_elem_of_fmap. by exists (n, p).
Qed.

Lemma wp_free_one size p (Q : () → world → Prop) bs w :
  p ≠ 0 → has ((size, p) :: bs) w → (∀ w', has bs w' → Q () w') → wp σ (call_ (Free p)) Q w.
Proof.
  intros Hp [Hw [Hn Hd]%NoDup_cons] HQ. eapply (wp_free σ (λ _, I) p size).
  - unfold res_of. rewrite (proj2 (Z.eqb_neq _ _) Hp). exact Hw.
  - by apply blocks_no_block.
  - intros w' Hw' _. by apply HQ.
Qed.

(** An array at [p] of [n] pointers, of which the first are [ps] and the others indeterminate. *)
Definition arr (p : Z) (n : nat) (ps : list Z) : array :=
  Array p ((Some <$> ps) ++ replicate (n - length ps) None).
(** Its block, and the blocks of [size] bytes its elements point to. *)
Definition arr_block (p : Z) (n : nat) : Z * Z := (sizeof_ptr * Z.of_nat n, p).
Definition elements (size : Z) (ps : list Z) : list (Z * Z) := (λ p, (size, p)) <$> ps.

Lemma arr_block_in p n ps bs :
  (length ps ≤ n)%nat → arr_block p n ∈ bs → block sizeof_ptr (arr p n ps) ∈ blocks bs.
Proof.
  intros Hl Hin. unfold block, arr. cbn [base cells].
  rewrite length_app, length_fmap, length_replicate.
  replace (length ps + (n - length ps))%nat with n by lia.
  apply list_elem_of_fmap. by exists (arr_block p n).
Qed.

Lemma arr_store p n ps q :
  (length ps < n)%nat →
  Array (base (arr p n ps)) (<[length ps := Some q]> (cells (arr p n ps))) = arr p n (ps ++ [q]).
Proof.
  intros Hl. unfold arr. cbn [base cells]. f_equal. rewrite length_app. cbn [length].
  rewrite insert_app_r_alt, length_fmap, Nat.sub_diag by (rewrite length_fmap; lia).
  replace (n - length ps)%nat with (S (n - (length ps + 1))) by lia.
  rewrite fmap_app, <- app_assoc. done.
Qed.

Lemma wp_load_arr p n ps i q (Q : Z → world → Prop) bs w :
  has bs w → arr_block p n ∈ bs → (length ps ≤ n)%nat → ps !! i = Some q → Q q w →
  wp σ (load sizeof_ptr (arr p n ps) i) Q w.
Proof.
  intros [Hw _] Hin Hl Hi HQ. eapply wp_load; [exact Hw|by apply arr_block_in|done| |exact HQ].
  unfold arr. cbn [cells]. rewrite lookup_app_l; [by rewrite list_lookup_fmap, Hi|].
  rewrite length_fmap. by eapply lookup_lt_Some.
Qed.

Lemma fill_ok n size use p (Q : array → world → Prop) bs w :
  (∀ q bs' w' (Q' : () → world → Prop), has ((size, q) :: bs') w' →
     (∀ w'', has ((size, q) :: bs') w'' → Q' () w'') → wp σ (use q) Q' w') →
  has bs w → arr_block p n ∈ bs →
  (∀ ps w', length ps = n → Forall (λ q, q ≠ 0) ps → has (elements size ps ++ bs) w' → Q (arr p n ps) w') →
  wp σ (fill n size use (Array p (replicate n None))) Q w.
Proof.
  intros Huse Hw Hin HQ.
  apply (wp_for_each σ (λ i x w', ∃ ps, length ps = i ∧ x = arr p n ps ∧ Forall (λ q, q ≠ 0) ps ∧
    has (elements size ps ++ bs) w')).
  - intros i x w1 Hi (ps & Hlen & -> & Hnz & Hw1). apply wp_bind.
    assert (∀ q w2, has (elements size ps ++ bs) w2 ∨ has ((size, q) :: elements size ps ++ bs) w2 →
      (q = 0 ∧ malloc_failed w2 ∨ q ≠ 0 ∧ has ((size, q) :: elements size ps ++ bs) w2) →
      wp σ (buffers ← store sizeof_ptr (arr p n ps) i q;
            p ← load sizeof_ptr buffers i;
            if p =? 0 then perror "malloc failed";; exit EXIT_FAILURE else use p;; mret buffers)
        (λ x w', ∃ ps', length ps' = S i ∧ x = arr p n ps' ∧ Forall (λ q, q ≠ 0) ps' ∧
           has (elements size ps' ++ bs) w') w2) as Hrest.
    { intros q w2 Hw2 Hq.
      assert (∃ bs2, has bs2 w2 ∧ arr_block p n ∈ bs2) as (bs2 & Hbs2 & Hin2).
      { destruct Hw2 as [H|H]; (eexists; split; [exact H|]); rewrite ?elem_of_cons, elem_of_app; auto. }
      apply wp_bind. eapply wp_store; [exact (proj1 Hbs2)|apply arr_block_in; [lia|done]|done| |].
      { unfold arr. cbn [cells]. rewrite length_app, length_fmap, length_replicate. lia. }
      rewrite <- Hlen, (arr_store p n ps q) by lia. rewrite Hlen.
      eapply wp_bind, wp_load_arr; [exact Hbs2|exact Hin2|rewrite length_app; cbn; lia| |].
      { by rewrite lookup_app_r, Hlen, Nat.sub_diag by lia. }
      destruct (Z.eqb_spec q 0) as [|Hq0].
      { destruct Hq as [[_ Hq]|[? _]]; [|done]. idle. apply wp_exit.
        split; [done|by apply malloc_failed_after]. }
      destruct Hq as [[? _]|[_ Hq]]; [done|]. eapply wp_bind, Huse; [exact Hq|]. intros w3 Hw3. apply wp_ret.
      exists (ps ++ [q]). split; [rewrite length_app; cbn; lia|]. split; [done|].
      split; [apply Forall_app; auto|]. eapply has_blocks_perm; [|exact Hw3]. unfold elements. rewrite fmap_app. cbn.
      solve_Permutation. }
    eapply wp_malloc; [exact Hw1|intros w2 Hw2 Hf; apply Hrest; auto|intros q w2 Hq Hw2; apply Hrest; auto].
  - exists []. unfold arr. cbn [fmap list_fmap app length]. by rewrite Nat.sub_0_r.
  - intros x w1 (ps & Hlen & -> & Hnz & Hw1). cbn in Hlen. by apply HQ.
Qed.

Lemma free_all_ok n size p ps (Q : () → world → Prop) bs w :
  length ps = n → Forall (λ q, q ≠ 0) ps → arr_block p n ∈ bs → has (elements size ps ++ bs) w →
  (∀ w', has bs w' → Q () w') → wp σ (free_all n (arr p n ps)) Q w.
Proof.
  intros Hlen Hnz Hin Hw HQ.
  apply (wp_for_each σ (λ i _ w', has (elements size (drop i ps) ++ bs) w')); [|by rewrite drop_0|].
  - intros i [] w1 Hi Hw1. destruct (lookup_lt_is_Some_2 ps i) as [q Hq]; [lia|].
    eapply wp_bind, wp_load_arr; [exact Hw1|apply elem_of_app; by right|lia|exact Hq|].
    rewrite (drop_S _ _ _ Hq) in Hw1. eapply wp_free_one; [|exact Hw1|done].
    by eapply (Forall_lookup_1 (λ q, q ≠ 0)).
  - intros [] w1. rewrite drop_ge by (cbn; lia). apply HQ.
Qed.

(** Touching a block, page by page or all of it. *)
Lemma access_memory_ok size p (Q : () → world → Prop) bs w :
  0 ≤ size → has ((size, p) :: bs) w → (∀ w', has ((size, p) :: bs) w' → Q () w') →
  wp σ (access_memory p size) Q w.
Proof.
  intros Hs Hw HQ. apply (wp_for_each σ (λ _ _ w', has ((size, p) :: bs) w')); [|done|intros []; apply HQ].
  intros i [] w1 Hi Hw1. eapply wp_touch_block; [exact (proj1 Hw1)|by left|unfold PAGE_SIZE; lia| |done].
  cbn [fst]. unfold pages, PAGE_SIZE in *. pose proof (Z.mul_div_le (size + 4096 - 1) 4096 eq_refl). lia.
Qed.

Lemma touch_memory_ok size p (Q : () → world → Prop) bs w :
  0 ≤ size → has ((size, p) :: bs) w → (∀ w', has ((size, p) :: bs) w' → Q () w') →
  wp σ (touch_memory p size) Q w.
Proof. apply access_memory_ok. Qed.

(** Everything that was allocated is freed. *)
Lemma bursty_ok w : has [] w → wp σ bursty_memory_usage (λ _ w', has [] w') w.
Proof.
  intros Hw. unfold bursty_memory_usage. rewrite !(Z.mul_comm _ sizeof_ptr).
  assert (0 ≤ ALLOCATION_SIZE_MB) as Hs by done.
  assert (0 ≤ ALLOCATION_SIZE_MB * 1024 * 1024) as Hs' by done. revert Hs Hs'.
  generalize (ALLOCATION_SIZE_MB * 1024 * 1024). intros big.
  generalize ALLOCATION_SIZE_MB NUM_ALLOCATION_BURSTS NUM_ALLOCATION_PASSIVE.
  intros small n m Hsmall Hbig.
  apply wp_bind. eapply wp_malloc; [exact Hw|..].
  { intros w1 Hw1 (n1 & r & Hin & Hr). apply wp_bind, wp_call; [done|by intros|]. intros p _ _.
    cbn [Z.eqb orb]. idle. apply wp_exit. split; [done|]. do 2 apply malloc_failed_after. by exists n1, r. }
  intros b w1 Hb Hw1. apply wp_bind. eapply wp_malloc; [exact Hw1|..].
  { intros w2 Hw2 Hf. rewrite orb_true_r. idle. apply wp_exit. split; [done|by apply malloc_failed_after]. }
  intros p w2 Hp Hw2. rewrite !(proj2 (Z.eqb_neq _ _)) by done. cbn [orb].
  idle. apply wp_bind. eapply (fill_ok m small _ p).
  { intros q bs' w' Q' Hw' HQ'. eapply wp_touch_block; [exact (proj1 Hw')|by left|done|cbn; lia|by apply HQ']. }
  { by apply has_blocks_same. }
  { by left. }
  intros ps w3 Hps Hpsz Hw3. idle. apply wp_bind. eapply (fill_ok n big _ b).
  { intros q bs' w' Q' Hw' HQ'. by eapply access_memory_ok. }
  { by apply has_blocks_same. }
  { apply elem_of_app. right. right. by left. }
  intros qs w4 Hqs Hqsz Hw4. idle. eapply wp_bind, free_all_ok; [exact Hqs|exact Hqsz| |by apply has_blocks_same|].
  { apply elem_of_app. right. right. by left. }
  intros w5 Hw5. eapply wp_bind, free_all_ok; [exact Hps|exact Hpsz| |exact Hw5|].
  { by left. }
  intros w6 Hw6. eapply wp_bind, (wp_free_one (sizeof_ptr * Z.of_nat n) b); [exact Hb| |].
  { eapply has_blocks_perm; [apply Permutation_swap|exact Hw6]. }
  intros w7 Hw7. eapply wp_bind, (wp_free_one (sizeof_ptr * Z.of_nat m) p); [exact Hp|exact Hw7|].
  intros w8 Hw8. apply wp_call_; [done|by intros|]. intros a3 _ _. by apply has_blocks_same.
Qed.

Lemma only_access_memory p size : only not_clock (access_memory p size).
Proof. unfold access_memory. eauto 10 with only nocore. Qed.
#[local] Hint Resolve only_access_memory : only.
Lemma only_fill n size use x : (∀ p, only not_clock (use p)) → only not_clock (fill n size use x).
Proof. intros Hu. unfold fill, perror, eprintf. eauto 60 with only nocore. Qed.
#[local] Hint Resolve only_fill : only.
Lemma only_bursty : only not_clock bursty_memory_usage.
Proof. unfold bursty_memory_usage, free_all, perror, eprintf, printf. eauto 80 with only nocore. Qed.

Lemma memory_measure_ok :
  wp σ measure (λ ls w, length ls = runs ∧ Forall latency_ok ls ∧ has [] w ∧
    intervals (readings w) = ls) init.
Proof.
  unfold measure. do 2 idle. generalize runs. intros n.
  apply (wp_for_each σ (λ i ls w', length ls = i ∧ Forall latency_ok ls ∧ has [] w' ∧
    intervals (readings w') = ls)); [| |done].
  - intros i ls w1 _ (Hi & Hls & Hw1 & Hrd). idle. apply wp_bind, wp_get_time; [done|by intros|].
    intros t1 c1 Ht1 Hr1. eapply wp_bind, wp_mono.
    { apply wp_unclocked; [apply only_bursty|]. apply bursty_ok. by repeat apply has_blocks_same. }
    intros [] w2 [Hw2 Hr]. idle. apply wp_bind, wp_get_time; [done|by intros|]. intros t2 c2 Ht2 Hr2.
    destruct (latency_checked t1 t2 Ht1 Ht2) as [Hc Hlat].
    eapply wp_bind, wp_of_res; [exact Hc|]. idle. apply wp_ret.
    split; [rewrite length_app; cbn; lia|]. split; [apply Forall_app; auto|].
    split; [by repeat apply has_blocks_same|].
    assert (readings w2 = t1 :: readings w1) as E by (rewrite Hr; unfold readings; cbn in *; by rewrite Hr1).
    unfold readings in *. cbn in *. by rewrite Hr2, E, <- Hrd.
  - split; [done|]. split; [constructor|]. split; [|done].
    do 2 (apply has_blocks_same; [|done]). split; [apply perm_nil|constructor].
Qed.

(** The messages, latest first. *)
Definition printed (w : world) : list (string * list Z) :=
  omap (λ x, match fst x with Print Stdout fmt args => Some (fmt, args) | _ => None end) (trace w).

(** The last five messages are those of the report [r]. *)
Definition prints_report (r : report) (w : world) : Prop :=
  rev (take 5 (printed w)) =
    [("Average: %lld" +:+ nl, [average r]); ("Standard Deviation: %lld" +:+ nl, [std_dev r]);
     ("Median: %lld" +:+ nl, [median r]); ("75th Percentile (P75): %lld" +:+ nl, [p75 r]);
     ("99th Percentile (P99): %lld" +:+ nl, [p99 r])].

Lemma print_report_ok `{!Qsort} ls r w :
  summarise ls (Z.of_nat runs) = Ok r →
  wp σ (print_report ls) (λ code w', code = 0 ∧ held w' = held w ∧ readings w' = readings w ∧
    prints_report r w') w.
Proof.
  intros Hr. unfold print_report. eapply wp_bind, wp_of_res; [exact Hr|]. do 5 idle. by apply wp_ret.
Qed.
End memory.

Lemma total_access_memory p size : total (access_memory p size).
Proof. unfold access_memory. eauto 10 with total nocore. Qed.
#[local] Hint Resolve total_access_memory : total.
Lemma total_fill n size use x : (∀ p, total (use p)) → total (fill n size use x).
Proof. intros Hu. unfold fill, perror, eprintf. eauto 40 with total nocore. Qed.
#[local] Hint Resolve total_fill : total.
Lemma total_bursty : total bursty_memory_usage.
Proof. unfold bursty_memory_usage, free_all, perror, eprintf, printf. eauto 60 with total nocore. Qed.
#[local] Hint Resolve total_bursty : total.
Lemma memory_measure_total : total measure.
Proof. unfold measure, printf. eauto 40 with total nocore. Qed.
#[local] Hint Resolve memory_measure_total : total.
Lemma memory_main_total `{!Qsort} : total main.
Proof. unfold main, print_report. eauto 40 with total nocore. Qed.

(** ** Property *)

(** How a run ends: with a report that is right if the latencies are close, or because the
    latencies are not. *)
Definition reported (r : outcome Z * world) : Prop :=
  let latencies w := intervals (readings w) in
  match r with
  | (Returned code, w) =>
      code = 0 ∧ held w = [] ∧ length (latencies w) = runs ∧
      (close_latencies (latencies w) →
       ∃ s p99, s ≡ₚ latencies w ∧ StronglySorted Z.le s ∧ hundredth p99 (at_ s 98) (at_ s 99) ∧
         prints_report (statistics (latencies w) s p99) w)
  | (Exited code, w) => code = EXIT_FAILURE ∧ malloc_failed w
  | (Killed, _) => True
  | (Undefined, w) => held w = [] ∧ length (latencies w) = runs ∧ ¬ close_latencies (latencies w)
  | (OutOfFuel, _) => False
  end.

Lemma clock_env env :
  env_ok env → (∀ tr, clock_ok (env tr ClockGettime)) → good_env memory_run env.
Proof. intros He Hc. split; [done|]. split; [|done]. intros tr c. destruct c; try done. apply Hc. Qed.

Lemma undefined_report `{!Qsort} ls w r env :
  length ls = runs → intervals (readings w) = ls → held w = [] →
  summarise ls (Z.of_nat runs) = r → (∀ x, r ≠ Ok x) → reported (print_report ls env w).
Proof.
  intros Hlen Hr Hw E Hno. unfold print_report, mbind, P_bind, of_res. rewrite E.
  destruct r as [x| |]; [by destruct (Hno x)|..]; unfold reported; cbv zeta; rewrite Hr;
    (split_and!; [done|done|]); intros (s & p & _ & _ & _ & Es)%(report_is_statistics ls Hlen);
    change 100 with (Z.of_nat runs) in Es; by rewrite E in Es.
Qed.

(** C31. benchmark.c, with a clock below 90 million seconds, whatever malloc answers and whatever
    qsort does within its specification, comes to an end.  It stays inside its blocks, reads
    no pointer it has not stored and, when it returns, has freed every block exactly once; it
    exits early, with 1 and its blocks not freed, only after a malloc failed.  The latencies
    are the 100 intervals between the clock readings before and after each burst.  If they are
    below 2^31 ns and less than 2^26 ns (67 ms) apart, nothing is undefined and the last five messages are, in spite of the computation
    in double: the average, the root of the average squared deviation, the mean of the two
    middle values, the value a quarter of the way from the 75th to the 76th smallest, all
    rounded down, and the value a hundredth of the way from the 99th smallest to the largest,
    rounded down or, where that is an integer, possibly one less. *)
Theorem memory_benchmark_reports_latencies `{!Qsort} (env : environment) :
  env_ok env → (∀ tr, clock_ok (env tr ClockGettime)) → reported (main env init).
Proof.
  intros He Hc. pose proof (clock_env env He Hc) as Hg.
  pose proof (memory_main_total env init) as Ht.
  pose proof (memory_measure_ok env Hg (good_init memory_run I)) as Hm.
  unfold main, mbind, P_bind in *. destruct (measure env init) as [[ls|code| | |] w]; [|cbn in *..].
  2: exact (proj1 Hm). 2: done. 2: done. 2: done.
  destruct Hm as [(Hlen & _ & [Hw _] & Hr) Hgw]. apply Permutation_nil_r in Hw.
  destruct (summarise ls (Z.of_nat runs)) as [r| |] eqn:E.
  - pose proof (print_report_ok ls r w E env Hg Hgw) as Hp.
    destruct (print_report ls env w) as [[code|code| | |] w']; [|exact (proj1 Hp)|done..].
    destruct Hp as [(-> & Hh & Hrd & Hpr) _]. unfold reported. cbv zeta. rewrite Hh, Hrd, Hr.
    split_and!; [done|done|done|]. intros Hclose.
    destruct (report_is_statistics ls Hlen Hclose) as (s & p & Hp & Hs & H99 & Es).
    exists s, p. change 100 with (Z.of_nat runs) in Es. rewrite E in Es. injection Es as ->. done.
  - by eapply undefined_report.
  - by eapply undefined_report.
Qed.

Lemma memory_benchmark_reports_latencies_witness : reported (main undisturbed init).
Proof.
  apply (memory_benchmark_reports_latencies undisturbed); [apply undisturbed_ok|apply undisturbed_clock].
Defined.

(** The measurement alone never fails otherwise, and the average of its latencies fits. *)
Definition measured (r : outcome (list Z) * world) : Prop :=
  match r with
  | (Returned latencies, w) =>
      length latencies = runs ∧ Forall latency_ok latencies ∧ held w = [] ∧
      latencies = intervals (readings w) ∧
      ∃ average, calculate_average latencies (Z.of_nat runs) = Ok average
  | (Exited code, w) => code = EXIT_FAILURE ∧ malloc_failed w
  | (Killed, _) => True
  | (OutOfFuel, _) | (Undefined, _) => False
  end.

Theorem memory_benchmark_frees_everything (env : environment) :
  env_ok env → (∀ tr, clock_ok (env tr ClockGettime)) → measured (measure env init).
Proof.
  intros He Hc. pose proof (wp_run_total memory_run measure _ env memory_measure_total memory_measure_ok) as Hr.
  specialize (Hr (clock_env env He Hc) I). unfold measured. destruct (measure env init) as [[ls|code| | |] w]; try done.
  destruct Hr as (Hlen & Hls & [Hw _] & Hrd). split_and!; [done|done|by apply Permutation_nil_r in Hw|done|].
  destruct (average_of_latencies ls) as (avg & Ha & _); [rewrite Hlen; unfold runs; lia|done|].
  exists avg. by rewrite Hlen in Ha.
Qed.
