(* ===== verification/Probes.v ===== *)
(** * Probes: the small tracing programs of examples/c

    minimal.bpf.c, minimal_ns.bpf.c, minimal_legacy.bpf.c, usdt.bpf.c, uprobe.bpf.c,
    ksyscall.bpf.c, fentry.bpf.c and lsm.bpf.c, one Module each.  A program returns its code
    and what it wrote to the trace pipe.  [tgid] is bpf_get_current_pid_tgid(). *)

From S2P Require Import Prelude CInt CFormat BpfKernel.

(** int pid = bpf_get_current_pid_tgid() >> 32 *)
Definition current_pid (tgid : Z) : Z := s32 (Z.shiftr tgid 32).

Definition triggered (pid : Z) : list trace_line :=
  [Printk ("BPF triggered from PID %d." +:+ nl) [PInt pid]].

Module Minimal.
Definition handle_tp (my_pid tgid : Z) : Z * list trace_line :=
  let pid := current_pid tgid in
  if negb (pid =? my_pid) then (0, []) else (0, triggered pid).
End Minimal.

Module MinimalNs.
(** [ns_pid dev ino] is ns.pid after bpf_get_ns_current_pid_tgid(dev, ino, &ns, ..). *)
Definition handle_tp (ns_pid : Z → Z → Z) (dev ino my_pid : Z) : Z * list trace_line :=
  let pid := ns_pid dev ino in
  if negb (pid =? my_pid) then (0, []) else (0, triggered pid).
End MinimalNs.

Module MinimalLegacy.
Definition handle_tp {M} `{!BpfMap M Z Z} (my_pid_map : M) (tgid : Z) : Z * list trace_line :=
  let index := 0 in
  let pid := current_pid tgid in
  match bpf_map_lookup_elem my_pid_map index with
  | None => (1, [])
  | Some my_pid => if negb (my_pid =? pid) then (1, []) else (0, triggered pid)
  end.
End MinimalLegacy.

Module Usdt.
Definition usdt_auto_attach (my_pid tgid arg1 arg2 arg3 : Z) : Z * list trace_line :=
  let pid := current_pid tgid in
  if negb (pid =? my_pid) then (0, []) else
  (0, [Printk "USDT auto attach to libc:setjmp: arg1 = %lx, arg2 = %d, arg3 = %lx"
         [PInt arg1; PInt arg2; PInt arg3]]).

Definition usdt_manual_attach (arg1 arg2 arg3 : Z) : Z * list trace_line :=
  (0, [Printk "USDT manual attach to libc:setjmp: arg1 = %lx, arg2 = %d, arg3 = %lx"
         [PInt arg1; PInt arg2; PInt arg3]]).
End Usdt.

Module Uprobe.
Definition uprobe_add (a b : Z) : Z * list trace_line :=
  (0, [Printk "uprobed_add ENTRY: a = %d, b = %d" [PInt a; PInt b]]).
Definition uretprobe_add (ret : Z) : Z * list trace_line :=
  (0, [Printk "uprobed_add EXIT: return = %d" [PInt ret]]).
Definition uprobe_sub (a b : Z) : Z * list trace_line :=
  (0, [Printk "uprobed_sub ENTRY: a = %d, b = %d" [PInt a; PInt b]]).
Definition uretprobe_sub (ret : Z) : Z * list trace_line :=
  (0, [Printk "uprobed_sub EXIT: return = %d" [PInt ret]]).
End Uprobe.

Module Ksyscall.
(** [comm] is what bpf_get_current_comm stores. *)
Definition tgkill_entry (comm : bytes) (caller tgid tid sig : Z) : Z * list trace_line :=
  let caller_pid := u32 (Z.shiftr caller 32) in
  if sig =? 0 then (0, []) else
  (0, [Printk "tgkill syscall called by PID %d (%s) for thread id %d with pid %d and signal %d."
         [PInt caller_pid; PStr comm; PInt tid; PInt tgid; PInt sig]]).

Definition entry_probe (comm : bytes) (caller pid sig : Z) : Z * list trace_line :=
  let caller_pid := u32 (Z.shiftr caller 32) in
  if sig =? 0 then (0, []) else
  (0, [Printk "KILL syscall called by PID %d (%s) for PID %d with signal %d."
         [PInt caller_pid; PStr comm; PInt pid; PInt sig]]).
End Ksyscall.

Module Fentry.
(** [name] is the string name->name. *)
Definition do_unlinkat (tgid : Z) (name : bytes) : Z * list trace_line :=
  (0, [Printk ("fentry: pid = %d, filename = %s" +:+ nl) [PInt (current_pid tgid); PStr name]]).
Definition do_unlinkat_exit (tgid : Z) (name : bytes) (ret : Z) : Z * list trace_line :=
  (0, [Printk ("fexit: pid = %d, filename = %s, ret = %ld" +:+ nl)
         [PInt (current_pid tgid); PStr name; PInt ret]]).
End Fentry.

Module Lsm.
Definition EPERM : Z := 1.
Definition lsm_bpf (ret : Z) : Z * list trace_line :=
  if negb (ret =? 0) then (ret, []) else (- EPERM, [Printk "LSM: block bpf() worked" []]).
End Lsm.

(** ** Properties *)

(** The thread group of a pid_tgid word. *)
Lemma current_pid_word tgid tid : 0 ≤ tgid ≤ INT_MAX → in_u32 tid →
  current_pid (tgid * 2 ^ 32 + tid) = tgid.
Proof.
  intros Hg Ht. unfold current_pid, in_u32, INT_MAX in *. rewrite Z.shiftr_div_pow2 by lia.
  rewrite Z.div_add_l, Z.div_small by lia. rewrite Z.add_0_r.
  apply s32_small. unfold in_s32, INT_MIN, INT_MAX. lia.
Qed.

(** The three versions of the write() probe report exactly the calls of the process they
    are for, whatever thread makes them: run by thread [tid] of process [pid], with [my_pid]
    stored in the global or in entry 0 of the map, each prints the one line for [my_pid] when
    [pid] is [my_pid], and nothing otherwise. *)
Theorem write_probes_report_own_process {M : Type} `{!BpfMap M Z Z, !BpfMapLaws M Z Z}
    (ns_pid : Z → Z → Z) (dev ino my_pid pid tid : Z) (m : M) :
  0 ≤ pid ≤ INT_MAX → in_u32 tid → ns_pid dev ino = pid →
  snd (bpf_map_update_elem m 0 my_pid) = 0 →
  let m' := fst (bpf_map_update_elem m 0 my_pid) in
  let word := pid * 2 ^ 32 + tid in
  let line := if pid =? my_pid then triggered my_pid else [] in
  snd (Minimal.handle_tp my_pid word) = line ∧
  snd (MinimalNs.handle_tp ns_pid dev ino my_pid) = line ∧
  snd (MinimalLegacy.handle_tp m' word) = line.
Proof.
  intros Hp Ht Hns Hup m' word line.
  unfold Minimal.handle_tp, MinimalNs.handle_tp, MinimalLegacy.handle_tp. subst m' word line.
  rewrite current_pid_word, Hns, update_lookup_eq by done. cbv zeta.
  rewrite (Z.eqb_sym my_pid pid).
  destruct (Z.eqb_spec pid my_pid) as [->|]; cbn [negb snd]; done.
Qed.

Lemma write_probes_report_own_process_witness :
  let m' := fst (bpf_map_update_elem (AMap [0]) 0 42) in
  snd (Minimal.handle_tp 42 (42 * 2 ^ 32 + 7)) = triggered 42 ∧
  snd (MinimalNs.handle_tp (λ _ _, 42) 1 2 42) = triggered 42 ∧
  snd (MinimalLegacy.handle_tp m' (42 * 2 ^ 32 + 7)) = triggered 42.
Proof.
  apply (write_probes_report_own_process (λ _ _, 42) 1 2 42 42 7 (AMap [0])); try done;
    unfold INT_MAX, in_u32; lia.
Defined.
