(* ===== verification/OwnProcess.v ===== *)
(** * OwnProcess: the filtering programs only ever see the loader's process

    minimal, minimal_ns, minimal_legacy and usdt tell their BPF program which process to
    report: through a global variable poked before loading, or an entry of my_pid_map.  Here
    the main functions ([Loaders]) and the BPF programs ([Probes]) are put together: what the
    globals and the map contain at a moment is computed from the calls made so far, and at
    every moment of every run in which the program may be attached it reports exactly the
    process that started it. *)

From S2P Require Import Prelude CInt CFormat BpfKernel Process Wp Loaders LoadersSpec Probes.

(** ** What a history of calls says *)

(** The value of a global variable (0 in the object file), and my_pid_map (one entry, 0). *)
Fixpoint global (name : string) (tr : list (sys * answer)) : Z :=
  match tr with
  | [] => 0
  | (PokeGlobal _ g v, _) :: tr' => if String.eqb g name then v else global name tr'
  | _ :: tr' => global name tr'
  end.
Fixpoint my_pid_map (tr : list (sys * answer)) : amap Z :=
  match tr with
  | [] => AMap [0]
  | (MapUpdate _ m k v, a) :: tr' =>
      if 0 <=? ret a then fst (bpf_map_update_elem (my_pid_map tr') k v) else my_pid_map tr'
  | _ :: tr' => my_pid_map tr'
  end.

(** Calls that may attach the program, and calls that change what it filters by (or, for the
    manual attachment of usdt, where it is attached). *)
Definition attaches (x : sys * answer) : bool := match fst x with SkelAttach _ => true | _ => false end.
Definition changes (x : sys * answer) : bool :=
  match fst x with PokeGlobal _ _ _ | MapUpdate _ _ _ _ | AttachUsdt _ _ => true | _ => false end.

(** The program is attached only once it is [ready], and not changed afterwards. *)
Fixpoint ordered (ready : list (sys * answer) → Prop) (tr : list (sys * answer)) : Prop :=
  match tr with
  | [] => True
  | x :: tr' =>
      (attaches x = true → ready tr') ∧ (changes x = true → existsb attaches tr' = false) ∧ ordered ready tr'
  end.

(** Being ready outlasts calls that change nothing. *)
Definition lasting (ready : list (sys * answer) → Prop) : Prop :=
  ∀ x tr, changes x = false → ready tr → ready (x :: tr).

Lemma ordered_ready ready tr :
  lasting ready → ordered ready tr → existsb attaches tr = true → ready tr.
Proof.
  intros Hlast. induction tr as [|x tr IH]; [done|]. cbn [ordered existsb]. intros (Ha & Hc & Ho) Hx.
  assert (changes x = false ∧ ready tr) as [Hch Hr]; [|by apply Hlast].
  destruct (attaches x) eqn:Ex.
  - split; [by destruct x as [[] ?]|by apply Ha].
  - cbn [orb] in Hx. split; [|by apply IH]. destruct (changes x); [|done]. by rewrite Hc in Hx.
Qed.

Lemma ordered_suffix ready tr tr' : tr `suffix_of` tr' → ordered ready tr' → ordered ready tr.
Proof. intros [k ->]. induction k as [|x k IH]; [done|]. cbn. tauto. Qed.

Lemma ordered_quiet ready w w' : quiet w w' → ordered ready (trace w) → ordered ready (trace w').
Proof.
  intros (_ & _ & tr & -> & Hq) Ho. induction tr as [|x tr IH]; [done|]. cbn in *.
  apply andb_prop in Hq as [Hx Hq]. destruct x as [[] a]; try done; split_and!; (done || by apply IH).
Qed.

(** The scenario in which this is an invariant. *)
Definition in_order (ready : list (sys * answer) → Prop) : scenario :=
  Scenario None (λ _ _ _, True) (λ w, ordered ready (trace w)) (λ _ _, True).

Lemma in_order_stable ready : stable (in_order ready).
Proof. intros w w'. apply ordered_quiet. Qed.

(** ** When the four programs are ready *)

(** A pid that getpid returned. *)
Definition own_pid (tr : list (sys * answer)) (p : Z) : Prop :=
  0 < p ≤ INT_MAX ∧ ∃ a, (Getpid, a) ∈ tr ∧ ret a = p.

Definition ready_global (tr : list (sys * answer)) : Prop := own_pid tr (global "my_pid" tr).
Definition ready_ns (tr : list (sys * answer)) : Prop :=
  ready_global tr ∧
  ∃ path sb, (Stat path, sb) ∈ tr ∧ out sb !! 0%nat = Some (global "dev" tr) ∧ out sb !! 1%nat = Some (global "ino" tr).
Definition ready_legacy (tr : list (sys * answer)) : Prop :=
  ∃ p, own_pid tr p ∧ bpf_map_lookup_elem (my_pid_map tr) 0 = Some p.

(** The second program of usdt is attached to the process itself. *)
Definition manual_own (tr : list (sys * answer)) : Prop :=
  ∀ s p a, (AttachUsdt s p, a) ∈ tr → own_pid tr p.
Definition ready_usdt (tr : list (sys * answer)) : Prop := ready_global tr ∧ manual_own tr.

Lemma own_pid_cons x tr p : own_pid tr p → own_pid (x :: tr) p.
Proof. intros (Hp & a & Hin & Ha). split; [done|]. exists a. split; [by right|done]. Qed.

Lemma global_cons x tr g : changes x = false → global g (x :: tr) = global g tr.
Proof. by destruct x as [[] a]. Qed.
Lemma my_pid_map_cons x tr : changes x = false → my_pid_map (x :: tr) = my_pid_map tr.
Proof. by destruct x as [[] a]. Qed.

Lemma ready_global_lasting : lasting ready_global.
Proof. intros x tr Hc Hr. unfold ready_global. rewrite global_cons by done. by apply own_pid_cons. Qed.
Lemma ready_ns_lasting : lasting ready_ns.
Proof.
  intros x tr Hc [Hr (path & sb & Hin & Hd & Hi)]. split; [by apply ready_global_lasting|].
  exists path, sb. rewrite !global_cons by done. split; [by right|done].
Qed.
Lemma ready_legacy_lasting : lasting ready_legacy.
Proof.
  intros x tr Hc (p & Hp & Hm). exists p. rewrite my_pid_map_cons by done. split; [by apply own_pid_cons|done].
Qed.

Lemma manual_own_cons x tr : changes x = false → manual_own tr → manual_own (x :: tr).
Proof.
  intros Hc Hm s p a [<-|Hin]%elem_of_cons; [done|]. by eapply own_pid_cons, Hm.
Qed.
Lemma ready_usdt_lasting : lasting ready_usdt.
Proof. intros x tr Hc [Hr Hm]. split; [by apply ready_global_lasting|by apply manual_own_cons]. Qed.

(** ** The main functions *)

Ltac in_history := repeat first [apply list_elem_of_here | apply list_elem_of_further].
Ltac solve_own_pid :=
  split;
  [unfold INT_MAX in *; cbn in *; lia
  |match goal with |- ∃ _, _ ∧ _ = ret ?b => exists b end; split; [in_history|done]].

(** Ready by looking through the calls made so far. *)
Ltac solve_ready :=
  intros _;
  lazymatch goal with
  | |- ready_global _ => unfold ready_global; cbn [global String.eqb Ascii.eqb Bool.eqb]; solve_own_pid
  | |- ready_ns _ =>
      split; [unfold ready_global; cbn [global String.eqb Ascii.eqb Bool.eqb]; solve_own_pid|];
      do 2 eexists; split; [in_history|split; eassumption]
  | |- ready_legacy _ =>
      match goal with H : 0 < ret ?a ≤ INT_MAX |- _ => exists (ret a) end;
      split; [solve_own_pid|]; cbn [my_pid_map];
      match goal with H : (ret ?a <? 0) = false |- context [0 <=? ret ?a] =>
        replace (0 <=? ret a) with true by lia end;
      reflexivity
  | |- ready_usdt _ =>
      split; [unfold ready_global; cbn [global String.eqb Ascii.eqb Bool.eqb]; solve_own_pid|];
      unfold manual_own; intros ? ? ? ?;
      repeat match goal with H : _ ∈ _ :: _ |- _ => apply elem_of_cons in H as [H|H]; [simplify_eq|] end;
      [solve_own_pid|by match goal with H : _ ∈ [] |- _ => apply not_elem_of_nil in H end]
  end.

(** A call of a main function keeps the order. *)
Ltac keep_order :=
  cbn [always in_order trace after_call ordered attaches changes fst existsb orb init];
  split_and!; first [done|eassumption|solve_ready].
#[local] Hint Extern 0 (always (in_order _) _) => keep_order : invariants.

Section mains.
Variable fuel : nat.

Lemma minimal_ordered : wp (in_order ready_global) (MinimalMain.main fuel) (λ _ _, True) init.
Proof.
  unfold MinimalMain.main. repeat wp_step; try done.
  apply wp_dots_forever; [exact I|apply in_order_stable|done].
Qed.

Lemma minimal_ns_ordered : wp (in_order ready_ns) (MinimalNsMain.main fuel) (λ _ _, True) init.
Proof.
  unfold MinimalNsMain.main. repeat wp_step; try done.
  apply wp_dots_forever; [exact I|apply in_order_stable|done].
Qed.

Lemma minimal_legacy_ordered : wp (in_order ready_legacy) (MinimalLegacyMain.main fuel) (λ _ _, True) init.
Proof.
  unfold MinimalLegacyMain.main. repeat wp_step; try done.
  apply wp_dots_forever; [exact I|apply in_order_stable|done].
Qed.

Lemma usdt_ordered : wp (in_order ready_usdt) (UsdtMain.main fuel) (λ _ _, True) init.
Proof.
  unfold UsdtMain.main. repeat wp_step; try done.
  apply wp_dots_until_stop; [exact I|apply in_order_stable|]. intros w' Hq.
  apply wp_world. intros [Ha _]. repeat wp_step; try done.
Qed.
End mains.

(** ** The programs and their mains *)

(** A write() (or setjmp()) of thread [tid] of process [pid]: what the BPF programs print at
    the moment after the calls [tr]. *)
Section reports.
Variable ns_pid : Z → Z → Z.    (* the pid bpf_get_ns_current_pid_tgid gives for a namespace *)
Variables (pid tid : Z).
Let word : Z := pid * 2 ^ 32 + tid.

Definition minimal_reports (tr : list (sys * answer)) : Prop :=
  ∃ p, own_pid tr p ∧
    snd (Minimal.handle_tp (global "my_pid" tr) word) = if pid =? p then triggered p else [].
(** The pid is the one in the namespace that stat described. *)
Definition minimal_ns_reports (tr : list (sys * answer)) : Prop :=
  ∃ p path sb dev ino, own_pid tr p ∧ (Stat path, sb) ∈ tr ∧ out sb !! 0%nat = Some dev ∧ out sb !! 1%nat = Some ino ∧
    snd (MinimalNs.handle_tp ns_pid (global "dev" tr) (global "ino" tr) (global "my_pid" tr)) =
      if ns_pid dev ino =? p then triggered p else [].
Definition minimal_legacy_reports (tr : list (sys * answer)) : Prop :=
  ∃ p, own_pid tr p ∧
    snd (MinimalLegacy.handle_tp (my_pid_map tr) word) = if pid =? p then triggered p else [].
(** The program attached by hand prints for the process it is attached to: the loader's. *)
Definition usdt_reports (tr : list (sys * answer)) : Prop :=
  manual_own tr ∧ ∃ p, own_pid tr p ∧ ∀ arg1 arg2 arg3,
    snd (Usdt.usdt_auto_attach (global "my_pid" tr) word arg1 arg2 arg3) =
      if pid =? p
      then [Printk "USDT auto attach to libc:setjmp: arg1 = %lx, arg2 = %d, arg3 = %lx" [PInt arg1; PInt arg2; PInt arg3]]
      else [].

Definition filtered : list ((nat → P Z) * (list (sys * answer) → Prop)) :=
  [(MinimalMain.main, minimal_reports); (MinimalNsMain.main, minimal_ns_reports);
   (MinimalLegacyMain.main, minimal_legacy_reports); (UsdtMain.main, usdt_reports)].

Hypothesis Hpid : 0 ≤ pid ≤ INT_MAX.
Hypothesis Htid : in_u32 tid.

Lemma ready_global_reports tr : ready_global tr → minimal_reports tr.
Proof using Hpid Htid.
  intros Hr. exists (global "my_pid" tr). split; [done|]. unfold Minimal.handle_tp, word.
  rewrite current_pid_word by done. cbv zeta.
  destruct (Z.eqb_spec pid (global "my_pid" tr)) as [->|]; done.
Qed.

Lemma ready_ns_reports tr : ready_ns tr → minimal_ns_reports tr.
Proof.
  intros [Hr (path & sb & Hin & Hd & Hi)].
  exists (global "my_pid" tr), path, sb, (global "dev" tr), (global "ino" tr). split_and!; try done.
  unfold MinimalNs.handle_tp. cbv zeta. generalize (ns_pid (global "dev" tr) (global "ino" tr)). intros q.
  destruct (Z.eqb_spec q (global "my_pid" tr)) as [->|]; done.
Qed.

Lemma ready_legacy_reports tr : ready_legacy tr → minimal_legacy_reports tr.
Proof using Hpid Htid.
  intros (p & Hp & Hm). exists p. split; [done|]. unfold MinimalLegacy.handle_tp, word.
  rewrite current_pid_word by done. cbv zeta. rewrite Hm, (Z.eqb_sym p pid).
  destruct (Z.eqb_spec pid p) as [->|]; done.
Qed.

Lemma ready_usdt_reports tr : ready_usdt tr → usdt_reports tr.
Proof using Hpid Htid.
  intros [Hr Hm]. split; [done|]. exists (global "my_pid" tr). split; [done|]. intros arg1 arg2 arg3.
  unfold Usdt.usdt_auto_attach, word. rewrite current_pid_word by done. cbv zeta.
  destruct (Z.eqb_spec pid (global "my_pid" tr)) as [->|]; done.
Qed.
End reports.

(** From an ordered main to every moment of its runs. *)
Lemma ordered_moments ready (main : P Z) (reports : list (sys * answer) → Prop) env tr :
  wp (in_order ready) main (λ _ _, True) init → lasting ready → (∀ tr, ready tr → reports tr) →
  env_ok env → tr `suffix_of` trace (snd (main env init)) → existsb attaches tr = true → reports tr.
Proof.
  intros Hwp Hlast Hrep He Hs Ha. apply Hrep. apply ordered_ready; [done| |done].
  assert (good_env (in_order ready) env) as Hg by done.
  pose proof (wp_run (in_order ready) main _ env Hwp Hg I) as Hr.
  destruct (main env init) as [[] w]; try done; cbn [snd] in Hs;
    (eapply ordered_suffix; [exact Hs|]); cbn [always in_order] in Hr; tauto.
Qed.

(** ** Property *)

(** C40. A tracing program never reports a stranger: at every moment of every run of minimal,
    minimal_ns, minimal_legacy and usdt (whatever the calls answer and whenever a signal
    arrives) from the call that attaches the BPF program on, a write() or setjmp() of any
    thread is reported exactly when its process is the one that loaded the program (for
    minimal_ns: when it has the loader's number in the namespace stat described); usdt attaches
    its second program to its own process only. *)
Theorem only_own_process_reported (ns_pid : Z → Z → Z) (pid tid : Z) (main : nat → P Z)
    (reports : list (sys * answer) → Prop) (env : environment) (fuel : nat) (tr : list (sys * answer)) :
  (main, reports) ∈ filtered ns_pid pid tid → 0 ≤ pid ≤ INT_MAX → in_u32 tid → env_ok env →
  tr `suffix_of` trace (snd (main fuel env init)) → existsb attaches tr = true → reports tr.
Proof.
  intros Hin Hp Ht He Hs Ha. unfold filtered in Hin. repeat rewrite elem_of_cons in Hin.
  destruct_or! Hin; [..|by apply not_elem_of_nil in Hin]; injection Hin as -> ->;
    (eapply ordered_moments; [| | |exact He|exact Hs|exact Ha]).
  - apply minimal_ordered.
  - apply ready_global_lasting.
  - by apply ready_global_reports.
  - apply minimal_ns_ordered.
  - apply ready_ns_lasting.
  - by apply ready_ns_reports.
  - apply minimal_legacy_ordered.
  - apply ready_legacy_lasting.
  - by apply ready_legacy_reports.
  - apply usdt_ordered.
  - apply ready_usdt_lasting.
  - by apply ready_usdt_reports.
Qed.

(** usdt after 14 calls. *)
Definition usdt_moment : list (sys * answer) :=
  drop 3 (trace (snd (UsdtMain.main 9 undisturbed init))).

Lemma only_own_process_reported_witness :
  existsb attaches usdt_moment = true ∧ usdt_reports 4242 7 usdt_moment.
Proof.
  split; [by vm_compute|].
  apply (only_own_process_reported (λ _ _, 0) 4242 7 UsdtMain.main _ undisturbed 9 usdt_moment).
  - do 3 right. left.
  - unfold INT_MAX. lia.
  - unfold in_u32. lia.
  - apply undisturbed_ok.
  - exists (take 3 (trace (snd (UsdtMain.main 9 undisturbed init)))). unfold usdt_moment. by rewrite take_drop.
  - by vm_compute.
Defined.
