(* ===== verification/PageSnapshot.v ===== *)
(** * PageSnapshot: from page accesses to the snapshot file

    The two halves of the page tracker composed: the handlers of kprobe.bpf.c fill
    page_access_map, the loop of kprobe.c's main writes it to a file.  The specification
    is the history of the kernel events: [recent] lists the accesses to a page since it was
    last freed. *)

From S2P Require Import Prelude CInt CFormat BpfKernel PageTracker PageLru PageUser.

(** ** The specification *)

(** The accesses to page [k] by registered processes since it was last freed, in order:
    the process and the size of the folio. *)
Definition recent_step (is_tracked : Z → bool) (k : page_key)
    (acc : list (Z * Z)) (ev : kevent) : list (Z * Z) :=
  match ev with
  | Accessed cur f =>
      if decide (key_of f = k ∧ is_tracked (pid_of cur) = true)
      then acc ++ [(pid_of cur, f_nr_pages f)] else acc
  | Freed _ tm f => if decide (free_key tm f = k) then [] else acc
  end.
Definition recent (is_tracked : Z → bool) (k : page_key) (evs : list kevent) : list (Z * Z) :=
  foldl (recent_step is_tracked k) [] evs.

(** The line of a page: its hash, the last process to access it, and how often it was. *)
Definition history_line (k : page_key) (acc : list (Z * Z)) : bytes :=
  fmt_x (hash_index_mapping (index k) (mapping k)) ++ str " " ++
  fmt_d (default 0 (fst <$> last acc)) ++ str " " ++
  fmt_d (s64 (Z.of_nat (length acc))) ++ str " " ++ [10].

(** The pages the loop of the dump visits, of the pages [ks] in the map's order: it starts
    behind the zero key, as if that were absent. *)
Definition visited (ks : list page_key) : list page_key :=
  if decide (zero_key ∈ ks) then after zero_key ks else ks.

Section tracker.
Context {PM GM CM : Type}.
Context `{!BpfMap PM Z Z, !BpfMap GM page_key metric, !BpfMap CM Z Z}.
Context `{!BpfMapLaws GM page_key metric, !BpfMapLaws CM Z Z, !BpfMapPresent GM page_key metric}.
Implicit Types s : kstate PM GM CM.

(** No new page of the run is refused. *)
Fixpoint accepted (evs : list kevent) s : Prop :=
  match evs with
  | [] => True
  | ev :: evs' =>
      match ev with
      | Accessed cur f =>
          tracked s (pid_of cur) = true → page_at s (key_of f) = None → miss_code s cur f = 0
      | Freed _ _ _ => True
      end ∧ accepted evs' (exec (handle ev) s)
  end.

(** The record of a page that was accessed as [acc] tells; None: not recorded. *)
Definition recorded (acc : list (Z * Z)) (o : option metric) : Prop :=
  match o with
  | None => acc = []
  | Some m =>
      ref_count m = u64 (Z.of_nat (length acc)) ∧ last acc = Some (m_pid m, page_count m)
  end.

Lemma recorded_hit acc m c pid nr :
  recorded acc (Some m) → recorded (acc ++ [(pid, nr)]) (Some (bump_metric pid nr c m)) ∨ c = None.
Proof.
  intros [Hr _]. destruct c as [c|]; [left|by right]. cbn. rewrite last_snoc, length_app.
  split; [|done]. rewrite Hr, u64_add_l. f_equal. cbn. lia.
Qed.

Lemma recorded_miss pid nr c : recorded [(pid, nr)] (Some (fresh_metric pid nr (Some c))).
Proof. by split. Qed.

(** One event: what is recorded of each page goes on following its history. *)
Lemma recorded_step s is_tracked acc ev k c :
  (∀ p, tracked s p = is_tracked p) → count_at s = Some c → accepted [ev] s →
  recorded acc (page_at s k) →
  recorded (recent_step is_tracked k acc ev) (page_at (exec (handle ev) s) k).
Proof.
  intros Htr Hc [Hacc _] Hk. destruct ev as [cur f|cur tm f]; cbn [handle recent_step].
  - rewrite <- Htr. destruct (tracked s (pid_of cur)) eqn:Ht.
    2:{ rewrite decide_False by (by intros [_ ?]). unfold exec. by rewrite mark_untracked. }
    destruct (page_at s (key_of f)) as [m|] eqn:Ek.
    + destruct (mark_hit s cur f m k Ht Ek) as [-> _]. rewrite Hc.
      destruct (decide (key_of f = k)) as [<-|Hne].
      * rewrite decide_True by done. rewrite Ek in Hk.
        by destruct (recorded_hit acc m (Some c) (pid_of cur) (f_nr_pages f) Hk).
      * rewrite decide_False; [done|]. by intros [? _].
    + destruct (mark_miss s cur f k Ht Ek) as [-> _]. rewrite Hc.
      rewrite (decide_True (P:=miss_code _ _ _ = 0)) by (by apply Hacc).
      destruct (decide (key_of f = k)) as [<-|Hne].
      * rewrite decide_True by done. rewrite Ek in Hk. cbn in Hk. subst acc. apply recorded_miss.
      * rewrite decide_False; [done|]. by intros [? _].
  - destruct (page_at s (free_key tm f)) as [m|] eqn:Ek.
    + destruct (free_present s cur tm f m k Ek) as [-> _].
      rewrite (decide_True (P:=delete_code _ _ _ = 0)) by (apply delete_present; by exists m).
      by case_decide.
    + unfold exec. rewrite free_absent by done. cbn.
      destruct (decide (free_key tm f = k)) as [<-|]; [|done]. by rewrite Ek.
Qed.

Lemma run_recorded is_tracked evs k : ∀ s acc c,
  (∀ p, tracked s p = is_tracked p) → count_at s = Some c → in_u64 c → accepted evs s →
  recorded acc (page_at s k) →
  recorded (foldl (recent_step is_tracked k) acc evs) (page_at (run evs s) k).
Proof.
  induction evs as [|ev evs IH]; intros s acc c Htr Hc Hr Hacc Hk; [done|].
  destruct Hacc as [Hev Hacc]. cbn [run foldl].
  destruct (handle_count s ev c Hc Hr) as [Hc' Hp'].
  eapply IH; [| exact Hc'|apply u64_range|done|].
  - intros p. rewrite <- Htr. unfold tracked. by rewrite Hp'.
  - by apply recorded_step with c.
Qed.

Section snapshot.
Context `{!BpfMapIter GM page_key metric}.

(** The lines of recorded pages tell their histories. *)
Lemma lines_of_histories (pages : GM) (acc : page_key → list (Z * Z)) ks :
  Forall (λ k, is_Some (bpf_map_lookup_elem pages k)) ks →
  (∀ k, recorded (acc k) (bpf_map_lookup_elem pages k)) →
  ks ≫= line_of pages = (λ k, history_line k (acc k)) <$> ks.
Proof.
  intros Hks Hacc. induction Hks as [|k ks [m Hm] _ IH]; [done|].
  cbn. rewrite IH. unfold line_of. rewrite Hm. cbn. f_equal.
  pose proof (Hacc k) as Hk. rewrite Hm in Hk. destruct Hk as [Hr Hl].
  unfold dump_line, history_line. rewrite Hr, Hl. cbn. by rewrite s64_u64.
Qed.
End snapshot.
End tracker.

(** ** Property *)

(** C1. A snapshot tells the history of the accesses: when the handlers ran, one after the
    other and from an empty map, and no page was refused, the dump terminates and writes, in
    the order of the map, one line for each page that a registered process accessed since it
    was last freed, with the page's hash, the process that accessed it last and the number of
    those accesses.  If one of these pages is the zero key, its line and those of the pages
    before it in the map are missing, and no others. *)
Theorem snapshot_tells_history {PM GM CM : Type}
    `{!BpfMap PM Z Z, !BpfMap GM page_key metric, !BpfMap CM Z Z}
    `{!BpfMapLaws GM page_key metric, !BpfMapLaws CM Z Z, !BpfMapPresent GM page_key metric}
    `{!BpfMapIter GM page_key metric}
    (s : kstate PM GM CM) (evs : list kevent) (fuel : nat) :
  (∀ k, page_at s k = None) → count_at s = Some 0 → accepted evs s →
  (length (map_keys (page_access_map (run evs s))) < fuel)%nat →
  ∃ ks, NoDup ks ∧ (∀ k, k ∈ ks ↔ recent (tracked s) k evs ≠ []) ∧
    dump fuel (page_access_map (run evs s)) =
    Some ((λ k, history_line k (recent (tracked s) k evs)) <$> visited ks).
Proof.
  intros Hp Hc Hacc Hf.
  assert (∀ k, recorded (recent (tracked s) k evs) (page_at (run evs s) k)) as Hrec.
  { intros k. apply (run_recorded (tracked s) evs k s [] 0); try done.
    by rewrite Hp. }
  assert (∀ k, k ∈ map_keys (page_access_map (run evs s)) ↔ recent (tracked s) k evs ≠ []) as Hin.
  { intros k. rewrite map_keys_lookup. pose proof (Hrec k) as Hk. unfold page_at in Hk.
    destruct (bpf_map_lookup_elem (page_access_map (run evs s)) k) as [m|]; cbn in Hk.
    - split; [|by eexists]. intros _ E. rewrite E in Hk. by destruct Hk.
    - rewrite Hk. by split; [intros [? ?]|]. }
  exists (map_keys (page_access_map (run evs s))). split; [apply map_keys_NoDup|].
  split; [done|]. rewrite dump_visits by done.
  f_equal. apply lines_of_histories; [|done].
  apply Forall_forall. intros k Hk. apply map_keys_lookup.
  unfold visited in Hk. case_decide; [by apply (after_subset zero_key)|done].
Qed.

Example snapshot_demo :
  dump 3 (page_access_map (run demo_events demo_state)) =
  Some [str "10001 43 2 " ++ [10]; str "10004 42 1 " ++ [10]].
Proof. by vm_compute. Qed.

(** The zero key is recorded, and missing from the snapshot. *)
Example snapshot_zero_demo :
  let evs := Accessed (demo_cur 42) (Folio 0 0 1) :: demo_events in
  dump 4 (page_access_map (run evs demo_state)) =
  Some [str "10001 43 2 " ++ [10]; str "10004 42 1 " ++ [10]].
Proof. by vm_compute. Qed.

Lemma snapshot_tells_history_witness :
  ∃ ks, NoDup ks ∧ (∀ k, k ∈ ks ↔ recent (tracked demo_state) k demo_events ≠ []) ∧
    dump 3 (page_access_map (run demo_events demo_state)) =
    Some ((λ k, history_line k (recent (tracked demo_state) k demo_events)) <$> visited ks).
Proof.
  apply (snapshot_tells_history demo_state demo_events 3); [done|done| |].
  - by vm_compute; repeat split.
  - vm_compute. lia.
Defined.
