(* ===== verification/PageSmp.v ===== *)
(** * PageSmp: the page tracker on several CPUs, at the grain of its memory accesses

    The handlers of examples/c/kprobe.bpf.c run on every CPU at once, while kprobe.c
    registers PIDs and dumps the page map.  Here each of them is a program of single
    accesses to shared memory ([prog], a free monad over the accesses [access]); a
    configuration interleaves any number of them ([play]).  The dump loop has no bound: a round
    is a program that ends with the key the next one starts from, and the move [Again] begins
    that round.

    The elements of page_access_map are cells: a lookup returns the cell, the handlers
    read and write its fields one by one, an update links a cell the kernel picks in the
    place of the old one, a delete unlinks.  A cell that is not linked may be picked
    again while a CPU still writes to it, as the preallocated elements of a hash map are.
    Which cell is picked, whether an update is refused, and which key follows a key are
    the kernel's choices, arguments of [act]. *)

From S2P Require Import Prelude CInt BpfKernel PageTracker CFormat PageUser.

(** ** Shared memory *)

Inductive field := FRefCount | FRank | FPageCount | FPid.

#[export] Instance field_eq_dec : EqDecision field.
Proof. solve_decision. Defined.

Definition get (f : field) (m : metric) : Z :=
  match f with
  | FRefCount => ref_count m
  | FRank => rank m
  | FPageCount => page_count m
  | FPid => m_pid m
  end.
Definition put (f : field) (v : Z) (m : metric) : metric :=
  match f with
  | FRefCount => set_ref_count v m
  | FRank => set_rank v m
  | FPageCount => set_page_count v m
  | FPid => set_pid v m
  end.

Record memory := Memory {
  table : gmap page_key nat;       (* page_access_map: the cell of each key *)
  cells : gmap nat metric;
  counter : Z;                     (* element 0 of static_counter *)
  pids : gset Z;                   (* the keys of pid_map *)
  trace : list trace_line;
  snapshot : list bytes;           (* lines written to the snapshot files *)
  increments : nat;                (* ghost: completed [( *counter )++] *)
  touches : nat;                   (* ghost: completed [(access_count->ref_count)++] *)
  begun : list kevent;             (* ghost: the handler runs that have begun *)
}.

Definition minit : memory := Memory ∅ ∅ 0 ∅ [] [] 0 0 [].

Definition with_table f s :=
  Memory (f (table s)) (cells s) (counter s) (pids s) (trace s) (snapshot s)
    (increments s) (touches s) (begun s).
Definition with_cells f s :=
  Memory (table s) (f (cells s)) (counter s) (pids s) (trace s) (snapshot s)
    (increments s) (touches s) (begun s).
Definition with_count v s :=
  Memory (table s) (cells s) v (pids s) (trace s) (snapshot s)
    (S (increments s)) (touches s) (begun s).
Definition with_pids f s :=
  Memory (table s) (cells s) (counter s) (f (pids s)) (trace s) (snapshot s)
    (increments s) (touches s) (begun s).
Definition with_trace l s :=
  Memory (table s) (cells s) (counter s) (pids s) (trace s ++ [l]) (snapshot s)
    (increments s) (touches s) (begun s).
Definition with_line l s :=
  Memory (table s) (cells s) (counter s) (pids s) (trace s) (snapshot s ++ [l])
    (increments s) (touches s) (begun s).
Definition with_touch s :=
  Memory (table s) (cells s) (counter s) (pids s) (trace s) (snapshot s)
    (increments s) (S (touches s)) (begun s).
Definition with_begun ev s :=
  Memory (table s) (cells s) (counter s) (pids s) (trace s) (snapshot s)
    (increments s) (touches s) (begun s ++ [ev]).

(** ** Accesses and programs *)

Inductive access : Set → Type :=
  | LookupPid (pid : Z) : access (option ())
  | LookupPage (key : page_key) : access (option nat)
  | LookupCounter : access (option ())
  | ReadCounter : access Z
  | WriteCounter (v : Z) : access ()
  | ReadField (c : nat) (f : field) : access Z
  | WriteField (c : nat) (f : field) (v : Z) : access ()
  | UpdatePage (key : page_key) (v : metric) : access Z
  | DeletePage (key : page_key) : access Z
  | Trace (l : trace_line) : access ()
  | NextKey (key : page_key) : access (option page_key)
  | WriteLine (l : bytes) : access ().

Inductive prog (A : Type) :=
  | Ret (a : A)
  | Vis {X : Set} (e : access X) (k : X → prog A).
Arguments Ret {_} _.
Arguments Vis {_ _} _ _.

Fixpoint prog_bind {A B} (f : A → prog B) (p : prog A) : prog B :=
  match p with
  | Ret a => f a
  | Vis e k => Vis e (λ x, prog_bind f (k x))
  end.
#[export] Instance prog_mret : MRet prog := @Ret.
#[export] Instance prog_mbind : MBind prog := @prog_bind.
Definition op {X : Set} (e : access X) : prog X := Vis e Ret.

(** What the kernel decides at an access: the cell an update links (None: it is refused),
    the key that follows. *)
Record choice := Choice { pick : option nat; next : option page_key }.

Definition linked (c : nat) s : Prop := map_Exists (λ _ c', c' = c) (table s).
#[export] Instance linked_dec c s : Decision (linked c s).
Proof. unfold linked. apply _. Defined.

(** A new key needs one of the [max_entries] places. *)
Definition has_place (key : page_key) s : Prop :=
  is_Some (table s !! key) ∨ Z.of_nat (size (table s)) < page_access_map_max_entries.
#[export] Instance has_place_dec key s : Decision (has_place key s).
Proof. unfold has_place. apply _. Defined.

(** The cell [o] offers for the key, if it can be used. *)
Definition picked (o : choice) (key : page_key) s : option nat :=
  c ← pick o; if decide (¬ linked c s ∧ has_place key s) then Some c else None.

(** One access: the answer and the memory it leaves; None: a wild pointer. *)
Definition act (o : choice) (s : memory) {X : Set} (e : access X) : option (X * memory) :=
  match e in access X return option (X * memory) with
  | LookupPid pid => Some (if decide (pid ∈ pids s) then Some () else None, s)
  | LookupPage key => Some (table s !! key, s)
  | LookupCounter => Some (Some (), s)
  | ReadCounter => Some (counter s, s)
  | WriteCounter v => Some ((), with_count v s)
  | ReadField c f => m ← cells s !! c; Some (get f m, s)
  | WriteField c f v =>
      m ← cells s !! c;
      let s' := with_cells <[c := put f v m]> s in
      Some ((), match f with FRefCount => with_touch s' | _ => s' end)
  | UpdatePage key v =>
      Some match picked o key s with
           | Some c => (0, with_table <[key := c]> (with_cells <[c := v]> s))
           | None => (- E2BIG, s)
           end
  | DeletePage key =>
      Some match table s !! key with
           | Some _ => (0, with_table (delete key) s)
           | None => (- ENOENT, s)
           end
  | Trace l => Some ((), with_trace l s)
  | NextKey key =>
      Some (k ← next o; if decide (is_Some (table s !! k)) then Some k else None, s)
  | WriteLine l => Some ((), with_line l s)
  end.

(** ** The programs *)

(** [( *counter )++] and the [*counter] after it. *)
Definition incr : prog () :=
  c ← op ReadCounter; op (WriteCounter (u64 (c + 1))).

(** The value at [access_count], copied field by field. *)
Definition read_metric (c : nat) : prog metric :=
  r ← op (ReadField c FRefCount);
  k ← op (ReadField c FRank);
  n ← op (ReadField c FPageCount);
  p ← op (ReadField c FPid);
  mret (Metric r k n p).

Definition folio_mark_accessed (cur : Z) (f1 : folio) : prog Z :=
  let pid := s32 (Z.shiftr cur 32) in
  value ← op (LookupPid pid);
  match value with
  | None => mret 0
  | Some _ =>
      let key := PageKey (f_mapping f1) (f_index f1) in
      let page_count := f_nr_pages f1 in
      let new_count := set_pid pid (set_page_count page_count (Metric 1 0 1 0)) in
      access_count ← op (LookupPage key);
      match access_count with
      | None =>
          counter ← op LookupCounter;
          new_count ← match counter with
                      | Some _ => incr;; c ← op ReadCounter; mret (set_rank c new_count)
                      | None => mret new_count
                      end;
          op (UpdatePage key new_count);;
          mret 0
      | Some access_count =>
          r ← op (ReadField access_count FRefCount);
          op (WriteField access_count FRefCount (u64 (r + 1)));;
          counter ← op LookupCounter;
          match counter with
          | Some _ =>
              incr;;
              op (WriteField access_count FPid pid);;
              c ← op ReadCounter;
              op (WriteField access_count FRank c)
          | None => mret ()
          end;;
          op (WriteField access_count FPageCount page_count);;
          value ← read_metric access_count;
          op (UpdatePage key value);;
          mret 0
      end
  end.

Definition filemap_free_folio (cur tmp_mapping : Z) (f1 : folio) : prog Z :=
  let pid := s32 (Z.shiftr cur 32) in
  let key := PageKey tmp_mapping (f_index f1) in
  access_count ← op (LookupPage key);
  match access_count with
  | None => mret 0
  | Some _ =>
      op (Trace (Printk ("KPROBE ENTRY delete pid = %d, index = %ld" +:+ nl)
                   [PInt pid; PInt (index key)]));;
      op (DeletePage key);;
      mret 0
  end.

Definition handler (ev : kevent) : prog Z :=
  match ev with
  | Accessed cur f => folio_mark_accessed cur f
  | Freed cur m f => filemap_free_folio cur m f
  end.

(** A round of the loop of kprobe.c's main that writes a snapshot: the key the next round
    starts from; None: the loop ends. *)
Definition dump_round (key : page_key) : prog (option page_key) :=
  next ← op (NextKey key);
  match next with
  | None => mret None
  | Some next_key =>
      found ← op (LookupPage next_key);
      match found with
      | Some c => value ← read_metric c; op (WriteLine (dump_line next_key value))
      | None => mret ()
      end;;
      mret (Some next_key)
  end.

(** ** Interleaving *)

(** What a program does after its last access: it has returned, or goes round its loop. *)
Inductive status :=
  | Done (z : Z)
  | Next (key : page_key).

Definition handler_thread (ev : kevent) : prog status := z ← handler ev; mret (Done z).
Definition dump_thread (key : page_key) : prog status :=
  next ← dump_round key;
  mret match next with Some next_key => Next next_key | None => Done 0 end.

Record config := Config { mem : memory; running : gmap nat (prog status) }.

Definition cinit : config := Config minit ∅.

(** A handler starts on a CPU, or the main thread a dump; a program makes its next
    access; a dump begins its next round; a program that has returned is gone; the PID
    thread registers a PID. *)
Inductive move :=
  | Enter (i : nat) (ev : kevent)
  | StartDump (i : nat)
  | Step (i : nat) (o : choice)
  | Again (i : nat)
  | Leave (i : nat)
  | Register (pid : Z).

(** None: the move is not possible, or the program faults. *)
Definition play (mv : move) (c : config) : option config :=
  match mv with
  | Enter i ev =>
      if decide (running c !! i = None)
      then Some (Config (with_begun ev (mem c)) (<[i := handler_thread ev]> (running c)))
      else None
  | StartDump i =>
      if decide (running c !! i = None)
      then Some (Config (mem c) (<[i := dump_thread zero_key]> (running c)))
      else None
  | Step i o =>
      p ← running c !! i;
      match p with
      | Ret _ => None
      | Vis e k => '(x, s') ← act o (mem c) e; Some (Config s' (<[i := k x]> (running c)))
      end
  | Again i =>
      p ← running c !! i;
      match p with
      | Ret (Next key) => Some (Config (mem c) (<[i := dump_thread key]> (running c)))
      | _ => None
      end
  | Leave i =>
      p ← running c !! i;
      match p with
      | Ret (Done _) => Some (Config (mem c) (delete i (running c)))
      | _ => None
      end
  | Register pid => Some (Config (with_pids (union {[pid]}) (mem c)) (running c))
  end.

Fixpoint play_all (mvs : list move) (c : config) : option config :=
  match mvs with
  | [] => Some c
  | mv :: mvs' => c' ← play mv c; play_all mvs' c'
  end.

Lemma play_all_app mvs1 mvs2 c : play_all (mvs1 ++ mvs2) c = play_all mvs1 c ≫= play_all mvs2.
Proof.
  revert c. induction mvs1 as [|mv mvs1 IH]; intros c; cbn; [done|].
  destruct (play mv c); cbn; [apply IH|done].
Qed.

Definition reachable (c : config) : Prop := ∃ mvs, play_all mvs cinit = Some c.

(** A program run to its end with no other access in between. *)
Fixpoint alone {A} (o : choice) (s : memory) (p : prog A) : option (A * memory) :=
  match p with
  | Ret a => Some (a, s)
  | Vis e k => '(x, s') ← act o s e; alone o s' (k x)
  end.

(** Every path of a program makes at most [n] accesses. *)
Fixpoint at_most {A} (n : nat) (p : prog A) {struct p} : Prop :=
  match p with
  | Ret _ => True
  | Vis _ k => match n with O => False | S n' => ∀ x, at_most n' (k x) end
  end.

(** ** Well-formed memories *)

(** The table points to cells that exist, no two keys share one, and it is not
    overfull. *)
Record wf (s : memory) : Prop := {
  wf_cell : ∀ k c, table s !! k = Some c → is_Some (cells s !! c);
  wf_inj : ∀ k1 k2 c, table s !! k1 = Some c → table s !! k2 = Some c → k1 = k2;
  wf_size : Z.of_nat (size (table s)) ≤ page_access_map_max_entries;
}.

(** The value page_access_map holds for a key. *)
Definition entry (s : memory) (k : page_key) : option metric :=
  table s !! k ≫= λ c, cells s !! c.

Lemma linked_intro s k c : table s !! k = Some c → linked c s.
Proof. intros Hk. by exists k, c. Qed.

Lemma picked_spec o key s c :
  picked o key s = Some c → pick o = Some c ∧ ¬ linked c s ∧ has_place key s.
Proof.
  unfold picked. destruct (pick o) as [c'|]; cbn; [|done].
  case_decide as Hd; [|done]. intros [= ->]. by destruct Hd.
Qed.

(** Writing a cell changes the entry that owns it. *)
Lemma entry_write s k c m k' :
  wf s → table s !! k = Some c →
  entry (with_cells <[c := m]> s) k' = if decide (k = k') then Some m else entry s k'.
Proof.
  intros Hwf Hk. unfold entry. cbn. case_decide as E; [subst k'|].
  - rewrite Hk. cbn. by rewrite lookup_insert_eq.
  - destruct (table s !! k') as [c'|] eqn:Hk'; cbn; [|done].
    rewrite lookup_insert_ne; [done|]. intros <-. by apply E, (wf_inj _ Hwf _ _ c).
Qed.

(** Linking an unlinked cell changes the entry of its key. *)
Lemma entry_link s key c v k' :
  ¬ linked c s →
  entry (with_table <[key := c]> (with_cells <[c := v]> s)) k' =
  if decide (key = k') then Some v else entry s k'.
Proof.
  intros Hc. unfold entry. cbn. case_decide as E; [subst k'|].
  - rewrite lookup_insert_eq. cbn. by rewrite lookup_insert_eq.
  - rewrite lookup_insert_ne by done. destruct (table s !! k') as [c'|] eqn:Hk'; cbn; [|done].
    rewrite lookup_insert_ne; [done|]. intros <-. by apply Hc, linked_intro with k'.
Qed.

Lemma wf_same s s' : wf s → table s' = table s → cells s' = cells s → wf s'.
Proof. intros [Hc Hi Hs] Et Ec. split; by rewrite ?Et, ?Ec. Qed.

Lemma wf_write s c m : wf s → wf (with_cells <[c := m]> s).
Proof.
  intros [Hc Hi Hs]. split; cbn; [|done..]. intros k c' Hk.
  rewrite lookup_insert. case_decide; [by eexists|by apply Hc with k].
Qed.

Lemma wf_link s key c v :
  wf s → ¬ linked c s → has_place key s →
  wf (with_table <[key := c]> (with_cells <[c := v]> s)).
Proof.
  intros [Hc Hi Hs] Hl Hp. split; cbn.
  - intros k c' Hk. rewrite lookup_insert. case_decide; [by eexists|].
    rewrite lookup_insert in Hk. case_decide; [congruence|by apply Hc with k].
  - intros k1 k2 c'. rewrite !lookup_insert. repeat case_decide; subst; try done.
    + intros [= <-] Hk. destruct Hl. by apply linked_intro with k2.
    + intros Hk [= <-]. destruct Hl. by apply linked_intro with k1.
    + by apply Hi.
  - rewrite map_size_insert. destruct Hp as [[? ->]|Hp]; [done|].
    destruct (table s !! key); unfold id; lia.
Qed.

Lemma wf_unlink s key : wf s → wf (with_table (delete key) s).
Proof.
  intros [Hc Hi Hs]. split; cbn.
  - intros k c [_ Hk]%lookup_delete_Some. by apply Hc with k.
  - intros k1 k2 c [_ H1]%lookup_delete_Some [_ H2]%lookup_delete_Some. by apply Hi with c.
  - rewrite map_size_delete. destruct (table s !! key); unfold id; lia.
Qed.

Lemma wf_init : wf minit.
Proof.
  split; [done..|]. unfold page_access_map_max_entries. cbn. rewrite map_size_empty. lia.
Qed.
