(* ===== verification/PageSmpInv.v ===== *)
(** * PageSmpInv: every interleaving of the page tracker

    What holds however the accesses of handlers, dumps and registrations interleave.  A
    program is verified once, by [safe], a weakest precondition over its accesses that is
    stable under the accesses of the others: the facts it uses are monotone in [future],
    the order of the memories a run passes through.  [sound] is the invariant that each
    access keeps ([act_sound]); [config_ok] lifts both to configurations. *)

From S2P Require Import Prelude CInt BpfKernel PageTracker CFormat PageUser PageSmp.

(** ** Facts that stay true *)

(** An access by a registered process has begun. *)
Definition registered_access (s : memory) (cur : Z) (f : folio) : Prop :=
  Accessed cur f ∈ begun s ∧ pid_of cur ∈ pids s.

(** What the fields of a record are made of. *)
Definition field_ok (s : memory) (f : field) (v : Z) : Prop :=
  match f with
  | FRefCount => in_u64 v ∧ v ≤ Z.of_nat (touches s) + 1
  | FRank => in_u64 v ∧ v ≤ Z.of_nat (increments s)
  | FPageCount => ∃ cur fo, registered_access s cur fo ∧ f_nr_pages fo = v
  | FPid => ∃ cur fo, registered_access s cur fo ∧ pid_of cur = v
  end.
Definition metric_ok (s : memory) (m : metric) : Prop := ∀ f, field_ok s f (get f m).
Definition accessed (s : memory) (key : page_key) : Prop :=
  ∃ cur fo, registered_access s cur fo ∧ key_of fo = key.
Definition allocated (s : memory) (c : nat) : Prop := is_Some (cells s !! c).

(** A line of a snapshot: of an accessed page and a record made of accesses. *)
Definition line_ok (s : memory) (l : bytes) : Prop :=
  ∃ k m, l = dump_line k m ∧ accessed s k ∧ metric_ok s m.

Record future (s s' : memory) : Prop := {
  fut_cells : ∀ c, allocated s c → allocated s' c;
  fut_pids : pids s ⊆ pids s';
  fut_increments : (increments s ≤ increments s')%nat;
  fut_touches : (touches s ≤ touches s')%nat;
  fut_begun : ∀ ev, ev ∈ begun s → ev ∈ begun s';
}.

#[export] Instance future_preorder : PreOrder future.
Proof.
  split.
  - intros s. split; done.
  - intros s1 s2 s3 [C1 P1 I1 T1 B1] [C2 P2 I2 T2 B2]. split; try lia; auto.
    by transitivity (pids s2).
Qed.

Section stable.
Context (s s' : memory) (Hf : future s s').

Lemma registered_stable cur fo : registered_access s cur fo → registered_access s' cur fo.
Proof using Hf. intros [? ?]. split; [by apply (fut_begun _ _ Hf)|by apply (fut_pids _ _ Hf)]. Qed.

Lemma field_stable f v : field_ok s f v → field_ok s' f v.
Proof using Hf.
  destruct Hf. destruct f; cbn; unfold in_u64; try lia; intros (cur & fo & ? & ?); exists cur, fo;
    split; [by apply registered_stable|done| by apply registered_stable|done].
Qed.

Lemma metric_stable m : metric_ok s m → metric_ok s' m.
Proof using Hf. intros Hm f. apply field_stable, Hm. Qed.

Lemma accessed_stable k : accessed s k → accessed s' k.
Proof using Hf. intros (cur & fo & ? & ?). exists cur, fo. split; [by apply registered_stable|done]. Qed.

Lemma line_stable l : line_ok s l → line_ok s' l.
Proof using Hf.
  intros (k & m & ? & ? & ?). exists k, m.
  split; [done|]. split; [by apply accessed_stable|by apply metric_stable].
Qed.
End stable.

(** ** The contract of an access *)

(** What a program must know to make the access. *)
Definition allowed (s : memory) {X : Set} (e : access X) : Prop :=
  match e with
  | WriteCounter v => in_u64 v ∧ v ≤ Z.of_nat (increments s) + 1
  | ReadField c _ => allocated s c
  | WriteField c FRefCount v => allocated s c ∧ in_u64 v ∧ v ≤ Z.of_nat (touches s) + 2
  | WriteField c f v => allocated s c ∧ field_ok s f v
  | UpdatePage key v => accessed s key ∧ metric_ok s v
  | WriteLine l => line_ok s l
  | _ => True
  end.

(** What it learns from the answer. *)
Definition answered (s : memory) {X : Set} (e : access X) : X → Prop :=
  match e in access X return X → Prop with
  | LookupPid pid => λ x, is_Some x → pid ∈ pids s
  | LookupPage _ => λ x, ∀ c, x = Some c → allocated s c
  | ReadCounter => λ x, field_ok s FRank x
  | ReadField _ f => λ x, field_ok s f x
  | NextKey _ => λ x, ∀ k, x = Some k → accessed s k
  | _ => λ _, True
  end.

Lemma allowed_stable s s' {X : Set} (e : access X) :
  future s s' → allowed s e → allowed s' e.
Proof.
  intros Hf. destruct e as [| | | | | |c f v|key v| | | |l]; cbn; try done.
  - pose proof (fut_increments _ _ Hf). unfold in_u64. lia.
  - apply (fut_cells _ _ Hf).
  - pose proof (fut_touches _ _ Hf).
    destruct f; (intros [? Hv]; split; [by apply (fut_cells _ _ Hf)|]);
      [unfold in_u64 in *; lia|by apply (field_stable _ _ Hf _ _ Hv)..].
  - intros [? ?]. split; [by apply (accessed_stable s)|by apply (metric_stable s)].
  - by apply line_stable.
Qed.

Lemma answered_stable s s' {X : Set} (e : access X) x :
  future s s' → answered s e x → answered s' e x.
Proof.
  intros Hf. destruct e; cbn; try done.
  - intros Hp Hx. by apply (fut_pids _ _ Hf), Hp.
  - intros Hc c Hx. by apply (fut_cells _ _ Hf), Hc.
  - pose proof (fut_increments _ _ Hf). unfold in_u64. lia.
  - by apply (field_stable s).
  - intros Hk k Hx. by apply (accessed_stable s), Hk.
Qed.

(** The invariant of the shared memory. *)
Record sound (s : memory) : Prop := {
  snd_wf : wf s;
  snd_counter : in_u64 (counter s) ∧ counter s ≤ Z.of_nat (increments s);
  snd_cells : ∀ c m, cells s !! c = Some m → metric_ok s m;
  snd_keys : ∀ k c, table s !! k = Some c → accessed s k;
  snd_lines : Forall (line_ok s) (snapshot s);
}.

(** What an access leaves is sound when all it added is. *)
Lemma sound_future s s' :
  sound s → future s s' → wf s' →
  in_u64 (counter s') ∧ counter s' ≤ Z.of_nat (increments s') →
  (∀ c m, cells s' !! c = Some m → cells s !! c = Some m ∨ metric_ok s' m) →
  (∀ k c, table s' !! k = Some c → is_Some (table s !! k) ∨ accessed s' k) →
  (∀ l, l ∈ snapshot s' → l ∈ snapshot s ∨ line_ok s' l) →
  sound s'.
Proof.
  intros [_ _ Hm Hk Hl] Hf Hwf Hc Hm' Hk' Hl'. split; [done|done| | |].
  - intros c m [Hin|?]%Hm'; [|done]. by apply (metric_stable s), Hm with c.
  - intros k c [[c' Hin]|?]%Hk'; [|done]. by apply (accessed_stable s), Hk with c'.
  - apply Forall_forall. intros l [Hin|?]%Hl'; [|done]. apply (line_stable s); [done|].
    by eapply Forall_forall in Hl.
Qed.

Lemma get_put f f' v m : get f' (put f v m) = if decide (f = f') then v else get f' m.
Proof. by destruct f, f'. Qed.

Lemma metric_put s f v m : metric_ok s m → field_ok s f v → metric_ok s (put f v m).
Proof. intros Hm Hv f'. rewrite get_put. case_decide; [by subst|apply Hm]. Qed.

Lemma sound_count s v :
  sound s → in_u64 v ∧ v ≤ Z.of_nat (increments s) + 1 →
  sound (with_count v s) ∧ future s (with_count v s).
Proof.
  intros Hs Hv. assert (future s (with_count v s)) as Hf by (split; cbn; auto; lia).
  split; [|done]. apply sound_future with s; cbn; eauto; [|unfold in_u64 in *; cbn; lia]. by apply (wf_same s); [apply Hs|..].
Qed.

Lemma sound_write s c f v m :
  sound s → allowed s (WriteField c f v) → cells s !! c = Some m →
  let s1 := with_cells <[c := put f v m]> s in
  let s' := match f with FRefCount => with_touch s1 | _ => s1 end in
  sound s' ∧ future s s'.
Proof.
  intros Hs Ha Hm s1 s'.
  assert (future s s') as Hf.
  { split; [|by destruct f..|by destruct f; cbn; lia|by destruct f].
    intros c' [m' Hm']. unfold allocated.
    assert (cells s' = <[c := put f v m]> (cells s)) as -> by by destruct f.
    rewrite lookup_insert. case_decide; by eexists. }
  split; [|done].
  apply sound_future with s; [done|done| | | | |].
  - apply (wf_same (with_cells <[c := put f v m]> s)); [by apply wf_write, Hs|by destruct f..].
  - destruct f; apply Hs.
  - intros c' m'. assert (cells s' = <[c := put f v m]> (cells s)) as -> by by destruct f.
    rewrite lookup_insert. case_decide; [|by left]. intros [= <-]. right.
    apply metric_put; [by apply (metric_stable s), (snd_cells _ Hs) with c|].
    destruct f; cbn in *; destruct Ha as [_ Ha]; [unfold in_u64 in *; lia|done..].
  - intros k c'. destruct f; by left.
  - intros l. destruct f; by left.
Qed.

Lemma sound_link s key c v :
  sound s → accessed s key → metric_ok s v → ¬ linked c s → has_place key s →
  let s' := with_table <[key := c]> (with_cells <[c := v]> s) in
  sound s' ∧ future s s'.
Proof.
  intros Hs Hk Hv Hl Hp s'.
  assert (future s s') as Hf.
  { split; cbn; auto. intros c' [m' Hm']. unfold allocated, s'. cbn.
    rewrite lookup_insert. case_decide; by eexists. }
  split; [|done]. apply sound_future with s; [done|done| | | | |].
  - by apply wf_link; [apply Hs|..].
  - apply Hs.
  - intros c' m. cbn. rewrite lookup_insert. case_decide; [|by left]. intros [= <-].
    right. by apply (metric_stable s).
  - intros k c'. cbn. rewrite lookup_insert. case_decide; [|left; by eexists].
    subst. right. by apply (accessed_stable s).
  - by left.
Qed.

(** Progress and preservation: an access its program is allowed to make has an answer,
    whatever the kernel chooses, and keeps the memory sound. *)
Lemma act_sound o s {X : Set} (e : access X) :
  sound s → allowed s e →
  ∃ x s', act o s e = Some (x, s') ∧ sound s' ∧ future s s' ∧ answered s' e x.
Proof.
  intros Hs Ha. destruct e as [pid|key| | |v|c f|c f v|key v|key|l|key|l]; cbn.
  - eexists _, _. split; [done|]. split; [done|]. split; [done|].
    case_decide; [done|]. by intros [? ?].
  - eexists _, _. split; [done|]. split; [done|]. split; [done|].
    intros c Hc. by apply (wf_cell _ (snd_wf _ Hs) key).
  - by eexists _, _.
  - eexists _, _. split; [done|]. split; [done|]. split; [done|]. apply Hs.
  - eexists _, _. split; [done|]. destruct (sound_count s v Hs Ha). by split_and!.
  - destruct Ha as [m Hm]. rewrite Hm. eexists _, _. split; [done|]. split; [done|].
    split; [done|]. by apply (snd_cells _ Hs c).
  - assert (allocated s c) as [m Hm] by by destruct f; apply Ha. rewrite Hm. cbn.
    eexists _, _. split; [done|]. destruct (sound_write s c f v m Hs Ha Hm). by split_and!.
  - destruct Ha as [Hk Hv]. destruct (picked o key s) as [c|] eqn:E; [|by eexists _, _].
    apply picked_spec in E as (_ & Hl & Hp). eexists _, _. split; [done|].
    destruct (sound_link s key c v Hs Hk Hv Hl Hp). by split_and!.
  - destruct (table s !! key) as [c|] eqn:E; [|by eexists _, _].
    assert (future s (with_table (delete key) s)) by by split; cbn; auto.
    eexists _, _. split; [done|]. split; [|done].
    apply sound_future with s; cbn; auto; [by apply wf_unlink, Hs|apply Hs|].
    intros k c' [_ Hk]%lookup_delete_Some. left. by exists c'.
  - assert (future s (with_trace l s)) by by split; cbn; auto.
    eexists _, _. split; [done|]. split; [|done].
    apply sound_future with s; cbn; eauto; [by apply (wf_same s); [apply Hs|..]|apply Hs].
  - eexists _, _. split; [done|]. split; [done|]. split; [done|].
    intros k. destruct (next o) as [k'|]; cbn; [|done].
    case_decide as Hd; [|done]. intros [= ->]. destruct Hd as [c Hc].
    by apply (snd_keys _ Hs k c).
  - assert (future s (with_line l s)) as Hf by by split; cbn; auto.
    eexists _, _. split; [done|]. split; [|done].
    apply sound_future with s; cbn; eauto; [by apply (wf_same s); [apply Hs|..]|apply Hs|].
    intros l' [?|?%list_elem_of_singleton]%elem_of_app; [by left|subst].
    right. by apply (line_stable s).
Qed.

(** ** Weakest preconditions *)

(** From every later memory, each access is allowed and whatever it answers the rest is
    safe; at the end [Q] holds. *)
Fixpoint safe {A} (s : memory) (p : prog A) (Q : memory → A → Prop) : Prop :=
  match p with
  | Ret a => ∀ s1, future s s1 → Q s1 a
  | Vis e k =>
      ∀ s1, future s s1 →
      allowed s1 e ∧ ∀ s2 x, future s1 s2 → answered s2 e x → safe s2 (k x) Q
  end.

Lemma safe_future {A} (p : prog A) s s' Q : future s s' → safe s p Q → safe s' p Q.
Proof.
  intros Hf. destruct p as [a|X e k]; cbn; intros H s1 Hs1; apply H; by transitivity s'.
Qed.

Lemma safe_ret {A} s (a : A) (Q : memory → A → Prop) :
  (∀ s1, future s s1 → Q s1 a) → safe s (mret a) Q.
Proof. done. Qed.

Lemma safe_bind {A B} (p : prog A) (f : A → prog B) Q : ∀ s,
  safe s p (λ s1 a, safe s1 (f a) Q) → safe s (p ≫= f) Q.
Proof.
  induction p as [a|X e k IH]; cbn; intros s H.
  - apply H. done.
  - intros s1 Hs1. destruct (H s1 Hs1) as [Ha Hk]. split; [done|].
    intros s2 x Hs2 Hx. apply IH. by apply Hk.
Qed.

Lemma safe_op {X : Set} s (e : access X) (Q : memory → X → Prop) :
  allowed s e → (∀ s1 x, future s s1 → answered s1 e x → Q s1 x) → safe s (op e) Q.
Proof.
  intros Ha HQ s1 Hs1. split; [by apply (allowed_stable s)|].
  intros s2 x Hs2 Hx s3 Hs3. apply HQ; [by transitivity s2; [transitivity s1|]|].
  by apply (answered_stable s2).
Qed.

(** Carry the known facts over to a later memory. *)
Ltac later Hf :=
  repeat match type of Hf with future ?s ?s' =>
    match goal with
    | H : registered_access s _ _ |- _ => apply (registered_stable _ _ Hf) in H
    | H : Accessed _ _ ∈ begun s |- _ => apply (fut_begun _ _ Hf) in H
    | H : allocated s _ |- _ => apply (fut_cells _ _ Hf) in H
    | H : field_ok s _ _ |- _ => apply (field_stable _ _ Hf) in H
    | H : accessed s _ |- _ => apply (accessed_stable _ _ Hf) in H
    | H : metric_ok s _ |- _ => apply (metric_stable _ _ Hf) in H
    | H : future _ s |- _ => apply (λ H, transitivity H Hf) in H
    end
  end.

(** The next access of a program: leaves that it is allowed, and the rest. *)
Tactic Notation "access" ident(x) ident(Hx) :=
  first [apply safe_bind, safe_op|apply safe_op];
  [|let s := fresh "s" in let Hf := fresh "Hf" in
    intros s x Hf Hx; later Hf; cbn [answered] in Hx; try clear Hf].

Lemma u64_succ_le c b : in_u64 c ∧ c ≤ b → in_u64 (u64 (c + 1)) ∧ u64 (c + 1) ≤ b + 1.
Proof.
  intros [[Hc _] Hb]. split; [apply u64_range|]. unfold u64, wrapu.
  pose proof (Z.mod_le (c + 1) (2 ^ 64) ltac:(lia) ltac:(lia)). lia.
Qed.

Lemma incr_safe s (Q : memory → () → Prop) :
  (∀ s1, future s s1 → Q s1 ()) → safe s incr Q.
Proof.
  intros HQ. apply safe_bind, safe_op; [done|]. intros s1 c Hs1 Hc. cbn in Hc.
  apply safe_op; [by apply u64_succ_le|]. intros s2 [] Hs2 _. apply HQ. by transitivity s1.
Qed.

Lemma read_metric_safe s c (Q : memory → metric → Prop) :
  allocated s c → (∀ s1 m, future s s1 → metric_ok s1 m → Q s1 m) → safe s (read_metric c) Q.
Proof.
  intros Hc HQ. assert (future s s) as Hs by done. unfold read_metric.
  access r Hr; [done|]. access k Hk; [done|]. access n Hn; [done|]. access p Hp; [done|].
  apply safe_ret. intros s5 H5. later H5. apply HQ; [done|]. by intros [].
Qed.

(** ** The programs are safe *)

Section programs.
Implicit Types s : memory.

Lemma key_accessed s cur fo :
  registered_access s cur fo → accessed s (PageKey (f_mapping fo) (f_index fo)).
Proof. intros H. by exists cur, fo. Qed.

Lemma new_metric_ok s cur fo r :
  registered_access s cur fo → field_ok s FRank r →
  metric_ok s (set_rank r (set_pid (pid_of cur) (set_page_count (f_nr_pages fo) (Metric 1 0 1 0)))).
Proof.
  intros H Hr [| | |]; cbn; [unfold in_u64; lia|done|by exists cur, fo..].
Qed.

(** The end of a hit: the page count and the update with the element's own value. *)
Lemma hit_end_safe s cur fo c :
  registered_access s cur fo → allocated s c →
  safe s (op (WriteField c FPageCount (f_nr_pages fo));;
          value ← read_metric c;
          op (UpdatePage (PageKey (f_mapping fo) (f_index fo)) value);;
          mret 0) (λ _ _, True).
Proof.
  intros Hreg Hc. access x Hx; [by split; [done|exists cur, fo]|].
  apply safe_bind, read_metric_safe; [done|]. intros s1 m H1 Hm. later H1.
  access z Hz; [by split; [apply key_accessed with cur|]|]. by apply safe_ret.
Qed.

Lemma mark_safe s cur fo :
  Accessed cur fo ∈ begun s → safe s (folio_mark_accessed cur fo) (λ _ _, True).
Proof.
  intros Hb. unfold folio_mark_accessed. fold (pid_of cur).
  access value Hv; [done|]. destruct value as [[]|]; [|by apply safe_ret].
  assert (registered_access s0 cur fo) as Hreg by (split; [done|by apply Hv]). clear Hb Hv.
  access found Hc; [done|]. destruct found as [c|].
  - specialize (Hc c eq_refl). access r Hr; [done|].
    access x Hx; [split; [done|pose proof (u64_succ_le _ _ Hr); unfold in_u64 in *; lia]|].
    access present Hp; [done|]. apply safe_bind. destruct present as [[]|].
    2:{ apply safe_ret. intros s5 H5. later H5. by apply hit_end_safe with cur. }
    apply safe_bind, incr_safe. intros s5 H5. later H5.
    access y Hy; [by split; [done|exists cur, fo]|].
    access k Hk; [done|].
    apply safe_op; [done|]. intros s8 z H8 _. later H8. by apply hit_end_safe with cur.
  - access present Hp; [done|]. apply safe_bind. destruct present as [[]|].
    + apply safe_bind, incr_safe. intros s3 H3. later H3. access k Hk; [done|].
      apply safe_ret. intros s5 H5. later H5.
      access z Hz; [by split; [apply key_accessed with cur|apply new_metric_ok]|].
      by apply safe_ret.
    + apply safe_ret. intros s3 H3. later H3.
      access z Hz; [|by apply safe_ret]. split; [by apply key_accessed with cur|].
      apply (new_metric_ok _ _ _ 0); [done|cbn; unfold in_u64; lia].
Qed.

Lemma free_safe s cur tm fo : safe s (filemap_free_folio cur tm fo) (λ _ _, True).
Proof.
  unfold filemap_free_folio. access found Hc; [done|]. destruct found; [|by apply safe_ret].
  access x Hx; [done|]. access y Hy; [done|]. by apply safe_ret.
Qed.

Lemma dump_safe s key : safe s (dump_round key) (λ _ _, True).
Proof.
  unfold dump_round. access found Hk; [done|]. destruct found as [next_key|]; [|by apply safe_ret].
  specialize (Hk _ eq_refl). access cell Hc; [done|]. apply safe_bind.
  destruct cell as [c|]; [|by apply safe_ret].
  specialize (Hc _ eq_refl). apply safe_bind, read_metric_safe; [done|].
  intros s2 m H2 Hm. later H2. apply safe_op; [by exists next_key, m|done].
Qed.
End programs.

(** What follows a program's last access does nothing. *)
Lemma safe_then {A} s (p : prog A) (f : A → status) :
  safe s p (λ _ _, True) → safe s (a ← p; mret (f a)) (λ _ _, True).
Proof.
  intros Hp. apply safe_bind. revert s Hp. induction p as [a|X e k IH]; cbn; [done|].
  intros s Hp s1 Hs1. destruct (Hp s1 Hs1) as [Ha Hk]. split; [done|]. eauto.
Qed.

Lemma handler_safe s ev : ev ∈ begun s → safe s (handler_thread ev) (λ _ _, True).
Proof.
  intros Hb. apply safe_then. destruct ev; [by apply mark_safe|apply free_safe].
Qed.

Lemma dump_thread_safe s key : safe s (dump_thread key) (λ _ _, True).
Proof. apply safe_then, dump_safe. Qed.

(** ** Configurations *)

Definition config_ok (c : config) : Prop :=
  sound (mem c) ∧ ∀ i p, running c !! i = Some p → safe (mem c) p (λ _ _, True).

Lemma sound_init : sound minit.
Proof.
  split; [apply wf_init|done..|by constructor].
Qed.

Lemma config_init : config_ok cinit.
Proof. by split; [apply sound_init|]. Qed.

(** A running program can make its next access, whatever the kernel chooses. *)
Lemma step_ok i o c {X : Set} (e : access X) k :
  config_ok c → running c !! i = Some (Vis e k) →
  ∃ c', play (Step i o) c = Some c' ∧ config_ok c'.
Proof.
  intros [Hs Hr] Hi. pose proof (Hr _ _ Hi) as Hsafe. cbn in Hsafe.
  destruct (Hsafe (mem c)) as [Ha Hk]; [done|].
  destruct (act_sound o (mem c) e Hs Ha) as (x & s' & E & Hs' & Hf & Hx).
  eexists. cbn. rewrite Hi. cbn. rewrite E. split; [done|]. split; [done|].
  intros j p. cbn. rewrite lookup_insert. case_decide.
  - intros [= <-]. by apply Hk.
  - intros Hj%Hr. by apply (safe_future _ (mem c)).
Qed.

Lemma future_begun ev s : future s (with_begun ev s).
Proof. split; cbn; auto. intros ev' ?. apply elem_of_app. by left. Qed.

Lemma future_pids pid s : future s (with_pids (union {[pid]}) s).
Proof. split; cbn; auto. apply union_subseteq_r. Qed.

Lemma sound_begun ev s : sound s → sound (with_begun ev s).
Proof.
  intros Hs. apply sound_future with s; cbn; eauto; [apply future_begun| |apply Hs].
  by apply (wf_same s); [apply Hs|..].
Qed.

Lemma sound_pids pid s : sound s → sound (with_pids (union {[pid]}) s).
Proof.
  intros Hs. apply sound_future with s; cbn; eauto; [apply future_pids| |apply Hs].
  by apply (wf_same s); [apply Hs|..].
Qed.

Lemma play_ok mv c c' : config_ok c → play mv c = Some c' → config_ok c'.
Proof.
  intros Hc. destruct mv as [i ev|i|i o|i|i|pid]; cbn.
  - case_decide; [|done]. intros [= <-]. destruct Hc as [Hs Hr]. split; [by apply sound_begun|].
    intros j p. cbn. rewrite lookup_insert. case_decide.
    + intros [= <-]. apply handler_safe. cbn. apply elem_of_app. right. by left.
    + intros Hj%Hr. by apply (safe_future _ (mem c)), Hj; apply future_begun.
  - case_decide; [|done]. intros [= <-]. destruct Hc as [Hs Hr]. split; [done|].
    intros j p. cbn. rewrite lookup_insert. case_decide; [|by apply Hr].
    intros [= <-]. apply dump_thread_safe.
  - destruct (running c !! i) as [[z|X e k]|] eqn:E; cbn; [done| |done].
    destruct (step_ok i o c e k Hc E) as (c1 & Hp & Hc1). cbn in Hp. rewrite E in Hp.
    cbn in Hp. rewrite Hp. by intros [= <-].
  - destruct (running c !! i) as [[[z|key]|X e k]|] eqn:E; cbn; [done| |done..]. intros [= <-].
    destruct Hc as [Hs Hr]. split; [done|]. intros j p. cbn. rewrite lookup_insert.
    case_decide; [|by apply Hr]. intros [= <-]. apply dump_thread_safe.
  - destruct (running c !! i) as [[[z|key]|X e k]|] eqn:E; cbn; [|done..]. intros [= <-].
    destruct Hc as [Hs Hr]. split; [done|]. intros j p. cbn.
    intros [_ Hj]%lookup_delete_Some. by apply Hr with j.
  - intros [= <-]. destruct Hc as [Hs Hr]. split; [by apply sound_pids|].
    intros j p Hj%Hr. cbn. by apply (safe_future _ (mem c)), Hj; apply future_pids.
Qed.

Lemma reachable_ok c : reachable c → config_ok c.
Proof.
  intros [mvs Hm]. revert Hm. generalize config_init. generalize cinit.
  induction mvs as [|mv mvs IH]; cbn; intros c0 H0; [by intros [= <-]|].
  intros (c1 & Hp & Hm)%bind_Some. apply IH with c1; [|done]. by apply play_ok with mv c0.
Qed.

(** ** Accesses are counted *)

Lemma at_most_then {A B} n (p : prog A) (f : A → B) : at_most n p → at_most n (a ← p; mret (f a)).
Proof.
  revert n. induction p as [a|X e k IH]; [done|]. intros [|n]; cbn; [done|]. intros H x. by apply IH.
Qed.

Ltac count_accesses :=
  repeat (cbn; intros; first [exact I|case_match; try done]).

Lemma handler_at_most ev : at_most 16 (handler_thread ev).
Proof.
  apply at_most_then. destruct ev as [cur f|cur tm f]; cbn [handler];
    unfold folio_mark_accessed, filemap_free_folio, incr, read_metric; count_accesses.
Qed.

Lemma dump_at_most key : at_most 7 (dump_thread key).
Proof. apply at_most_then. unfold dump_round, read_metric. count_accesses. Qed.

(** The accesses program [i] makes in a schedule; it stays if it neither leaves nor begins
    another round. *)
Definition is_step (i : nat) (mv : move) : bool :=
  match mv with Step j _ => bool_decide (i = j) | _ => false end.
Definition steps_of (i : nat) (mvs : list move) : nat :=
  length (filter (λ mv, is_step i mv = true) mvs).
Definition stays (i : nat) (mv : move) : Prop := mv ≠ Leave i ∧ mv ≠ Again i.

Lemma steps_of_cons i mv mvs :
  steps_of i (mv :: mvs) = ((if is_step i mv then 1 else 0) + steps_of i mvs)%nat.
Proof. unfold steps_of. rewrite filter_cons. by destruct (is_step i mv). Qed.

(** What one move leaves of a program: less to do if it was its own. *)
Lemma at_most_play i mv n p c c' :
  running c !! i = Some p → at_most n p → stays i mv → play mv c = Some c' →
  ∃ p' n', running c' !! i = Some p' ∧ at_most n' p' ∧
           ((if is_step i mv then 1 else 0) + n' ≤ n)%nat.
Proof.
  intros Hi Hn [Hl Ha]. destruct mv as [j ev|j|j o|j|j|pid]; cbn.
  1-2: case_decide as Hj; [|done]; intros [= <-]; exists p, n; cbn;
    rewrite lookup_insert_ne by congruence; done.
  - destruct (running c !! j) as [[z|X e k]|] eqn:Hj; cbn; [done| |done].
    intros ([x s'] & _ & [= <-])%bind_Some. cbn. case_bool_decide as E.
    + subst j. rewrite Hi in Hj. injection Hj as ->. destruct n as [|n]; [done|].
      exists (k x), n. rewrite lookup_insert_eq. split; [done|]. split; [apply Hn|lia].
    + exists p, n. by rewrite lookup_insert_ne.
  - destruct (running c !! j) as [[[z|key]|X e k]|] eqn:Hj; cbn; [done| |done..].
    intros [= <-]. exists p, n. cbn. rewrite lookup_insert_ne by congruence. done.
  - destruct (running c !! j) as [[[z|key]|X e k]|] eqn:Hj; cbn; [|done..].
    intros [= <-]. exists p, n. cbn. rewrite lookup_delete_ne by congruence. done.
  - intros [= <-]. by exists p, n.
Qed.

Lemma steps_bounded i mvs : ∀ n p c c',
  running c !! i = Some p → at_most n p → Forall (stays i) mvs → play_all mvs c = Some c' →
  (steps_of i mvs ≤ n)%nat.
Proof.
  induction mvs as [|mv mvs IH]; intros n p c c' Hi Hn Hs; [cbn; lia|].
  apply Forall_cons in Hs as [Hmv Hs]. intros (c1 & Hp & Hm)%bind_Some.
  destruct (at_most_play i mv n p c c1 Hi Hn Hmv Hp) as (p' & n' & Hi' & Hn' & Hle).
  rewrite steps_of_cons. pose proof (IH n' p' c1 c' Hi' Hn' Hs Hm). lia.
Qed.

(** What a program that begins runs. *)
Lemma begins i mv c c' :
  play mv c = Some c' →
  match mv with
  | Enter j _ => i = j → ∃ p, running c' !! i = Some p ∧ at_most 16 p
  | StartDump j | Again j => i = j → ∃ p, running c' !! i = Some p ∧ at_most 7 p
  | _ => True
  end.
Proof.
  destruct mv as [j ev|j|j o|j|j|pid]; cbn; try done.
  - case_decide; [|done]. intros [= <-] ->. cbn. rewrite lookup_insert_eq.
    eexists. split; [done|apply handler_at_most].
  - case_decide; [|done]. intros [= <-] ->. cbn. rewrite lookup_insert_eq.
    eexists. split; [done|apply dump_at_most].
  - destruct (running c !! j) as [[[z|key]|X e k]|]; cbn; [done| |done..].
    intros [= <-] ->. cbn. rewrite lookup_insert_eq. eexists. split; [done|apply dump_at_most].
Qed.

(** ** Schedules *)

Definition cpu_steps (n i : nat) (o : choice) : list move := replicate n (Step i o).
Definition cell (n : nat) : choice := Choice (Some n) None.
Definition by_pid (pid : Z) : Z := Z.shiftl pid 32.

Definition page_a : folio := Folio 65536 1 4.
Definition page_b : folio := Folio 65536 2 8.

(** Process 42 accesses page A: the element is cell 0. *)
Definition a_recorded : list move :=
  [Register 42; Register 43; Enter 0 (Accessed (by_pid 42) page_a)] ++
  cpu_steps 7 0 (cell 0) ++ [Leave 0].

(** Page B is recorded while CPU 0 is between the load and the store of the counter. *)
Definition increment_race : list move :=
  [Register 42; Enter 0 (Accessed (by_pid 42) page_a); Enter 1 (Accessed (by_pid 42) page_b)] ++
  cpu_steps 4 0 (cell 0) ++ cpu_steps 7 1 (cell 1) ++ cpu_steps 3 0 (cell 0) ++ [Leave 0; Leave 1].

(** Two hits of page A, the second inside the [ref_count++] of the first. *)
Definition count_race : list move :=
  a_recorded ++
  [Enter 0 (Accessed (by_pid 42) page_a); Enter 1 (Accessed (by_pid 42) page_a)] ++
  cpu_steps 3 0 (cell 1) ++ cpu_steps 16 1 (cell 1) ++ cpu_steps 13 0 (cell 2) ++
  [Leave 0; Leave 1].

(** Page A is freed just before a hit updates it. *)
Definition free_race : list move :=
  a_recorded ++
  [Enter 0 (Accessed (by_pid 42) page_a)] ++ cpu_steps 15 0 (cell 1) ++
  [Enter 1 (Freed (by_pid 43) 65536 page_a)] ++ cpu_steps 3 1 (cell 1) ++ [Leave 1] ++
  cpu_steps 1 0 (cell 1) ++ [Leave 0].

(** Page A is freed during a hit and its element given to page B. *)
Definition reuse_race : list move :=
  a_recorded ++
  [Enter 0 (Accessed (by_pid 42) page_a)] ++ cpu_steps 7 0 (cell 1) ++
  [Enter 1 (Freed (by_pid 43) 65536 page_a)] ++ cpu_steps 3 1 (cell 1) ++
  [Leave 1; Enter 1 (Accessed (by_pid 43) page_b)] ++ cpu_steps 7 1 (cell 0) ++ [Leave 1] ++
  cpu_steps 9 0 (cell 1) ++ [Leave 0].

(** All programs have finished. *)
Definition at_rest (c : config) : Prop := reachable c ∧ running c = ∅.

Lemma schedule_at_rest mvs c : play_all mvs cinit = Some c → running c = ∅ → at_rest c.
Proof. intros Hm Hr. split; [by exists mvs|done]. Qed.

Ltac by_schedule mvs :=
  eexists; split; [by apply (schedule_at_rest mvs); vm_compute|vm_compute].

(** A dump that overlaps an access: the line has the count from before the access and the
    PID from after it. *)
Definition dump_demo : list move :=
  a_recorded ++ [StartDump 2] ++ cpu_steps 4 2 (Choice None (Some (key_of page_a))) ++
  [Enter 0 (Accessed (by_pid 43) page_a)] ++ cpu_steps 16 0 (cell 1) ++ [Leave 0] ++
  cpu_steps 3 2 (Choice None None) ++ [Again 2] ++ cpu_steps 1 2 (Choice None None) ++ [Leave 2].

Definition dump_demo_end : config := default cinit (play_all dump_demo cinit).

Lemma dump_demo_reachable : reachable dump_demo_end.
Proof. exists dump_demo. by vm_compute. Qed.

Lemma dump_demo_torn :
  snapshot (mem dump_demo_end) = [str "10001 43 1 " ++ [10]] ∧ running dump_demo_end = ∅.
Proof. by vm_compute. Qed.

(** ** Properties *)

(** The record holds values of its C types (the size is what the kernel's folio has). *)
Definition typed (m : metric) : Prop :=
  in_u64 (ref_count m) ∧ in_u64 (rank m) ∧ in_s32 (m_pid m).



(** The bound of 16 is reached, by an access to a recorded page. *)
Example sixteen_accesses :
  let mvs := a_recorded ++ Enter 0 (Accessed (by_pid 42) page_a) :: cpu_steps 16 0 (cell 1) in
  (running <$> play_all (mvs ++ [Leave 0]) cinit) = Some ∅ ∧
  play_all (mvs ++ cpu_steps 1 0 (cell 1)) cinit = None.
Proof. by vm_compute. Qed.

(** C6. What is recorded and written has happened: however accesses, frees, registrations
    and dumps interleave, the counter is at most the number of increments; every entry of
    page_access_map and every line of a snapshot is of a page that a registered process
    accessed, with the PID of a registered process and the size of a page that accessed
    something, a rank no larger than the number of increments, and a count of at most one
    more than the number of increments of counts. *)
Theorem snapshots_report_accesses (c : config) :
  reachable c →
  0 ≤ counter (mem c) ≤ Z.of_nat (increments (mem c)) ∧
  (∀ k m, entry (mem c) k = Some m → accessed (mem c) k ∧ metric_ok (mem c) m) ∧
  ∀ l, l ∈ snapshot (mem c) → line_ok (mem c) l.
Proof.
  intros [Hs _]%reachable_ok. split; [destruct (snd_counter _ Hs) as [[? _] ?]; lia|]. split.
  - intros k m (cl & Hk & Hm)%bind_Some.
    split; [by apply (snd_keys _ Hs) with cl|by apply (snd_cells _ Hs) with cl].
  - apply Forall_forall, Hs.
Qed.

Lemma snapshots_report_accesses_witness :
  0 ≤ counter (mem dump_demo_end) ≤ Z.of_nat (increments (mem dump_demo_end)) ∧
  (∀ k m, entry (mem dump_demo_end) k = Some m →
     accessed (mem dump_demo_end) k ∧ metric_ok (mem dump_demo_end) m) ∧
  ∀ l, l ∈ snapshot (mem dump_demo_end) → line_ok (mem dump_demo_end) l.
Proof. apply (snapshots_report_accesses dump_demo_end), dump_demo_reachable. Defined.

(** C9. What overlapping handlers lose.  Two first accesses can leave the counter at 1 and
    give both pages the rank 1; three accesses of one page can leave the count 2; a page
    can be recorded again after it was freed, by no new access; and, when the kernel gives
    the element of a freed page to another page, an entry can carry the PID and the size of
    a page it is not. *)
Theorem overlapping_handlers_lose_updates :
  (∃ c, at_rest c ∧ begun (mem c) = [Accessed (by_pid 42) page_a; Accessed (by_pid 42) page_b] ∧
     counter (mem c) = 1 ∧
     entry (mem c) (key_of page_a) = Some (Metric 1 1 4 42) ∧
     entry (mem c) (key_of page_b) = Some (Metric 1 1 8 42)) ∧
  (∃ c, at_rest c ∧ begun (mem c) = replicate 3 (Accessed (by_pid 42) page_a) ∧
     entry (mem c) (key_of page_a) = Some (Metric 2 3 4 42)) ∧
  (∃ c, at_rest c ∧
     begun (mem c) = replicate 2 (Accessed (by_pid 42) page_a) ++
                     [Freed (by_pid 43) 65536 page_a] ∧
     length (trace (mem c)) = 1%nat ∧
     entry (mem c) (key_of page_a) = Some (Metric 2 2 4 42)) ∧
  (∃ c, at_rest c ∧
     begun (mem c) = replicate 2 (Accessed (by_pid 42) page_a) ++
                     [Freed (by_pid 43) 65536 page_a; Accessed (by_pid 43) page_b] ∧
     entry (mem c) (key_of page_b) = Some (Metric 1 3 4 42)).
Proof.
  split; [by by_schedule increment_race|]. split; [by by_schedule count_race|].
  split; [by by_schedule free_race|by by_schedule reuse_race].
Qed.
