(* ===== verification/PageSmpSeq.v ===== *)
(** * PageSmpSeq: the sequential tracker is the concurrent one without overlap

    A handler of [PageSmp] that nothing interrupts ([alone]) does to the shared memory what
    the handler of [PageTracker] does to the maps; [represents] relates the two states, and
    [serial] lists the schedules in which given handlers run one after the other. *)

From S2P Require Import Prelude CInt BpfKernel PageTracker PageSmp.

(** ** Handlers that run alone *)

(** A handler that runs alone, access by access. *)
Ltac alone_step :=
  cbn [alone act cells table pids counter with_cells with_table with_count with_touch
       prog_bind mbind mret prog_mbind prog_mret op option_bind get put
       folio_mark_accessed filemap_free_folio incr read_metric];
  rewrite ?lookup_insert_eq.

Lemma alone_untracked o s cur f :
  pid_of cur ∉ pids s → alone o s (folio_mark_accessed cur f) = Some (0, s).
Proof.
  intros Hp. unfold folio_mark_accessed. fold (pid_of cur). alone_step.
  by rewrite decide_False.
Qed.

(** What an access by a registered process leaves: [v] is the new value of the page. *)
Definition updated (o : choice) (key : page_key) (v : metric) (s : memory) : memory :=
  match picked o key s with
  | Some c => with_table <[key := c]> (with_cells <[c := v]> s)
  | None => s
  end.

Lemma alone_miss o s cur f :
  pid_of cur ∈ pids s → table s !! key_of f = None →
  alone o s (folio_mark_accessed cur f) =
  Some (0, updated o (key_of f) (fresh_metric (pid_of cur) (f_nr_pages f) (Some (counter s)))
             (with_count (u64 (counter s + 1)) s)).
Proof.
  intros Hp Hk. unfold folio_mark_accessed, key_of, updated in *. fold (pid_of cur).
  alone_step. rewrite decide_True by done. alone_step. rewrite Hk. alone_step.
  by destruct (picked _ _ _).
Qed.

Lemma alone_hit o s cur f c m :
  pid_of cur ∈ pids s → table s !! key_of f = Some c → cells s !! c = Some m →
  let m' := bump_metric (pid_of cur) (f_nr_pages f) (Some (counter s)) m in
  alone o s (folio_mark_accessed cur f) =
  Some (0, updated o (key_of f) m'
             (with_cells <[c := m']> (with_touch (with_count (u64 (counter s + 1)) s)))).
Proof.
  intros Hp Hk Hm. unfold folio_mark_accessed, key_of, updated in *. fold (pid_of cur).
  alone_step. rewrite decide_True by done. alone_step. rewrite Hk. alone_step.
  rewrite Hm. alone_step. rewrite Hm.
  do 8 (alone_step; rewrite ?insert_insert_eq).
  match goal with |- context [picked o _ ?s1] => assert (s1 = with_cells
    <[c := bump_metric (pid_of cur) (f_nr_pages f) (Some (counter s)) m]>
    (with_touch (with_count (u64 (counter s + 1)) s))) as -> end.
  { unfold with_cells, with_count, with_touch. cbn. by rewrite !insert_insert_eq. }
  by destruct (picked _ _ _).
Qed.

Lemma alone_free_absent o s cur tm f :
  table s !! free_key tm f = None → alone o s (filemap_free_folio cur tm f) = Some (0, s).
Proof.
  intros Hk. unfold filemap_free_folio, free_key in *. alone_step. by rewrite Hk.
Qed.

Lemma alone_free o s cur tm f c :
  table s !! free_key tm f = Some c →
  alone o s (filemap_free_folio cur tm f) =
  Some (0, with_table (delete (free_key tm f))
             (with_trace (Printk ("KPROBE ENTRY delete pid = %d, index = %ld" +:+ nl)
                            [PInt (pid_of cur); PInt (f_index f)]) s)).
Proof.
  intros Hk. unfold filemap_free_folio, free_key in *. alone_step. rewrite Hk. alone_step.
  cbn [with_trace table]. by rewrite Hk.
Qed.

(** ** The sequential handlers are the handlers run alone *)

Section sequential.
Context {PM GM CM : Type}.
Context `{!BpfMap PM Z Z, !BpfMap GM page_key metric, !BpfMap CM Z Z}.
Context `{!BpfMapLaws GM page_key metric, !BpfMapLaws CM Z Z, !BpfMapPresent GM page_key metric}.

(** The maps of [PageTracker] that hold what the memory holds. *)
Record represents (s : memory) (ks : kstate PM GM CM) : Prop := {
  rep_pages : ∀ k, page_at ks k = entry s k;
  rep_count : count_at ks = Some (counter s);
  rep_pids : ∀ pid, tracked ks pid = bool_decide (pid ∈ pids s);
  rep_trace : trace_pipe ks = trace s;
}.

(** For a page that is not recorded, the kernel takes or refuses it in both models. *)
Definition same_answer (o : choice) (ev : kevent) (s : memory) (ks : kstate PM GM CM) : Prop :=
  match ev with
  | Accessed cur f =>
      entry s (key_of f) = None →
      is_Some (picked o (key_of f) s) ↔ miss_code ks cur f = 0
  | Freed _ _ _ => True
  end.

Lemma wf_updated o key v s : wf s → wf (updated o key v s).
Proof.
  intros Hs. unfold updated. destruct (picked o key s) as [c|] eqn:E; [|done].
  apply picked_spec in E as (_ & Hl & Hp). by apply wf_link.
Qed.

Lemma entry_updated o key v s k :
  entry (updated o key v s) k =
  if decide (key = k ∧ is_Some (picked o key s)) then Some v else entry s k.
Proof.
  unfold updated. destruct (picked o key s) as [c|] eqn:E.
  - apply picked_spec in E as (_ & Hl & _). rewrite entry_link by done.
    apply decide_ext. split; [by split|by intros [? _]].
  - rewrite decide_False; [done|]. by intros [_ [? ?]].
Qed.

Lemma updated_rest o key v s :
  counter (updated o key v s) = counter s ∧ pids (updated o key v s) = pids s ∧
  trace (updated o key v s) = trace s.
Proof. unfold updated. by destruct (picked o key s). Qed.

(** The three other parts of a represented memory, after the map of pages changed. *)
Lemma represents_updated o key v s (ks ks' : kstate PM GM CM) :
  (∀ k, page_at ks' k =
        if decide (key = k ∧ is_Some (picked o key s)) then Some v else entry s k) →
  count_at ks' = Some (counter s) → pid_map ks' = pid_map ks → trace_pipe ks' = trace s →
  (∀ pid, tracked ks pid = bool_decide (pid ∈ pids s)) →
  represents (updated o key v s) ks'.
Proof.
  intros Hp Hc Hm Ht Hpids. destruct (updated_rest o key v s) as (Ec & Ep & Et).
  split; rewrite ?Ec, ?Ep, ?Et; [|done| |done].
  - intros k. by rewrite Hp, entry_updated.
  - intros pid. rewrite <- Hpids. unfold tracked. by rewrite Hm.
Qed.

Lemma entry_None s k : wf s → entry s k = None → table s !! k = None.
Proof.
  intros Hwf. unfold entry. destruct (table s !! k) as [c|] eqn:E; [|done].
  destruct (wf_cell _ Hwf _ _ E) as [m Hm]. cbn. by rewrite Hm.
Qed.

Lemma entry_Some s k m :
  entry s k = Some m → ∃ c, table s !! k = Some c ∧ cells s !! c = Some m.
Proof. intros (c & ? & ?)%bind_Some. by exists c. Qed.

Lemma access_alone o s (ks : kstate PM GM CM) cur f :
  wf s → represents s ks → same_answer o (Accessed cur f) s ks →
  ∃ s', alone o s (folio_mark_accessed cur f) = Some (0, s') ∧ wf s' ∧
        represents s' (exec (PageTracker.folio_mark_accessed cur f) ks).
Proof.
  intros Hwf Hrep Hsame. destruct (decide (pid_of cur ∈ pids s)) as [Hpid|Hpid].
  2:{ exists s. rewrite alone_untracked by done. unfold exec. rewrite mark_untracked; [done|].
      by rewrite (rep_pids _ _ Hrep), bool_decide_false. }
  assert (tracked ks (pid_of cur) = true) as Htr.
  { by rewrite (rep_pids _ _ Hrep), bool_decide_true. }
  destruct (entry s (key_of f)) as [m|] eqn:Ek.
  - destruct (entry_Some _ _ _ Ek) as (c & Hc & Hm).
    rewrite <- (rep_pages _ _ Hrep) in Ek.
    eexists. split; [by rewrite (alone_hit _ _ _ _ c m)|].
    split; [by apply wf_updated, wf_write, (wf_same s)|].
    pose proof (λ k, mark_hit ks cur f m k Htr Ek) as Hhit. rewrite (rep_count _ _ Hrep) in Hhit.
    destruct (Hhit (key_of f)) as (_ & Hcnt & Hmap & Htrace).
    apply represents_updated with ks; [|done|done|by rewrite Htrace, (rep_trace _ _ Hrep)|apply Hrep].
    intros k. destruct (Hhit k) as [-> _].
    change (entry (with_cells ?g (with_touch ?s1)) k) with (entry (with_cells g s) k).
    rewrite (entry_write _ _ _ _ _ Hwf Hc), (rep_pages _ _ Hrep).
    repeat case_decide; tauto.
  - pose proof (entry_None _ _ Hwf Ek) as Hnone. rewrite <- (rep_pages _ _ Hrep) in Ek.
    eexists. split; [by rewrite alone_miss|]. split; [by apply wf_updated, (wf_same s)|].
    pose proof (λ k, mark_miss ks cur f k Htr Ek) as Hmiss. rewrite (rep_count _ _ Hrep) in Hmiss.
    destruct (Hmiss (key_of f)) as (_ & Hcnt & Hmap & Htrace).
    apply represents_updated with ks; [|done|done|by rewrite Htrace, (rep_trace _ _ Hrep)|apply Hrep].
    intros k. destruct (Hmiss k) as [-> _]. cbn in Hsame.
    rewrite <- (rep_pages _ _ Hrep) in Hsame. specialize (Hsame Ek).
    change (picked o (key_of f) (with_count _ s)) with (picked o (key_of f) s).
    change (entry (with_count _ s) k) with (entry s k). rewrite (rep_pages _ _ Hrep).
    rewrite (rep_pages _ _ Hrep) in Ek.
    destruct (decide (key_of f = k)) as [<-|E]; [|by rewrite decide_False by tauto].
    rewrite Ek. apply decide_ext. tauto.
Qed.

Lemma free_alone o s (ks : kstate PM GM CM) cur tm f :
  wf s → represents s ks →
  ∃ s', alone o s (filemap_free_folio cur tm f) = Some (0, s') ∧ wf s' ∧
        represents s' (exec (PageTracker.filemap_free_folio cur tm f) ks).
Proof.
  intros Hwf Hrep. destruct (entry s (free_key tm f)) as [m|] eqn:Ek.
  - destruct (entry_Some _ _ _ Ek) as (c & Hc & _). rewrite <- (rep_pages _ _ Hrep) in Ek.
    eexists. split; [by apply alone_free with c|].
    split; [by apply wf_unlink, (wf_same s)|].
    pose proof (λ k, free_present ks cur tm f m k Ek) as Hfree.
    destruct (Hfree (free_key tm f)) as (_ & Hcnt & Hmap & Htrace).
    split; cbn.
    + intros k. destruct (Hfree k) as [-> _].
      rewrite (decide_True (P:=delete_code _ _ _ = 0)) by (apply delete_present; by exists m).
      unfold entry. cbn. rewrite (rep_pages _ _ Hrep), lookup_delete. by destruct (decide (free_key tm f = k)).
    + by rewrite Hcnt, (rep_count _ _ Hrep).
    + intros pid. rewrite <- (rep_pids _ _ Hrep). unfold tracked. by rewrite Hmap.
    + by rewrite Htrace, (rep_trace _ _ Hrep).
  - exists s. rewrite alone_free_absent by (by apply entry_None).
    unfold exec. rewrite free_absent; [done|]. by rewrite (rep_pages _ _ Hrep).
Qed.
End sequential.

(** One handler from entry to exit, with nothing in between. *)
Definition serve (o : choice) (ev : kevent) (s : memory) : option (Z * memory) :=
  alone o (with_begun ev s) (handler ev).

(** A handler nothing interrupts is one of the interleavings. *)
Lemma alone_play {A} o i (f : A → status) (p : prog A) : ∀ s r a s',
  alone o s p = Some (a, s') →
  ∃ n, play_all (replicate n (Step i o)) (Config s (<[i := a ← p; mret (f a)]> r)) =
       Some (Config s' (<[i := Ret (f a)]> r)).
Proof.
  induction p as [a0|X e k IH]; cbn; intros s r a s'.
  - intros [= -> ->]. by exists 0%nat.
  - intros ([x s1] & Ha & Hk)%bind_Some. destruct (IH _ _ r _ _ Hk) as [n Hn].
    exists (S n). cbn. rewrite lookup_insert_eq. cbn. rewrite Ha. cbn.
    by rewrite insert_insert_eq.
Qed.

Lemma serve_play o ev i s r z s' :
  r !! i = None → serve o ev s = Some (z, s') →
  ∃ n, play_all (Enter i ev :: replicate n (Step i o) ++ [Leave i]) (Config s r) =
       Some (Config s' r).
Proof.
  intros Hr Hs. destruct (alone_play o i Done _ _ r _ _ Hs) as [n Hn]. exists n.
  cbn [play_all play mem running]. rewrite decide_True by done. cbn [mbind option_bind].
  unfold handler_thread. rewrite play_all_app, Hn. cbn. rewrite lookup_insert_eq. cbn. by rewrite delete_insert_id.
Qed.

(** And the only one in which nothing interrupts it: steps of one program leave what it does
    alone to be done. *)
Lemma steps_alone {A} o i (f : A → status) n : ∀ (p : prog A) s r c',
  play_all (replicate n (Step i o)) (Config s (<[i := a ← p; mret (f a)]> r)) = Some c' →
  ∃ p' s', c' = Config s' (<[i := a ← p'; mret (f a)]> r) ∧ alone o s p = alone o s' p'.
Proof.
  induction n as [|n IH]; intros p s r c'; cbn; [intros [= <-]; by exists p, s|].
  rewrite lookup_insert_eq. destruct p as [a|X e k]; cbn; [done|].
  destruct (act o s e) as [[x s1]|]; cbn; [|done]. rewrite insert_insert_eq.
  intros H. by apply IH in H.
Qed.

Lemma play_serve o ev i n mvs s r c' :
  r !! i = None →
  play_all (Enter i ev :: replicate n (Step i o) ++ Leave i :: mvs) (Config s r) = Some c' →
  ∃ z s', serve o ev s = Some (z, s') ∧ play_all mvs (Config s' r) = Some c'.
Proof.
  intros Hr. cbn [play_all play mem running]. rewrite decide_True by done. cbn [mbind option_bind].
  unfold handler_thread. rewrite play_all_app. intros (c1 & (p & s1 & -> & Ha)%steps_alone & Hm)%bind_Some.
  cbn in Hm. rewrite lookup_insert_eq in Hm. destruct p as [z|X e k]; cbn in Hm; [|done].
  rewrite delete_insert_id in Hm by done. exists z, s1. split; [|done]. unfold serve. by rewrite Ha.
Qed.

(** The schedules in which the handlers [evs] run one after the other, each from its entry to
    its exit on some CPU. *)
Inductive serial : list (kevent * choice) → list move → Prop :=
  | serial_nil : serial [] []
  | serial_cons ev o evs i n mvs :
      serial evs mvs →
      serial ((ev, o) :: evs) (Enter i ev :: replicate n (Step i o) ++ Leave i :: mvs).

(** ** Runs without overlap *)

Section runs.
Context {PM GM CM : Type}.
Context `{!BpfMap PM Z Z, !BpfMap GM page_key metric, !BpfMap CM Z Z}.
Context `{!BpfMapLaws GM page_key metric, !BpfMapLaws CM Z Z, !BpfMapPresent GM page_key metric}.

(** Along the run the kernel takes or refuses new pages alike in both models. *)
Fixpoint same_answers (evs : list (kevent * choice)) (s : memory) (ks : kstate PM GM CM) : Prop :=
  match evs with
  | [] => True
  | (ev, o) :: evs' =>
      same_answer o ev s ks ∧
      ∀ s', serve o ev s = Some (0, s') → same_answers evs' s' (exec (handle ev) ks)
  end.

Lemma serve_sequential o ev s (ks : kstate PM GM CM) :
  wf s → represents s ks → same_answer o ev s ks →
  ∃ s', serve o ev s = Some (0, s') ∧ wf s' ∧ represents s' (exec (handle ev) ks).
Proof.
  intros Hwf Hrep Hsame. assert (wf (with_begun ev s)) by by apply (wf_same s).
  assert (represents (with_begun ev s) ks) by (split; apply Hrep).
  destruct ev as [cur f|cur tm f]; [by apply access_alone|by apply free_alone].
Qed.
End runs.

(** ** The counter without overlap *)

(** The memories that handlers leave when they run one after the other. *)
Inductive served : memory → Prop :=
  | served_init : served minit
  | served_handler s o ev z s' : served s → serve o ev s = Some (z, s') → served s'
  | served_pid s pid : served s → served (with_pids (union {[pid]}) s).

(** The counter is the number of increments and no two entries have the same rank. *)
Record stamped (s : memory) : Prop := {
  st_wf : wf s;
  st_counter : counter s = Z.of_nat (increments s);
  st_bound : ∀ k m, entry s k = Some m → rank m ≤ Z.of_nat (increments s);
  st_inj : ∀ k1 k2 m1 m2, entry s k1 = Some m1 → entry s k2 = Some m2 →
    rank m1 = rank m2 → k1 = k2;
}.

(** A new stamp for one page, the others as before. *)
Lemma stamped_access s s' key m' :
  stamped s → Z.of_nat (S (increments s)) < 2 ^ 64 → wf s' →
  counter s' = u64 (counter s + 1) → increments s' = S (increments s) →
  rank m' = u64 (counter s + 1) →
  (∀ k, k ≠ key → entry s' k = entry s k) → (∀ m, entry s' key = Some m → m = m') →
  stamped s'.
Proof.
  intros [Hwf Hc Hb Hi] Hmax Hwf' Hc' Hi' Hr Hother Hkey.
  assert (u64 (counter s + 1) = Z.of_nat (S (increments s))) as E.
  { rewrite Hc, u64_small by (unfold in_u64; lia). lia. }
  rewrite E in *. split; [done|congruence| |]; rewrite ?Hi'.
  - intros k m Hk. destruct (decide (k = key)) as [->|Hne].
    + rewrite (Hkey _ Hk). lia.
    + rewrite Hother in Hk by done. pose proof (Hb _ _ Hk). lia.
  - intros k1 k2 m1 m2 H1 H2.
    destruct (decide (k1 = key)) as [->|N1], (decide (k2 = key)) as [->|N2]; [done|..].
    + rewrite (Hkey _ H1). rewrite Hother in H2 by done. pose proof (Hb _ _ H2). lia.
    + rewrite (Hkey _ H2). rewrite Hother in H1 by done. pose proof (Hb _ _ H1). lia.
    + rewrite Hother in H1, H2 by done. eauto.
Qed.

Lemma stamped_same s s' :
  stamped s → wf s' → counter s' = counter s → increments s' = increments s →
  (∀ k m, entry s' k = Some m → entry s k = Some m) → stamped s'.
Proof. intros [Hwf Hc Hb Hi] Hwf' Ec Ei He. split; rewrite ?Ec, ?Ei; eauto. Qed.

Lemma increments_updated o key v s : increments (updated o key v s) = increments s.
Proof. unfold updated. by destruct (picked o key s). Qed.

Lemma stamped_updated o s s1 key m' :
  stamped s → Z.of_nat (S (increments s)) < 2 ^ 64 → wf s1 →
  counter s1 = u64 (counter s + 1) → increments s1 = S (increments s) →
  rank m' = u64 (counter s + 1) →
  (∀ k, k ≠ key → entry s1 k = entry s k) → (∀ m, entry s1 key = Some m → m = m') →
  stamped (updated o key m' s1).
Proof.
  intros Hst Hmax Hwf Hc Hi Hr Hother Hkey.
  apply stamped_access with s key m'; rewrite ?increments_updated; try done.
  - by apply wf_updated.
  - by rewrite (proj1 (updated_rest o key m' s1)).
  - intros k Hk. rewrite entry_updated, decide_False; [by apply Hother|]. by intros [? _].
  - intros m. rewrite entry_updated. case_decide; [by intros [= <-]|apply Hkey].
Qed.

Lemma increments_access o s cur f z s' :
  wf s → alone o s (folio_mark_accessed cur f) = Some (z, s') →
  wf s' ∧ (increments s ≤ increments s')%nat ∧
  (stamped s → Z.of_nat (increments s') < 2 ^ 64 → stamped s').
Proof.
  intros Hwf. destruct (decide (pid_of cur ∈ pids s)) as [Hp|Hp].
  2:{ rewrite alone_untracked by done. by intros [= <- <-]. }
  destruct (entry s (key_of f)) as [m|] eqn:E.
  - destruct (entry_Some _ _ _ E) as (c & Hc & Hm). rewrite (alone_hit _ _ _ _ c m) by done.
    intros [= <- <-]. rewrite increments_updated.
    split; [by apply wf_updated, wf_write, (wf_same s)|]. split; [cbn; lia|]. intros Hst Hmax.
    apply stamped_updated with s; try done; [by apply wf_write, (wf_same s)| |];
      intros k; change (entry (with_cells ?g (with_touch ?s1))) with (entry (with_cells g s)).
    + intros Hk. by rewrite (entry_write _ _ _ _ _ Hwf Hc), decide_False.
    + rewrite (entry_write _ _ _ _ _ Hwf Hc), decide_True by done. by intros [= <-].
  - rewrite alone_miss by (done || by apply entry_None).
    intros [= <- <-]. rewrite increments_updated.
    split; [by apply wf_updated, (wf_same s)|]. split; [cbn; lia|]. intros Hst Hmax.
    apply stamped_updated with s; try done; [by apply (wf_same s)|].
    intros m. change (entry (with_count ?v s)) with (entry s). by rewrite E.
Qed.

Lemma increments_free o s cur tm f z s' :
  wf s → alone o s (filemap_free_folio cur tm f) = Some (z, s') →
  wf s' ∧ increments s' = increments s ∧ (stamped s → stamped s').
Proof.
  intros Hwf. destruct (table s !! free_key tm f) as [c|] eqn:E.
  - rewrite (alone_free _ _ _ _ _ c) by done. intros [= <- <-].
    split; [by apply wf_unlink, (wf_same s)|]. split; [done|]. intros Hst.
    apply stamped_same with s; [done|by apply wf_unlink, (wf_same s)|done..|].
    intros k m. unfold entry. cbn. rewrite lookup_delete. by case_decide.
  - rewrite alone_free_absent by done. by intros [= <- <-].
Qed.

Lemma served_stamped s :
  served s → wf s ∧ (Z.of_nat (increments s) < 2 ^ 64 → stamped s).
Proof.
  induction 1 as [|s o ev z s' Hs [Hwf IH] Hev|s pid Hs [Hwf IH]].
  - split; [apply wf_init|]. intros _. by split; [apply wf_init|..].
  - unfold serve in Hev. assert (wf (with_begun ev s)) as Hwf1 by by apply (wf_same s).
    assert (stamped s → stamped (with_begun ev s)) as Hst1.
    { intros Hst. by apply stamped_same with s. }
    destruct ev as [cur f|cur tm f]; cbn [handler] in Hev.
    + apply increments_access in Hev as (Hwf' & Hle & Hst); [|done]. cbn in Hle.
      split; [done|]. intros Hmax. apply Hst; [apply Hst1, IH; lia|done].
    + apply increments_free in Hev as (Hwf' & Hle & Hst); [|done]. cbn in Hle.
      split; [done|]. intros Hmax. apply Hst, Hst1, IH. lia.
  - split; [by apply (wf_same s)|]. intros Hmax. apply stamped_same with s; try done; [by apply IH|].
    by apply (wf_same s).
Qed.

Fixpoint serve_all (evs : list (kevent * choice)) (s : memory) : option memory :=
  match evs with
  | [] => Some s
  | (ev, o) :: evs' => '(_, s') ← serve o ev s; serve_all evs' s'
  end.

Lemma serve_all_served evs : ∀ s s', served s → serve_all evs s = Some s' → served s'.
Proof.
  induction evs as [|[ev o] evs IH]; cbn; intros s s' Hs; [by intros [= <-]|].
  intros ([z s1] & H1 & Hall)%bind_Some. apply (IH s1); [|done]. by apply served_handler with s o ev z.
Qed.

(** ** Properties *)

(** C8. Without overlap the concurrent tracker is the sequential one: from a well-formed
    memory that holds what the maps hold, with all CPUs idle, every schedule in which the
    handlers run one after the other, on whatever CPUs, ends with all CPUs idle, in a
    well-formed memory that holds what the maps hold after the same run of [PageTracker];
    and there is such a schedule. *)
Theorem serial_runs_are_sequential {PM GM CM : Type}
    `{!BpfMap PM Z Z, !BpfMap GM page_key metric, !BpfMap CM Z Z}
    `{!BpfMapLaws GM page_key metric, !BpfMapLaws CM Z Z, !BpfMapPresent GM page_key metric}
    (evs : list (kevent * choice)) (s : memory) (ks : kstate PM GM CM) :
  wf s → represents s ks → same_answers evs s ks →
  (∃ mvs, serial evs mvs ∧ is_Some (play_all mvs (Config s ∅))) ∧
  ∀ mvs c, serial evs mvs → play_all mvs (Config s ∅) = Some c →
    running c = ∅ ∧ wf (mem c) ∧ represents (mem c) (run (fst <$> evs) ks).
Proof.
  revert s ks. induction evs as [|[ev o] evs IH]; intros s ks Hwf Hrep Hsame.
  - split; [exists []; split; [constructor|by eexists]|].
    intros mvs c Hm. inversion Hm; subst. by intros [= <-].
  - destruct Hsame as [Ho Hsame].
    destruct (serve_sequential o ev s ks Hwf Hrep Ho) as (s1 & Hs1 & Hwf1 & Hrep1).
    destruct (IH s1 _ Hwf1 Hrep1 (Hsame s1 Hs1)) as [(mvs & Hmvs & Hplay) Hall]. split.
    + destruct (serve_play o ev 0 s ∅ 0 s1 (lookup_empty _) Hs1) as [n Hn].
      exists (Enter 0 ev :: replicate n (Step 0 o) ++ Leave 0 :: mvs). split; [by constructor|].
      change (Enter 0 ev :: ?l ++ Leave 0 :: mvs) with ((Enter 0 ev :: l) ++ [Leave 0] ++ mvs).
      rewrite app_assoc, play_all_app. change ((Enter 0 ev :: ?l) ++ [Leave 0])
        with (Enter 0 ev :: l ++ [Leave 0]). by rewrite Hn.
    + intros mvs' c Hm Hp. inversion Hm as [|? ? ? i n mvs1 Hm1]; subst.
      apply play_serve in Hp as (z & s2 & Hs2 & Hp); [|done].
      rewrite Hs1 in Hs2. injection Hs2 as <- <-. by apply (Hall mvs1).
Qed.

Definition serial_maps : kstate (hmap Z Z) (hmap page_key metric) (amap Z) :=
  KState (HMap ∅ 10) (AMap [0]) (HMap {[ 42 := 1 ]} 120) [].
Definition serial_memory : memory := with_pids (union {[42]}) minit.
Definition serial_events : list (kevent * choice) :=
  let page := Folio 65536 1 4 in
  [(Accessed (Z.shiftl 42 32) page, Choice (Some 0%nat) None);
   (Accessed (Z.shiftl 42 32) page, Choice (Some 1%nat) None);
   (Freed (Z.shiftl 42 32) 65536 page, Choice None None)].

Lemma serial_runs_are_sequential_witness :
  (∃ mvs, serial serial_events mvs ∧ is_Some (play_all mvs (Config serial_memory ∅))) ∧
  ∀ mvs c, serial serial_events mvs → play_all mvs (Config serial_memory ∅) = Some c →
    running c = ∅ ∧ wf (mem c) ∧ represents (mem c) (run (fst <$> serial_events) serial_maps).
Proof.
  apply (serial_runs_are_sequential serial_events serial_memory serial_maps).
  - apply (wf_same minit); [apply wf_init|done..].
  - split; [done|done| |done]. intros pid. unfold tracked. cbn.
    apply bool_decide_ext. rewrite elem_of_union, elem_of_singleton.
    rewrite lookup_singleton_is_Some. split; [by left|]. intros [?|?%elem_of_empty]; done.
  - split.
    { intros _. split; [done|]. intros _. by eexists. }
    intros s1 Hs1. vm_compute in Hs1. injection Hs1 as <-. split.
    { intros Hn. by vm_compute in Hn. }
    intros s2 Hs2. vm_compute in Hs2. by injection Hs2 as <-.
Defined.

(** Two pages, one access each. *)
Definition serial_demo : memory :=
  default minit (serve_all
    [(Accessed (Z.shiftl 42 32) (Folio 65536 1 4), Choice (Some 0%nat) None);
     (Accessed (Z.shiftl 42 32) (Folio 65536 2 4), Choice (Some 1%nat) None)] serial_memory).

(** Without overlap the counter is exact: after handlers that ran one after the other,
    fewer than 2^64 of them counted, it is the number of increments, and no two pages have
    the same rank. *)
Theorem serial_counter_exact (s : memory) :
  served s → Z.of_nat (increments s) < 2 ^ 64 →
  counter s = Z.of_nat (increments s) ∧
  ∀ k1 k2 m1 m2, entry s k1 = Some m1 → entry s k2 = Some m2 → rank m1 = rank m2 → k1 = k2.
Proof. intros [_ Hs]%served_stamped Hmax. destruct (Hs Hmax). by split. Qed.

Lemma serial_counter_exact_witness :
  counter serial_demo = 2 ∧
  ∀ k1 k2 m1 m2, entry serial_demo k1 = Some m1 → entry serial_demo k2 = Some m2 →
    rank m1 = rank m2 → k1 = k2.
Proof.
  apply (serial_counter_exact serial_demo); [|by vm_compute].
  apply serve_all_served with [(Accessed (Z.shiftl 42 32) (Folio 65536 1 4), Choice (Some 0%nat) None);
      (Accessed (Z.shiftl 42 32) (Folio 65536 2 4), Choice (Some 1%nat) None)] serial_memory;
    [apply served_pid, served_init|by vm_compute].
Defined.
